(** * FlowCurveClustering: PCA_Cluster.cpp

    A shallow embedding of [src/KMeans/PCA_Cluster.cpp]: the threshold
    selection of [performSVD], the Lloyd iteration shared by
    [performPC_KMeans] and [performFullK_MeansByClusters], the balanced
    entropy, the rest of [performFullK_MeansByClusters] and of
    [performPC_KMeans], the average-linkage merger ([setValue],
    [hierarchicalMerging], [getDistAtNodes], [setLabel]) with the
    labelling of [perform_AHC], and [performPCA_Clustering], which
    chains them.

    Conventions.
    - A finite [float] is the rational number it stands for ([Q]).  The
      scalar [float] operations of the loop test of the k-means loops and
      of the entropy are rounded to single precision (module [Float32]:
      round to nearest, ties to even, with infinities and NaN; one
      rounding per operation, no fused multiply-add), and a [float]
      compared with a [double] constant is compared with the exact value
      of that constant.  [log2f] is the C library's: a parameter, with
      the values that the C standard fixes ([log2f(1) = 0],
      [log2f(0) = -inf]) written out.
    - Eigen's operations on vectors and matrices (sums, products, norms)
      are exact or parameters: their rounding is not modelled.  This
      covers the sums of squares that [performSVD] compares with its
      threshold, and the coordinate sums and means of the k-means rounds.
      The constants [FLT_MAX], [FLT_MIN] and [TOR_1] have the exact value
      of the [float].
    - [int] values are [Z]; positions in vectors are [nat].
    - Undefined behaviour (a read or write outside a vector, the use of a
      variable that was never assigned, a signed overflow) and failed
      [assert]s are explicit results of type [outcome].
    - OpenMP loops are run by one thread, in index order.  The assignment
      loop of a k-means round is also given with the order in which the
      critical section is entered as a parameter ([KMeans.assignment]).
      In the update loop [tempMoving], which the threads share, is read
      by the iteration that wrote it. *)

From Stdlib Require Import ZArith QArith Qabs Qminmax Qround Qpower Psatz Lia.
From stdpp Require Import base option list list_numbers gmap fin_maps sorting strings.

(* ===================================================================== *)
(** * Part I: the model                                                   *)
(* ===================================================================== *)

(** ** Results of running a piece of code *)

Inductive outcome (A : Type) : Type :=
| Done (a : A)
| UB
| AssertFail
| OutOfFuel.
Arguments Done {A} a.
Arguments UB {A}.
Arguments AssertFail {A}.
Arguments OutOfFuel {A}.

Definition obind {A B} (c : outcome A) (k : A → outcome B) : outcome B :=
  match c with
  | Done a => k a
  | UB => UB
  | AssertFail => AssertFail
  | OutOfFuel => OutOfFuel
  end.

Notation "'let*' x ':=' c 'in' k" := (obind c (fun x => k))
  (at level 10, x pattern, c at level 100, k at level 200, only parsing).

(** [for (x : xs) st = body(st, x)], stopping at the first abnormal result. *)
Fixpoint foldM {A S} (body : S → A → outcome S) (xs : list A) (st : S) : outcome S :=
  match xs with
  | [] => Done st
  | x :: xs' => let* st' := body st x in foldM body xs' st'
  end.

(** [v[i]] for a [std::vector] and an [int] index: outside the vector the
    read is undefined. *)
Definition vec_read {A} (v : list A) (i : Z) : outcome A :=
  if decide (i < 0)%Z then UB
  else match v !! Z.to_nat i with
       | Some x => Done x
       | None => UB
       end.

(** [v[i] = x]: outside the vector the write is undefined. *)
Definition vec_write {A} (v : list A) (i : nat) (x : A) : outcome (list A) :=
  if decide (i < length v) then Done (<[i := x]> v) else UB.

(** The lists are pairwise disjoint, without repetition, and together
    hold exactly the members of [universe]. *)
Definition partitions {A} (lists : list (list A)) (universe : list A) : Prop :=
  (∀ x, x ∈ universe ↔ ∃ l, l ∈ lists ∧ x ∈ l) ∧
  (∀ l, l ∈ lists → NoDup l) ∧
  (∀ i j l1 l2, i ≠ j → lists !! i = Some l1 → lists !! j = Some l2 →
                ∀ x, x ∈ l1 → x ∈ l2 → False).

(** ** Numbers *)

Module Num.

Definition FLT_MAX : Q := 340282346638528859811704183484516925440 # 1.
Definition FLT_MIN : Q := 1 # (2 ^ 126).
Definition INT_MAX : Z := 2147483647.

Definition Qltb (x y : Q) : bool :=
  match Qcompare x y with Lt => true | _ => false end.

(** [a * b] on [int]: the product must fit, a signed overflow is undefined. *)
Definition int_mul (a b : Z) : outcome Z :=
  if decide (- INT_MAX - 1 ≤ a * b ≤ INT_MAX)%Z then Done (a * b)%Z else UB.

(** A dense matrix as the list of its rows. *)
Abbreviation Matrix := (list (list Q)).

(** [M(i,j)].  Eigen leaves a coefficient outside the matrix undefined;
    the model reads 0 there. *)
Definition coeff (M : Matrix) (i j : Z) : Q :=
  if decide (0 ≤ i ∧ 0 ≤ j)%Z
  then nth (Z.to_nat j) (nth (Z.to_nat i) M []) 0%Q
  else 0%Q.

Definition rows (M : Matrix) : Z := Z.of_nat (length M).

End Num.
Import Num.

(** ** Single-precision arithmetic *)

Module Float32.

(** A [float]: a rational number, an infinity, or not a number.  Zeros
    carry no sign; a zero divisor counts as [+0], which is what the zero
    divisors met in this file are (a norm, [log2f(1)]). *)
Inductive fval : Type := Fin (q : Q) | Inf (negative : bool) | NaN.

(** The integer nearest to [q]; of two that are equally near, the even
    one. *)
Definition ties_even (q : Q) : Z :=
  let f := Qfloor q in
  match Qcompare (q - inject_Z f) (1 # 2) with
  | Lt => f
  | Gt => (f + 1)%Z
  | Eq => if Z.even f then f else (f + 1)%Z
  end.

(** [floor(log2(q))] for [q > 0]. *)
Definition ilog2 (q : Q) : Z :=
  let e := (Z.log2 (Qnum q) - Z.log2 (Zpos (Qden q)))%Z in
  if Qle_bool (2 ^ e) q then e else (e - 1)%Z.

(** The exponent of the last bit of the floats next to [a > 0]: 24
    bits of precision, and [2^-149] the least positive float. *)
Definition quantum (a : Q) : Z := Z.max (ilog2 a - 23) (-149).

(** The multiple of [2 ^ quantum a] nearest to [a > 0]. *)
Definition magnitude (a : Q) : Q :=
  inject_Z (ties_even (a / 2 ^ quantum a)) * 2 ^ quantum a.

(** Rounding to the nearest [float], ties to even; what rounds beyond
    [FLT_MAX] is an infinity. *)
Definition fround (q : Q) : fval :=
  let a := Qabs q in
  if Qeq_bool a 0 then Fin 0 else
  let r := Qred (magnitude a) in
  if Qltb FLT_MAX r then Inf (Qltb q 0)
  else Fin (if Qltb q 0 then Qred (- r) else r).

(** [float(n)] for an [int]. *)
Definition of_int (n : Z) : fval := fround (inject_Z n).
Definition of_nat (n : nat) : fval := of_int (Z.of_nat n).

Definition fneg (x : fval) : fval :=
  match x with
  | Fin a => Fin (- a)
  | Inf s => Inf (negb s)
  | NaN => NaN
  end.

Definition fabs (x : fval) : fval :=
  match x with
  | Fin a => Fin (Qabs a)
  | Inf _ => Inf false
  | NaN => NaN
  end.

Definition fadd (x y : fval) : fval :=
  match x, y with
  | NaN, _ | _, NaN => NaN
  | Fin a, Fin b => fround (a + b)
  | Inf s, Fin _ | Fin _, Inf s => Inf s
  | Inf s, Inf s' => if Bool.eqb s s' then Inf s else NaN
  end.

Definition fsub (x y : fval) : fval := fadd x (fneg y).

Definition fmul (x y : fval) : fval :=
  match x, y with
  | NaN, _ | _, NaN => NaN
  | Fin a, Fin b => fround (a * b)
  | Inf s, Fin b | Fin b, Inf s =>
      if Qeq_bool b 0 then NaN else Inf (xorb s (Qltb b 0))
  | Inf s, Inf s' => Inf (xorb s s')
  end.

Definition fdiv (x y : fval) : fval :=
  match x, y with
  | NaN, _ | _, NaN => NaN
  | Fin a, Fin b =>
      if Qeq_bool b 0
      then (if Qeq_bool a 0 then NaN else Inf (Qltb a 0))
      else fround (a / b)
  | Fin _, Inf _ => Fin 0
  | Inf s, Fin b => Inf (xorb s (Qltb b 0))
  | Inf _, Inf _ => NaN
  end.

(** [x >= c] for a [float] [x] and a [double] constant of value [c]. *)
Definition fge (x : fval) (c : Q) : bool :=
  match x with
  | Fin a => Qle_bool c a
  | Inf s => negb s
  | NaN => false
  end.

(** What makes [x >= c] false: [x] is a number below [c], or [-inf], or
    not a number. *)
Definition below (x : fval) (c : Q) : Prop :=
  match x with
  | Fin a => (a < c)%Q
  | Inf s => s = true
  | NaN => True
  end.

(** [B] is a positive float: [B = m * 2^j] with less than 24 bits in [m]
    and [j] not below the least exponent. *)
Definition representable (B : Q) (m j : Z) : Prop :=
  (B == inject_Z m * 2 ^ j)%Q ∧ (0 < m < 2 ^ 24)%Z ∧ (-149 ≤ j)%Z.

End Float32.

(** ** Row vectors *)

Definition Qsum (l : list Q) : Q := fold_right Qplus 0%Q l.
Definition vadd (a b : list Q) : list Q := zip_with Qplus a b.
Definition vsub (a b : list Q) : list Q := zip_with Qminus a b.
Definition vdiv (a : list Q) (n : nat) : list Q :=
  (fun x => x / inject_Z (Z.of_nat n))%Q <$> a.
Definition dot (a b : list Q) : Q := Qsum (zip_with Qmult a b).
Definition squaredNorm (a : list Q) : Q := dot a a.
Definition row (M : Matrix) (i : nat) : list Q := nth i M [].
Definition col (M : Matrix) (i : nat) : list Q := (fun r => nth i r 0%Q) <$> M.
Definition ncols (M : Matrix) : nat := length (row M 0).

(** ** [performSVD]: centring and the choice of [PC_Number] *)

Module SVD.

(** [const float& TOR_1 = 0.999]: the [float] nearest to 0.999, which is
    0.999000012874603271484375. *)
Definition TOR_1 : Q := 16760439 # 16777216.

Definition mean (l : list Q) : Q := (Qsum l / inject_Z (Z.of_nat (length l)))%Q.

(** [meanTrajectory(i) = temp.transpose().row(i).mean()]. *)
Definition meanTrajectory (data : Matrix) (Column : nat) : list Q :=
  (fun i => mean (col data i)) <$> seq 0 Column.

(** [temp.row(i) = temp.row(i) - meanTrajectory.transpose()]. *)
Definition centred (data : Matrix) (Column : nat) : Matrix :=
  (fun r => vsub r (meanTrajectory data Column)) <$> data.

(** [temp * SingVec]. *)
Definition matmul (A B : Matrix) : Matrix :=
  (fun r => (fun c => dot r (col B c)) <$> seq 0 (ncols B)) <$> A.

(** [coefficient.squaredNorm()]: the sum over all entries. *)
Definition matSquaredNorm (M : Matrix) : Q := Qsum (squaredNorm <$> M).

(** The loop [for (i = 0; i < Column; ++i)] from counter [i] on, with [n]
    rounds left; [PC_Number] is the variable of the caller, written only
    on the [break].  The running sum [tempSum] and the threshold are the
    exact sum and product: the code rounds each to [float]. *)
Fixpoint select_from (n i : nat) (coefficient : Matrix) (threshold tempSum : Q)
    (PC_Number : Z) : outcome Z :=
  match n with
  | O => Done PC_Number
  | S n' =>
      if decide (i < ncols coefficient) then
        let tempSum' := (tempSum + squaredNorm (col coefficient i))%Q in
        if Qltb threshold tempSum' then Done (Z.of_nat i)
        else select_from n' (S i) coefficient threshold tempSum' PC_Number
      else UB
  end.

Record Reduced : Type := mkReduced { cArray : Matrix; PC_Number : Z }.

(** [performSVD], given the matrix [SingVec] that the decomposition
    returned.  [PC_Number0] is what the caller's variable holds on entry
    (the callers declare it without a value).  [cArray] takes the first
    [PC_Number] columns of the coefficients; a count that is negative or
    larger than the number of columns makes that copy undefined. *)
Definition performSVD (data : Matrix) (Column : nat) (SingVec : Matrix)
    (PC_Number0 : Z) : outcome Reduced :=
  let temp := centred data Column in
  let coefficient := matmul temp SingVec in
  let varianceSummation := matSquaredNorm coefficient in
  let threshold := (TOR_1 * varianceSummation)%Q in
  let* pc := select_from Column 0 coefficient threshold 0%Q PC_Number0 in
  if decide (0 ≤ pc ≤ Z.of_nat (ncols coefficient))%Z
  then Done (mkReduced (take (Z.to_nat pc) <$> coefficient) pc)
  else UB.

(** The energy of the first [k] ranked directions. *)
Definition cumulative_energy (coefficient : Matrix) (k : nat) : Q :=
  Qsum ((fun i => squaredNorm (col coefficient i)) <$> seq 0 k).

End SVD.

(** ** The Lloyd iteration of the two k-means engines *)

Module KMeans.
Import Float32.

(** What one round leaves behind. *)
Record Round : Type := mkRound
  { storage : list nat;
    neighborVec : list (list nat);
    recorder : list nat;
    centerTemp : Matrix }.

Record KState : Type := mkKState
  { clusterCenter : Matrix;
    moving : Q;
    tag : nat;
    last : Round;
    log : list Q  (* the values of [moving] printed so far, oldest first *) }.

Section Engine.
(** [norm] is Eigen's [.norm()] (a square root); [dist c i] is the
    distance from the centre [c] to point [i]. *)
Variable norm : list Q → Q.
Variable dist : list Q → nat → Q.

(** The scan over the centres for point [i], from centre [j] on.
    [clusTemp] has no value until some centre is closer than [FLT_MAX]. *)
Fixpoint nearest_from (j : nat) (centres : Matrix) (i : nat) (best : Q)
    (clusTemp : option nat) : Q * option nat :=
  match centres with
  | [] => (best, clusTemp)
  | c :: cs =>
      if Qltb (dist c i) best
      then nearest_from (S j) cs i (dist c i) (Some j)
      else nearest_from (S j) cs i best clusTemp
  end.

(** Point [i]: find the nearest centre, then the critical section. *)
Definition assign (points centres : Matrix) (r : Round) (i : nat) : outcome Round :=
  match (nearest_from 0 centres i FLT_MAX None).2 with
  | None => UB
  | Some c =>
      Done (mkRound (alter S c (storage r))
                    (alter (fun l => l ++ [i]) c (neighborVec r))
                    (<[i := c]> (recorder r))
                    (alter (fun v => vadd v (row points i)) c (centerTemp r)))
  end.

(** Cluster [i] of the update loop. *)
Definition update (r : Round) (st : Matrix * Q) (i : nat) : Matrix * Q :=
  if decide (0 < nth i (storage r) 0)%nat then
    let new := vdiv (row (centerTemp r) i) (nth i (storage r) 0%nat) in
    let tempMoving := norm (vsub new (row st.1 i)) in
    (<[i := new]> st.1, if Qltb st.2 tempMoving then tempMoving else st.2)
  else st.

(** The constants [1.0e-2] and [0.01] are [double]s: the value of the
    [double] nearest to 1/100, which is a little above it. *)
Definition double_0_01 : Q := 5764607523034235 # 576460752303423488.

(** [abs(moving-before)/before] on [float]s: the difference and the
    quotient are each rounded. *)
Definition relative_change (before moving : Q) : fval :=
  fdiv (fabs (fsub (Fin moving) (Fin before))) (Fin before).

(** The loop test
    [abs(moving-before)/before >= 1.0e-2 && tag < 20 && moving > 0.01]:
    each [float] is converted to [double], which changes no value, and
    compared with the [double] constant. *)
Definition continue (before moving : Q) (tag : nat) : bool :=
  fge (relative_change before moving) double_0_01
  && bool_decide (tag < 20)%nat
  && Qltb double_0_01 moving.

(** The assignment loop of one round, after [storage], [neighborVec] and
    [centerTemp] have been reset.  [order] lists the curves in the order
    in which the threads enter the critical section; [rec] is [recorder]
    as the round before left it. *)
Definition assignment (order : list nat) (points centres : Matrix) (D : nat)
    (rec : list nat) : outcome Round :=
  let Cluster := length centres in
  foldM (assign points centres) order
        (mkRound (replicate Cluster 0%nat) (replicate Cluster []) rec
                 (replicate Cluster (replicate D 0%Q))).

(** One pass through the body of the [do ... while], with the curves
    taken in index order.  [Cluster] is the number of rows of
    [clusterCenter], which the seed generators return as a [Cluster] by
    [D] matrix. *)
Definition lloyd_round (points : Matrix) (D : nat) (st : KState) : outcome KState :=
  let Cluster := length (clusterCenter st) in
  let* r := assignment (seq 0 (length points)) points (clusterCenter st) D
                       (recorder (last st)) in
  let cm := foldl (update r) (clusterCenter st, FLT_MIN) (seq 0 Cluster) in
  Done (mkKState cm.1 cm.2 (S (tag st)) r (log st ++ [cm.2])).

Fixpoint kmeans_loop (fuel : nat) (points : Matrix) (D : nat) (st : KState)
  : outcome KState :=
  match fuel with
  | O => OutOfFuel
  | S fuel' =>
      let before := moving st in
      let* st' := lloyd_round points D st in
      if continue before (moving st') (tag st')
      then kmeans_loop fuel' points D st'
      else Done st'
  end.

(** The state before the loop: [moving = 1000], [tag = 0],
    [recorder(Row)]. *)
Definition kmeans_start (points seeds : Matrix) : KState :=
  mkKState seeds 1000%Q 0
           (mkRound [] [] (replicate (length points) 0%nat) []) [].

Definition kmeans (fuel : nat) (points : Matrix) (D : nat) (seeds : Matrix)
  : outcome KState :=
  kmeans_loop fuel points D (kmeans_start points seeds).

End Engine.

(** The loop of [performPC_KMeans] (reduced coordinates, Euclidean
    distance) and that of [performFullK_MeansByClusters] (raw
    coordinates, [getDisimilarity] of the metric collaborator).  The two
    loops differ in the distance only. *)
Definition performPC_KMeans_loop (norm : list Q → Q) (fuel : nat)
    (cArray : Matrix) (PC_Number : nat) (seeds : Matrix) : outcome KState :=
  kmeans norm (fun c i => norm (vsub (row cArray i) c)) fuel cArray PC_Number seeds.

Definition performFullK_Means_loop (norm : list Q → Q)
    (getDisimilarity : list Q → Matrix → nat → Z → Q) (fuel : nat)
    (data : Matrix) (Column : nat) (normOption : Z) (seeds : Matrix)
  : outcome KState :=
  kmeans norm (fun c i => getDisimilarity c data i normOption) fuel data Column seeds.

(** The three reasons to leave the loop, for round [t] with displacement
    [m] after a round with displacement [b]: the relative change, as the
    code computes it, is below 0.01 (or not a number); the round count
    has reached 20; the displacement is at most 0.01. *)
Definition trigger (b m : Q) (t : nat) : Prop :=
  below (relative_change b m) double_0_01 ∨ (20 ≤ t)%nat ∨ (m <= double_0_01)%Q.

(** The same three reasons in exact arithmetic, as the specification
    words them. *)
Definition trigger_exact (b m : Q) (t : nat) : Prop :=
  (Qabs (m - b) / b < 1 # 100)%Q ∨ (20 ≤ t)%nat ∨ (m <= 1 # 100)%Q.

(** Rounds are counted from 1.  [before_of log t] is the value of
    [before] in round [t]: 1000 in the first round, the previous
    displacement afterwards. *)
Definition before_of (log : list Q) (t : nat) : Q :=
  match t with
  | S (S k) => nth k log 0%Q
  | _ => 1000%Q
  end.

Definition moving_of (log : list Q) (t : nat) : Q := nth (t - 1) log 0%Q.

(** The run took [tag st] rounds, between 1 and 20; no round before the
    last met a trigger and the last one did. *)
Definition stops_at_first_trigger (st : KState) : Prop :=
  (1 ≤ tag st ≤ 20)%nat ∧
  length (log st) = tag st ∧
  (∀ t, (1 ≤ t < tag st)%nat →
        ¬ trigger (before_of (log st) t) (moving_of (log st) t) t) ∧
  trigger (before_of (log st) (tag st)) (moving_of (log st) (tag st)) (tag st).

(** The state of the loop between two rounds. *)
Definition between (st : KState) : Prop :=
  length (log st) = tag st ∧
  moving st = before_of (log st) (S (tag st)) ∧
  ∀ t, (1 ≤ t ≤ tag st)%nat →
       ¬ trigger (before_of (log st) t) (moving_of (log st) t) t.

(** What the assignment loop keeps true of the round so far. *)
Definition counted (K : nat) (r : Round) : Prop :=
  length (storage r) = K ∧ length (neighborVec r) = K ∧
  ∀ c, nth c (storage r) 0%nat = length (nth c (neighborVec r) []).

End KMeans.

(** ** Balanced entropy *)

Module Entropy.
Import Float32.

Definition nonZero (storage : list nat) : nat :=
  length (filter (fun s => 0 < s)%nat storage).

Section Entropy.
(** [log2f] of the C library at the positive floats other than 1: it
    takes a float to a float. *)
Variable log2f_lib : Q → Q.

(** [log2f(x)].  The C standard fixes [log2f(0) = -inf] and
    [log2f(1) = +0]; below 0 the result is not a number. *)
Definition log2f (x : fval) : fval :=
  match x with
  | Fin a =>
      if Qeq_bool a 0 then Inf true
      else if Qltb a 0 then NaN
      else if Qeq_bool a 1 then Fin 0
      else Fin (log2f_lib a)
  | Inf false => Inf false
  | Inf true => NaN
  | NaN => NaN
  end.

(** [probability = float(storage[i])/float(Row)]. *)
Definition probability (s Row : nat) : fval := fdiv (of_nat s) (of_nat Row).

(** The accumulation [entropy += probability*log2f(probability)] over
    the clusters with [storage[i] > 0], from [entropy = 0.0]. *)
Definition entropy_sum (storage : list nat) (Row : nat) : fval :=
  foldl (fun e s =>
           if decide (0 < s)%nat
           then fadd e (fmul (probability s Row) (log2f (probability s Row)))
           else e)
        (Fin 0) storage.

(** [entropy = -entropy/log2f(nonZero)]; the count is converted to
    [float]. *)
Definition balanced_entropy (storage : list nat) (Row : nat) : fval :=
  fdiv (fneg (entropy_sum storage Row)) (log2f (of_nat (nonZero storage))).

End Entropy.
End Entropy.

(** ** The rest of [performFullK_MeansByClusters] *)

Module Tail.
Import KMeans.

(** Calls to the collaborators and to the file system.  [TrPush s] is
    one entry appended to the time record ([tr.eventList] with its
    [tr.timeList] partner).  Lines printed to the console are not part of
    the trace. *)
Inductive event : Type :=
| DeleteDistanceMatrix
| OpenDistFile (normOption : Z)
| GetDistanceMatrix (normOption : Z)
| WriteDistFile (normOption : Z)
| ReadDistFile (normOption : Z)
| SilhouetteCompute (group : list nat) (groupNo : nat)
| ValidityCompute (group : list nat)
| TrPush (eventList : string)
| WriteReadme (entropy : Float32.fval).

Record Result : Type := mkResult
  { group : list nat;
    totalNum : list nat;
    closest : list (nat * nat);
    furthest : list (nat * nat);
    massCenter : list (list Q * nat);
    groupNo : nat }.

(** [groupMap.insert(pair(k, v))] on a [std::multimap]: behind every
    entry whose key is not larger. *)
Fixpoint multimap_insert (k v : nat) (m : list (nat * nat)) : list (nat * nat) :=
  match m with
  | [] => [(k, v)]
  | (k', v') :: m' =>
      if decide (k' ≤ k)%nat then (k', v') :: multimap_insert k v m'
      else (k, v) :: m
  end.

Definition groupMap (storage : list nat) : list (nat * nat) :=
  foldl (fun m i => multimap_insert (nth i storage 0%nat) i m) []
        (seq 0 (length storage)).

(** [increasingOrder]: an array without initial values, written for the
    clusters with members, in the order of [groupMap]. *)
Definition number_groups (gm : list (nat * nat)) (Cluster : nat)
  : list (option nat) * nat :=
  foldl (fun '(io, groupNo) '(k, v) =>
           if decide (0 < k)%nat then (<[v := Some groupNo]> io, S groupNo)
           else (io, groupNo))
        (replicate Cluster None, 0%nat) gm.

Section Tail.
Variable dist : list Q → nat → Q.
(** [log2f] of the C library. *)
Variable log2f_lib : Q → Q.

(** The scan of one membership list for the member closest to and the
    member furthest from the centre. *)
Definition extremes (centre : list Q) (members : list nat)
    (shortestIndex furthestIndex : nat) : nat * nat :=
  let r :=
    foldl (fun '(shortest, farDist, si, fi) tempIndex =>
             let toCenter := dist centre tempIndex in
             let '(shortest', si') :=
               if Qltb toCenter shortest then (toCenter, tempIndex) else (shortest, si) in
             let '(farDist', fi') :=
               if Qltb farDist toCenter then (toCenter, tempIndex) else (farDist, fi) in
             (shortest', farDist', si', fi'))
          (FLT_MAX, FLT_MIN, shortestIndex, furthestIndex) members in
  (r.1.2, r.2).

(** An element of an array that may never have been written. *)
Definition read_init (io : list (option nat)) (i : nat) : outcome nat :=
  match io !! i with
  | Some (Some g) => Done g
  | _ => UB
  end.

(** The representatives of all clusters with members: the entries
    appended to [closest] and [furthest]. *)
Definition representatives (st : KState) (io : list (option nat))
  : outcome (list (nat * nat) * list (nat * nat)) :=
  let* r :=
    foldM (fun '(cl, fu, si, fi) i =>
             if decide (0 < nth i (storage (last st)) 0)%nat then
               let members := take (nth i (storage (last st)) 0%nat)
                                   (nth i (neighborVec (last st)) []) in
               let '(si', fi') := extremes (row (clusterCenter st) i) members si fi in
               let* g := read_init io i in
               Done (cl ++ [(si', g)], fu ++ [(fi', g)], si', fi')
             else Done (cl, fu, si, fi))
          (seq 0 (length (clusterCenter st))) ([], [], 0%nat, 0%nat) in
  Done (r.1.1.1, r.1.1.2).

(** The entries appended to [massCenter]. *)
Definition mean_lines (st : KState) (io : list (option nat)) (Column : nat)
  : outcome (list (list Q * nat)) :=
  foldM (fun mc i =>
           if decide (0 < nth i (storage (last st)) 0)%nat then
             let* g := read_init io i in
             Done (mc ++ [((fun j => nth j (row (clusterCenter st) i) 0%Q) <$> seq 0 Column, g)])
           else Done mc)
        (seq 0 (length (clusterCenter st))) [].

(** What follows [if (groupNo <= 1) return;].  [isPBF] is the global
    switch, [cached] tells whether the distance file can be opened. *)
Definition evaluate (isPBF cached : bool) (normOption : Z) (grp : list nat)
    (gNo : nat) (entropy : Float32.fval) : list event :=
  (if isPBF then []
   else DeleteDistanceMatrix :: OpenDistFile normOption ::
        (if cached then [ReadDistFile normOption]
         else [GetDistanceMatrix normOption; WriteDistFile normOption]))
  ++ [SilhouetteCompute grp gNo;
      TrPush "For norm "; TrPush "Clustering evaluation computing takes: ";
      ValidityCompute grp;
      TrPush "kmeans Validity measure is: ";
      WriteReadme entropy].

(** [performFullK_MeansByClusters] from the end of the loop on: the
    results and the calls made, in order. *)
Definition finish (isPBF cached : bool) (normOption : Z) (Row Column : nat)
    (st : KState) : outcome (Result * list event) :=
  let sto := storage (last st) in
  let entropy := Entropy.balanced_entropy log2f_lib sto Row in
  let '(io, gNo) := number_groups (groupMap sto) (length (clusterCenter st)) in
  let* grp := foldM (fun g i =>
                       let* x := read_init io (nth i (recorder (last st)) 0%nat) in
                       Done (g ++ [x]))
                    (seq 0 Row) [] in
  let tot := (fun i => nth (nth i (recorder (last st)) 0%nat) sto 0%nat) <$> seq 0 Row in
  let* reps := representatives st io in
  let* mc := mean_lines st io Column in
  let res := mkResult grp tot reps.1 reps.2 mc gNo in
  if decide (gNo ≤ 1)%nat then Done (res, [])
  else Done (res, evaluate isPBF cached normOption grp gNo entropy).

End Tail.

(** [performFullK_MeansByClusters]: the loop, then the rest.  [Row] is
    the number of rows of [data]; [log2f_lib] is [log2f] of the C library;
    [fuel] bounds the number of rounds of the model of the loop. *)
Definition performFullK_MeansByClusters (norm : list Q → Q)
    (getDisimilarity : list Q → Matrix → nat → Z → Q) (log2f_lib : Q → Q)
    (isPBF cached : bool)
    (fuel : nat) (data : Matrix) (Column : nat) (normOption : Z) (seeds : Matrix)
  : outcome (Result * list event) :=
  let* st := performFullK_Means_loop norm getDisimilarity fuel data Column normOption seeds in
  finish (fun c i => getDisimilarity c data i normOption) log2f_lib isPBF cached normOption
         (length data) Column st.

End Tail.

(** ** Agglomerative merging (average linkage) *)

Module AHC.

Record DistNode : Type := mkDistNode { first : Z; second : Z; distance : Q }.
Record AHC_node : Type := mkNode { index : Z; element : list Z }.

(** The (first, second) ids of a candidate pair. *)
Definition ids (d : DistNode) : Z * Z := (first d, second d).

(** [getDistAtNodes]: only the sizes of the two lists are used; the
    matrix is read at the loop counters. *)
Definition getDistAtNodes (firstList secondList : list Z) (M : Matrix) : outcome Q :=
  let m := Z.of_nat (length firstList) in
  let n := Z.of_nat (length secondList) in
  if decide (m = 0)%Z then AssertFail
  else if decide (n = 0)%Z then AssertFail
  else
    let result :=
      foldl (fun r i => foldl (fun r' j => (r' + coeff M i j)%Q) r (seqZ 0 n))
            0%Q (seqZ 0 m) in
    Done (result / inject_Z (m * n))%Q.

(** The linkage that the documentation describes: the mean of the
    original distances over all pairs of members. *)
Definition mean_linkage (A B : list Z) (M : Matrix) : Q :=
  (foldl (fun r a => foldl (fun r' b => (r' + coeff M a b)%Q) r B) 0%Q A
   / inject_Z (Z.of_nat (length A) * Z.of_nat (length B)))%Q.

(** *** Things the source leaves open

    [dflt] is the value of a default-constructed [DistNode] and
    [dflt_index] the [index] of a default-constructed [AHC_node]
    (both constructors live in the header); [order] is the order in which
    a [std::unordered_map] hands out its entries, which the language
    leaves unspecified. *)

Section Merger.
Variable dflt : DistNode.
Variable dflt_index : Z.
Variable order : gmap Z AHC_node → list (Z * AHC_node).

(** [setValue]: all pairs [i < j], written one after the other. *)
Definition setValue (reduced_data reduced_dist_matrix : Matrix) : outcome (list DistNode) :=
  let Row := rows reduced_data in
  let* p := int_mul Row (Row - 1) in
  let dNodeVec0 := replicate (Z.to_nat (Z.quot p 2)) dflt in
  let* filled :=
    foldM (fun st i =>
             foldM (fun '(v, tag) j =>
                      let* v' := vec_write v tag
                                   (mkDistNode i j (coeff reduced_dist_matrix i j)) in
                      Done (v', S tag))
                   (seqZ (i + 1) (Row - (i + 1))) st)
          (seqZ 0 (Row - 1)) (dNodeVec0, 0%nat) in
  let '(dNodeVec, tag) := filled in
  if decide (tag = length dNodeVec) then Done dNodeVec else AssertFail.

(** [nodeMap[k]]: a missing key is first inserted with a default node. *)
Definition map_at (m : gmap Z AHC_node) (k : Z) : gmap Z AHC_node * AHC_node :=
  match m !! k with
  | Some nd => (m, nd)
  | None => (<[k := mkNode dflt_index []]> m, mkNode dflt_index [])
  end.

(** [nodeMap.insert(make_pair(k, nd))]: an existing key is kept. *)
Definition map_emplace (m : gmap Z AHC_node) (k : Z) (nd : AHC_node) : gmap Z AHC_node :=
  match m !! k with
  | Some _ => m
  | None => <[k := nd]> m
  end.

(** [for i < Row: nodeMap[i].element.push_back(i)]. *)
Definition init_nodes (nodeMap : gmap Z AHC_node) (Row : Z) : gmap Z AHC_node :=
  foldl (fun m i =>
           let '(m', nd) := map_at m i in
           <[i := mkNode (index nd) (element nd ++ [i])]> m')
        nodeMap (seqZ 0 Row).

(** The linear scan for the smallest distance, from position [i] on. *)
Fixpoint scan_from (i : nat) (v : list DistNode) (target : Z) (minDist : Q) : Z * Q :=
  match v with
  | [] => (target, minDist)
  | d :: v' =>
      if Qltb (distance d) minDist
      then scan_from (S i) v' (Z.of_nat i) (distance d)
      else scan_from (S i) v' target minDist
  end.

(** The variables of one rebuild of the candidate vector. *)
Record scan : Type := mkScan
  { tempVec : list DistNode; current : nat; target : Z; minDist : Q }.

(** [tempVec[current] = d; if (d.distance < minDist) ...; ++current]. *)
Definition put (s : scan) (d : DistNode) : outcome scan :=
  let* tv := vec_write (tempVec s) (current s) d in
  if Qltb (distance d) (minDist s)
  then Done (mkScan tv (S (current s)) (Z.of_nat (current s)) (distance d))
  else Done (mkScan tv (S (current s)) (target s) (minDist s)).

(** The test that a candidate pair touches neither merged node. *)
Definition unrelated (poped d : DistNode) : Prop :=
  first d ≠ first poped ∧ first d ≠ second poped
  ∧ second d ≠ first poped ∧ second d ≠ second poped.

Global Instance unrelated_dec poped d : Decision (unrelated poped d).
Proof. unfold unrelated. apply _. Defined.

Definition copy_pair (poped : DistNode) (s : scan) (d : DistNode) : outcome scan :=
  if decide (unrelated poped d) then put s d else Done s.

Definition link_pair (M : Matrix) (newNode : AHC_node) (s : scan)
    (kv : Z * AHC_node) : outcome scan :=
  if decide (kv.1 = index newNode) then Done s
  else if decide (current s < length (tempVec s)) then
    let* d := getDistAtNodes (element newNode) (element kv.2) M in
    put s (mkDistNode kv.1 (index newNode) d)
  else UB.

Record MergeState : Type := mkMergeState
  { st_nodeMap : gmap Z AHC_node;
    st_dNodeVec : list DistNode;
    st_poped : DistNode;
    st_index : Z }.

(** The node map after the two merged nodes are replaced by the new one. *)
Definition merged_map (st : MergeState) : gmap Z AHC_node * AHC_node :=
  let pp := st_poped st in
  let '(m1, n1) := map_at (st_nodeMap st) (first pp) in
  let '(m2, n2) := map_at m1 (second pp) in
  let newNode := mkNode (st_index st) (element n1 ++ element n2) in
  let m3 := map_emplace m2 (st_index st) newNode in
  (delete (second pp) (delete (first pp) m3), newNode).

(** The body of the [do ... while] loop of [hierarchicalMerging]. *)
Definition merge_body (M : Matrix) (st : MergeState) : outcome MergeState :=
  let '(m4, newNode) := merged_map st in
  let currentNumber := Z.of_nat (size m4) in
  let* p := int_mul currentNumber (currentNumber - 1) in
  let s0 := mkScan (replicate (Z.to_nat (Z.quot p 2)) dflt) 0 (-1) FLT_MAX in
  let* s1 := foldM (copy_pair (st_poped st)) (st_dNodeVec st) s0 in
  let* s2 := foldM (link_pair M newNode) (order m4) s1 in
  let* poped' := vec_read (tempVec s2) (target s2) in
  if decide (current s2 = length (tempVec s2))
  then Done (mkMergeState m4 (tempVec s2) poped' (st_index st + 1))
  else AssertFail.

(** [do body while (nodeMap.size() != numberOfClusters)]. *)
Fixpoint merge_loop (fuel : nat) (M : Matrix) (numberOfClusters : Z)
    (st : MergeState) : outcome MergeState :=
  match fuel with
  | O => OutOfFuel
  | S fuel' =>
      let* st' := merge_body M st in
      if decide (Z.of_nat (size (st_nodeMap st')) = numberOfClusters)
      then Done st'
      else merge_loop fuel' M numberOfClusters st'
  end.

(** The comparison handed to [std::sort]; nodes that compare equal (same
    size, same index) may come out in either order. *)
Definition node_lt (e1 e2 : AHC_node) : Prop :=
  (length (element e1) < length (element e2))%nat
  ∨ (length (element e1) = length (element e2) ∧ (index e1 < index e2)%Z).

Global Instance node_lt_dec e1 e2 : Decision (node_lt e1 e2).
Proof. unfold node_lt. apply _. Defined.

(** The state in which the loop of [hierarchicalMerging] is entered. *)
Definition merge_start (nodeMap : gmap Z AHC_node) (dNodeVec : list DistNode)
    (cArray : Matrix) : outcome MergeState :=
  let Row := rows cArray in
  let nodeMap' := init_nodes nodeMap Row in
  let* poped := vec_read dNodeVec (scan_from 0 dNodeVec (-1) FLT_MAX).1 in
  Done (mkMergeState nodeMap' dNodeVec poped Row).

Definition hierarchicalMerging (fuel : nat) (nodeMap : gmap Z AHC_node)
    (dNodeVec : list DistNode) (reduced_dist_matrix cArray : Matrix)
    (numberOfClusters : Z) : outcome (list AHC_node) :=
  let* st0 := merge_start nodeMap dNodeVec cArray in
  let* st := merge_loop fuel reduced_dist_matrix numberOfClusters st0 in
  Done (merge_sort node_lt ((order (st_nodeMap st)).*2)).

(** [setLabel], without the centroid sums: the membership lists, the
    sizes and the group of every curve. *)
Definition setLabel (nodeVec : list AHC_node)
    (neighborVec : list (list Z)) (storage : list Z) (recorder : list Z)
  : outcome (list (list Z) * list Z * list Z) :=
  let* labelled :=
    foldM (fun '(nv, sto, rec, groupID) nd =>
             let* nv' := vec_write nv groupID (element nd) in
             let* rec' := foldM (fun r e =>
                                   if decide (0 ≤ e)%Z
                                   then vec_write r (Z.to_nat e) (Z.of_nat groupID)
                                   else UB)
                                (element nd) rec in
             let* sto' := vec_write sto groupID (Z.of_nat (length (element nd))) in
             Done (nv', sto', rec', S groupID))
          nodeVec (neighborVec, storage, recorder, 0%nat) in
  Done labelled.1.

(** The distance matrix that [perform_AHC] computes from the reduced
    coordinates; [norm] is Eigen's [.norm()]. *)
Definition reduced_dist_matrix (norm : list Q → Q) (cArray : Matrix) : Matrix :=
  (fun i => (fun j => if decide (i = j) then 0%Q
                      else norm (vsub (row cArray i) (row cArray j)))
              <$> seq 0 (length cArray))
    <$> seq 0 (length cArray).

(** [perform_AHC] up to the membership lists, the sizes and the group of
    every curve. *)
Definition perform_AHC_groups (norm : list Q → Q) (fuel : nat) (cArray : Matrix)
    (Cluster : Z) : outcome (list (list Z) * list Z * list Z) :=
  let Row := rows cArray in
  let M := reduced_dist_matrix norm cArray in
  let* dNodeVec := setValue cArray M in
  let* nodeVec := hierarchicalMerging fuel ∅ dNodeVec M cArray Cluster in
  setLabel nodeVec (replicate (Z.to_nat Cluster) []) (replicate (Z.to_nat Cluster) 0%Z)
           (replicate (Z.to_nat Row) 0%Z).

End Merger.

(** The value that [getDistAtNodes] returns when both lists have
    members. *)
Definition linkage (M : Matrix) (firstList secondList : list Z) : Q :=
  (foldl (fun r i =>
            foldl (fun r' j => (r' + coeff M i j)%Q) r
                  (seqZ 0 (Z.of_nat (length secondList))))
         0%Q (seqZ 0 (Z.of_nat (length firstList)))
   / inject_Z (Z.of_nat (length firstList) * Z.of_nat (length secondList)))%Q.

(** The candidate pairs created for a new node, one per other entry of
    the node map, in the order of the entries. *)
Definition new_pairs (M : Matrix) (newNode : AHC_node)
    (kvs : list (Z * AHC_node)) : list DistNode :=
  (fun kv => mkDistNode kv.1 (index newNode)
                        (linkage M (element newNode) (element kv.2)))
    <$> filter (fun kv => kv.1 ≠ index newNode) kvs.

(** [target] is -1 as long as nothing was written, and afterwards the
    position of an entry written earlier. *)
Definition tracked (s : scan) : Prop :=
  (target s = (-1)%Z ∧ minDist s = FLT_MAX ∧ current s = 0%nat) ∨
  (∃ k : nat, target s = Z.of_nat k ∧ (k < current s)%nat ∧ (minDist s < FLT_MAX)%Q).

(** *** The shape of the state between two merges *)

(** All pairs of a list, the earlier member first. *)
Fixpoint pairs (L : list Z) : list (Z * Z) :=
  match L with
  | [] => []
  | a :: L' => (pair a <$> L') ++ pairs L'
  end.

(** The candidate vector that [setValue] builds for [Row] curves. *)
Definition initial_pairs (M : Matrix) (Row : Z) : list DistNode :=
  (fun ab => mkDistNode ab.1 ab.2 (coeff M ab.1 ab.2)) <$> pairs (seqZ 0 Row).

(** The ids and the membership lists of the live nodes. *)
Definition keys (m : gmap Z AHC_node) : list Z := (map_to_list m).*1.
Definition members (m : gmap Z AHC_node) : list (list Z) :=
  (fun kv => element kv.2) <$> map_to_list m.

(** [d] is the candidate pair of the two nodes [a] and [b]. *)
Definition joins (a b : Z) (d : DistNode) : Prop :=
  ids d = (a, b) ∨ ids d = (b, a).

Global Instance joins_dec a b d : Decision (joins a b d).
Proof. unfold joins. apply _. Defined.

Record merge_inv (Row : Z) (st : MergeState) : Prop := mkInv
  { (* ids are below the next id *)
    inv_keys : ∀ k, is_Some (st_nodeMap st !! k) → (0 ≤ k < st_index st)%Z;
    (* the candidate pairs are the pairs of live nodes, older node first *)
    inv_pairs : ∃ L, L ≡ₚ keys (st_nodeMap st) ∧ ids <$> st_dNodeVec st ≡ₚ pairs L;
    (* the live nodes split the curves among them *)
    inv_part : concat (members (st_nodeMap st)) ≡ₚ seqZ 0 Row;
    inv_nonempty : ∀ k nd, st_nodeMap st !! k = Some nd → element nd ≠ [];
    inv_dist : ∀ d, d ∈ st_dNodeVec st → (distance d < FLT_MAX)%Q;
    inv_poped : st_poped st ∈ st_dNodeVec st;
    inv_size : (Z.of_nat (size (st_nodeMap st)) ≤ Row)%Z }.

(** The candidate vector holds [n (n - 1) / 2] entries for [n] live
    nodes; every entry joins two different live nodes; every two different
    live nodes are joined by exactly one entry. *)
Definition exact_pairs (st : MergeState) : Prop :=
  (2 * length (st_dNodeVec st)
   = size (st_nodeMap st) * (size (st_nodeMap st) - 1))%nat ∧
  (∀ d, d ∈ st_dNodeVec st →
        is_Some (st_nodeMap st !! first d) ∧ is_Some (st_nodeMap st !! second d) ∧
        first d ≠ second d) ∧
  (∀ a b, is_Some (st_nodeMap st !! a) → is_Some (st_nodeMap st !! b) → a ≠ b →
          length (filter (joins a b) (st_dNodeVec st)) = 1%nat).

(** The states that the loop passes through, one merge after the other. *)
Inductive reaches (dflt : DistNode) (dflt_index : Z)
    (order : gmap Z AHC_node → list (Z * AHC_node)) (M : Matrix)
  : MergeState → MergeState → Prop :=
| reaches_refl st : reaches dflt dflt_index order M st st
| reaches_step st st' st'' :
    merge_body dflt dflt_index order M st = Done st' →
    reaches dflt dflt_index order M st' st'' →
    reaches dflt dflt_index order M st st''.


End AHC.
Import AHC.

(** ** Inputs used in the examples below *)

Module Inputs.
Import SVD KMeans Tail AHC.

(** Two by two matrices: the identity, two curves on a line through the
    origin (column means 0), and two equal curves. *)
Definition I2 : Matrix := [[1; 0]; [0; 1]]%Q.
Definition line2 : Matrix := [[1; 0]; [-1; 0]]%Q.
Definition same2 : Matrix := [[1; 1]; [1; 1]]%Q.

(** Three curves at 0, 1 and 10 on a line. *)
Definition M3 : Matrix := [[0; 1; 10]; [1; 0; 9]; [10; 9; 0]]%Q.
Definition d0 : DistNode := mkDistNode (-1) (-1) (-1).
Definition pairs3 : list DistNode :=
  [mkDistNode 0 1 1; mkDistNode 0 2 10; mkDistNode 1 2 9].
Definition start3 : MergeState :=
  mkMergeState
    (list_to_map [(0%Z, mkNode (-1) [0%Z]); (1%Z, mkNode (-1) [1%Z]); (2%Z, mkNode (-1) [2%Z])])
    pairs3 (mkDistNode 0 1 1) 3.

(** A norm and a dissimilarity that can be evaluated: the sum of the
    absolute values, capped the way a [float] saturates. *)
Definition norm_sat (v : list Q) : Q := Qmin (Qsum (Qabs <$> v)) 1000000.
Definition dissim_sat (c : list Q) (data : Matrix) (i : nat) (normOption : Z) : Q :=
  norm_sat (vsub (row data i) c).

(** Six curves with one coordinate, in two groups, and three curves that
    end up in one group. *)
Definition line6 : Matrix := [[0]; [1]; [2]; [10]; [11]; [12]]%Q.
Definition seeds2 : Matrix := [[0]; [12]]%Q.
Definition line3 : Matrix := [[0]; [1]; [2]]%Q.
Definition seeds1 : Matrix := [[5]]%Q.
(** Two centres of which the second is too far away to get a member. *)
Definition seeds_far : Matrix := [[1]; [100]]%Q.
(** Two curves at 0 and 2020 and a centre at 0: the first round moves the
    centre by 1010, one percent more than the initial [moving = 1000]. *)
Definition far2 : Matrix := [[0]; [2020]]%Q.
Definition seed0 : Matrix := [[0]]%Q.
(** Three curves and two centres without coordinates. *)
Definition no_columns : Matrix := [[]; []; []].
Definition seeds_no_columns : Matrix := [[]; []].
(** A [log2f] that can be evaluated: the exponent of its argument, which
    is [log2] rounded down to an integer. *)
Definition log2f_floor (x : Q) : Q := inject_Z (Float32.ilog2 x).
(** What [performFullK_MeansByClusters] returns for [line3] and [seeds1]. *)
Definition one_group : Result :=
  mkResult [0; 0; 0]%nat [3; 3; 3]%nat [(1, 0)]%nat [(0, 0)]%nat [([3 # 3]%Q, 0%nat)] 1.

End Inputs.

(** ** What a finished k-means run leaves behind *)

Module KMeans_Shape.
Import KMeans.

(** [recorder] names a cluster for each of the [Row] curves, the
    membership list of a cluster holds, in increasing order, the curves
    that [recorder] puts in it, and [storage] holds its length. *)
Definition recorder_matches (Cluster Row : nat) (r : Round) : Prop :=
  (∀ i, (i < Row)%nat → ∃ c, recorder r !! i = Some c ∧ (c < Cluster)%nat) ∧
  ∀ c, (c < Cluster)%nat →
    neighborVec r !! c
      = Some (filter (fun i => recorder r !! i = Some c) (seq 0 Row)) ∧
    storage r !! c
      = Some (length (filter (fun i => recorder r !! i = Some c) (seq 0 Row))).

(** The same, whatever the order in which the curves were appended: the
    membership list of a cluster holds the curves that [recorder] puts in
    it, each once, in some order. *)
Definition recorder_agrees (Cluster Row : nat) (r : Round) : Prop :=
  (∀ i, (i < Row)%nat → ∃ c, recorder r !! i = Some c ∧ (c < Cluster)%nat) ∧
  ∀ c, (c < Cluster)%nat →
    ∃ mem, neighborVec r !! c = Some mem ∧
           mem ≡ₚ filter (fun i => recorder r !! i = Some c) (seq 0 Row) ∧
           storage r !! c = Some (length mem).

(** Every cluster with members has a centre of [D] coordinates, each the
    mean of that coordinate over the members. *)
Definition centres_are_means (points : Matrix) (D : nat) (st : KState) : Prop :=
  ∀ c mem, neighborVec (last st) !! c = Some mem → mem ≠ [] →
    ∃ centre, clusterCenter st !! c = Some centre ∧ length centre = D ∧
      ∀ j, (j < D)%nat →
        (nth j centre 0
         == Qsum ((fun m => nth j (row points m) 0) <$> mem)
            / inject_Z (Z.of_nat (length mem)))%Q.

End KMeans_Shape.

(** ** The order in which groups are numbered *)

Module Labels.

(** The order of a [std::multimap<int,int>] that is filled with values in
    increasing order: by key, and among equal keys by value. *)
Definition entry_lt (e e' : nat * nat) : Prop :=
  (e.1 < e'.1)%nat ∨ (e.1 = e'.1 ∧ e.2 < e'.2)%nat.

(** Cluster [a] comes before cluster [b]: it is smaller, or as large and
    of smaller index. *)
Definition before (storage : list nat) (a b : nat) : Prop :=
  entry_lt (nth a storage 0%nat, a) (nth b storage 0%nat, b).

(** The number of a cluster that has one. *)
Definition label (io : list (option nat)) (c : nat) : nat :=
  match io !! c with
  | Some (Some g) => g
  | _ => 0%nat
  end.

(** What the labels of [Row] curves say: the group of a curve is below
    [groupNo], [totalNum] is the number of curves of the same group, and of
    two curves the one in the smaller group has the smaller label. *)
Definition labels_by_size (Row : nat) (res : Tail.Result) : Prop :=
  ∀ i, (i < Row)%nat →
    ∃ g n, Tail.group res !! i = Some g ∧ Tail.totalNum res !! i = Some n ∧
      (g < Tail.groupNo res)%nat ∧
      n = length (filter (fun j => Tail.group res !! j = Some g) (seq 0 Row)) ∧
      ∀ j g' n', Tail.group res !! j = Some g' → Tail.totalNum res !! j = Some n' →
                 (n < n')%nat → (g < g')%nat.

End Labels.

(** ** What the representatives of a cluster are *)

Module Representatives.
Import KMeans.

Section Representatives.
Variable dist : list Q → nat → Q.

(** The entry [(idx, g)] of [closest] names a member of the cluster
    numbered [g] that no member of the cluster is closer to the centre
    than. *)
Definition closest_of (st : KState) (io : list (option nat)) (e : nat * nat) : Prop :=
  ∃ c mem, neighborVec (last st) !! c = Some mem ∧ io !! c = Some (Some e.2) ∧
    e.1 ∈ mem ∧
    ∀ m, m ∈ mem → (dist (row (clusterCenter st) c) e.1
                    <= dist (row (clusterCenter st) c) m)%Q.

(** The entry [(idx, g)] of [furthest] names a member of the cluster
    numbered [g] that no member is further from the centre than, unless
    no member is further from the centre than [FLT_MIN]. *)
Definition furthest_of (st : KState) (io : list (option nat)) (e : nat * nat) : Prop :=
  ∃ c mem, neighborVec (last st) !! c = Some mem ∧ io !! c = Some (Some e.2) ∧
    ((e.1 ∈ mem ∧
      ∀ m, m ∈ mem → (dist (row (clusterCenter st) c) m
                      <= dist (row (clusterCenter st) c) e.1)%Q) ∨
     (∀ m, m ∈ mem → (dist (row (clusterCenter st) c) m <= FLT_MIN)%Q)).

End Representatives.
End Representatives.

(** ** More inputs *)

Module More_Inputs.

(** 46342 curves without coordinates. *)
Definition many_curves : Matrix := replicate (Z.to_nat 46342) [].

End More_Inputs.
Import More_Inputs.

(** ** The pair that the merger picks *)

Module Merger_Shape.
Import AHC.

(** [poped] is a candidate pair, and no candidate pair has a smaller
    distance. *)
Definition picks_closest (st : MergeState) : Prop :=
  st_poped st ∈ st_dNodeVec st ∧
  ∀ d, d ∈ st_dNodeVec st → (distance (st_poped st) <= distance d)%Q.

(** What a scan knows about the entries written so far: none is below
    [minDist], and [target] is the first of distance [minDist] unless
    nothing below [FLT_MAX] was seen. *)
Definition least_so_far (s : scan) : Prop :=
  (∀ j d, (j < current s)%nat → tempVec s !! j = Some d → (minDist s <= distance d)%Q) ∧
  (target s = (-1)%Z ∨
   ∃ k d, target s = Z.of_nat k ∧ (k < current s)%nat ∧ tempVec s !! k = Some d ∧
          distance d = minDist s).

(** What [perform_AHC] has after [setLabel], for [Row] curves: a size
    for every membership list, no list empty; every curve in the list
    that [recorder] names for it; the lists in order of size. *)
Definition labels_agree (Row : Z) (neighborVec : list (list Z))
    (storage recorder : list Z) : Prop :=
  length storage = length neighborVec ∧ Z.of_nat (length recorder) = Row ∧
  (∀ g mem, neighborVec !! g = Some mem →
     mem ≠ [] ∧ storage !! g = Some (Z.of_nat (length mem))) ∧
  (∀ e, (0 ≤ e < Row)%Z →
     ∃ g mem, recorder !! Z.to_nat e = Some (Z.of_nat g) ∧
              neighborVec !! g = Some mem ∧ e ∈ mem) ∧
  (∀ g g' mem mem', (g < g')%nat →
     neighborVec !! g = Some mem → neighborVec !! g' = Some mem' →
     (length mem ≤ length mem')%nat).

(** The nodes that [hierarchicalMerging] returns for [Row] curves: none
    is empty, together they hold every curve once, and they come in order
    of size. *)
Definition nodes_by_size (Row : Z) (nodeVec : list AHC_node) : Prop :=
  Forall (fun nd => element nd ≠ []) nodeVec ∧
  concat (element <$> nodeVec) ≡ₚ seqZ 0 Row ∧
  ∀ i j a b, (i < j)%nat → nodeVec !! i = Some a → nodeVec !! j = Some b →
             (length (element a) ≤ length (element b))%nat.

End Merger_Shape.

(** ** [performPCA_Clustering] and the labels of [perform_AHC] *)

Module Pipeline.
Import SVD KMeans Tail AHC.

(** [CLUSTER = 8], the cluster count of the overloads that take none. *)
Definition CLUSTER : Z := 8.

Section Pipeline.
Variable dflt : DistNode.
Variable dflt_index : Z.
Variable order : gmap Z AHC_node → list (Z * AHC_node).
Variable norm : list Q → Q.

(** [performPCA_Clustering] with [post_processing == 2], up to the
    membership lists, the sizes and the group of every curve:
    [performSVD], then [perform_AHC] on the reduced coordinates. *)
Definition performPCA_Clustering_AHC (data : Matrix) (Column : nat) (SingVec : Matrix)
    (PC_Number0 : Z) (Cluster : Z) : outcome (list (list Z) * list Z * list Z) :=
  let* red := performSVD data Column SingVec PC_Number0 in
  perform_AHC_groups dflt dflt_index order norm (length (cArray red)) (cArray red) Cluster.

(** [performPCA_Clustering] with [post_processing == 1], up to the end
    of the loop of [performPC_KMeans]; [seeds] is what the initialisation
    returns for the reduced coordinates. *)
Definition performPCA_Clustering_KMeans (fuel : nat) (data : Matrix) (Column : nat)
    (SingVec : Matrix) (PC_Number0 : Z) (seeds : Matrix → nat → Matrix)
  : outcome KState :=
  let* red := performSVD data Column SingVec PC_Number0 in
  performPC_KMeans_loop norm fuel (cArray red) (Z.to_nat (PC_Number red))
                        (seeds (cArray red) (Z.to_nat (PC_Number red))).

(** [increasingOrder[recorder[i]]] for an [int] in [recorder]. *)
Definition read_label (io : list (option nat)) (r : Z) : outcome nat :=
  if decide (r < 0)%Z then UB else read_init io (Z.to_nat r).

(** [perform_AHC] up to the loop that sets [group] and [totalNum]: the
    groups are numbered as in the k-means functions, from the sizes in
    [storage]. *)
Definition perform_AHC_group_ids (fuel : nat) (cArray : Matrix) (Cluster : Z)
  : outcome (list nat * list Z * nat) :=
  let* labelled := perform_AHC_groups dflt dflt_index order norm fuel cArray Cluster in
  let '(neighborVec, storage, recorder) := labelled in
  let '(io, groupNo) :=
    number_groups (groupMap (Z.to_nat <$> storage)) (Z.to_nat Cluster) in
  let* group :=
    foldM (fun g i =>
             let* x := obind (vec_read recorder (Z.of_nat i)) (read_label io) in
             Done (g ++ [x]))
          (seq 0 (length cArray)) [] in
  let* totalNum :=
    foldM (fun t i =>
             let* x := obind (vec_read recorder (Z.of_nat i)) (vec_read storage) in
             Done (t ++ [x]))
          (seq 0 (length cArray)) [] in
  Done (group, totalNum, groupNo).

End Pipeline.
End Pipeline.

(** ** The rest of [performPC_KMeans] *)

Module PC_Tail.
Import KMeans Tail.

Section PC_Tail.
Variable norm : list Q → Q.
(** [log2f] of the C library. *)
Variable log2f_lib : Q → Q.

(** [toCenter = (clusterCenter.row(i)-cArray.row(tempIndex)).norm()]. *)
Definition toCenter (cArray : Matrix) (centre : list Q) (tempIndex : nat) : Q :=
  norm (vsub centre (row cArray tempIndex)).

(** The entries appended to [closest] and [furthest].  A cluster is
    scanned when [storage[i] > 0 && !neighborVec[i].empty()]; the scan
    reads [neighborTemp[j]] for [j < storage[i]], which is undefined
    outside the list. *)
Definition representatives_PC (cArray : Matrix) (st : KState) (io : list (option nat))
  : outcome (list (nat * nat) * list (nat * nat)) :=
  let* r :=
    foldM (fun '(cl, fu, si, fi) i =>
             let neighborTemp := nth i (neighborVec (last st)) [] in
             if decide ((0 < nth i (storage (last st)) 0)%nat ∧ neighborTemp ≠ []) then
               if decide (nth i (storage (last st)) 0 ≤ length neighborTemp)%nat then
                 let members := take (nth i (storage (last st)) 0%nat) neighborTemp in
                 let '(si', fi') :=
                   extremes (toCenter cArray) (row (clusterCenter st) i) members si fi in
                 let* g := read_init io i in
                 Done (cl ++ [(si', g)], fu ++ [(fi', g)], si', fi')
               else UB
             else Done (cl, fu, si, fi))
          (seq 0 (length (clusterCenter st))) ([], [], 0%nat, 0%nat) in
  Done (r.1.1.1, r.1.1.2).

(** [pcSing.row(i) = SingVec.row(i)] for [i < PC_Number], into a matrix
    of [Column] columns: a row that [SingVec] does not have, or one of
    another length, makes the copy undefined. *)
Definition pcSing (SingVec : Matrix) (PC_Number Column : nat) : outcome Matrix :=
  foldM (fun m i =>
           match SingVec !! i with
           | Some r => if decide (length r = Column) then Done (m ++ [r]) else UB
           | None => UB
           end)
        (seq 0 PC_Number) [].

(** [massPos = clusterCenter*pcSing], for a [clusterCenter] of
    [PC_Number] columns and a [pcSing] of [PC_Number] rows and [Column]
    columns. *)
Definition massPos (clusterCenter pc : Matrix) (PC_Number Column : nat) : outcome Matrix :=
  if decide (Forall (fun r => length r = PC_Number) clusterCenter)
  then Done ((fun r => (fun j => dot r (col pc j)) <$> seq 0 Column) <$> clusterCenter)
  else UB.

(** The entries appended to [massCenter]:
    [massPos.row(i) += meanTrajectory.transpose()], then the [Column]
    entries of that row. *)
Definition mass_lines (st : KState) (mp : Matrix) (meanTrajectory : list Q)
    (io : list (option nat)) (Column : nat) : outcome (list (list Q * nat)) :=
  foldM (fun mc i =>
           if decide (0 < nth i (storage (last st)) 0)%nat then
             if decide (length meanTrajectory = Column) then
               let r := vadd (row mp i) meanTrajectory in
               let* g := read_init io i in
               Done (mc ++ [((fun j => nth j r 0%Q) <$> seq 0 Column, g)])
             else UB
           else Done mc)
        (seq 0 (length (clusterCenter st))) [].

(** [performPC_KMeans] from the end of the loop on: the results and the
    calls made, in order.  There is no [return] before the evaluation. *)
Definition finish_PC (cArray : Matrix) (Column PC_Number : nat) (SingVec : Matrix)
    (meanTrajectory : list Q) (st : KState) : outcome (Result * list event) :=
  let Row := length cArray in
  let sto := storage (last st) in
  let entropy := Entropy.balanced_entropy log2f_lib sto Row in
  let '(io, gNo) := number_groups (groupMap sto) (length (clusterCenter st)) in
  let* grp := foldM (fun g i =>
                       let* x := read_init io (nth i (recorder (last st)) 0%nat) in
                       Done (g ++ [x]))
                    (seq 0 Row) [] in
  let tot := (fun i => nth (nth i (recorder (last st)) 0%nat) sto 0%nat) <$> seq 0 Row in
  let* reps := representatives_PC cArray st io in
  let* pc := pcSing SingVec PC_Number Column in
  let* mp := massPos (clusterCenter st) pc PC_Number Column in
  let* mc := mass_lines st mp meanTrajectory io Column in
  Done (mkResult grp tot reps.1 reps.2 mc gNo,
        [TrPush "k-means iteration for PC takes: ";
         ValidityCompute grp;
         TrPush "PCA Validity measure is: ";
         SilhouetteCompute grp gNo;
         TrPush "Clustering evaluation computing takes: ";
         WriteReadme entropy]).

(** [performPC_KMeans]: the loop, then the rest.  [Row] is the number of
    rows of [cArray], [SingVec] and [meanTrajectory] are what [performSVD]
    left, [seeds] is what the initialisation returned; [fuel] bounds the
    number of rounds of the model of the loop. *)
Definition performPC_KMeans (fuel : nat) (cArray : Matrix) (Column PC_Number : nat)
    (SingVec : Matrix) (meanTrajectory : list Q) (seeds : Matrix)
  : outcome (Result * list event) :=
  let* st := performPC_KMeans_loop norm fuel cArray PC_Number seeds in
  finish_PC cArray Column PC_Number SingVec meanTrajectory st.

End PC_Tail.

(** Coordinate [j] of the curve rebuilt from reduced coordinates: the
    mean trajectory plus the combination of the first [PC_Number] rows of
    [SingVec]. *)
Definition rebuilt (SingVec : Matrix) (PC_Number : nat) (meanTrajectory : list Q)
    (reduced : list Q) (j : nat) : Q :=
  (nth j meanTrajectory 0 + dot reduced (col (take PC_Number SingVec) j))%Q.

(** The entry [(line, g)] of [massCenter] belongs to the cluster numbered
    [g]: it has [Column] coordinates, each the one rebuilt from the centre
    of the cluster, which is the mean over the members of the coordinates
    rebuilt from their reduced coordinates. *)
Definition mass_centre_of (cArray : Matrix) (Column PC_Number : nat) (SingVec : Matrix)
    (meanTrajectory : list Q) (st : KState) (io : list (option nat))
    (e : list Q * nat) : Prop :=
  ∃ c mem, neighborVec (last st) !! c = Some mem ∧ mem ≠ [] ∧
    io !! c = Some (Some e.2) ∧ length e.1 = Column ∧
    ∀ j, (j < Column)%nat →
      (nth j e.1 0
       == rebuilt SingVec PC_Number meanTrajectory (row (clusterCenter st) c) j)%Q ∧
      (nth j e.1 0
       == Qsum ((fun m => rebuilt SingVec PC_Number meanTrajectory (row cArray m) j)
                  <$> mem)
          / inject_Z (Z.of_nat (length mem)))%Q.

End PC_Tail.

(** ** [performPCA_Clustering] with k-means on the reduced coordinates *)

Module PC_Pipeline.
Import SVD KMeans Tail PC_Tail.



End PC_Pipeline.

(* ===================================================================== *)
(** * Part II: properties                                                 *)
(* ===================================================================== *)

(** ** Comparisons on [Q] *)

Lemma Qltb_lt (x y : Q) : Qltb x y = true ↔ (x < y)%Q.
Proof.
  unfold Qltb. rewrite Qlt_alt. destruct (x ?= y)%Q; split; congruence.
Qed.

Lemma Qltb_ge (x y : Q) : Qltb x y = false ↔ (y <= x)%Q.
Proof.
  rewrite <- not_true_iff_false, Qltb_lt. split.
  - apply Qnot_lt_le.
  - apply Qle_not_lt.
Qed.

(** ** Rounding to single precision *)

Module Float32_Facts.
Import Float32.

(** Some values of the rounding: 1/3, 1/100 and 0.999 ([TOR_1]); two ties
    above [2 ^ 24]; the overflow to infinity; two ties among the
    subnormal numbers. *)
Lemma fround_examples :
  fround (1 # 3) = Fin (11184811 # 33554432) ∧
  fround (1 # 100) = Fin (5368709 # 536870912) ∧
  fround (999 # 1000) = Fin SVD.TOR_1 ∧
  fround 16777217 = Fin 16777216 ∧
  fround 16777219 = Fin 16777220 ∧
  fround (- (16777219)) = Fin (- (16777220)) ∧
  fround (2 ^ 128) = Inf false ∧
  fround FLT_MAX = Fin FLT_MAX ∧
  fround (2 ^ (-150)) = Fin 0 ∧
  fround (3 * 2 ^ (-150)) = Fin (Qred (2 ^ (-148))).
Proof. repeat split; vm_compute; reflexivity. Qed.

Lemma two_pos (k : Z) : (0 < 2 ^ k)%Q.
Proof. by apply Qpower_0_lt. Qed.

Lemma two_plus (n m : Z) : (2 ^ (n + m) == 2 ^ n * 2 ^ m)%Q.
Proof. by apply Qpower_plus. Qed.

Lemma two_Z (n : Z) : (0 ≤ n)%Z → (2 ^ n == inject_Z (2 ^ n))%Q.
Proof. intros H. symmetry. by apply (Zpower_Qpower 2). Qed.

(** [2 ^ ilog2 a <= a < 2 ^ (ilog2 a + 1)]. *)
Lemma ilog2_spec (a : Q) : (0 < a)%Q → (2 ^ ilog2 a <= a)%Q ∧ (a < 2 ^ (ilog2 a + 1))%Q.
Proof.
  intros Ha. destruct a as [n d]. unfold ilog2. cbn [Qnum Qden].
  assert (Hn : (0 < n)%Z). { unfold Qlt in Ha. simpl in Ha. lia. }
  set (ln := Z.log2 n). set (ld := Z.log2 (Z.pos d)).
  destruct (Z.log2_spec n Hn) as [Hn1 Hn2]. fold ln in Hn1, Hn2.
  destruct (Z.log2_spec (Z.pos d) ltac:(lia)) as [Hd1 Hd2]. fold ld in Hd1, Hd2.
  assert (Hln : (0 ≤ ln)%Z) by apply Z.log2_nonneg.
  assert (Hld : (0 ≤ ld)%Z) by apply Z.log2_nonneg.
  (* n # d as a quotient *)
  assert (Hq : (n # d == inject_Z n / inject_Z (Z.pos d))%Q).
  { rewrite (Qmake_Qdiv n d). reflexivity. }
  assert (Hdpos : (0 < inject_Z (Z.pos d))%Q) by (unfold Qlt; simpl; lia).
  assert (Hlow : (2 ^ (ln - ld - 1) < n # d)%Q).
  { rewrite Hq. apply Qlt_shift_div_l; [done|].
    assert (E : (2 ^ (ln - ld - 1) * 2 ^ (ld + 1) == 2 ^ ln)%Q).
    { rewrite <- two_plus. by replace (ln - ld - 1 + (ld + 1))%Z with ln by lia. }
    apply Qlt_le_trans with (2 ^ (ln - ld - 1) * 2 ^ (ld + 1))%Q.
    - apply Qmult_lt_l; [apply two_pos|]. rewrite two_Z by lia.
      rewrite <- Zlt_Qlt. lia.
    - rewrite E, two_Z by lia. rewrite <- Zle_Qle. lia. }
  assert (Hup : (n # d < 2 ^ (ln - ld + 1))%Q).
  { rewrite Hq. apply Qlt_shift_div_r; [done|].
    assert (E : (2 ^ (ln - ld + 1) * 2 ^ ld == 2 ^ (ln + 1))%Q).
    { rewrite <- two_plus. by replace (ln - ld + 1 + ld)%Z with (ln + 1)%Z by lia. }
    apply Qlt_le_trans with (2 ^ (ln - ld + 1) * 2 ^ ld)%Q.
    - rewrite E, two_Z by lia. rewrite <- Zlt_Qlt. lia.
    - apply Qmult_le_l; [apply two_pos|]. rewrite two_Z by lia.
      rewrite <- Zle_Qle. lia. }
  destruct (Qle_bool (2 ^ (ln - ld)) (n # d)) eqn:Hb.
  - apply Qle_bool_iff in Hb. split; [done|]. done.
  - assert (Hlt : (n # d < 2 ^ (ln - ld))%Q).
    { apply Qnot_le_lt. intros H. apply Qle_bool_iff in H. congruence. }
    split.
    + by apply Qlt_le_weak.
    + by replace (ln - ld - 1 + 1)%Z with (ln - ld)%Z by lia.
Qed.

(** The exponent is determined by the value. *)
Lemma ilog2_unique (a : Q) (e : Z) :
  (2 ^ e <= a)%Q → (a < 2 ^ (e + 1))%Q → ilog2 a = e.
Proof.
  intros H1 H2.
  assert (Ha : (0 < a)%Q) by (eapply Qlt_le_trans; [apply (two_pos e)|done]).
  destruct (ilog2_spec a Ha) as [H3 H4].
  assert (ilog2 a < e + 1)%Z.
  { apply (Qpower_lt_compat_l_inv 2); [|done]. eapply Qle_lt_trans; [exact H3|done]. }
  assert (e < ilog2 a + 1)%Z.
  { apply (Qpower_lt_compat_l_inv 2); [|done]. eapply Qle_lt_trans; [exact H1|done]. }
  lia.
Qed.

Lemma ilog2_comp (a b : Q) : (0 < a)%Q → (a == b)%Q → ilog2 a = ilog2 b.
Proof.
  intros Ha E. destruct (ilog2_spec a Ha) as [H1 H2].
  symmetry. apply ilog2_unique; by rewrite <- E.
Qed.

Lemma ties_even_floor (q : Q) : (Qfloor q ≤ ties_even q ≤ Qfloor q + 1)%Z.
Proof.
  unfold ties_even. destruct (_ ?= _)%Q; [destruct (Z.even _)|..]; lia.
Qed.

Lemma ties_even_comp (a b : Q) : (a == b)%Q → ties_even a = ties_even b.
Proof.
  intros E. unfold ties_even. rewrite (Qfloor_comp _ _ E).
  assert ((a - inject_Z (Qfloor b) ?= 1 # 2) = (b - inject_Z (Qfloor b) ?= 1 # 2))%Q as ->.
  { by rewrite E. }
  done.
Qed.


(** An integer below the argument is below the result. *)
Lemma ties_even_ge (q : Q) (N : Z) : (inject_Z N <= q)%Q → (N ≤ ties_even q)%Z.
Proof.
  intros H. pose proof (ties_even_floor q).
  assert (N ≤ Qfloor q)%Z; [|lia].
  apply Z.lt_succ_r. rewrite Zlt_Qlt. eapply Qle_lt_trans; [exact H|].
  rewrite <- Z.add_1_r. apply Qlt_floor.
Qed.

(** *** The value of [fround] *)

Lemma quantum_comp (a b : Q) : (0 < a)%Q → (a == b)%Q → quantum a = quantum b.
Proof. intros Ha E. unfold quantum. by rewrite (ilog2_comp a b). Qed.

Lemma magnitude_comp (a b : Q) : (0 < a)%Q → (a == b)%Q → (magnitude a == magnitude b)%Q.
Proof.
  intros Ha E. unfold magnitude. rewrite (quantum_comp a b Ha E).
  rewrite (ties_even_comp (a / 2 ^ quantum b) (b / 2 ^ quantum b)); [reflexivity|].
  by rewrite E.
Qed.

Lemma Qeq_bool_false (a b : Q) : Qeq_bool a b = false ↔ ¬ (a == b)%Q.
Proof.
  split.
  - intros H E. apply Qeq_bool_iff in E. congruence.
  - intros H. destruct (Qeq_bool a b) eqn:E; [|done]. apply Qeq_bool_iff in E. done.
Qed.

Lemma Qltb_comp (a a' b b' : Q) : (a == a')%Q → (b == b')%Q → Qltb a b = Qltb a' b'.
Proof. intros E1 E2. unfold Qltb. by rewrite E1, E2. Qed.

Lemma fround_pos (q : Q) : (0 < q)%Q →
  fround q = if Qltb FLT_MAX (magnitude q) then Inf false else Fin (Qred (magnitude q)).
Proof.
  intros Hq. unfold fround.
  assert (Ha : (Qabs q == q)%Q) by (apply Qabs_pos; by apply Qlt_le_weak).
  assert (Hapos : (0 < Qabs q)%Q) by (by rewrite Ha).
  assert (Qeq_bool (Qabs q) 0 = false) as ->.
  { apply Qeq_bool_false. intros E. rewrite E in Hapos. by apply Qlt_irrefl in Hapos. }
  assert (Qltb q 0 = false) as ->.
  { destruct (Qltb q 0) eqn:E; [|done]. apply Qltb_lt in E.
    exfalso. eapply Qlt_irrefl, Qlt_trans; done. }
  fold (magnitude (Qabs q)).
  rewrite (Qltb_comp FLT_MAX FLT_MAX (Qred (magnitude (Qabs q))) (magnitude q));
    [|reflexivity|by rewrite Qred_correct; apply magnitude_comp].
  destruct (Qltb _ _); [done|]. f_equal. apply Qred_complete.
  by apply magnitude_comp.
Qed.

Lemma fround_comp (a b : Q) : (a == b)%Q → fround a = fround b.
Proof.
  intros E. unfold fround.
  assert (Eabs : (Qabs a == Qabs b)%Q) by (by rewrite E).
  assert (Qeq_bool (Qabs a) 0 = Qeq_bool (Qabs b) 0) as ->.
  { destruct (Qeq_bool (Qabs b) 0) eqn:Hb.
    - apply Qeq_bool_iff. apply Qeq_bool_iff in Hb. by rewrite Eabs.
    - apply Qeq_bool_false. apply Qeq_bool_false in Hb. by rewrite Eabs. }
  destruct (Qeq_bool (Qabs b) 0) eqn:Hb; [done|].
  assert (Hpos : (0 < Qabs a)%Q).
  { apply Qeq_bool_false in Hb. destruct (Qle_lt_or_eq _ _ (Qabs_nonneg a)) as [H|H]; [done|].
    exfalso. apply Hb. by rewrite <- Eabs, <- H. }
  fold (magnitude (Qabs a)). fold (magnitude (Qabs b)).
  assert (Em : Qred (magnitude (Qabs a)) = Qred (magnitude (Qabs b))).
  { apply Qred_complete. by apply magnitude_comp. }
  rewrite Em, (Qltb_comp a b 0 0 E); [done|reflexivity].
Qed.


(** *** Bounds that are floats themselves *)

Lemma quantum_spec (a : Q) : (0 < a)%Q →
  (-149 ≤ quantum a)%Z ∧ (ilog2 a - 23 ≤ quantum a)%Z ∧
  (quantum a = ilog2 a - 23 ∨ quantum a = -149)%Z.
Proof. intros _. unfold quantum. lia. Qed.

Lemma scaled (m j k : Z) : (k ≤ j)%Z →
  (inject_Z m * 2 ^ j == inject_Z (m * 2 ^ (j - k)) * 2 ^ k)%Q.
Proof.
  intros H. rewrite inject_Z_mult, <- two_Z by lia.
  rewrite <- Qmult_assoc, <- two_plus. by replace (j - k + k)%Z with j by lia.
Qed.


Lemma two_div (a : Q) (N k : Z) :
  (inject_Z N * 2 ^ k <= a)%Q ↔ (inject_Z N <= a / 2 ^ k)%Q.
Proof.
  split; intros H.
  - apply Qle_shift_div_l; [apply two_pos|done].
  - assert (E : (a == a / 2 ^ k * 2 ^ k)%Q).
    { field. intros E. pose proof (two_pos k) as H0. rewrite E in H0.
      by apply Qlt_irrefl in H0. }
    rewrite E. apply Qmult_le_compat_r; [done|]. apply Qlt_le_weak, two_pos.
Qed.



Lemma magnitude_ge (a B : Q) (m j : Z) :
  (B <= a)%Q → representable B m j → (B <= magnitude a)%Q.
Proof.
  intros Hle (HB & Hm & Hj).
  assert (HBpos : (0 < B)%Q).
  { rewrite HB. apply Qmult_lt_0_compat; [|apply two_pos].
    change 0%Q with (inject_Z 0). rewrite <- Zlt_Qlt. lia. }
  assert (Ha : (0 < a)%Q) by (eapply Qlt_le_trans; done).
  destruct (ilog2_spec a Ha) as [He _].
  destruct (quantum_spec a Ha) as (Hk1 & Hk2 & Hk3).
  destruct (decide (quantum a ≤ j)%Z) as [Hkj|Hkj].
  - unfold magnitude. rewrite HB, (scaled m j (quantum a) Hkj).
    apply Qmult_le_compat_r; [|apply Qlt_le_weak, two_pos].
    rewrite <- Zle_Qle. apply ties_even_ge. apply two_div.
    by rewrite <- (scaled m j (quantum a) Hkj), <- HB.
  - assert (Hk : quantum a = (ilog2 a - 23)%Z) by lia.
    apply Qle_trans with (2 ^ ilog2 a)%Q.
    + rewrite HB. apply Qle_trans with (inject_Z (2 ^ 24) * 2 ^ j)%Q.
      * apply Qmult_le_compat_r; [|apply Qlt_le_weak, two_pos].
        rewrite <- Zle_Qle. lia.
      * rewrite <- two_Z, <- two_plus by lia. apply Qpower_le_compat_l; [lia|done].
    + unfold magnitude. rewrite Hk.
      assert (E : (2 ^ ilog2 a == inject_Z (2 ^ 23) * 2 ^ (ilog2 a - 23))%Q).
      { rewrite <- two_Z, <- two_plus by lia.
        by replace (23 + (ilog2 a - 23))%Z with (ilog2 a) by lia. }
      rewrite E at 1.
      apply Qmult_le_compat_r; [|apply Qlt_le_weak, two_pos].
      rewrite <- Zle_Qle. apply ties_even_ge. apply two_div. by rewrite <- E.
Qed.





Lemma fge_false (x : fval) (c : Q) : fge x c = false ↔ below x c.
Proof.
  destruct x as [a|[|]|]; simpl; try done.
  rewrite <- not_true_iff_false, Qle_bool_iff. split.
  - apply Qnot_le_lt.
  - apply Qlt_not_le.
Qed.

End Float32_Facts.

(** ** [performSVD] *)

Module SVD_Facts.
Import SVD Inputs.

(** What the loop does: when it stops at counter [i], the energy of the
    directions [0..i] (that is [i + 1] of them) is above the threshold and
    the energy of the directions before [i] is not. *)
Lemma select_from_break n : ∀ i coefficient threshold tempSum p0 pc,
  (tempSum <= threshold)%Q →
  select_from n i coefficient threshold tempSum p0 = Done pc →
  pc ≠ p0 →
  ∃ k : nat, pc = Z.of_nat k ∧ (i ≤ k < i + n)%nat ∧
    (tempSum + Qsum ((fun j => squaredNorm (col coefficient j)) <$> seq i (k - i))
       <= threshold)%Q ∧
    (threshold <
       tempSum + Qsum ((fun j => squaredNorm (col coefficient j)) <$> seq i (S k - i)))%Q.
Proof.
  induction n as [|n IH]; intros i co th ts p0 pc Hle Hsel Hne; simpl in Hsel.
  - congruence.
  - destruct (decide (i < ncols co)%nat); [|done].
    destruct (Qltb th (ts + squaredNorm (col co i))) eqn:Hb.
    + injection Hsel as <-. exists i. split; [done|]. split; [lia|].
      replace (i - i)%nat with 0%nat by lia. replace (S i - i)%nat with 1%nat by lia.
      simpl. apply Qltb_lt in Hb. split.
      * by rewrite Qplus_0_r.
      * by rewrite Qplus_0_r.
    + apply Qltb_ge in Hb.
      destruct (IH _ _ _ _ _ _ Hb Hsel Hne) as (k & -> & Hk & H1 & H2).
      exists k. split; [done|]. split; [lia|].
      replace (k - i)%nat with (S (k - S i)) by lia.
      replace (S k - i)%nat with (S (S k - S i)) by lia.
      simpl. rewrite !Qplus_assoc. done.
Qed.

Lemma squaredNorm_nonneg (a : list Q) : (0 <= squaredNorm a)%Q.
Proof.
  unfold squaredNorm, dot. induction a as [|x a IH]; simpl; [apply Qle_refl|].
  assert (0 <= x * x)%Q by (unfold Qle, Qmult; simpl; nia). lra.
Qed.

Lemma matSquaredNorm_nonneg (M : Matrix) : (0 <= matSquaredNorm M)%Q.
Proof.
  unfold matSquaredNorm. induction M as [|r M IH]; [apply Qle_refl|].
  rewrite fmap_cons. cbn [Qsum fold_right]. fold (Qsum (squaredNorm <$> M)).
  pose proof (squaredNorm_nonneg r). lra.
Qed.

(** What [performSVD] stores when the loop reaches its [break]: a count
    [k] whose [k] directions do not exceed the threshold, while [k + 1]
    directions do. *)
Lemma performSVD_break (data : Matrix) (Column : nat) (V : Matrix) (p0 : Z) res :
  performSVD data Column V p0 = Done res → PC_Number res ≠ p0 →
  ∃ k : nat, PC_Number res = Z.of_nat k ∧ (k < Column)%nat ∧
    (cumulative_energy (matmul (centred data Column) V) k
       <= TOR_1 * matSquaredNorm (matmul (centred data Column) V))%Q ∧
    (TOR_1 * matSquaredNorm (matmul (centred data Column) V)
       < cumulative_energy (matmul (centred data Column) V) (S k))%Q.
Proof.
  unfold performSVD. set (co := matmul _ V).
  destruct (select_from _ _ _ _ _ _) as [pc| | |] eqn:E; simpl; try done.
  destruct (decide _); [|done]. intros [= <-] Hne. simpl in *.
  assert (Hth : (0 <= TOR_1 * matSquaredNorm co)%Q).
  { apply Qmult_le_0_compat; [done|apply matSquaredNorm_nonneg]. }
  destruct (select_from_break _ _ _ _ _ _ _ Hth E Hne) as (k & -> & Hk & H1 & H2).
  exists k. split; [done|]. split; [lia|].
  rewrite Nat.sub_0_r in H1. replace (S k - 0)%nat with (S k) in H2 by lia.
  unfold cumulative_energy. rewrite Qplus_0_l in H1, H2. done.
Qed.

(** *** Equal rows *)

Lemma Qsum_zero (l : list Q) : Forall (fun x => x == 0)%Q l → (Qsum l == 0)%Q.
Proof.
  induction 1 as [|x l Hx _ IH]; simpl; [reflexivity|].
  rewrite Hx, IH. reflexivity.
Qed.

Lemma Qsum_replicate (k : nat) (x : Q) :
  (Qsum (replicate k x) == inject_Z (Z.of_nat k) * x)%Q.
Proof.
  induction k as [|k IH]; [simpl; ring|].
  cbn [replicate Qsum fold_right]. unfold Qsum in IH. rewrite IH.
  rewrite Nat2Z.inj_succ, <- Z.add_1_r, inject_Z_plus. change (inject_Z 1) with 1%Q. ring.
Qed.

Lemma mean_replicate (n : nat) (x : Q) : (mean (replicate (S n) x) == x)%Q.
Proof.
  unfold mean. rewrite Qsum_replicate, length_replicate.
  field. change 0%Q with (inject_Z 0). rewrite inject_Z_injective. lia.
Qed.

Lemma col_replicate (k : nat) (r : list Q) (i : nat) :
  col (replicate k r) i = replicate k (nth i r 0%Q).
Proof. unfold col. by rewrite fmap_replicate. Qed.

Lemma vsub_zero (a : list Q) : ∀ b,
  (∀ i x y, a !! i = Some x → b !! i = Some y → (x == y)%Q) →
  Forall (fun x => x == 0)%Q (vsub a b).
Proof.
  unfold vsub. induction a as [|x a IH]; intros [|y b] H; simpl; try constructor.
  - rewrite (H 0%nat x y) by done. ring.
  - apply IH. intros i. apply (H (S i)).
Qed.

Lemma dot_zero (a b : list Q) : Forall (fun x => x == 0)%Q a → (dot a b == 0)%Q.
Proof.
  intros Ha. unfold dot. apply Qsum_zero. revert b.
  induction Ha as [|x a Hx _ IH]; intros [|y b]; simpl; try constructor.
  - rewrite Hx. ring.
  - apply IH.
Qed.

Lemma nth_zero (i : nat) (r : list Q) :
  Forall (fun x => x == 0)%Q r → (nth i r 0 == 0)%Q.
Proof.
  intros Hr. rewrite nth_lookup. destruct (r !! i) as [x|] eqn:E; simpl; [|reflexivity].
  eapply Forall_forall in Hr; [exact Hr|]. by eapply list_elem_of_lookup_2.
Qed.

(** When all rows of the data are equal, every coefficient is 0 and the
    loop of [performSVD] never reaches its [break]: [PC_Number] is
    returned as it came in (or the loop reads a column that the
    coefficient matrix does not have). *)
Lemma select_from_zero coefficient threshold n : ∀ i tempSum p0,
  (threshold == 0)%Q → (tempSum == 0)%Q →
  Forall (Forall (fun x => x == 0)%Q) coefficient →
  select_from n i coefficient threshold tempSum p0 = Done p0 ∨
  select_from n i coefficient threshold tempSum p0 = UB.
Proof.
  intros i tempSum p0 Hth Hts Hco. revert i tempSum Hts.
  induction n as [|n IH]; intros i tempSum Hts; simpl; [by left|].
  destruct (decide (i < ncols coefficient)); [|by right].
  assert (Hz : (tempSum + squaredNorm (col coefficient i) == 0)%Q).
  { rewrite Hts. unfold squaredNorm. rewrite dot_zero; [ring|].
    unfold col. apply Forall_fmap, Forall_forall. intros r Hr. simpl.
    apply nth_zero. eapply Forall_forall in Hco; eauto. }
  assert (Qltb threshold (tempSum + squaredNorm (col coefficient i)) = false) as ->.
  { apply Qltb_ge. rewrite Hz, Hth. apply Qle_refl. }
  by apply IH.
Qed.

Lemma performSVD_equal_rows (r : list Q) (n Column : nat) (V : Matrix) (p0 : Z) :
  match performSVD (replicate (S n) r) Column V p0 with
  | Done res => PC_Number res = p0
  | UB => True
  | _ => False
  end.
Proof.
  unfold performSVD.
  assert (Hc : Forall (Forall (fun x => x == 0)%Q) (centred (replicate (S n) r) Column)).
  { unfold centred. rewrite fmap_replicate. apply Forall_replicate.
    apply vsub_zero. intros i x y Hx Hy. unfold meanTrajectory in Hy.
    rewrite list_lookup_fmap in Hy.
    destruct (seq 0 Column !! i) as [j|] eqn:Ej; [|done].
    apply lookup_seq in Ej as [-> _].
    change (Some (mean (col (replicate (S n) r) i)) = Some y) in Hy.
    assert (y = mean (col (replicate (S n) r) i)) as -> by congruence.
    rewrite col_replicate, mean_replicate. by rewrite (nth_lookup_Some _ _ _ _ Hx). }
  set (co := matmul _ V) in *.
  assert (Hco : Forall (Forall (fun x => x == 0)%Q) co).
  { unfold co, matmul. apply Forall_fmap. eapply Forall_impl; [exact Hc|].
    intros row0 Hrow. simpl. apply Forall_fmap, Forall_forall. intros c _. simpl.
    by apply dot_zero. }
  assert (Hth : (TOR_1 * matSquaredNorm co == 0)%Q).
  { unfold matSquaredNorm. rewrite Qsum_zero; [ring|].
    apply Forall_fmap. eapply Forall_impl; [exact Hco|].
    intros row0 Hrow. simpl. unfold squaredNorm. by apply dot_zero. }
  destruct (select_from_zero co (TOR_1 * matSquaredNorm co) Column 0 0%Q p0 Hth
              ltac:(reflexivity) Hco) as [-> | ->]; simpl; [|done].
  destruct (decide _); done.
Qed.

(** C2.  On the centred data [line2] with right singular vectors [I2] the
    total energy is 2 and the first direction alone carries all of it; the
    loop stops at counter 0 and stores [PC_Number = 0].  The energy of the
    first [PC_Number] directions is then 0 and does not exceed 0.999 times
    the total: the stored value is one less than the number of directions
    that the threshold asks for. *)
Theorem performSVD_PC_Number_one_short :
  (0 < matSquaredNorm (matmul (centred line2 2) I2))%Q ∧
  performSVD line2 2 I2 (-7) = Done (mkReduced [[]; []] 0) ∧
  ¬ (TOR_1 * matSquaredNorm (matmul (centred line2 2) I2)
       < cumulative_energy (matmul (centred line2 2) I2) 0)%Q ∧
  (TOR_1 * matSquaredNorm (matmul (centred line2 2) I2)
       < cumulative_energy (matmul (centred line2 2) I2) 1)%Q.
Proof.
  split; [by vm_compute|]. split; [by vm_compute|].
  split; [|by vm_compute]. intros H. by vm_compute in H.
Qed.

(** C7.  When all rows are equal the centred matrix is zero, the threshold
    is 0 and no partial sum is above it: the loop ends without a [break]
    and [PC_Number] keeps whatever the caller's variable held, which the
    callers never set. *)
Theorem performSVD_equal_rows_PC_Number_unset (p0 : Z) :
  match performSVD same2 2 I2 p0 with
  | Done r => PC_Number r = p0
  | _ => (p0 < 0 ∨ 2 < p0)%Z
  end.
Proof.
  unfold performSVD.
  replace (select_from 2 0 _ _ 0%Q p0) with (Done p0) by (by vm_compute).
  cbn [obind].
  replace (ncols (matmul (centred same2 2) I2)) with 2%nat by (by vm_compute).
  destruct (decide (0 ≤ p0 ≤ Z.of_nat 2)%Z); simpl; [done|lia].
Qed.

End SVD_Facts.

(** ** The merger on three curves *)

Module AHC_Examples.
Import Inputs.

(** C1.  After curves 0 and 1 are merged into node 3, the candidate pair
    (2, 3) gets the distance [(M(0,0) + M(1,0)) / 2 = 1/2]: the mean of the
    original distances between the members, [(10 + 9) / 2], is not what
    [getDistAtNodes] returns. *)
Theorem getDistAtNodes_reads_counters :
  setValue d0 M3 M3 = Done pairs3 ∧
  merge_start (-1) ∅ pairs3 M3 = Done start3 ∧
  st_dNodeVec <$> (match merge_body d0 (-1) map_to_list M3 start3 with
                   | Done st => Some st | _ => None end)
    = Some [mkDistNode 2 3 (1 # 2)] ∧
  getDistAtNodes [0; 1]%Z [2]%Z M3 = Done (1 # 2)%Q ∧
  (mean_linkage [0; 1]%Z [2]%Z M3 == 19 # 2)%Q.
Proof. repeat split; by vm_compute. Qed.

(** C6.  With three curves and three clusters asked for, the loop body
    still runs: the first pass merges curves 0 and 1 and leaves two nodes,
    the test [2 != 3] sends the loop round again, and the pass that leaves
    one node reads [tempVec[-1]]. *)
Theorem hierarchicalMerging_target_Row_merges :
  size (st_nodeMap start3) = 3%nat ∧
  (∃ st, merge_body d0 (-1) map_to_list M3 start3 = Done st ∧
         size (st_nodeMap st) = 2%nat ∧
         (element <$> st_nodeMap st !! 3%Z) = Some [0%Z; 1%Z]) ∧
  (∀ fuel, hierarchicalMerging d0 (-1) map_to_list (S (S fuel)) ∅ pairs3 M3 M3 3 = UB).
Proof.
  split; [by vm_compute|]. split.
  - eexists. split; [by vm_compute|]. split; by vm_compute.
  - intros fuel. by vm_compute.
Qed.

End AHC_Examples.

(** ** The Lloyd iteration *)

Module KMeans_Facts.
Import KMeans.

Lemma continue_false (b m : Q) (t : nat) : continue b m t = false ↔ trigger b m t.
Proof.
  unfold continue, trigger.
  rewrite !andb_false_iff, bool_decide_eq_false, Qltb_ge, Float32_Facts.fge_false.
  assert (¬ (t < 20)%nat ↔ (20 ≤ t)%nat) as -> by lia.
  tauto.
Qed.

Lemma continue_true (b m : Q) (t : nat) : continue b m t = true ↔ ¬ trigger b m t.
Proof. rewrite <- continue_false. destruct (continue b m t); split; congruence. Qed.

Section Engine.
Variable norm : list Q → Q.
Variable dist : list Q → nat → Q.
Variable points : Matrix.
Variable D : nat.

Local Abbreviation round := (lloyd_round norm dist points D).
Local Abbreviation loop := (fun fuel => kmeans_loop norm dist fuel points D).

Lemma update_fold_length r idxs : ∀ st,
  length (foldl (update norm r) st idxs).1 = length st.1.
Proof.
  induction idxs as [|i l IH]; intros st; simpl; [done|].
  rewrite IH. unfold update. case_decide; simpl; [|done].
  by rewrite length_insert.
Qed.

(** A cluster without members keeps its centre. *)
Lemma update_fold_keeps r idxs i : ∀ st,
  nth i (storage r) 0%nat = 0%nat →
  (foldl (update norm r) st idxs).1 !! i = st.1 !! i.
Proof.
  induction idxs as [|j l IH]; intros st Hi; simpl; [done|].
  rewrite IH by done. unfold update. case_decide; simpl; [|done].
  apply list_lookup_insert_ne. intros ->. lia.
Qed.

(** The displacement is never below [FLT_MIN]. *)
Lemma update_fold_moving r idxs : ∀ st,
  (FLT_MIN <= st.2)%Q → (FLT_MIN <= (foldl (update norm r) st idxs).2)%Q.
Proof.
  induction idxs as [|j l IH]; intros st Hst; simpl; [done|].
  apply IH. unfold update. case_decide; simpl; [|done].
  destruct (Qltb _ _) eqn:Hb; [|done].
  apply Qltb_lt in Hb. eapply Qle_trans; [exact Hst|]. by apply Qlt_le_weak.
Qed.

Lemma round_shape st st' :
  round st = Done st' →
  tag st' = S (tag st) ∧ log st' = log st ++ [moving st'] ∧
  length (clusterCenter st') = length (clusterCenter st) ∧
  (FLT_MIN <= moving st')%Q.
Proof.
  unfold lloyd_round, assignment. intros H.
  destruct (foldM _ _ _) as [r| | |]; simpl in H; try done.
  injection H as <-. simpl. repeat split.
  - by rewrite update_fold_length.
  - apply update_fold_moving. simpl. apply Qle_refl.
Qed.

(** A round ends normally or in the use of [clusTemp] without a value. *)
Lemma round_Done_or_UB st : (∃ st', round st = Done st') ∨ round st = UB.
Proof.
  unfold lloyd_round, assignment.
  generalize (mkRound (replicate (length (clusterCenter st)) 0%nat)
    (replicate (length (clusterCenter st)) []) (recorder (last st))
    (replicate (length (clusterCenter st)) (replicate D 0%Q))).
  induction (seq 0 (length points)) as [|i l IHl]; intros r; simpl; [eauto|].
  unfold assign at 1 3. destruct (nearest_from _ _ _ _ _ _).2; simpl; [apply IHl|by right].
Qed.

Lemma before_of_app log m t :
  (t ≤ S (length log))%nat → before_of (log ++ [m]) t = before_of log t.
Proof.
  intros H. destruct t as [|[|k]]; simpl; try done.
  rewrite app_nth1; [done|lia].
Qed.

Lemma moving_of_app log m t :
  (1 ≤ t ≤ length log)%nat → moving_of (log ++ [m]) t = moving_of log t.
Proof. intros H. unfold moving_of. rewrite app_nth1; [done|lia]. Qed.

Lemma moving_of_last log m : moving_of (log ++ [m]) (S (length log)) = m.
Proof.
  unfold moving_of. replace (S (length log) - 1)%nat with (length log) by lia.
  by rewrite nth_middle.
Qed.

Lemma before_of_next log m :
  before_of (log ++ [m]) (S (S (length log))) = m.
Proof. simpl. by rewrite nth_middle. Qed.

(** The loop cannot use more than [20 - tag] further rounds, and leaves
    at the first round that meets a trigger. *)
Lemma loop_stops fuel : ∀ st,
  between st → (tag st < 20)%nat → (20 ≤ tag st + fuel)%nat →
  match loop fuel st with
  | Done st' => stops_at_first_trigger st'
  | UB => True
  | _ => False
  end.
Proof.
  induction fuel as [|fuel IH]; intros st (Hlen & Hmov & Hno) Hlt Hfuel.
  - lia.
  - simpl. destruct (round st) as [st'| | |] eqn:Hr; simpl; try done.
    + destruct (round_shape _ _ Hr) as (Htag & Hlog & _ & _).
      assert (Hb : before_of (log st') (tag st') = moving st).
      { rewrite Hlog, Htag, before_of_app by lia. done. }
      assert (Hm : moving_of (log st') (tag st') = moving st').
      { rewrite Hlog, Htag, <- Hlen. apply moving_of_last. }
      assert (Hold : ∀ t, (1 ≤ t < tag st')%nat →
                 ¬ trigger (before_of (log st') t) (moving_of (log st') t) t).
      { intros t Ht. rewrite Hlog, before_of_app, moving_of_app by lia.
        apply Hno. lia. }
      destruct (continue (moving st) (moving st') (tag st')) eqn:Hc.
      * apply continue_true in Hc.
        assert (tag st' < 20)%nat.
        { destruct (decide (tag st' < 20)%nat); [done|].
          exfalso. apply Hc. right; left. lia. }
        apply IH; [|done|lia]. split; [|split].
        -- rewrite Hlog, length_app. simpl. lia.
        -- rewrite Hlog at 1. rewrite Htag, <- Hlen. symmetry.
           apply before_of_next.
        -- intros t Ht. destruct (decide (t = tag st')) as [->|].
           ++ by rewrite Hb, Hm.
           ++ apply Hold. lia.
      * apply continue_false in Hc. split; [lia|]. split; [|split].
        -- rewrite Hlog, length_app. simpl. lia.
        -- done.
        -- by rewrite Hb, Hm.
    + by destruct (round_Done_or_UB st) as [[? ?]|?]; congruence.
    + by destruct (round_Done_or_UB st) as [[? ?]|?]; congruence.
Qed.

(** *** The assignment step *)

Hypothesis dist_finite : ∀ c i, (dist c i < FLT_MAX)%Q.

Lemma nearest_from_keeps cs : ∀ j i best c,
  ∃ c', (nearest_from dist j cs i best (Some c)).2 = Some c' ∧
        (c' = c ∨ (j ≤ c' < j + length cs)%nat).
Proof.
  induction cs as [|x cs IH]; intros j i best c; simpl.
  - eauto.
  - destruct (Qltb _ _).
    + destruct (IH (S j) i (dist x i) j) as (c' & -> & H). exists c'. split; [done|]. lia.
    + destruct (IH (S j) i best c) as (c' & -> & H). exists c'. split; [done|]. lia.
Qed.

Lemma nearest_defined cs i :
  cs ≠ [] →
  ∃ c, (nearest_from dist 0 cs i FLT_MAX None).2 = Some c ∧ (c < length cs)%nat.
Proof.
  destruct cs as [|x cs]; [done|]. intros _. simpl.
  assert (Qltb (dist x i) FLT_MAX = true) as -> by (by apply Qltb_lt).
  destruct (nearest_from_keeps cs 1 i (dist x i) 0) as (c & -> & H).
  exists c. split; [done|]. lia.
Qed.

Lemma concat_alter_snoc {A} (nv : list (list A)) (c : nat) (i : A) :
  (c < length nv)%nat → concat (alter (fun l => l ++ [i]) c nv) ≡ₚ i :: concat nv.
Proof.
  revert c. induction nv as [|l nv IH]; intros c Hc; simpl in *; [lia|].
  destruct c as [|c]; simpl.
  - rewrite <- app_assoc. simpl. by rewrite <- Permutation_middle.
  - specialize (IH c ltac:(lia)). unfold alter in IH. rewrite IH.
    by rewrite Permutation_middle.
Qed.

Lemma assign_loop centres xs : ∀ r,
  centres ≠ [] → counted (length centres) r →
  ∃ r', foldM (assign dist points centres) xs r = Done r' ∧
        counted (length centres) r' ∧
        concat (neighborVec r') ≡ₚ concat (neighborVec r) ++ xs.
Proof.
  intros r Hne. revert r.
  induction xs as [|i xs IH]; intros r (Hs & Hn & Hc); simpl.
  - exists r. rewrite app_nil_r. by repeat split.
  - unfold assign at 1.
    destruct (nearest_defined centres i Hne) as (c & -> & Hlt). simpl.
    edestruct IH as (r' & -> & Hr' & Hp).
    2:{ exists r'. split; [done|]. split; [done|].
        rewrite Hp. simpl. rewrite concat_alter_snoc by lia.
        by rewrite <- Permutation_middle. }
    unfold counted; simpl.
    split; [by rewrite length_alter|]. split; [by rewrite length_alter|].
    intros k. rewrite !nth_lookup.
    destruct (decide (k = c)) as [->|Hk].
    + rewrite !list_lookup_alter_eq.
      destruct (lookup_lt_is_Some_2 (storage r) c) as [n Hn']; [lia|].
      destruct (lookup_lt_is_Some_2 (neighborVec r) c) as [l Hl]; [lia|].
      specialize (Hc c). rewrite !nth_lookup, Hn', Hl in Hc. simpl in Hc.
      rewrite Hn', Hl. simpl. rewrite length_app. simpl. lia.
    + rewrite !list_lookup_alter_ne by done.
      specialize (Hc k). by rewrite !nth_lookup in Hc.
Qed.

(** The sizes add up to the number of members. *)
Lemma counted_sum K (r : Round) :
  counted K r → sum_list (storage r) = length (concat (neighborVec r)).
Proof.
  intros (Hs & Hn & Hc).
  assert (storage r = length <$> neighborVec r) as ->.
  { apply list_eq. intros c. rewrite list_lookup_fmap.
    specialize (Hc c). rewrite !nth_lookup in Hc.
    destruct (decide (c < K)%nat).
    - destruct (lookup_lt_is_Some_2 (storage r) c) as [sz Hsz]; [lia|].
      destruct (lookup_lt_is_Some_2 (neighborVec r) c) as [mem Hmem]; [lia|].
      rewrite Hsz, Hmem in Hc. rewrite Hsz, Hmem. simpl in *. by rewrite Hc.
    - rewrite !lookup_ge_None_2 by lia. done. }
  clear. induction (neighborVec r) as [|mem ls IH]; [done|].
  rewrite fmap_cons. simpl. rewrite length_app. by rewrite IH.
Qed.

Lemma counted_start K D' rec :
  counted K (mkRound (replicate K 0%nat) (replicate K []) rec
                     (replicate K (replicate D' 0%Q))).
Proof.
  unfold counted; simpl. rewrite !length_replicate. split; [done|]. split; [done|].
  intros c. rewrite !nth_lookup.
  destruct (decide (c < K)%nat).
  - by rewrite !lookup_replicate_2.
  - rewrite !lookup_ge_None_2; [done| |]; rewrite length_replicate; lia.
Qed.

Lemma concat_replicate_nil {A} K : concat (replicate K (@nil A)) = [].
Proof. induction K; simpl; done. Qed.

(** A round with at least one centre ends normally; its membership lists
    hold every point once, sizes and lists agree, and a cluster without
    members keeps its centre. *)
Lemma round_defined st :
  clusterCenter st ≠ [] →
  ∃ st', round st = Done st' ∧
    counted (length (clusterCenter st)) (last st') ∧
    concat (neighborVec (last st')) ≡ₚ seq 0 (length points) ∧
    ∀ i, nth i (storage (last st')) 0%nat = 0%nat →
         clusterCenter st' !! i = clusterCenter st !! i.
Proof.
  intros Hne. unfold lloyd_round, assignment.
  edestruct (assign_loop (clusterCenter st) (seq 0 (length points)))
    as (r & -> & Hcnt & Hp); [done|apply counted_start|].
  simpl in *. eexists. split; [done|]. simpl. split; [done|].
  split; [by rewrite Hp, concat_replicate_nil|].
  intros i Hi. by apply update_fold_keeps.
Qed.

Lemma loop_defined fuel : ∀ st,
  clusterCenter st ≠ [] → loop fuel st ≠ UB.
Proof.
  induction fuel as [|fuel IH]; intros st Hne; simpl; [done|].
  destruct (round_defined st Hne) as (st' & Hr & _). rewrite Hr. simpl.
  destruct (continue _ _ _); [|done]. apply IH.
  destruct (round_shape _ _ Hr) as (_ & _ & Hl & _).
  intros E. rewrite E in Hl. destruct (clusterCenter st); [done|]. simpl in Hl. lia.
Qed.

(** The members of the last round, for a loop that ended normally. *)
Lemma loop_members fuel : ∀ st st',
  clusterCenter st ≠ [] → loop fuel st = Done st' →
  concat (neighborVec (last st')) ≡ₚ seq 0 (length points) ∧
  counted (length (clusterCenter st')) (last st').
Proof.
  induction fuel as [|fuel IH]; intros st st' Hne; simpl; [done|].
  destruct (round_defined st Hne) as (st1 & Hr & Hcnt & Hp & _). rewrite Hr. simpl.
  destruct (round_shape _ _ Hr) as (_ & _ & Hl & _).
  destruct (continue _ _ _).
  - apply IH. intros E. rewrite E in Hl. destruct (clusterCenter st); [done|].
    simpl in Hl. lia.
  - intros [= <-]. split; [done|]. by rewrite Hl.
Qed.

Lemma kmeans_stops seeds fuel :
  seeds ≠ [] → (20 ≤ fuel)%nat →
  ∃ st, kmeans norm dist fuel points D seeds = Done st ∧ stops_at_first_trigger st ∧
        concat (neighborVec (last st)) ≡ₚ seq 0 (length points) ∧
        sum_list (storage (last st)) = length points.
Proof.
  intros Hne Hfuel. unfold kmeans.
  assert (Hb : between (kmeans_start points seeds)).
  { split; [done|]. split; [done|]. simpl. intros t Ht. lia. }
  pose proof (loop_stops fuel (kmeans_start points seeds) Hb) as H.
  pose proof (loop_defined fuel (kmeans_start points seeds) Hne) as Hd.
  pose proof (loop_members fuel (kmeans_start points seeds)) as Hm.
  cbv beta in H, Hd, Hm.
  destruct (kmeans_loop _ _ _ _ _ _) as [st| | |].
  - exists st. split; [done|]. split; [apply H; simpl; lia|].
    destruct (Hm st Hne eq_refl) as [Hp Hc]. split; [done|].
    by rewrite (counted_sum _ _ Hc), Hp, length_seq.
  - done.
  - exfalso. apply H; simpl; lia.
  - exfalso. apply H; simpl; lia.
Qed.

End Engine.

Lemma elem_of_concat {A} (x : A) (ls : list (list A)) :
  x ∈ concat ls ↔ ∃ l, l ∈ ls ∧ x ∈ l.
Proof.
  induction ls as [|l ls IH]; simpl.
  - split; [by intros ?%elem_of_nil|]. by intros (l & ?%elem_of_nil & _).
  - rewrite elem_of_app, IH. split.
    + intros [H|(l' & H1 & H2)].
      * exists l. split; [apply elem_of_cons; by left|done].
      * exists l'. split; [apply elem_of_cons; by right|done].
    + intros (l' & [->|H1]%elem_of_cons & H2); [by left|right; eauto].
Qed.

(** From a permutation of a list without repetition to the three
    properties of a partition. *)
Lemma partitions_of_Permutation {A} (lists : list (list A)) (universe : list A) :
  NoDup universe → concat lists ≡ₚ universe → partitions lists universe.
Proof.
  intros Hnd Hp. rewrite <- Hp in Hnd. split; [|split].
  - intros x. rewrite <- Hp. apply elem_of_concat.
  - intros l Hl. clear Hp. induction lists as [|l' ls IH]; [by apply elem_of_nil in Hl|].
    simpl in Hnd. apply NoDup_app in Hnd as (H1 & _ & H3).
    apply elem_of_cons in Hl as [->|Hl]; auto.
  - clear Hp. induction lists as [|l' ls IH]; intros i j l1 l2 Hij Hi Hj x Hx1 Hx2.
    + done.
    + simpl in Hnd. apply NoDup_app in Hnd as (H1 & H2 & H3).
      destruct i as [|i], j as [|j]; simpl in *; simplify_eq.
      * apply (H2 x Hx1). apply elem_of_concat. exists l2.
        split; [|done]. by eapply list_elem_of_lookup_2.
      * apply (H2 x Hx2). apply elem_of_concat. exists l1.
        split; [|done]. by eapply list_elem_of_lookup_2.
      * eapply (IH H3 i j); eauto.
Qed.

End KMeans_Facts.

(** ** The merger *)

Module AHC_Facts.

(** *** All pairs of a list *)

Lemma length_pairs L : (2 * length (pairs L) = length L * (length L - 1))%nat.
Proof.
  induction L as [|a L IH]; simpl; [done|].
  rewrite length_app, length_fmap. nia.
Qed.

Lemma pairs_snoc L x : pairs (L ++ [x]) ≡ₚ pairs L ++ ((fun a => (a, x)) <$> L).
Proof.
  induction L as [|a L IH]; simpl; [done|].
  rewrite fmap_app, IH. simpl.
  rewrite <- !app_assoc. apply Permutation_app_head.
  simpl. rewrite Permutation_middle. by apply Permutation_app_head.
Qed.

Lemma filter_pair_True (P : Z → Prop) `{∀ x, Decision (P x)} (a : Z) (L : list Z) :
  P a → filter (fun ab => P ab.1 ∧ P ab.2) (pair a <$> L) = pair a <$> filter P L.
Proof.
  intros Ha. induction L as [|b L IH]; [done|].
  rewrite fmap_cons, !filter_cons. simpl.
  destruct (decide (P b)).
  - rewrite decide_True by done. by rewrite fmap_cons, IH.
  - rewrite decide_False by tauto. done.
Qed.

Lemma filter_pair_False (P : Z → Prop) `{∀ x, Decision (P x)} (a : Z) (L : list Z) :
  ¬ P a → filter (fun ab => P ab.1 ∧ P ab.2) (pair a <$> L) = [].
Proof.
  intros Ha. induction L as [|b L IH]; [done|].
  rewrite fmap_cons, filter_cons. simpl. by rewrite decide_False by tauto.
Qed.

Lemma pairs_filter (P : Z → Prop) `{∀ x, Decision (P x)} L :
  filter (fun ab => P ab.1 ∧ P ab.2) (pairs L) = pairs (filter P L).
Proof.
  induction L as [|a L IH]; [done|].
  cbn [pairs]. rewrite filter_app, IH, filter_cons.
  destruct (decide (P a)) as [Ha|Ha].
  - cbn [pairs]. by rewrite filter_pair_True.
  - by rewrite filter_pair_False.
Qed.

Lemma elem_of_pairs L a b : (a, b) ∈ pairs L → a ∈ L ∧ b ∈ L.
Proof.
  induction L as [|c L IH]; simpl; [by intros ?%elem_of_nil|].
  rewrite elem_of_app, list_elem_of_fmap.
  intros [(y & [= -> ->] & Hy)|H].
  - split; [by left|by right].
  - destruct (IH H). split; by right.
Qed.

Lemma pairs_distinct L a b : NoDup L → (a, b) ∈ pairs L → a ≠ b.
Proof.
  induction L as [|c L IH]; simpl; [by intros _ ?%elem_of_nil|].
  intros [Hc HL]%NoDup_cons. rewrite elem_of_app, list_elem_of_fmap.
  intros [(y & [= -> ->] & Hy)|H]; [by intros ->|by apply IH].
Qed.

Lemma NoDup_pairs L : NoDup L → NoDup (pairs L).
Proof.
  induction L as [|c L IH]; simpl; [constructor|].
  intros [Hc HL]%NoDup_cons. apply NoDup_app. split; [|split].
  - apply NoDup_fmap_2; [|done]. by intros ?? [=].
  - intros [a b] (y & [= -> ->] & Hy)%list_elem_of_fmap Hin.
    by apply elem_of_pairs in Hin as [? _].
  - by apply IH.
Qed.

(** Two different members form a pair in exactly one of the two orders. *)
Lemma pairs_one_order L a b :
  NoDup L → a ∈ L → b ∈ L → a ≠ b →
  ((a, b) ∈ pairs L ∧ (b, a) ∉ pairs L) ∨ ((b, a) ∈ pairs L ∧ (a, b) ∉ pairs L).
Proof.
  induction L as [|c L IH]; simpl; [by intros _ ?%elem_of_nil|].
  intros [Hc HL]%NoDup_cons [->|Ha]%elem_of_cons [->|Hb]%elem_of_cons Hab; try done.
  - left. split.
    + apply elem_of_app. left. by apply list_elem_of_fmap_2.
    + rewrite elem_of_app, list_elem_of_fmap.
      intros [(y & [= -> ->] & Hy)|H]; [done|]. by apply elem_of_pairs in H as [_ ?].
  - right. split.
    + apply elem_of_app. left. by apply list_elem_of_fmap_2.
    + rewrite elem_of_app, list_elem_of_fmap.
      intros [(y & [= -> ->] & Hy)|H]; [done|]. by apply elem_of_pairs in H as [_ ?].
  - assert (Hno : ∀ x y, x ≠ c → (x, y) ∉ (pair c <$> L)).
    { intros x y Hx (z & [= -> ->] & _)%list_elem_of_fmap. done. }
    assert (Hac : a ≠ c) by (by intros ->).
    assert (Hbc : b ≠ c) by (by intros ->).
    destruct (IH HL Ha Hb Hab) as [[H1 H2]|[H1 H2]]; [left|right].
    + split; [apply elem_of_app; by right|].
      rewrite elem_of_app. intros [?|?]; [by eapply (Hno b a)|done].
    + split; [apply elem_of_app; by right|].
      rewrite elem_of_app. intros [?|?]; [by eapply (Hno a b)|done].
Qed.

(** *** Sums of distances *)

Lemma foldl_Qplus {A} (g : A → Q) (l : list A) : ∀ r,
  (foldl (fun r' j => r' + g j) r l == r + Qsum (g <$> l))%Q.
Proof.
  induction l as [|x l IH]; intros r; simpl.
  - by rewrite Qplus_0_r.
  - rewrite IH. by rewrite Qplus_assoc.
Qed.

Lemma foldl_Qplus_nested {A B} (g : A → B → Q) (la : list A) (lb : list B) : ∀ r,
  (foldl (fun r i => foldl (fun r' j => r' + g i j) r lb) r la
   == r + Qsum ((fun i => Qsum (g i <$> lb)) <$> la))%Q.
Proof.
  induction la as [|x la IH]; intros r; simpl.
  - by rewrite Qplus_0_r.
  - rewrite IH, foldl_Qplus. by rewrite Qplus_assoc.
Qed.

Lemma Qsum_lt (l : list Q) (c : Q) :
  l ≠ [] → Forall (fun x => x < c)%Q l →
  (Qsum l < inject_Z (Z.of_nat (length l)) * c)%Q.
Proof.
  induction l as [|x l IH]; [done|]. intros _ [Hx Hl]%Forall_cons.
  cbn [Qsum fold_right length]. rewrite Nat2Z.inj_succ, <- Z.add_1_r, inject_Z_plus.
  change (inject_Z 1) with 1%Q.
  destruct l as [|y l].
  - change (inject_Z (Z.of_nat (length (@nil Q)))) with 0%Q.
    change (foldr Qplus 0%Q []) with 0%Q. lra.
  - specialize (IH ltac:(done) Hl). unfold Qsum in IH. lra.
Qed.

(** *** Filling the candidate vector *)

Lemma put_Done s d :
  (current s < length (tempVec s))%nat →
  ∃ s', put s d = Done s' ∧
        tempVec s' = <[current s := d]> (tempVec s) ∧
        current s' = S (current s) ∧
        ((distance d < FLT_MAX)%Q → tracked s → tracked s').
Proof.
  intros Hlt. unfold put, vec_write. rewrite decide_True by done. simpl.
  destruct (Qltb (distance d) (minDist s)) eqn:Hb; eexists; (split; [done|]);
    simpl; (split; [done|]); (split; [done|]); intros Hd Htr; right.
  - exists (current s). simpl. split; [done|]. split; [lia|done].
  - apply Qltb_ge in Hb. destruct Htr as [(_ & Hm & _)|(k & Hk & Hkc & Hm)].
    + rewrite Hm in Hb. exfalso. by eapply Qlt_not_le.
    + exists k. simpl. split; [done|]. split; [lia|done].
Qed.

(** Writing the entries [es] one after the other fills the positions
    from [current] on with them, in order. *)
Lemma puts_fill es : ∀ s,
  (current s + length es ≤ length (tempVec s))%nat →
  ∃ s', foldM put es s = Done s' ∧
        tempVec s' = take (current s) (tempVec s) ++ es
                       ++ drop (current s + length es) (tempVec s) ∧
        current s' = (current s + length es)%nat ∧
        (Forall (fun d => distance d < FLT_MAX)%Q es → tracked s → tracked s').
Proof.
  induction es as [|d es IH]; intros s Hlen; simpl in *.
  - exists s. split; [done|]. rewrite Nat.add_0_r, take_drop. auto.
  - destruct (put_Done s d) as (s1 & -> & Htv & Hcur & Htr); [lia|]. simpl.
    destruct (IH s1) as (s' & -> & Htv' & Hcur' & Htr').
    { rewrite Htv, Hcur, length_insert. lia. }
    exists s'. split; [done|]. split; [|split].
    + rewrite Htv', Htv, Hcur.
      rewrite (take_S_r _ _ d) by (apply list_lookup_insert_eq; lia).
      rewrite take_insert_ge by lia.
      rewrite drop_insert_lt by lia.
      rewrite <- app_assoc. simpl.
      by replace (S (current s + length es)) with (current s + S (length es))%nat by lia.
    + lia.
    + intros [Hd Hes]%Forall_cons Hs. auto.
Qed.

Lemma copy_loop pp ds : ∀ s,
  foldM (copy_pair pp) ds s = foldM put (filter (unrelated pp) ds) s.
Proof.
  induction ds as [|d ds IH]; intros s; [done|].
  rewrite filter_cons. simpl. unfold copy_pair at 1.
  destruct (decide (unrelated pp d)); simpl; [|apply IH].
  destruct (put s d); simpl; auto.
Qed.

Section Matrix.
Variable M : Matrix.
Hypothesis M_finite : ∀ i j, (coeff M i j < FLT_MAX)%Q.

Lemma getDistAtNodes_Done A B :
  A ≠ [] → B ≠ [] → getDistAtNodes A B M = Done (linkage M A B).
Proof.
  intros HA HB. unfold getDistAtNodes.
  rewrite !decide_False; [done| |]; destruct A, B; simpl in *; try done; lia.
Qed.

Lemma linkage_finite A B : A ≠ [] → B ≠ [] → (linkage M A B < FLT_MAX)%Q.
Proof.
  intros HA HB. unfold linkage.
  set (m := Z.of_nat (length A)). set (n := Z.of_nat (length B)).
  assert (Hm : (0 < m)%Z) by (destruct A; simpl in *; [done|lia]).
  assert (Hn : (0 < n)%Z) by (destruct B; simpl in *; [done|lia]).
  apply Qlt_shift_div_r.
  { change 0%Q with (inject_Z 0). rewrite <- Zlt_Qlt. lia. }
  rewrite foldl_Qplus_nested, Qplus_0_l.
  eapply Qlt_le_trans.
  - apply (Qsum_lt _ (inject_Z n * FLT_MAX)).
    + intros E%fmap_nil_inv. rewrite (seqZ_cons 0 m) in E by done. done.
    + apply Forall_fmap, Forall_forall. intros i _. simpl.
      eapply Qlt_le_trans.
      * apply (Qsum_lt _ FLT_MAX).
        -- intros E%fmap_nil_inv. rewrite (seqZ_cons 0 n) in E by done. done.
        -- apply Forall_fmap, Forall_forall. intros j _. simpl. apply M_finite.
      * rewrite length_fmap, length_seqZ, Z2Nat.id by lia. apply Qle_refl.
  - rewrite !length_fmap, !length_seqZ, !Z2Nat.id by lia.
    rewrite inject_Z_mult. lra.
Qed.

Lemma link_loop newNode kvs :
  element newNode ≠ [] → ∀ s,
  Forall (fun kv : Z * AHC_node => element kv.2 ≠ []) kvs →
  (current s + length (new_pairs M newNode kvs) ≤ length (tempVec s))%nat →
  foldM (link_pair M newNode) kvs s = foldM put (new_pairs M newNode kvs) s.
Proof.
  intros Hnew. induction kvs as [|kv kvs IH]; intros s Hkvs Hlen; [done|].
  apply Forall_cons in Hkvs as [Hkv Hkvs].
  unfold new_pairs in *. rewrite filter_cons in Hlen. rewrite filter_cons.
  cbn [foldM]. unfold link_pair at 1.
  destruct (decide (kv.1 = index newNode)) as [He|He].
  - rewrite (decide_False (P := kv.1 ≠ index newNode)) in Hlen by tauto.
    rewrite (decide_False (P := kv.1 ≠ index newNode)) by tauto.
    simpl. by apply IH.
  - rewrite (decide_True (P := kv.1 ≠ index newNode)) in Hlen by done.
    rewrite (decide_True (P := kv.1 ≠ index newNode)) by done.
    rewrite fmap_cons in *. simpl in Hlen.
    rewrite decide_True by lia. rewrite getDistAtNodes_Done by done.
    cbn [foldM obind].
    destruct (put_Done s (mkDistNode kv.1 (index newNode)
                (linkage M (element newNode) (element kv.2))))
      as (s1 & -> & Htv & Hcur & _); [lia|]. simpl.
    apply IH; [done|]. rewrite Htv, Hcur, length_insert. lia.
Qed.

End Matrix.

(** *** Two list facts *)

Lemma filter_fmap {A B} (f : A → B) (Q : B → Prop) `{∀ y, Decision (Q y)} (l : list A) :
  filter Q (f <$> l) = f <$> filter (fun x => Q (f x)) l.
Proof.
  induction l as [|x l IH]; [done|].
  rewrite fmap_cons, !filter_cons. destruct (decide (Q (f x))); by rewrite ?fmap_cons, IH.
Qed.

Lemma filter_all {A} (P : A → Prop) `{∀ x, Decision (P x)} (l : list A) :
  Forall P l → filter P l = l.
Proof.
  induction 1 as [|x l Hx Hl IH]; [done|].
  by rewrite filter_cons, decide_True, IH.
Qed.

(** *** One merge *)

Section Step.
Variable dflt : DistNode.
Variable dflt_index : Z.
Variable order : gmap Z AHC_node → list (Z * AHC_node).
Hypothesis order_perm : ∀ m, order m ≡ₚ map_to_list m.
Variable M : Matrix.
Hypothesis M_finite : ∀ i j, (coeff M i j < FLT_MAX)%Q.
Variable Row : Z.
Hypothesis Row_small : (Row ≤ 46341)%Z.

Local Abbreviation body := (merge_body dflt dflt_index order M).

Lemma live_key (m : gmap Z AHC_node) (k : Z) :
  k ∈ keys m ↔ is_Some (m !! k).
Proof.
  unfold keys. rewrite list_elem_of_fmap. split.
  - intros ([k' nd] & -> & Hin). apply elem_of_map_to_list in Hin. eauto.
  - intros [nd Hnd]. exists (k, nd). split; [done|]. by apply elem_of_map_to_list.
Qed.

(** The pair that is merged names two different live nodes. *)
Lemma poped_live st :
  merge_inv Row st →
  ∃ n1 n2, st_nodeMap st !! first (st_poped st) = Some n1 ∧
           st_nodeMap st !! second (st_poped st) = Some n2 ∧
           first (st_poped st) ≠ second (st_poped st).
Proof.
  intros [_ (L & HL & Hp) _ _ _ Hpop _].
  assert (Hin : ids (st_poped st) ∈ pairs L).
  { rewrite <- Hp. by apply list_elem_of_fmap_2. }
  assert (HnL : NoDup L) by (rewrite HL; apply NoDup_fst_map_to_list).
  unfold ids in Hin. pose proof (pairs_distinct _ _ _ HnL Hin) as Hne.
  apply elem_of_pairs in Hin as [H1 H2]. rewrite HL in H1, H2.
  apply live_key in H1 as [n1 H1]. apply live_key in H2 as [n2 H2]. eauto.
Qed.

Lemma merged_map_eq st n1 n2 :
  merge_inv Row st →
  st_nodeMap st !! first (st_poped st) = Some n1 →
  st_nodeMap st !! second (st_poped st) = Some n2 →
  merged_map dflt_index st =
    (<[st_index st := mkNode (st_index st) (element n1 ++ element n2)]>
       (delete (second (st_poped st)) (delete (first (st_poped st)) (st_nodeMap st))),
     mkNode (st_index st) (element n1 ++ element n2)).
Proof.
  intros Hinv H1 H2. unfold merged_map, map_at, map_emplace.
  rewrite H1, H2.
  pose proof (inv_keys _ _ Hinv (first (st_poped st)) (mk_is_Some _ _ H1)) as Hk1.
  pose proof (inv_keys _ _ Hinv (second (st_poped st)) (mk_is_Some _ _ H2)) as Hk2.
  destruct (st_nodeMap st !! st_index st) as [nd|] eqn:E.
  { pose proof (inv_keys _ _ Hinv _ (mk_is_Some _ _ E)). lia. }
  f_equal. rewrite !delete_insert_ne by lia. done.
Qed.

Lemma two_deleted (m : gmap Z AHC_node) p q n1 n2 :
  m !! p = Some n1 → m !! q = Some n2 → p ≠ q →
  map_to_list m ≡ₚ (p, n1) :: (q, n2) :: map_to_list (delete q (delete p m)).
Proof.
  intros H1 H2 Hne.
  rewrite <- (map_to_list_delete m p n1) by done.
  apply Permutation_skip.
  rewrite <- (map_to_list_delete (delete p m) q n2); [done|].
  by rewrite lookup_delete_ne.
Qed.

(** The ids of the entries that survive a merge of [p] and [q]. *)
Lemma carried_ids pp ds L :
  ids <$> ds ≡ₚ pairs L →
  ids <$> filter (unrelated pp) ds
    ≡ₚ pairs (filter (fun k => k ≠ first pp ∧ k ≠ second pp) L).
Proof.
  intros Hp.
  rewrite <- (pairs_filter (fun k => k ≠ first pp ∧ k ≠ second pp)).
  rewrite <- Hp, filter_fmap.
  erewrite (list_filter_iff (unrelated pp)); [reflexivity|].
  intros d. unfold unrelated, ids. simpl. tauto.
Qed.

(** The ids of the new entries, for a node map with the entries [kvs]
    besides the new node. *)
Lemma new_ids nn (rest : list (Z * AHC_node)) kvs :
  kvs ≡ₚ (index nn, nn) :: rest →
  Forall (fun kv : Z * AHC_node => kv.1 ≠ index nn) rest →
  ids <$> new_pairs M nn kvs ≡ₚ (fun k => (k, index nn)) <$> rest.*1.
Proof.
  intros Hk Hrest. unfold new_pairs. rewrite Hk, filter_cons.
  rewrite decide_False by (simpl; tauto).
  rewrite filter_all by done. rewrite <- !list_fmap_compose. done.
Qed.

(** One pass of the loop body from a state between two merges: the two
    nodes of [poped] are replaced by the new node, the candidate vector
    keeps the entries that touch neither of them, in their order, and
    gains one entry per other live node.  With two nodes left the pass
    ends in the read of [tempVec[-1]]. *)
Lemma body_step st :
  merge_inv Row st →
  ∃ n1 n2,
    st_nodeMap st !! first (st_poped st) = Some n1 ∧
    st_nodeMap st !! second (st_poped st) = Some n2 ∧
    let nn := mkNode (st_index st) (element n1 ++ element n2) in
    let m4 := <[st_index st := nn]>
                (delete (second (st_poped st))
                        (delete (first (st_poped st)) (st_nodeMap st))) in
    let es := filter (unrelated (st_poped st)) (st_dNodeVec st)
              ++ new_pairs M nn (order m4) in
    S (size m4) = size (st_nodeMap st) ∧
    ((size (st_nodeMap st) ≤ 2)%nat → body st = UB) ∧
    ((3 ≤ size (st_nodeMap st))%nat →
       ∃ poped', body st = Done (mkMergeState m4 es poped' (st_index st + 1)) ∧
                 merge_inv Row (mkMergeState m4 es poped' (st_index st + 1))).
Proof.
  intros Hinv.
  destruct (poped_live st Hinv) as (n1 & n2 & H1 & H2 & Hne).
  exists n1, n2. split; [done|]. split; [done|].
  set (p := first (st_poped st)) in *. set (q := second (st_poped st)) in *.
  set (m := st_nodeMap st) in *. set (ix := st_index st).
  set (nn := mkNode ix (element n1 ++ element n2)).
  set (m' := delete q (delete p m)).
  cbv zeta. set (m4 := <[ix := nn]> m').
  pose proof (inv_keys _ _ Hinv) as Hkeys. fold m ix in Hkeys.
  assert (Hp : (0 ≤ p < ix)%Z) by (apply Hkeys; eauto).
  assert (Hq : (0 ≤ q < ix)%Z) by (apply Hkeys; eauto).
  assert (Hfresh : m' !! ix = None).
  { unfold m'. rewrite !lookup_delete_ne by lia.
    destruct (m !! ix) eqn:E; [|done]. specialize (Hkeys ix (mk_is_Some _ _ E)). lia. }
  pose proof (two_deleted m p q n1 n2 H1 H2 Hne) as Hm. fold m' in Hm.
  pose proof (map_to_list_insert m' ix nn Hfresh) as Hm4. fold m4 in Hm4.
  assert (Hsize : S (size m4) = size m).
  { rewrite <- !length_map_to_list, Hm4, Hm. done. }
  split; [done|].
  (* the ghost list of live ids, older first *)
  destruct (inv_pairs _ _ Hinv) as (L & HL & HpL). fold m in HL.
  set (P := fun k : Z => k ≠ p ∧ k ≠ q).
  assert (HnL : NoDup L) by (rewrite HL; apply NoDup_fst_map_to_list).
  assert (Hrest : Forall (fun kv : Z * AHC_node => kv.1 ≠ ix) (map_to_list m')).
  { apply Forall_forall. intros [k nd] Hin%elem_of_map_to_list. simpl.
    intros ->. congruence. }
  assert (HPL : filter P L ≡ₚ keys m').
  { rewrite HL. unfold keys. rewrite Hm. simpl. rewrite !filter_cons.
    rewrite !decide_False by (unfold P; tauto).
    rewrite filter_all; [done|]. apply Forall_forall.
    intros k Hk. change (k ∈ keys m') in Hk. apply live_key in Hk as [nd Hk].
    unfold m' in Hk. split; intros ->.
    - rewrite lookup_delete_ne, lookup_delete_eq in Hk by done. done.
    - rewrite lookup_delete_eq in Hk. done. }
  set (es1 := filter (unrelated (st_poped st)) (st_dNodeVec st)).
  set (es2 := new_pairs M nn (order m4)).
  assert (Hids : ids <$> (es1 ++ es2) ≡ₚ pairs (filter P L ++ [ix])).
  { rewrite fmap_app, pairs_snoc. apply Permutation_app.
    - by apply carried_ids.
    - unfold es2. rewrite (new_ids nn (map_to_list m')); [|by rewrite order_perm|done].
      simpl. fold (keys m'). by rewrite HPL. }
  assert (HL4 : filter P L ++ [ix] ≡ₚ keys m4).
  { unfold keys at 1. rewrite Hm4. simpl. fold (keys m').
    rewrite HPL. by rewrite <- Permutation_cons_append. }
  assert (Hlen : (2 * length (es1 ++ es2) = size m4 * (size m4 - 1))%nat).
  { rewrite <- (length_fmap ids), Hids, length_pairs, HL4.
    unfold keys. by rewrite length_fmap, length_map_to_list. }
  pose proof (inv_size _ _ Hinv) as Hsz. fold m in Hsz.
  assert (Hmul : int_mul (Z.of_nat (size m4)) (Z.of_nat (size m4) - 1)
                 = Done (Z.of_nat (size m4) * (Z.of_nat (size m4) - 1))%Z).
  { unfold int_mul, INT_MAX. apply decide_True. nia. }
  assert (HN : Z.to_nat (Z.quot (Z.of_nat (size m4) * (Z.of_nat (size m4) - 1)) 2)
               = length (es1 ++ es2)).
  { rewrite Z.quot_div_nonneg by nia.
    replace (Z.of_nat (size m4) * (Z.of_nat (size m4) - 1))%Z
      with (Z.of_nat (length (es1 ++ es2)) * 2)%Z by nia.
    rewrite Z.div_mul by done. lia. }
  (* the run of the body *)
  assert (Hd1 : Forall (fun d => distance d < FLT_MAX)%Q es1).
  { apply Forall_forall. intros d [_ Hd]%list_elem_of_filter.
    by apply (inv_dist _ _ Hinv). }
  assert (Hnn : element nn ≠ []).
  { simpl. pose proof (inv_nonempty _ _ Hinv _ _ H1). by destruct (element n1). }
  assert (Hne4 : ∀ k nd, m4 !! k = Some nd → element nd ≠ []).
  { intros k nd. unfold m4. rewrite lookup_insert_Some.
    intros [[_ <-]|[_ Hk]]; [done|]. unfold m' in Hk.
    apply lookup_delete_Some in Hk as [_ Hk]. apply lookup_delete_Some in Hk as [_ Hk].
    by apply (inv_nonempty _ _ Hinv k). }
  assert (Hd2 : Forall (fun d => distance d < FLT_MAX)%Q es2).
  { apply Forall_fmap, Forall_forall. intros [k nd] [_ Hin]%list_elem_of_filter. simpl.
    apply linkage_finite; [done|done|]. rewrite order_perm in Hin.
    apply elem_of_map_to_list in Hin. by eapply Hne4. }
  assert (Hbody : ∃ s2, tempVec s2 = es1 ++ es2 ∧ current s2 = length (es1 ++ es2) ∧
            tracked s2 ∧
            body st = obind (vec_read (tempVec s2) (target s2)) (fun poped' =>
                        if decide (current s2 = length (tempVec s2))
                        then Done (mkMergeState m4 (tempVec s2) poped' (ix + 1))
                        else AssertFail)).
  { unfold merge_body. rewrite (merged_map_eq st n1 n2) by done.
    fold p q m m' ix nn m4. rewrite Hmul. cbn [obind]. rewrite HN, copy_loop.
    fold es1.
    set (s0 := mkScan _ _ _ _).
    destruct (puts_fill es1 s0) as (s1 & -> & Htv1 & Hc1 & Htr1).
    { simpl. rewrite length_replicate, length_app. lia. }
    cbn [obind]. simpl in Htv1, Hc1.
    assert (Hlen1 : length (tempVec s1) = length (es1 ++ es2)).
    { rewrite Htv1, !length_app, length_drop, length_replicate. lia. }
    rewrite link_loop; [|done| |].
    2:{ apply Forall_forall. intros [k nd] Hin. rewrite order_perm in Hin.
        apply elem_of_map_to_list in Hin. simpl. by eapply Hne4. }
    2:{ fold es2. rewrite Hlen1, Hc1, length_app. lia. }
    fold es2.
    destruct (puts_fill es2 s1) as (s2 & -> & Htv2 & Hc2 & Htr2).
    { rewrite Hlen1, Hc1, length_app. lia. }
    cbn [obind]. exists s2.
    assert (Htv : tempVec s2 = es1 ++ es2).
    { rewrite Htv2, Hc1, Htv1.
      rewrite take_app_length.
      rewrite drop_ge; [by rewrite app_nil_r|].
      rewrite <- Htv1, Hlen1, length_app. lia. }
    split; [done|]. split; [by rewrite Hc2, Hc1, length_app|].
    split; [|done]. apply Htr2; [done|]. apply Htr1; [done|].
    left. done. }
  destruct Hbody as (s2 & Htv & Hcur & Htr & ->). rewrite Htv, Hcur.
  split.
  - (* two nodes: nothing is written and [target] stays -1 *)
    intros Hle. assert (size m4 = 1%nat) as Hs4.
    { assert (1 ≤ size m4)%nat; [|lia].
      rewrite <- length_map_to_list, Hm4. simpl. lia. }
    rewrite Hs4 in Hlen. assert (length (es1 ++ es2) = 0%nat) as Hl0 by lia.
    destruct Htr as [(-> & _)|(k & _ & Hk & _)]; [|lia].
    unfold vec_read. simpl. done.
  - intros Hge. assert (length (es1 ++ es2) ≠ 0%nat) as Hl0 by nia.
    destruct Htr as [(_ & _ & Hc0)|(k & -> & Hk & _)]; [lia|].
    destruct (lookup_lt_is_Some_2 (es1 ++ es2) k) as [d Hd]; [lia|].
    exists d. split.
    { unfold vec_read. rewrite decide_False by lia. rewrite Nat2Z.id, Hd.
      cbn [obind]. by rewrite decide_True. }
    constructor; simpl.
    + intros k' [nd Hk']. unfold m4 in Hk'. apply lookup_insert_Some in Hk' as [[<- _]|[_ Hk']].
      * lia.
      * unfold m' in Hk'. apply lookup_delete_Some in Hk' as [_ Hk'].
        apply lookup_delete_Some in Hk' as [_ Hk'].
        specialize (Hkeys k' (mk_is_Some _ _ Hk')). lia.
    + exists (filter P L ++ [ix]). split; done.
    + unfold members. rewrite Hm4. simpl.
      rewrite <- (inv_part _ _ Hinv). fold m. unfold members. rewrite Hm. simpl.
      by rewrite <- !app_assoc.
    + done.
    + intros d' [Hin|Hin]%elem_of_app.
      * eapply Forall_forall in Hd1; eauto.
      * eapply Forall_forall in Hd2; eauto.
    + by eapply list_elem_of_lookup_2.
    + lia.
Qed.

(** A successful pass keeps the state well-formed. *)
Lemma body_keeps_inv st st' :
  merge_inv Row st → body st = Done st' →
  merge_inv Row st' ∧ S (size (st_nodeMap st')) = size (st_nodeMap st).
Proof.
  intros Hinv Hb.
  destruct (body_step st Hinv) as (n1 & n2 & _ & _ & Hsize & Hub & Hok).
  destruct (decide (size (st_nodeMap st) ≤ 2)%nat) as [Hle|Hgt].
  - rewrite Hub in Hb by done. done.
  - destruct Hok as (pp & Hb' & Hinv'); [lia|].
    rewrite Hb' in Hb. injection Hb as <-. done.
Qed.

Lemma reaches_inv st st' :
  merge_inv Row st → reaches dflt dflt_index order M st st' → merge_inv Row st'.
Proof.
  intros Hinv Hr. induction Hr as [|st st1 st2 Hb _ IH]; [done|].
  apply IH. by eapply body_keeps_inv.
Qed.

(** Asked for between 2 and [size - 1] clusters, the loop ends with that
    many nodes. *)
Lemma loop_reaches_target numberOfClusters fuel : ∀ st,
  merge_inv Row st →
  (2 ≤ numberOfClusters < Z.of_nat (size (st_nodeMap st)))%Z →
  (Z.of_nat (size (st_nodeMap st)) - numberOfClusters ≤ Z.of_nat fuel)%Z →
  ∃ st', merge_loop dflt dflt_index order fuel M numberOfClusters st = Done st' ∧
         merge_inv Row st' ∧
         Z.of_nat (size (st_nodeMap st')) = numberOfClusters ∧
         reaches dflt dflt_index order M st st'.
Proof.
  induction fuel as [|fuel IH]; intros st Hinv Hn Hfuel; [lia|].
  destruct (body_step st Hinv) as (n1 & n2 & _ & _ & Hsize & _ & Hok).
  destruct Hok as (pp & Hb & Hinv'); [lia|].
  cbn [merge_loop]. rewrite Hb. cbn [obind st_nodeMap].
  destruct (decide (Z.of_nat (size _) = numberOfClusters)) as [He|Hne].
  - eexists. split; [done|]. split; [done|]. split; [done|].
    eapply reaches_step; [done|constructor].
  - destruct (IH _ Hinv') as (st' & Hl & Hi & Hs & Hr); simpl; [lia|lia|].
    exists st'. split; [done|]. split; [done|]. split; [done|].
    eapply reaches_step; eauto.
Qed.

(** Asked for fewer than 2 clusters, or for no fewer than there are
    nodes, the loop merges until two nodes are left and then reads
    [tempVec[-1]]. *)
Lemma loop_overruns numberOfClusters fuel : ∀ st,
  merge_inv Row st →
  (numberOfClusters < 2 ∨ Z.of_nat (size (st_nodeMap st)) ≤ numberOfClusters)%Z →
  (size (st_nodeMap st) ≤ S fuel)%nat →
  merge_loop dflt dflt_index order fuel M numberOfClusters st = UB.
Proof.
  induction fuel as [|fuel IH]; intros st Hinv Hn Hfuel.
  - destruct (body_step st Hinv) as (n1 & n2 & H1 & H2 & Hsize & _ & _).
    cbv zeta in Hsize. rewrite map_size_insert_None in Hsize; [lia|].
    pose proof (inv_keys _ _ Hinv _ (mk_is_Some _ _ H1)).
    pose proof (inv_keys _ _ Hinv _ (mk_is_Some _ _ H2)).
    rewrite !lookup_delete_ne by lia.
    destruct (st_nodeMap st !! st_index st) eqn:E; [|done].
    pose proof (inv_keys _ _ Hinv _ (mk_is_Some _ _ E)). lia.
  - destruct (body_step st Hinv) as (n1 & n2 & _ & _ & Hsize & Hub & Hok).
    cbn [merge_loop].
    destruct (decide (size (st_nodeMap st) ≤ 2)%nat) as [Hle|Hgt].
    + by rewrite Hub.
    + destruct Hok as (pp & Hb & Hinv'); [lia|].
      rewrite Hb. cbn [obind st_nodeMap].
      rewrite decide_False by lia.
      apply IH; simpl; [done|lia|lia].
Qed.

End Step.

(** *** The state before the first merge *)

Section Start.
Variable dflt : DistNode.
Variable dflt_index : Z.
Variable M : Matrix.
Hypothesis M_finite : ∀ i j, (coeff M i j < FLT_MAX)%Q.

Lemma setValue_inner i js : ∀ v tag,
  (tag + length js ≤ length v)%nat →
  foldM (fun '(v, tag) j =>
           obind (vec_write v tag (mkDistNode i j (coeff M i j)))
                 (fun v' => Done (v', S tag)))
        js (v, tag)
  = Done (take tag v ++ ((fun j => mkDistNode i j (coeff M i j)) <$> js)
            ++ drop (tag + length js) v,
          (tag + length js)%nat).
Proof.
  induction js as [|j js IH]; intros v tag Hlen; simpl in *.
  - by rewrite Nat.add_0_r, take_drop.
  - unfold vec_write. rewrite decide_True by lia. cbn [obind].
    rewrite IH by (rewrite length_insert; lia).
    rewrite (take_S_r _ _ (mkDistNode i j (coeff M i j)))
      by (apply list_lookup_insert_eq; lia).
    rewrite take_insert_ge, drop_insert_lt by lia.
    rewrite <- app_assoc. simpl.
    by replace (S (tag + length js)) with (tag + S (length js))%nat by lia.
Qed.

Lemma setValue_outer (js : Z → list Z) (rows_ : list Z) : ∀ v tag,
  (tag + length (concat ((fun i => (fun j => mkDistNode i j (coeff M i j)) <$> js i)
                           <$> rows_)) ≤ length v)%nat →
  foldM (fun st i =>
           foldM (fun '(v, tag) j =>
                    obind (vec_write v tag (mkDistNode i j (coeff M i j)))
                          (fun v' => Done (v', S tag)))
                 (js i) st)
        rows_ (v, tag)
  = Done (take tag v
            ++ concat ((fun i => (fun j => mkDistNode i j (coeff M i j)) <$> js i)
                         <$> rows_)
            ++ drop (tag + length (concat
                       ((fun i => (fun j => mkDistNode i j (coeff M i j)) <$> js i)
                          <$> rows_))) v,
          (tag + length (concat ((fun i => (fun j => mkDistNode i j (coeff M i j)) <$> js i)
                                   <$> rows_)))%nat).
Proof.
  induction rows_ as [|i rows_ IH]; intros v tag Hlen.
  - simpl. by rewrite Nat.add_0_r, take_drop.
  - rewrite fmap_cons in *. cbn [concat foldM] in *.
    set (new := (fun j => mkDistNode i j (coeff M i j)) <$> js i) in *.
    set (rest := concat _) in *.
    rewrite length_app in Hlen.
    assert (Hnew : length new = length (js i)) by (unfold new; by rewrite length_fmap).
    rewrite setValue_inner by lia. cbn [obind]. fold new. rewrite <- Hnew.
    rewrite IH.
    2:{ rewrite !length_app, length_take, length_drop. lia. }
    assert (Htk : length (take tag v ++ new) = (tag + length new)%nat).
    { rewrite length_app, length_take. lia. }
    rewrite (app_assoc (take tag v) new).
    rewrite (take_app_length' (take tag v ++ new)) by done.
    rewrite <- Htk at 1. rewrite drop_app_add, drop_drop.
    rewrite <- !app_assoc, length_app.
    by replace (tag + length new + length rest)%nat
      with (tag + (length new + length rest))%nat by lia.
Qed.

Lemma pairs_by_rows (n : nat) : ∀ a,
  concat ((fun i => (fun j => mkDistNode i j (coeff M i j))
                      <$> seqZ (i + 1) (a + Z.of_nat n - (i + 1)))
            <$> seqZ a (Z.of_nat n - 1))
  = (fun ab => mkDistNode ab.1 ab.2 (coeff M ab.1 ab.2)) <$> pairs (seqZ a (Z.of_nat n)).
Proof.
  induction n as [|n IH]; intros a; [done|].
  rewrite (seqZ_cons a (Z.of_nat (S n))) by lia. cbn [pairs].
  replace (Z.pred (Z.of_nat (S n))) with (Z.of_nat n) by lia.
  replace (Z.succ a) with (a + 1)%Z by lia.
  destruct n as [|n]; [done|].
  replace (Z.of_nat (S (S n)) - 1)%Z with (Z.of_nat (S n)) by lia.
  rewrite (seqZ_cons a (Z.of_nat (S n))) by lia.
  rewrite fmap_cons. cbn [concat]. rewrite fmap_app, <- list_fmap_compose.
  replace (a + Z.of_nat (S (S n)) - (a + 1))%Z with (Z.of_nat (S n)) by lia.
  f_equal. rewrite <- IH.
  replace (Z.pred (Z.of_nat (S n))) with (Z.of_nat (S n) - 1)%Z by lia.
  replace (Z.succ a) with (a + 1)%Z by lia.
  f_equal. apply list_fmap_ext. intros _ i _. do 2 f_equal. lia.
Qed.

(** [setValue] writes the pairs [(i, j)], [i < j], in lexicographic
    order; the counter ends at the size of the vector. *)
Lemma setValue_Done (reduced_data : Matrix) :
  (rows reduced_data ≤ 46341)%Z →
  setValue dflt reduced_data M = Done (initial_pairs M (rows reduced_data)).
Proof.
  intros Hsmall. unfold setValue, rows in *.
  set (n := length reduced_data) in *.
  assert (Hmul : int_mul (Z.of_nat n) (Z.of_nat n - 1)
                 = Done (Z.of_nat n * (Z.of_nat n - 1))%Z).
  { unfold int_mul, INT_MAX. apply decide_True. nia. }
  rewrite Hmul. cbn [obind].
  pose proof (length_pairs (seqZ 0 (Z.of_nat n))) as Hlp.
  rewrite length_seqZ, Nat2Z.id in Hlp.
  assert (HN : Z.to_nat (Z.quot (Z.of_nat n * (Z.of_nat n - 1)) 2)
               = length (pairs (seqZ 0 (Z.of_nat n)))).
  { rewrite Z.quot_div_nonneg by nia.
    replace (Z.of_nat n * (Z.of_nat n - 1))%Z
      with (Z.of_nat (length (pairs (seqZ 0 (Z.of_nat n)))) * 2)%Z by nia.
    rewrite Z.div_mul by done. lia. }
  pose proof (pairs_by_rows n 0) as Hrows. rewrite Z.add_0_l in Hrows.
  rewrite HN, setValue_outer; rewrite Hrows, ?length_fmap, ?length_replicate; [|lia].
  cbn [obind]. rewrite take_0, drop_ge by (rewrite length_replicate; lia).
  rewrite app_nil_r. simpl. rewrite decide_True by (by rewrite length_fmap).
  done.
Qed.

Lemma init_nodes_snoc (m : gmap Z AHC_node) (n : nat) :
  init_nodes dflt_index m (Z.of_nat (S n))
  = (let '(m', nd) := map_at dflt_index (init_nodes dflt_index m (Z.of_nat n)) (Z.of_nat n) in
     <[Z.of_nat n := mkNode (index nd) (element nd ++ [Z.of_nat n])]> m').
Proof. unfold init_nodes. rewrite seqZ_S, foldl_app. simpl. done. Qed.

(** The node map after the first loop of [hierarchicalMerging], started
    on an empty map: one node per curve. *)
Lemma init_nodes_empty (n : nat) :
  (∀ k, is_Some (init_nodes dflt_index ∅ (Z.of_nat n) !! k) → (0 ≤ k < Z.of_nat n)%Z) ∧
  map_to_list (init_nodes dflt_index ∅ (Z.of_nat n))
    ≡ₚ (fun i => (i, mkNode dflt_index [i])) <$> seqZ 0 (Z.of_nat n).
Proof.
  induction n as [|n [IHk IHl]].
  - unfold init_nodes. simpl. split.
    + intros k [nd Hk]. by rewrite lookup_empty in Hk.
    + by rewrite map_to_list_empty.
  - rewrite init_nodes_snoc. unfold map_at.
    destruct (init_nodes dflt_index ∅ (Z.of_nat n) !! Z.of_nat n) eqn:E.
    { specialize (IHk _ (mk_is_Some _ _ E)). lia. }
    rewrite insert_insert_eq. simpl. split.
    + intros k [nd Hk]. apply lookup_insert_Some in Hk as [[<- _]|[_ Hk]]; [lia|].
      specialize (IHk _ (mk_is_Some _ _ Hk)). lia.
    + rewrite map_to_list_insert by done. rewrite IHl, seqZ_S, fmap_app. simpl.
      by rewrite <- Permutation_cons_append.
Qed.

Lemma scan_from_range v : ∀ i t md,
  ((t = (-1)%Z ∧ md = FLT_MAX) ∨ (0 ≤ t < Z.of_nat i)%Z ∧ (md < FLT_MAX)%Q) →
  Forall (fun d => distance d < FLT_MAX)%Q v →
  let r := scan_from i v t md in
  (v = [] ∧ r.1 = t) ∨ (0 ≤ r.1 < Z.of_nat (i + length v))%Z.
Proof.
  induction v as [|d v IH]; intros i t md Ht Hv; simpl; [by left|].
  apply Forall_cons in Hv as [Hd Hv]. right.
  destruct (Qltb (distance d) md) eqn:Hb.
  - destruct (IH (S i) (Z.of_nat i) (distance d)) as [[_ ->]|H]; [right|done|lia|lia].
    split; [lia|done].
  - apply Qltb_ge in Hb. destruct Ht as [[-> ->]|[Ht Hmd]].
    + exfalso. by eapply Qlt_not_le.
    + destruct (IH (S i) t md) as [[_ ->]|H]; [right|done|lia|lia].
      split; [lia|done].
Qed.

End Start.

(** *** What the invariant says about the candidate vector *)

Lemma filter_none {A} (P : A → Prop) `{∀ x, Decision (P x)} (l : list A) :
  (∀ x, x ∈ l → ¬ P x) → filter P l = [].
Proof.
  induction l as [|z l IH]; [done|]. intros Hl.
  rewrite filter_cons, decide_False by (apply Hl; by left).
  apply IH. intros x Hx. apply Hl. by right.
Qed.

Lemma filter_one {A} `{EqDecision A} (l : list A) (x y : A) :
  NoDup l → x ∈ l → y ∉ l →
  length (filter (fun z => z = x ∨ z = y) l) = 1%nat.
Proof.
  induction l as [|z l IH]; [by intros _ ?%elem_of_nil|].
  intros [Hz Hl]%NoDup_cons Hx Hy. rewrite filter_cons.
  apply not_elem_of_cons in Hy as [Hyz Hy].
  apply elem_of_cons in Hx as [->|Hx].
  - rewrite decide_True by (by left). simpl. f_equal.
    rewrite filter_none; [done|]. intros w Hw [-> | ->]; done.
  - rewrite decide_False; [by apply IH|]. intros [-> | ->]; done.
Qed.

Lemma inv_exact_pairs Row st : merge_inv Row st → exact_pairs st.
Proof.
  intros Hinv. destruct (inv_pairs _ _ Hinv) as (L & HL & Hp).
  assert (HnL : NoDup L) by (rewrite HL; apply NoDup_fst_map_to_list).
  assert (Hlive : ∀ k, k ∈ L ↔ is_Some (st_nodeMap st !! k)).
  { intros k. rewrite HL. unfold keys. rewrite list_elem_of_fmap. split.
    - intros ([k' nd] & -> & Hin). apply elem_of_map_to_list in Hin. eauto.
    - intros [nd Hnd]. exists (k, nd). split; [done|]. by apply elem_of_map_to_list. }
  split; [|split].
  - rewrite <- (length_fmap ids), Hp, length_pairs, HL.
    unfold keys. by rewrite length_fmap, length_map_to_list.
  - intros d Hd. assert (Hin : ids d ∈ pairs L).
    { rewrite <- Hp. by apply list_elem_of_fmap_2. }
    unfold ids in Hin. pose proof (pairs_distinct _ _ _ HnL Hin).
    apply elem_of_pairs in Hin as [H1 H2]. by rewrite <- !Hlive.
  - intros a b Ha Hb Hab. apply Hlive in Ha, Hb.
    assert (length (filter (joins a b) (st_dNodeVec st))
            = length (filter (fun z => z = (a, b) ∨ z = (b, a)) (pairs L))) as ->.
    { rewrite <- Hp, filter_fmap, length_fmap. done. }
    destruct (pairs_one_order L a b HnL Ha Hb Hab) as [[H1 H2]|[H1 H2]].
    + apply filter_one; auto using NoDup_pairs.
    + erewrite (list_filter_iff _ (fun z => z = (b, a) ∨ z = (a, b))) by (intros; tauto).
      apply filter_one; auto using NoDup_pairs.
Qed.

Lemma concat_singletons {A} (l : list A) : concat ((fun x => [x]) <$> l) = l.
Proof. induction l as [|x l IH]; [done|]. rewrite fmap_cons. simpl. by rewrite IH. Qed.

Section Start_inv.
Variable dflt_index : Z.
Variable M : Matrix.
Hypothesis M_finite : ∀ i j, (coeff M i j < FLT_MAX)%Q.

(** With at least two curves the loop is entered in a well-formed state:
    one node per curve and the candidate vector of [setValue]. *)
Lemma merge_start_inv (cArray : Matrix) :
  (2 ≤ rows cArray)%Z →
  ∃ poped,
    merge_start dflt_index ∅ (initial_pairs M (rows cArray)) cArray
      = Done (mkMergeState (init_nodes dflt_index ∅ (rows cArray))
                           (initial_pairs M (rows cArray)) poped (rows cArray)) ∧
    merge_inv (rows cArray)
      (mkMergeState (init_nodes dflt_index ∅ (rows cArray))
                    (initial_pairs M (rows cArray)) poped (rows cArray)) ∧
    Z.of_nat (size (init_nodes dflt_index ∅ (rows cArray))) = rows cArray.
Proof.
  intros Hrow. unfold rows in *. set (n := length cArray) in *.
  destruct (init_nodes_empty dflt_index n) as [Hk Hl].
  set (m := init_nodes dflt_index ∅ (Z.of_nat n)) in *.
  set (ds := initial_pairs M (Z.of_nat n)).
  assert (Hids : ids <$> ds = pairs (seqZ 0 (Z.of_nat n))).
  { unfold ds, initial_pairs. rewrite <- list_fmap_compose.
    rewrite <- (list_fmap_id (pairs _)) at 2. apply list_fmap_ext. by intros _ [a b] _. }
  assert (Hfin : Forall (fun d => distance d < FLT_MAX)%Q ds).
  { apply Forall_fmap, Forall_forall. intros ab _. simpl. apply M_finite. }
  assert (Hlen : (length ds ≠ 0)%nat).
  { pose proof (length_pairs (seqZ 0 (Z.of_nat n))) as H.
    rewrite <- Hids, length_fmap, length_seqZ in H. nia. }
  pose proof (scan_from_range ds 0 (-1) FLT_MAX (or_introl (conj eq_refl eq_refl)) Hfin) as Hs.
  cbv zeta in Hs. destruct Hs as [[-> _]|Hs]; [done|].
  destruct (lookup_lt_is_Some_2 ds (Z.to_nat (scan_from 0 ds (-1) FLT_MAX).1))
    as [pp Hpp]; [lia|].
  exists pp. unfold merge_start, rows. fold n m ds. unfold vec_read.
  rewrite decide_False by lia. rewrite Hpp. cbn [obind].
  assert (Hsize : size m = n).
  { by rewrite <- length_map_to_list, Hl, length_fmap, length_seqZ, Nat2Z.id. }
  split; [done|]. split; [|lia].
  constructor; simpl.
  - done.
  - exists (seqZ 0 (Z.of_nat n)). split; [|by rewrite Hids].
    unfold keys. rewrite Hl, <- list_fmap_compose.
    rewrite <- (list_fmap_id (seqZ _ _)) at 1. done.
  - unfold members. rewrite Hl, <- list_fmap_compose.
    by rewrite <- (concat_singletons (seqZ 0 (Z.of_nat n))) at 2.
  - intros k nd Hnd. apply elem_of_map_to_list in Hnd. rewrite Hl in Hnd.
    apply list_elem_of_fmap in Hnd as (i & [= -> ->] & _). done.
  - intros d Hd. eapply Forall_forall in Hfin; eauto.
  - by eapply list_elem_of_lookup_2.
  - lia.
Qed.

End Start_inv.

(** *** The result of the merger and its labels *)

Lemma vec_write_Done {A} (v : list A) (i : nat) (x : A) :
  (i < length v)%nat → vec_write v i x = Done (<[i := x]> v).
Proof. intros H. unfold vec_write. by rewrite decide_True. Qed.

Lemma concat_Permutation {A} (l k : list (list A)) : l ≡ₚ k → concat l ≡ₚ concat k.
Proof.
  induction 1 as [|x l k _ IH|x y l|l k j _ IH1 _ IH2]; simpl.
  - done.
  - by rewrite IH.
  - rewrite !app_assoc. by rewrite (Permutation_app_comm x y).
  - by rewrite IH1.
Qed.

Lemma recorder_loop (g : nat) (es : list Z) : ∀ rec : list Z,
  (∀ e, e ∈ es → (0 ≤ e < Z.of_nat (length rec))%Z) →
  ∃ rec', foldM (fun r e => if decide (0 ≤ e)%Z
                            then vec_write r (Z.to_nat e) (Z.of_nat g)
                            else UB) es rec = Done rec' ∧
          length rec' = length rec.
Proof.
  induction es as [|e es IH]; intros rec Hes; [simpl; eauto|]. cbn [foldM].
  assert (0 ≤ e < Z.of_nat (length rec))%Z as He by (apply Hes; by left).
  rewrite decide_True by lia. rewrite vec_write_Done by lia.
  cbn [obind]. destruct (IH (<[Z.to_nat e := Z.of_nat g]> rec)) as (rec' & -> & Hl).
  { intros e' He'. rewrite length_insert. apply Hes. by right. }
  exists rec'. split; [done|]. by rewrite Hl, length_insert.
Qed.

Lemma setLabel_loop (nodes : list AHC_node) : ∀ nv sto rec g,
  (g + length nodes ≤ length nv)%nat → length sto = length nv →
  (∀ nd e, nd ∈ nodes → e ∈ element nd → (0 ≤ e < Z.of_nat (length rec))%Z) →
  ∃ sto' rec',
    foldM (fun '(nv, sto, rec, groupID) nd =>
             obind (vec_write nv groupID (element nd)) (fun nv' =>
             obind (foldM (fun r e => if decide (0 ≤ e)%Z
                                      then vec_write r (Z.to_nat e) (Z.of_nat groupID)
                                      else UB) (element nd) rec) (fun rec' =>
             obind (vec_write sto groupID (Z.of_nat (length (element nd)))) (fun sto' =>
             Done (nv', sto', rec', S groupID)))))
          nodes (nv, sto, rec, g)
    = Done (take g nv ++ (element <$> nodes) ++ drop (g + length nodes) nv,
            sto', rec', (g + length nodes)%nat).
Proof.
  induction nodes as [|nd nodes IH]; intros nv sto rec g Hlen Hsto Hrec;
    cbn [foldM length] in *.
  - exists sto, rec. simpl. by rewrite Nat.add_0_r, take_drop.
  - rewrite vec_write_Done by lia. cbn [obind].
    destruct (recorder_loop g (element nd) rec) as (rec1 & -> & Hl1).
    { intros e He. eapply Hrec; [by left|done]. }
    cbn [obind]. rewrite vec_write_Done by lia. cbn [obind].
    destruct (IH (<[g := element nd]> nv)
                 (<[g := Z.of_nat (length (element nd))]> sto) rec1 (S g))
      as (sto' & rec' & -> ).
    { rewrite length_insert. lia. }
    { by rewrite !length_insert. }
    { intros nd' e Hnd' He. rewrite Hl1. eapply Hrec; [by right|done]. }
    exists sto', rec'. f_equal. f_equal; [|lia]. f_equal. f_equal.
    rewrite (take_S_r _ _ (element nd)) by (apply list_lookup_insert_eq; lia).
    rewrite take_insert_ge, drop_insert_lt by lia.
    rewrite <- app_assoc. simpl.
    by replace (S (g + length nodes)) with (g + S (length nodes))%nat by lia.
Qed.

Lemma setLabel_Done (nodeVec : list AHC_node) (Row : Z) :
  (∀ nd e, nd ∈ nodeVec → e ∈ element nd → (0 ≤ e < Row)%Z) →
  ∃ sto rec,
    setLabel nodeVec (replicate (length nodeVec) []) (replicate (length nodeVec) 0%Z)
             (replicate (Z.to_nat Row) 0%Z)
    = Done (element <$> nodeVec, sto, rec).
Proof.
  intros Hin. unfold setLabel.
  destruct (setLabel_loop nodeVec (replicate (length nodeVec) [])
              (replicate (length nodeVec) 0%Z) (replicate (Z.to_nat Row) 0%Z) 0)
    as (sto & rec & ->).
  - rewrite length_replicate. lia.
  - by rewrite !length_replicate.
  - intros nd e Hnd He. rewrite length_replicate. specialize (Hin nd e Hnd He). lia.
  - exists sto, rec. cbn [obind]. simpl.
    rewrite drop_ge by (rewrite length_replicate; lia). by rewrite app_nil_r.
Qed.

(** *** The whole run *)

Section Run.
Variable dflt : DistNode.
Variable dflt_index : Z.
Variable order : gmap Z AHC_node → list (Z * AHC_node).
Hypothesis order_perm : ∀ m, order m ≡ₚ map_to_list m.

Lemma reduced_dist_finite (norm : list Q → Q) (cArray : Matrix) :
  (∀ v, norm v < FLT_MAX)%Q →
  ∀ i j, (coeff (reduced_dist_matrix norm cArray) i j < FLT_MAX)%Q.
Proof.
  intros Hn i j. unfold coeff, reduced_dist_matrix.
  destruct (decide _); [|done].
  rewrite !nth_lookup, list_lookup_fmap.
  destruct (seq 0 (length cArray) !! Z.to_nat i) as [ri|]; simpl;
    [|by destruct (Z.to_nat j)].
  rewrite list_lookup_fmap.
  destruct (seq 0 (length cArray) !! Z.to_nat j) as [cj|]; simpl; [|done].
  destruct (decide (ri = cj)); [done|apply Hn].
Qed.

Section Matrix.
Variable M : Matrix.
Hypothesis M_finite : ∀ i j, (coeff M i j < FLT_MAX)%Q.
Variable cArray : Matrix.
Hypothesis Row_range : (2 ≤ rows cArray ≤ 46341)%Z.

Local Abbreviation Row := (rows cArray).
Local Abbreviation body := (merge_body dflt dflt_index order M).

(** A pass that ends normally has the shape described in [body_step]. *)
Lemma body_Done_shape st st' :
  merge_inv Row st → body st = Done st' →
  ∃ news,
    st_dNodeVec st' = filter (unrelated (st_poped st)) (st_dNodeVec st) ++ news ∧
    first <$> news ≡ₚ filter (fun k => k ≠ st_index st) (keys (st_nodeMap st')) ∧
    Forall (fun d => second d = st_index st) news ∧
    is_Some (st_nodeMap st' !! st_index st) ∧
    S (size (st_nodeMap st')) = size (st_nodeMap st) ∧
    merge_inv Row st'.
Proof.
  intros Hinv Hb.
  destruct (body_step dflt dflt_index order order_perm M M_finite Row
              (proj2 Row_range) st Hinv)
    as (n1 & n2 & _ & _ & Hsize & Hub & Hok).
  destruct (decide (size (st_nodeMap st) ≤ 2)%nat) as [Hle|Hgt].
  { rewrite Hub in Hb by done. done. }
  destruct Hok as (pp & Hb' & Hinv'); [lia|].
  rewrite Hb' in Hb. injection Hb as <-. simpl.
  eexists. split; [done|]. split; [|split; [|split; [|done]]].
  - unfold new_pairs, keys. rewrite <- list_fmap_compose, filter_fmap.
    rewrite order_perm. done.
  - apply Forall_fmap, Forall_forall. by intros kv _.
  - rewrite lookup_insert_eq. eauto.
Qed.

Lemma start_Done :
  ∃ st0, obind (setValue dflt cArray M) (fun dNodeVec =>
                  merge_start dflt_index ∅ dNodeVec cArray) = Done st0 ∧
         st_dNodeVec st0 = initial_pairs M Row ∧
         merge_inv Row st0 ∧
         Z.of_nat (size (st_nodeMap st0)) = Row.
Proof.
  rewrite setValue_Done by lia. cbn [obind].
  destruct (merge_start_inv dflt_index M M_finite cArray) as (pp & -> & Hinv & Hs); [lia|].
  eexists. split; [done|]. simpl. done.
Qed.

(** Asked for between 2 and [Row - 1] clusters, [hierarchicalMerging]
    returns that many nodes, and their membership lists are the lists of
    the live nodes of the last state. *)
Lemma hierarchicalMerging_Done (numberOfClusters : Z) (fuel : nat) :
  (2 ≤ numberOfClusters < Row)%Z → (Row - numberOfClusters ≤ Z.of_nat fuel)%Z →
  ∃ nodeVec,
    hierarchicalMerging dflt dflt_index order fuel ∅ (initial_pairs M Row) M cArray
                        numberOfClusters = Done nodeVec ∧
    Z.of_nat (length nodeVec) = numberOfClusters ∧
    concat (element <$> nodeVec) ≡ₚ seqZ 0 Row.
Proof.
  intros Hn Hfuel. unfold hierarchicalMerging.
  destruct (merge_start_inv dflt_index M M_finite cArray) as (pp & -> & Hinv & Hs); [lia|].
  cbn [obind].
  edestruct (loop_reaches_target dflt dflt_index order order_perm M M_finite Row
               (proj2 Row_range) numberOfClusters fuel) as (st & -> & Hinv' & Hsz & _);
    [exact Hinv|simpl; lia|simpl; lia|].
  cbn [obind]. eexists. split; [done|]. split.
  - rewrite merge_sort_Permutation, length_fmap, order_perm, length_map_to_list. done.
  - rewrite <- (inv_part _ _ Hinv'). apply concat_Permutation.
    rewrite merge_sort_Permutation, <- list_fmap_compose, order_perm. done.
Qed.

(** Asked for fewer than 2 clusters, or for [Row] or more, the merger
    never meets its loop test: it merges until two nodes are left and the
    next pass reads [tempVec[-1]]. *)
Lemma hierarchicalMerging_overruns (numberOfClusters : Z) (fuel : nat) :
  (numberOfClusters < 2 ∨ Row ≤ numberOfClusters)%Z → (Row ≤ Z.of_nat (S fuel))%Z →
  hierarchicalMerging dflt dflt_index order fuel ∅ (initial_pairs M Row) M cArray
                      numberOfClusters = UB.
Proof.
  intros Hn Hfuel. unfold hierarchicalMerging.
  destruct (merge_start_inv dflt_index M M_finite cArray) as (pp & -> & Hinv & Hs); [lia|].
  cbn [obind].
  rewrite (loop_overruns dflt dflt_index order order_perm M M_finite Row
             (proj2 Row_range) numberOfClusters fuel); [done|exact Hinv| |]; simpl; lia.
Qed.

End Matrix.

(** [perform_AHC] on at least two curves, asked for between 2 and
    [Row - 1] clusters: the labels are computed and the membership lists
    hold every curve once. *)
Lemma perform_AHC_groups_Done (norm : list Q → Q) (cArray : Matrix) (Cluster : Z) :
  (∀ v, norm v < FLT_MAX)%Q →
  (2 ≤ Cluster < rows cArray)%Z → (rows cArray ≤ 46341)%Z →
  ∃ neighborVec storage recorder,
    perform_AHC_groups dflt dflt_index order norm (length cArray) cArray Cluster
      = Done (neighborVec, storage, recorder) ∧
    Z.of_nat (length neighborVec) = Cluster ∧
    concat neighborVec ≡ₚ seqZ 0 (rows cArray).
Proof.
  intros Hnorm Hc Hrow. unfold perform_AHC_groups.
  pose proof (reduced_dist_finite norm cArray Hnorm) as HM.
  rewrite setValue_Done by lia. cbn [obind].
  destruct (hierarchicalMerging_Done (reduced_dist_matrix norm cArray) HM cArray
              ltac:(lia) Cluster (length cArray))
    as (nodeVec & -> & Hlen & Hp); [lia|unfold rows in *; lia|].
  cbn [obind]. replace (Z.to_nat Cluster) with (length nodeVec) by lia.
  destruct (setLabel_Done nodeVec (rows cArray)) as (sto & rec & ->).
  { intros nd e Hnd He.
    assert (e ∈ seqZ 0 (rows cArray)) as Hin; [|apply elem_of_seqZ in Hin; lia].
    rewrite <- Hp. apply KMeans_Facts.elem_of_concat. exists (element nd).
    split; [by apply list_elem_of_fmap_2|done]. }
  exists (element <$> nodeVec), sto, rec. split; [done|].
  split; [by rewrite length_fmap|done].
Qed.

End Run.

End AHC_Facts.

(** ** Balanced entropy *)

Module Entropy_Facts.
Import Float32 Entropy.

Lemma sum_list_positive (l : list nat) :
  sum_list (filter (fun s => 0 < s)%nat l) = sum_list l.
Proof.
  induction l as [|x l IH]; [done|].
  rewrite filter_cons. destruct (decide (0 < x)%nat); simpl; lia.
Qed.


Lemma sum_list_all_equal (l : list nat) (x : nat) :
  (∀ y, y ∈ l → y = x) → sum_list l = (length l * x)%nat.
Proof.
  induction l as [|y l IH]; intros H; [done|]. simpl.
  rewrite IH by (intros z Hz; apply H; by right).
  rewrite (H y) by (by left). lia.
Qed.



(** *** Sizes and probabilities as floats *)



Lemma representable_one : representable 1 1 0.
Proof. split; [reflexivity|lia]. Qed.


(** A positive size is converted to a float that is at least 1, or to
    [+inf]. *)
Lemma of_nat_pos (n : nat) : (0 < n)%nat →
  (∃ r, of_nat n = Fin r ∧ (1 <= r)%Q) ∨ of_nat n = Inf false.
Proof.
  intros Hn. unfold of_nat, of_int.
  assert (H1 : (1 <= inject_Z (Z.of_nat n))%Q).
  { change 1%Q with (inject_Z 1). rewrite <- Zle_Qle. lia. }
  assert (Hpos : (0 < inject_Z (Z.of_nat n))%Q).
  { eapply Qlt_le_trans; [|exact H1]. reflexivity. }
  rewrite (Float32_Facts.fround_pos _ Hpos).
  destruct (Qltb FLT_MAX _); [by right|]. left. eexists. split; [done|].
  rewrite Qred_correct.
  exact (Float32_Facts.magnitude_ge _ 1 1 0 H1 representable_one).
Qed.

Lemma Qeq_bool_pos (r : Q) : (0 < r)%Q → Qeq_bool r 0 = false.
Proof.
  intros H. apply Float32_Facts.Qeq_bool_false. intros E. rewrite E in H.
  by apply Qlt_irrefl in H.
Qed.


(** [float(Row)/float(Row)] is 1, or [inf/inf]. *)
Lemma probability_self (Row : nat) : (0 < Row)%nat →
  probability Row Row = Fin 1 ∨ probability Row Row = NaN.
Proof.
  intros H. unfold probability.
  destruct (of_nat_pos Row H) as [(r & -> & Hr)| ->]; [|by right]. left.
  assert (Hpos : (0 < r)%Q) by (eapply Qlt_le_trans; [|exact Hr]; reflexivity).
  cbn [fdiv]. rewrite (Qeq_bool_pos r Hpos).
  rewrite (Float32_Facts.fround_comp (r / r) 1); [done|].
  field. intros E. rewrite E in Hpos. by apply Qlt_irrefl in Hpos.
Qed.

Section Entropy.
Variable log2f_lib : Q → Q.

Local Abbreviation term s Row :=
  (fmul (probability s Row) (log2f log2f_lib (probability s Row))).
Local Abbreviation step Row :=
  (fun e (s : nat) => if decide (0 < s)%nat then fadd e (term s Row) else e).

Lemma entropy_sum_zeros (l : list nat) (Row : nat) (e : fval) :
  Forall (fun s => ¬ (0 < s)%nat) l → foldl (step Row) e l = e.
Proof.
  revert e. induction l as [|s l IH]; intros e Hl; [done|].
  apply Forall_cons in Hl as [Hs Hl]. cbn [foldl].
  rewrite decide_False by done. by apply IH.
Qed.

Lemma filter_one_split {A} (P : A → Prop) `{∀ x, Decision (P x)} (l : list A) :
  length (filter P l) = 1%nat →
  ∃ l1 x l2, l = l1 ++ x :: l2 ∧ P x ∧ Forall (fun y => ¬ P y) l1 ∧
             Forall (fun y => ¬ P y) l2.
Proof.
  induction l as [|y l IH]; [done|]. rewrite filter_cons.
  destruct (decide (P y)) as [Hy|Hy].
  - cbn [length]. intros Hl. exists [], y, l. split; [done|]. split; [done|].
    split; [constructor|].
    apply Forall_forall. intros z Hz Pz.
    assert (z ∈ filter P l) as Hin by (by apply list_elem_of_filter).
    destruct (filter P l); [by apply elem_of_nil in Hin|done].
  - intros Hl. destruct (IH Hl) as (l1 & x & l2 & -> & Hx & H1 & H2).
    exists (y :: l1), x, l2. split; [done|]. split; [done|].
    split; [by constructor|done].
Qed.

(** With one cluster that has members the sum is [1 * log2f(1) = 0] and
    the divisor is [log2f(1) = 0]: the quotient [0/0] is not a number. *)
Lemma balanced_entropy_one_group (sto : list nat) (Row : nat) :
  nonZero sto = 1%nat → sum_list sto = Row →
  balanced_entropy log2f_lib sto Row = NaN.
Proof.
  intros H1 Hsum. unfold balanced_entropy. rewrite H1.
  destruct (filter_one_split (fun s => 0 < s)%nat sto H1)
    as (l1 & s & l2 & -> & Hs & Hl1 & Hl2).
  assert (Hz : ∀ l, Forall (fun s => ¬ (0 < s)%nat) l → sum_list l = 0%nat).
  { induction l as [|y l IH]; [done|]. intros [Hy Hl]%Forall_cons.
    simpl. rewrite IH by done. lia. }
  assert (s = Row) as ->.
  { rewrite <- Hsum, sum_list_with_app. simpl. rewrite (Hz l1), (Hz l2) by done. lia. }
  unfold entropy_sum. rewrite foldl_app. cbn [foldl].
  rewrite (entropy_sum_zeros l1) by done. rewrite decide_True by done.
  rewrite (entropy_sum_zeros l2) by done.
  destruct (probability_self Row Hs) as [-> | ->]; by vm_compute.
Qed.

(** *** At least two clusters *)

Hypothesis lib_below_one :
  ∀ x, (2 ^ (-149) <= x)%Q → (x < 1)%Q → (- (256) <= log2f_lib x)%Q ∧ (log2f_lib x <= 0)%Q.
Hypothesis lib_from_two : ∀ x, (2 <= x)%Q → (1 <= log2f_lib x)%Q.




End Entropy.



End Entropy_Facts.

(** ** The rest of [performFullK_MeansByClusters] *)

Module Tail_Facts.
Import KMeans Tail.

Lemma multimap_insert_Permutation k v m : multimap_insert k v m ≡ₚ (k, v) :: m.
Proof.
  induction m as [|[k' v'] m IH]; simpl; [done|].
  destruct (decide (k' ≤ k)); [|done].
  rewrite IH. apply Permutation_swap.
Qed.

Lemma groupMap_keys_from (sto : list nat) (n : nat) : ∀ a m0,
  a + n ≤ length sto →
  (foldl (fun m i => multimap_insert (nth i sto 0) i m) m0 (seq a n)).*1
    ≡ₚ m0.*1 ++ take n (drop a sto).
Proof.
  induction n as [|n IH]; intros a m0 Hlen; simpl.
  - by rewrite take_0, app_nil_r.
  - rewrite IH by lia. rewrite multimap_insert_Permutation. simpl.
    destruct (lookup_lt_is_Some_2 sto a) as [x Hx]; [lia|].
    rewrite (drop_S sto x a Hx). simpl.
    rewrite (nth_lookup_Some _ _ _ _ Hx). by rewrite Permutation_middle.
Qed.

Lemma groupMap_keys (sto : list nat) : (groupMap sto).*1 ≡ₚ sto.
Proof.
  unfold groupMap. rewrite groupMap_keys_from by lia.
  simpl. by rewrite drop_0, firstn_all.
Qed.

Lemma number_groups_count (gm : list (nat * nat)) : ∀ (io : list (option nat)) g,
  (foldl (fun '(io, groupNo) '(k, v) =>
            if decide (0 < k) then (<[v := Some groupNo]> io, S groupNo)
            else (io, groupNo)) (io, g) gm).2
  = g + length (filter (fun k => 0 < k) gm.*1).
Proof.
  induction gm as [|[k v] gm IH]; intros io g; [simpl; lia|].
  rewrite fmap_cons, filter_cons. cbn [foldl fst].
  destruct (decide (0 < k)); rewrite IH; cbn [length]; lia.
Qed.

(** [groupNo] counts the clusters with members. *)
Lemma groupNo_nonZero (sto : list nat) (K : nat) :
  (number_groups (groupMap sto) K).2 = Entropy.nonZero sto.
Proof.
  unfold number_groups, Entropy.nonZero. rewrite number_groups_count.
  by rewrite groupMap_keys.
Qed.

Section Tail.
Variable dist : list Q → nat → Q.
Variable log2f_lib : Q → Q.

Lemma grp_length (io : list (option nat)) rec (xs : list nat) : ∀ g g',
  foldM (fun g i => obind (read_init io (nth i rec 0)) (fun x => Done (g ++ [x]))) xs g
    = Done g' →
  length g' = length g + length xs.
Proof.
  induction xs as [|x xs IH]; intros g g'; simpl.
  - intros [= <-]. lia.
  - destruct (read_init io (nth x rec 0)); simpl; try done.
    intros H%IH. rewrite H, length_app. simpl. lia.
Qed.

Lemma representatives_length (st : KState) (io : list (option nat)) xs : ∀ cl fu si fi r,
  foldM (fun '(cl, fu, si, fi) i =>
           if decide (0 < nth i (storage (last st)) 0)%nat then
             let members := take (nth i (storage (last st)) 0%nat)
                                 (nth i (neighborVec (last st)) []) in
             let '(si', fi') := extremes dist (row (clusterCenter st) i) members si fi in
             obind (read_init io i) (fun g =>
               Done (cl ++ [(si', g)], fu ++ [(fi', g)], si', fi'))
           else Done (cl, fu, si, fi))
        xs (cl, fu, si, fi) = Done r →
  length r.1.1.1
    = length cl + length (filter (fun i => 0 < nth i (storage (last st)) 0) xs) ∧
  length r.1.1.2
    = length fu + length (filter (fun i => 0 < nth i (storage (last st)) 0) xs).
Proof.
  induction xs as [|x xs IH]; intros cl fu si fi r.
  - simpl. intros [= <-]. simpl. lia.
  - cbn [foldM]. rewrite filter_cons.
    destruct (decide (0 < nth x (storage (last st)) 0)); cbn [obind].
    + destruct (extremes _ _ _ _ _) as [si' fi'].
      destruct (read_init io x) as [g| | |]; cbn [obind]; try done.
      intros [H1 H2]%IH. rewrite H1, H2, !length_app. simpl. lia.
    + apply IH.
Qed.

Lemma mean_lines_length (st : KState) (io : list (option nat)) (Column : nat) xs :
  ∀ mc mc',
  foldM (fun mc i =>
           if decide (0 < nth i (storage (last st)) 0)%nat then
             obind (read_init io i) (fun g =>
               Done (mc ++ [((fun j => nth j (row (clusterCenter st) i) 0%Q)
                               <$> seq 0 Column, g)]))
           else Done mc)
        xs mc = Done mc' →
  length mc'
    = length mc + length (filter (fun i => 0 < nth i (storage (last st)) 0) xs).
Proof.
  induction xs as [|x xs IH]; intros mc mc'.
  - simpl. intros [= <-]. lia.
  - cbn [foldM]. rewrite filter_cons.
    destruct (decide (0 < nth x (storage (last st)) 0)); cbn [obind].
    + destruct (read_init io x) as [g| | |]; cbn [obind]; try done.
      intros H%IH. rewrite H, !length_app. simpl. lia.
    + apply IH.
Qed.

(** The shape of a normal end of [finish]. *)
Lemma finish_Done isPBF cached normOption Row Column st res evs :
  finish dist log2f_lib isPBF cached normOption Row Column st = Done (res, evs) →
  groupNo res = Entropy.nonZero (storage (last st)) ∧
  length (group res) = Row ∧ length (totalNum res) = Row ∧
  length (closest res) = length (massCenter res) ∧
  length (furthest res) = length (massCenter res) ∧
  evs = (if decide (groupNo res ≤ 1) then []
         else evaluate isPBF cached normOption (group res) (groupNo res)
                (Entropy.balanced_entropy log2f_lib (storage (last st)) Row)).
Proof.
  unfold finish.
  pose proof (groupNo_nonZero (storage (last st)) (length (clusterCenter st))) as Hg.
  destruct (number_groups _ _) as [io gNo]. simpl in Hg. subst gNo.
  destruct (foldM _ (seq 0 Row) []) as [grp| | |] eqn:Egrp; simpl; try done.
  unfold representatives.
  destruct (foldM _ _ ([], [], 0, 0)) as [reps| | |] eqn:Ereps; simpl; try done.
  destruct (mean_lines st io Column) as [mc| | |] eqn:Emc; simpl; try done.
  apply grp_length in Egrp. rewrite length_seq in Egrp. simpl in Egrp.
  apply representatives_length in Ereps as [Hcl Hfu].
  apply mean_lines_length in Emc. simpl in Hcl, Hfu, Emc.
  destruct (decide (Entropy.nonZero (storage (last st)) ≤ 1)) as [Hle|Hgt];
    intros [= <- <-]; simpl; rewrite length_fmap, length_seq.
  - rewrite decide_True by done. repeat split; congruence.
  - rewrite decide_False by done. repeat split; congruence.
Qed.

End Tail.
End Tail_Facts.

(** ** A round of the Lloyd iteration, in full *)

Module KMeans_Round.
Import KMeans.

Section Round.
Variable norm : list Q → Q.
Variable dist : list Q → nat → Q.
Variable points : Matrix.
Variable D : nat.

Local Abbreviation nearest centres i :=
  ((nearest_from dist 0 centres i FLT_MAX None).2).
Local Abbreviation members centres c :=
  (filter (fun i => nearest centres i = Some c) (seq 0 (length points))).
Local Abbreviation mean_of centres c :=
  (vdiv (foldl vadd (replicate D 0%Q) (row points <$> members centres c))
        (length (members centres c))).
Local Abbreviation round := (lloyd_round norm dist points D).
Local Abbreviation loop := (fun fuel => kmeans_loop norm dist fuel points D).

(** The scan either leaves [clusTemp] as it was, because no centre is
    closer than [best], or ends at the first centre of least distance. *)
Lemma nearest_from_min cs i : ∀ j best ct,
  let r := nearest_from dist j cs i best ct in
  (r.2 = ct ∧ r.1 = best ∧ ∀ k x, cs !! k = Some x → (best <= dist x i)%Q) ∨
  (∃ k x, r.2 = Some (j + k)%nat ∧ cs !! k = Some x ∧ r.1 = dist x i ∧
     (dist x i < best)%Q ∧
     (∀ k' x', cs !! k' = Some x' → (dist x i <= dist x' i)%Q) ∧
     (∀ k' x', (k' < k)%nat → cs !! k' = Some x' → (dist x i < dist x' i)%Q)).
Proof.
  induction cs as [|c cs IH]; intros j best ct; simpl.
  - left. split; [done|]. split; [done|]. intros k x Hk. done.
  - destruct (Qltb (dist c i) best) eqn:Hb.
    + apply Qltb_lt in Hb. right.
      destruct (IH (S j) (dist c i) (Some j)) as [(H2 & H1 & Hall)|(k & x & H2 & Hk & H1 & Hlt & Hall & Hfirst)].
      * exists 0%nat, c. rewrite H2, H1, Nat.add_0_r. repeat split; try done.
        -- intros [|k'] x' Hk'; simpl in Hk'; [injection Hk' as <-; apply Qle_refl|eauto].
        -- intros k' x' Hk'. lia.
      * exists (S k), x. rewrite H2, H1. split; [f_equal; lia|]. split; [done|].
        split; [done|]. split; [by eapply Qlt_trans|]. split.
        -- intros [|k'] x' Hk'; simpl in Hk'; [injection Hk' as <-; by apply Qlt_le_weak|eauto].
        -- intros [|k'] x' Hlt' Hk'; simpl in Hk'; [by injection Hk' as <-|].
           eapply Hfirst; [|done]. lia.
    + apply Qltb_ge in Hb.
      destruct (IH (S j) best ct) as [(H2 & H1 & Hall)|(k & x & H2 & Hk & H1 & Hlt & Hall & Hfirst)].
      * left. split; [done|]. split; [done|].
        intros [|k'] x' Hk'; simpl in Hk'; [by injection Hk' as <-|eauto].
      * right. exists (S k), x. rewrite H2, H1. split; [f_equal; lia|]. split; [done|].
        split; [done|]. split; [done|]. split.
        -- intros [|k'] x' Hk'; simpl in Hk'; [|eauto].
           injection Hk' as <-. apply Qlt_le_weak. by eapply Qlt_le_trans.
        -- intros [|k'] x' Hlt' Hk'; simpl in Hk'.
           ++ injection Hk' as <-. by eapply Qlt_le_trans.
           ++ eapply Hfirst; [|done]. lia.
Qed.

(** The cluster that a curve is put in: the first centre of least
    distance, which is below [FLT_MAX]. *)
Lemma nearest_Some centres i c :
  nearest centres i = Some c →
  ∃ x, centres !! c = Some x ∧ (dist x i < FLT_MAX)%Q ∧
       (∀ k y, centres !! k = Some y → (dist x i <= dist y i)%Q) ∧
       (∀ k y, (k < c)%nat → centres !! k = Some y → (dist x i < dist y i)%Q).
Proof.
  intros H.
  destruct (nearest_from_min centres i 0 FLT_MAX None)
    as [(H2 & _)|(k & x & H2 & Hk & _ & Hlt & Hall & Hfirst)].
  - simpl in H2. congruence.
  - simpl in H2. rewrite H in H2. injection H2 as ->. eauto 10.
Qed.

(** No cluster is found only when no centre is closer than [FLT_MAX]. *)
Lemma nearest_None centres i :
  nearest centres i = None ↔ ∀ x, x ∈ centres → (FLT_MAX <= dist x i)%Q.
Proof.
  destruct (nearest_from_min centres i 0 FLT_MAX None)
    as [(H2 & _ & Hall)|(k & x & H2 & Hk & _ & Hlt & _)]; simpl in H2.
  - split; [|done]. intros _ x [k Hk]%list_elem_of_lookup. eauto.
  - split; [congruence|]. intros Hall. exfalso.
    apply (Qlt_irrefl FLT_MAX). eapply Qle_lt_trans; [|exact Hlt].
    apply Hall. by eapply list_elem_of_lookup_2.
Qed.

(** What the assignment loop over the curves [xs] adds to a round. *)
Lemma assign_fold centres xs : ∀ r r',
  foldM (assign dist points centres) xs r = Done r' →
  (∀ i, i ∈ xs → is_Some (nearest centres i)) ∧
  (∀ c, storage r' !! c
        = (fun n => n + length (filter (fun i => nearest centres i = Some c) xs))%nat
            <$> storage r !! c) ∧
  (∀ c, neighborVec r' !! c
        = (fun l => l ++ filter (fun i => nearest centres i = Some c) xs)
            <$> neighborVec r !! c) ∧
  (∀ c, centerTemp r' !! c
        = (fun v => foldl vadd v
                      (row points <$> filter (fun i => nearest centres i = Some c) xs))
            <$> centerTemp r !! c) ∧
  length (recorder r') = length (recorder r) ∧
  (∀ i, recorder r' !! i
        = if decide (i ∈ xs ∧ i < length (recorder r))%nat
          then nearest centres i else recorder r !! i).
Proof.
  induction xs as [|i xs IH]; intros r r'; simpl.
  - intros [= <-]. split; [by intros i ?%elem_of_nil|].
    split; [intros c; destruct (storage r !! c); simpl; f_equal; lia|].
    split; [intros c; destruct (neighborVec r !! c); simpl; by rewrite ?app_nil_r|].
    split; [intros c; by destruct (centerTemp r !! c)|].
    split; [done|]. intros i.
    destruct (decide (i ∈ [] ∧ i < length (recorder r))%nat) as [H|H]; [|done].
    by destruct H as [?%elem_of_nil _].
  - unfold assign at 1. destruct (nearest centres i) as [c0|] eqn:Hn; simpl; [|done].
    intros H. apply IH in H as (Hsome & Hsto & Hnv & Hct & Hlen & Hrec). simpl in *.
    split; [|split; [|split; [|split; [|split]]]].
    + intros k [->|Hk]%elem_of_cons; [by rewrite Hn|auto].
    + intros c. rewrite Hsto, filter_cons.
      destruct (decide (c = c0)) as [->|Hc].
      * rewrite list_lookup_alter_eq, decide_True by done.
        destruct (storage r !! c0); simpl; f_equal; lia.
      * rewrite list_lookup_alter_ne, decide_False by congruence. done.
    + intros c. rewrite Hnv, filter_cons.
      destruct (decide (c = c0)) as [->|Hc].
      * rewrite list_lookup_alter_eq, decide_True by done.
        destruct (neighborVec r !! c0); simpl; [|done]. by rewrite <- app_assoc.
      * rewrite list_lookup_alter_ne, decide_False by congruence. done.
    + intros c. rewrite Hct, filter_cons.
      destruct (decide (c = c0)) as [->|Hc].
      * rewrite list_lookup_alter_eq, decide_True by done.
        by destruct (centerTemp r !! c0).
      * rewrite list_lookup_alter_ne, decide_False by congruence. done.
    + by rewrite Hlen, length_insert.
    + intros k. rewrite Hrec, length_insert.
      destruct (decide (k ∈ xs ∧ k < length (recorder r))%nat) as [[H1 H2]|H1].
      * rewrite decide_True; [done|]. split; [|done]. apply elem_of_cons. by right.
      * destruct (decide (k = i)) as [->|Hk].
        -- destruct (decide (i < length (recorder r))%nat).
           ++ rewrite list_lookup_insert_eq by done.
              rewrite decide_True; [done|]. split; [|done]. apply elem_of_cons. by left.
           ++ rewrite list_insert_ge by lia. rewrite decide_False; [done|]. tauto.
        -- rewrite list_lookup_insert_ne by done. rewrite decide_False; [done|].
           intros [[->|H3]%elem_of_cons H4]; tauto.
Qed.

(** The update loop over the clusters [0 .. K-1]: the centres of the
    clusters with members are replaced, and [moving] is the largest
    displacement, or the value it had when no displacement is larger. *)
Lemma update_fold_exact r (cc : Matrix) (m0 : Q) (K : nat) :
  (K ≤ length cc)%nat →
  let res := foldl (update norm r) (cc, m0) (seq 0 K) in
  let new c := vdiv (row (centerTemp r) c) (nth c (storage r) 0%nat) in
  let disp c := norm (vsub (new c) (row cc c)) in
  (∀ c, res.1 !! c = if decide (c < K ∧ 0 < nth c (storage r) 0)%nat
                     then Some (new c) else cc !! c) ∧
  (m0 <= res.2)%Q ∧
  (∀ c, (c < K)%nat → (0 < nth c (storage r) 0)%nat → (disp c <= res.2)%Q) ∧
  (res.2 = m0 ∨ ∃ c, (c < K)%nat ∧ (0 < nth c (storage r) 0)%nat ∧ res.2 = disp c).
Proof.
  intros HK. cbv zeta. induction K as [|K IH].
  - simpl. split; [|split; [apply Qle_refl|split; [|by left]]].
    + done.
    + intros c Hc. lia.
  - rewrite seq_S, foldl_app. simpl.
    destruct IH as (Hc & Hm & Hd & Hw); [lia|].
    set (st := foldl (update norm r) (cc, m0) (seq 0 K)) in *.
    assert (Hrow : row st.1 K = row cc K).
    { unfold row. rewrite !nth_lookup, Hc. rewrite decide_False; [done|lia]. }
    assert (Hlen : length st.1 = length cc).
    { unfold st. by rewrite KMeans_Facts.update_fold_length. }
    unfold update. destruct (decide (0 < nth K (storage r) 0)%nat) as [Hpos|Hpos]; simpl.
    + rewrite Hrow. split; [|split; [|split]].
      * intros c. destruct (decide (c = K)) as [->|Hne].
        -- rewrite list_lookup_insert_eq by lia. rewrite decide_True; [done|lia].
        -- rewrite list_lookup_insert_ne by done. rewrite Hc.
           destruct (decide (c < K ∧ _)%nat) as [H1|H1].
           ++ rewrite decide_True; [done|lia].
           ++ rewrite decide_False; [done|lia].
      * destruct (Qltb _ _) eqn:Hb; [|done]. apply Qltb_lt in Hb.
        eapply Qle_trans; [exact Hm|]. by apply Qlt_le_weak.
      * intros c Hlt Hp. destruct (decide (c = K)) as [->|Hne].
        -- destruct (Qltb _ _) eqn:Hb; [apply Qle_refl|]. by apply Qltb_ge in Hb.
        -- destruct (Qltb _ _) eqn:Hb.
           ++ apply Qltb_lt in Hb. eapply Qle_trans; [apply Hd; [lia|done]|].
              by apply Qlt_le_weak.
           ++ apply Hd; [lia|done].
      * destruct (Qltb _ _) eqn:Hb.
        -- right. exists K. split; [lia|]. done.
        -- destruct Hw as [Hw|(c & H1 & H2 & H3)]; [by left|].
           right. exists c. split; [lia|]. done.
    + split; [|split; [done|split]].
      * intros c. rewrite Hc.
        destruct (decide (c < K ∧ _)%nat) as [H1|H1].
        -- rewrite decide_True; [done|lia].
        -- rewrite decide_False; [done|]. intros [H2 H3].
           destruct (decide (c = K)) as [->|]; [done|]. apply H1. lia.
      * intros c Hlt Hp. apply Hd; [|done].
        destruct (decide (c = K)) as [->|]; [done|lia].
      * destruct Hw as [Hw|(c & H1 & H2 & H3)]; [by left|].
        right. exists c. split; [lia|]. done.
Qed.

Lemma length_lookup_eq {A B} (l' : list B) (l : list A) :
  (∀ c, is_Some (l' !! c) ↔ is_Some (l !! c)) → length l' = length l.
Proof.
  intros H. apply Nat.le_antisymm.
  - destruct (decide (length l' ≤ length l)%nat) as [|Hn]; [done|].
    assert (is_Some (l !! length l)) as Hs%lookup_lt_is_Some.
    { apply H. apply lookup_lt_is_Some. lia. }
    lia.
  - destruct (decide (length l ≤ length l')%nat) as [|Hn]; [done|].
    assert (is_Some (l' !! length l')) as Hs%lookup_lt_is_Some.
    { apply H. apply lookup_lt_is_Some. lia. }
    lia.
Qed.

(** One pass through the loop body, in full: who is put where, what the
    new centres are, and what [moving] is. *)
Lemma round_exact st st' :
  round st = Done st' →
  let cs := clusterCenter st in
  let members c := members cs c in
  let new c := mean_of cs c in
  (∀ i, (i < length points)%nat → is_Some (nearest cs i)) ∧
  length (storage (last st')) = length cs ∧
  length (neighborVec (last st')) = length cs ∧
  (∀ c, (c < length cs)%nat → storage (last st') !! c = Some (length (members c))) ∧
  (∀ c, (c < length cs)%nat → neighborVec (last st') !! c = Some (members c)) ∧
  length (recorder (last st')) = length (recorder (last st)) ∧
  (∀ i, (i < length points)%nat → (i < length (recorder (last st)))%nat →
        recorder (last st') !! i = nearest cs i) ∧
  length (clusterCenter st') = length cs ∧
  (∀ c, (c < length cs)%nat →
        clusterCenter st' !! c = if decide (members c ≠ []) then Some (new c) else cs !! c) ∧
  (FLT_MIN <= moving st')%Q ∧
  (∀ c, (c < length cs)%nat → members c ≠ [] →
        (norm (vsub (new c) (row cs c)) <= moving st')%Q) ∧
  (moving st' = FLT_MIN ∨
   ∃ c, (c < length cs)%nat ∧ members c ≠ [] ∧
        moving st' = norm (vsub (new c) (row cs c))).
Proof.
  unfold lloyd_round, assignment. intros H.
  destruct (foldM _ _ _) as [r| | |] eqn:Hf; simpl in H; try done.
  injection H as <-. cbv zeta. simpl.
  apply assign_fold in Hf as (Hsome & Hsto & Hnv & Hct & Hlen & Hrec). simpl in *.
  set (cs := clusterCenter st) in *.
  assert (Hsto' : ∀ c, (c < length cs)%nat → storage r !! c = Some (length (members cs c))).
  { intros c Hc. by rewrite Hsto, lookup_replicate_2. }
  assert (Hnv' : ∀ c, (c < length cs)%nat → neighborVec r !! c = Some (members cs c)).
  { intros c Hc. by rewrite Hnv, lookup_replicate_2. }
  assert (Hct' : ∀ c, (c < length cs)%nat →
            centerTemp r !! c
            = Some (foldl vadd (replicate D 0%Q) (row points <$> members cs c))).
  { intros c Hc. by rewrite Hct, lookup_replicate_2. }
  assert (Hnth : ∀ c, (c < length cs)%nat → nth c (storage r) 0%nat = length (members cs c)).
  { intros c Hc. by rewrite nth_lookup, Hsto'. }
  assert (Hpos : ∀ c, (c < length cs)%nat →
            (0 < nth c (storage r) 0)%nat ↔ members cs c ≠ []).
  { intros c Hc. rewrite Hnth by done. destruct (members cs c); simpl; [|split; [done|lia]].
    split; [lia|done]. }
  assert (Hnew : ∀ c, (c < length cs)%nat →
            vdiv (row (centerTemp r) c) (nth c (storage r) 0%nat)
            = vdiv (foldl vadd (replicate D 0%Q) (row points <$> members cs c))
                   (length (members cs c))).
  { intros c Hc. unfold row. by rewrite Hnth, nth_lookup, Hct'. }
  destruct (update_fold_exact r cs FLT_MIN (length cs) (le_n _)) as (Hc & Hm & Hd & Hw).
  split; [intros i Hi; apply Hsome, elem_of_seq; lia|].
  split.
  { apply length_lookup_eq. intros c. rewrite Hsto, fmap_is_Some.
    rewrite !lookup_lt_is_Some, !length_replicate. done. }
  split.
  { apply length_lookup_eq. intros c. rewrite Hnv, fmap_is_Some.
    rewrite !lookup_lt_is_Some, !length_replicate. done. }
  split; [done|]. split; [done|]. split; [done|]. split.
  { intros i Hi Hi'. rewrite Hrec, decide_True; [done|]. split; [|done].
    apply elem_of_seq. lia. }
  split; [by rewrite KMeans_Facts.update_fold_length|]. split.
  { intros c Hlt. rewrite Hc.
    destruct (decide (members cs c ≠ [])) as [Hne|Hne].
    - rewrite decide_True; [by rewrite Hnew|]. split; [done|]. by apply Hpos.
    - rewrite decide_False; [done|]. intros [_ H]. by apply Hpos in H. }
  split; [done|]. split.
  { intros c Hlt Hne. rewrite <- Hnew by done. apply Hd; [done|]. by apply Hpos. }
  destruct Hw as [Hw|(c & H1 & H2 & H3)]; [by left|].
  right. exists c. split; [done|]. split; [by apply Hpos|]. by rewrite <- Hnew.
Qed.

(** The last pass of a loop that ended normally. *)
Lemma loop_last_round fuel : ∀ st st',
  loop fuel st = Done st' →
  ∃ st1, round st1 = Done st' ∧
         length (recorder (last st1)) = length (recorder (last st)) ∧
         length (clusterCenter st1) = length (clusterCenter st).
Proof.
  induction fuel as [|fuel IH]; intros st st'; simpl; [done|].
  destruct (round st) as [st2| | |] eqn:Hr; simpl; try done.
  destruct (continue _ _ _).
  - intros H. apply IH in H as (st1 & H1 & H2 & H3).
    apply round_exact in Hr as (_ & _ & _ & _ & _ & Hl1 & _ & Hl2 & _).
    exists st1. split; [done|]. split; congruence.
  - intros [= <-]. exists st. done.
Qed.

Lemma filter_ext_in {A} (P1 P2 : A → Prop) `{∀ x, Decision (P1 x)}
    `{∀ x, Decision (P2 x)} (l : list A) :
  (∀ x, x ∈ l → P1 x ↔ P2 x) → filter P1 l = filter P2 l.
Proof.
  induction l as [|x l IH]; intros Hl; [done|].
  rewrite !filter_cons.
  assert (filter P1 l = filter P2 l) as ->.
  { apply IH. intros y Hy. apply Hl, elem_of_cons. by right. }
  destruct (decide (P1 x)) as [H1|H1], (decide (P2 x)) as [H2|H2]; try done.
  - exfalso. apply H2, Hl; [apply elem_of_cons; by left|done].
  - exfalso. apply H1, Hl; [apply elem_of_cons; by left|done].
Qed.

(** After a pass, the membership list of a cluster holds, in increasing
    order, the curves that [recorder] puts in it. *)
Lemma round_lists_match st st' :
  round st = Done st' → length (recorder (last st)) = length points →
  (∀ i, (i < length points)%nat →
        ∃ c, recorder (last st') !! i = Some c ∧ (c < length (clusterCenter st))%nat) ∧
  ∀ c, (c < length (clusterCenter st))%nat →
    neighborVec (last st') !! c
      = Some (filter (fun i => recorder (last st') !! i = Some c) (seq 0 (length points))) ∧
    storage (last st') !! c
      = Some (length (filter (fun i => recorder (last st') !! i = Some c)
                             (seq 0 (length points)))).
Proof.
  intros Hr Hlen.
  apply round_exact in Hr as (Hsome & _ & _ & Hsto & Hnv & _ & Hrec & _).
  split.
  - intros i Hi. rewrite Hrec by lia. destruct (Hsome i Hi) as [c Hc].
    exists c. split; [done|]. apply nearest_Some in Hc as (x & Hx & _).
    by apply lookup_lt_Some in Hx.
  - intros c Hc.
    assert (filter (fun i => recorder (last st') !! i = Some c) (seq 0 (length points))
            = members (clusterCenter st) c) as ->.
    { apply filter_ext_in. intros i Hi%elem_of_seq. rewrite Hrec by lia. done. }
    split; auto.
Qed.

(** After the loop every cluster with members has the mean of its
    members (as accumulated in [centerTemp]) for its centre. *)
Lemma round_centres st st' :
  round st = Done st' →
  ∀ c mem, neighborVec (last st') !! c = Some mem → mem ≠ [] →
    clusterCenter st' !! c
      = Some (vdiv (foldl vadd (replicate D 0%Q) (row points <$> mem)) (length mem)) ∧
    Forall (fun i => i < length points)%nat mem.
Proof.
  intros Hr c mem Hmem Hne.
  apply round_exact in Hr as (_ & _ & Hl & _ & Hnv & _ & _ & _ & Hc & _).
  assert (Hlt : (c < length (clusterCenter st))%nat).
  { rewrite <- Hl. by eapply lookup_lt_Some. }
  rewrite Hnv in Hmem by done. injection Hmem as <-.
  rewrite Hc, decide_True by done. split; [done|].
  apply Forall_forall. intros i [_ Hi%elem_of_seq]%list_elem_of_filter. lia.
Qed.

End Round.
End KMeans_Round.

(** ** Sums of rows *)

Module Rows.

Lemma nth_vadd (a b : list Q) (j : nat) :
  length a = length b → (nth j (vadd a b) 0 == nth j a 0 + nth j b 0)%Q.
Proof.
  revert b j. induction a as [|x a IH]; intros [|y b] j Hl; simpl in *; try done.
  - by destruct j.
  - destruct j as [|j]; simpl; [reflexivity|]. apply IH. lia.
Qed.

Lemma length_vadd (a b : list Q) :
  length a = length b → length (vadd a b) = length a.
Proof. intros H. unfold vadd. rewrite length_zip_with. lia. Qed.

Lemma nth_vdiv (a : list Q) (n j : nat) :
  (nth j (vdiv a n) 0 == nth j a 0 / inject_Z (Z.of_nat n))%Q.
Proof.
  revert j. induction a as [|x a IH]; intros j.
  - destruct j; cbn; unfold Qdiv; ring.
  - destruct j as [|j]; cbn; [reflexivity|]. apply IH.
Qed.

Lemma nth_replicate_zero (D j : nat) : nth j (replicate D 0%Q) 0%Q = 0%Q.
Proof. revert j. induction D as [|D IH]; intros [|j]; simpl; auto. Qed.

(** Coordinate [j] of the accumulated row is the sum of the coordinates
    [j] of the rows added. *)
Lemma nth_vadd_fold (D : nat) (rs : list (list Q)) (j : nat) : ∀ v,
  length v = D → Forall (fun r => length r = D) rs →
  (nth j (foldl vadd v rs) 0 == nth j v 0 + Qsum ((fun r => nth j r 0%Q) <$> rs))%Q.
Proof.
  induction rs as [|r rs IH]; intros v Hv Hrs.
  - cbn. ring.
  - apply Forall_cons in Hrs as [Hr Hrs]. rewrite fmap_cons. cbn [foldl].
    rewrite IH; [|rewrite length_vadd; congruence|done].
    rewrite nth_vadd by congruence.
    change (Qsum (nth j r 0 :: ((fun r => nth j r 0%Q) <$> rs)))%Q
      with (nth j r 0 + Qsum ((fun r => nth j r 0%Q) <$> rs))%Q.
    ring.
Qed.

End Rows.

(** ** Centring and the energy of the coefficients *)

Module SVD_Energy.
Import SVD.

Lemma Qsum_cons (x : Q) (l : list Q) : Qsum (x :: l) = (x + Qsum l)%Q.
Proof. done. Qed.

Lemma Qsum_add {A} (f g : A → Q) (l : list A) :
  (Qsum ((fun x => f x + g x) <$> l) == Qsum (f <$> l) + Qsum (g <$> l))%Q.
Proof.
  induction l as [|x l IH]; [cbn; ring|].
  rewrite !fmap_cons, !Qsum_cons, IH. ring.
Qed.

Lemma Qsum_sub_const {A} (f : A → Q) (m : Q) (l : list A) :
  (Qsum ((fun x => f x - m) <$> l)
   == Qsum (f <$> l) - inject_Z (Z.of_nat (length l)) * m)%Q.
Proof.
  induction l as [|x l IH]; [cbn; ring|].
  rewrite !fmap_cons, !Qsum_cons, IH. cbn [length].
  rewrite Nat2Z.inj_succ, <- Z.add_1_r, inject_Z_plus. ring.
Qed.

Lemma Qsum_ext {A} (f g : A → Q) (l : list A) :
  (∀ x, x ∈ l → (f x == g x)%Q) → (Qsum (f <$> l) == Qsum (g <$> l))%Q.
Proof.
  induction l as [|x l IH]; intros H; [reflexivity|].
  rewrite !fmap_cons, !Qsum_cons, IH.
  - rewrite (H x); [reflexivity|]. apply elem_of_cons. by left.
  - intros y Hy. apply H, elem_of_cons. by right.
Qed.

(** Entry [i] of a centred row. *)
Lemma nth_centred_row (data : Matrix) (Column : nat) (r : list Q) (i : nat) :
  length r = Column → (i < Column)%nat →
  nth i (vsub r (meanTrajectory data Column)) 0%Q = (nth i r 0 - mean (col data i))%Q.
Proof.
  intros Hr Hi. unfold vsub, meanTrajectory.
  destruct (lookup_lt_is_Some_2 r i) as [x Hx]; [lia|].
  rewrite !nth_lookup, lookup_zip_with, Hx, list_lookup_fmap, lookup_seq_lt by done.
  done.
Qed.

Lemma col_centred (data : Matrix) (Column : nat) (i : nat) :
  Forall (fun r => length r = Column) data → (i < Column)%nat →
  col (centred data Column) i = (fun r => nth i r 0 - mean (col data i))%Q <$> data.
Proof.
  intros Hd Hi. unfold col, centred. rewrite <- list_fmap_compose.
  apply Forall_fmap_ext_1. eapply Forall_impl; [exact Hd|].
  intros r Hr. simpl. by apply nth_centred_row.
Qed.

(** The columns of the centred matrix add up to zero. *)
Lemma centred_col_sum (data : Matrix) (Column : nat) (i : nat) :
  data ≠ [] → Forall (fun r => length r = Column) data → (i < Column)%nat →
  (Qsum (col (centred data Column) i) == 0)%Q.
Proof.
  intros Hne Hd Hi. rewrite col_centred by done.
  rewrite Qsum_sub_const. unfold mean, col. rewrite length_fmap.
  assert (Hn : ¬ (inject_Z (Z.of_nat (length data)) == 0)%Q).
  { destruct data; [done|]. cbn [length]. unfold Qeq. simpl. lia. }
  field. done.
Qed.

(** *** The energy, by rows and by columns *)





(** *** The loop reaches its [break] when the energy at hand suffices *)





End SVD_Energy.

(** ** The numbering of the groups *)

Module Labels_Facts.
Import Tail Labels.

Local Abbreviation ng_step :=
  (fun '(io, groupNo) '(k, v) =>
     if decide (0 < k)%nat then (<[v := Some groupNo]> io, S groupNo)
     else (io, groupNo)).

Lemma entry_lt_trans e1 e2 e3 : entry_lt e1 e2 → entry_lt e2 e3 → entry_lt e1 e3.
Proof. unfold entry_lt. lia. Qed.

Lemma entry_lt_asym e1 e2 : entry_lt e1 e2 → entry_lt e2 e1 → False.
Proof. unfold entry_lt. lia. Qed.

(** An entry whose value is larger than all values present is inserted
    in its place. *)
Lemma multimap_insert_sorted k v m :
  StronglySorted entry_lt m → Forall (fun e => e.2 < v)%nat m →
  StronglySorted entry_lt (multimap_insert k v m).
Proof.
  induction m as [|[k' v'] m IH]; intros Hs Hv; simpl.
  - repeat constructor.
  - apply StronglySorted_inv in Hs as [Hs Hall].
    apply Forall_cons in Hv as [Hv' Hv]. simpl in Hv'.
    destruct (decide (k' ≤ k)%nat).
    + constructor; [by apply IH|].
      rewrite Tail_Facts.multimap_insert_Permutation.
      constructor; [|done]. unfold entry_lt. simpl. lia.
    + constructor; [by constructor|].
      constructor; [unfold entry_lt; simpl; lia|].
      eapply Forall_impl; [exact Hall|]. intros e He.
      eapply entry_lt_trans; [|exact He]. unfold entry_lt. simpl. lia.
Qed.

Lemma groupMap_prefix (sto : list nat) (n : nat) :
  let m := foldl (fun m i => multimap_insert (nth i sto 0%nat) i m) [] (seq 0 n) in
  StronglySorted entry_lt m ∧ m ≡ₚ (fun i => (nth i sto 0%nat, i)) <$> seq 0 n.
Proof.
  induction n as [|n [IH1 IH2]]; cbv zeta.
  - split; [constructor|done].
  - rewrite seq_S, foldl_app, fmap_app. cbn [foldl fmap list_fmap]. split.
    + apply multimap_insert_sorted; [done|]. rewrite IH2.
      apply Forall_fmap, Forall_forall. intros i Hi%elem_of_seq. simpl. lia.
    + rewrite Tail_Facts.multimap_insert_Permutation, IH2.
      by rewrite <- Permutation_cons_append.
Qed.

(** [groupMap] lists the clusters by size, clusters of equal size by index. *)
Lemma groupMap_sorted (sto : list nat) :
  StronglySorted entry_lt (groupMap sto) ∧
  groupMap sto ≡ₚ (fun i => (nth i sto 0%nat, i)) <$> seq 0 (length sto).
Proof. apply groupMap_prefix. Qed.

(** *** The loop that numbers the groups *)

Lemma ng_untouched (gm : list (nat * nat)) (c : nat) : ∀ (io : list (option nat)) g,
  c ∉ (filter (fun e => 0 < e.1)%nat gm).*2 →
  (foldl ng_step (io, g) gm).1 !! c = io !! c.
Proof.
  induction gm as [|[k v] gm IH]; intros io g Hc; [done|].
  rewrite filter_cons in Hc. cbn [foldl]. simpl in Hc.
  destruct (decide (0 < k)%nat).
  - rewrite fmap_cons in Hc. apply not_elem_of_cons in Hc as [Hne Hc]. simpl in Hne.
    rewrite IH by done. by apply list_lookup_insert_ne.
  - by apply IH.
Qed.

Lemma ng_length (gm : list (nat * nat)) : ∀ (io : list (option nat)) g,
  length (foldl ng_step (io, g) gm).1 = length io.
Proof.
  induction gm as [|[k v] gm IH]; intros io g; [done|]. cbn [foldl].
  destruct (decide (0 < k)%nat); rewrite IH; [apply length_insert|done].
Qed.

(** A cluster with members gets the number of clusters with members
    that are listed before it. *)
Lemma ng_assigned (pre post : list (nat * nat)) (k v : nat) : ∀ (io : list (option nat)) g,
  (0 < k)%nat → (v < length io)%nat → v ∉ post.*2 →
  (foldl ng_step (io, g) (pre ++ (k, v) :: post)).1 !! v
  = Some (Some (g + length (filter (fun e => 0 < e.1)%nat pre))%nat).
Proof.
  induction pre as [|[k' v'] pre IH]; intros io g Hk Hv Hpost.
  - cbn [app foldl]. rewrite decide_True by done.
    rewrite ng_untouched.
    + rewrite list_lookup_insert_eq by done. simpl. do 2 f_equal. lia.
    + intros [e [-> [_ He]%list_elem_of_filter]]%list_elem_of_fmap.
      apply Hpost. apply list_elem_of_fmap. eauto.
  - cbn [app foldl]. rewrite filter_cons. simpl.
    destruct (decide (0 < k')%nat).
    + rewrite IH; [|done|by rewrite length_insert|done]. simpl. do 2 f_equal. lia.
    + by rewrite IH.
Qed.

(** Every number from [g] on that is given out is held by some cluster. *)
Lemma ng_onto (gm : list (nat * nat)) : ∀ (io : list (option nat)) g0 g,
  NoDup gm.*2 → Forall (fun e => e.2 < length io)%nat gm →
  (g0 ≤ g < g0 + length (filter (fun e => 0 < e.1)%nat gm))%nat →
  ∃ c, (foldl ng_step (io, g0) gm).1 !! c = Some (Some g).
Proof.
  induction gm as [|[k v] gm IH]; intros io g0 g Hnd Hv Hg.
  - simpl in Hg. lia.
  - rewrite fmap_cons in Hnd. apply NoDup_cons in Hnd as [Hnotin Hnd].
    apply Forall_cons in Hv as [Hv' Hv]. simpl in Hv', Hnotin.
    rewrite filter_cons in Hg. simpl in Hg. cbn [foldl].
    destruct (decide (0 < k)%nat).
    + destruct (decide (g = g0)) as [->|Hne].
      * exists v. rewrite ng_untouched; [by rewrite list_lookup_insert_eq|].
        intros [e [-> [_ He]%list_elem_of_filter]]%list_elem_of_fmap.
        apply Hnotin. apply list_elem_of_fmap. eauto.
      * apply IH; [done| |simpl in Hg; lia].
        eapply Forall_impl; [exact Hv|]. intros e He. by rewrite length_insert.
    + by apply IH.
Qed.

Lemma NoDup_split_unique {A} (l1 l2 l1' l2' : list A) (x : A) :
  NoDup (l1 ++ x :: l2) → l1 ++ x :: l2 = l1' ++ x :: l2' → l1 = l1'.
Proof.
  revert l1'. induction l1 as [|y l1 IH]; intros [|y' l1'] Hnd Heq; simpl in *.
  - done.
  - injection Heq as <- Heq. exfalso. apply NoDup_cons in Hnd as [Hn _]. apply Hn.
    rewrite Heq. apply elem_of_app. right. apply elem_of_cons. by left.
  - injection Heq as -> Heq. exfalso. apply NoDup_cons in Hnd as [Hn _]. apply Hn.
    apply elem_of_app. right. apply elem_of_cons. by left.
  - injection Heq as -> Heq. f_equal. apply NoDup_cons in Hnd as [_ Hnd]. by apply IH.
Qed.

Lemma StronglySorted_app_before {A} (R : A → A → Prop) (l1 l2 : list A) (x : A) :
  StronglySorted R (l1 ++ x :: l2) → Forall (fun y => R y x) l1.
Proof.
  induction l1 as [|y l1 IH]; intros H; [constructor|].
  apply StronglySorted_inv in H as [H Hall]. constructor; [|by apply IH].
  apply Forall_app in Hall as [_ Hall]. by apply Forall_cons in Hall as [? _].
Qed.

(** The numbers in [increasingOrder] and [groupNo], for [Cluster]
    clusters of the sizes [sto]. *)
Lemma number_groups_spec (sto : list nat) :
  let io := (number_groups (groupMap sto) (length sto)).1 in
  let gNo := (number_groups (groupMap sto) (length sto)).2 in
  length io = length sto ∧ gNo = Entropy.nonZero sto ∧
  (∀ c, (c < length sto)%nat → nth c sto 0%nat = 0%nat → io !! c = Some None) ∧
  (∀ c, (0 < nth c sto 0)%nat → ∃ g, io !! c = Some (Some g) ∧ (g < gNo)%nat) ∧
  (∀ a b ga gb, io !! a = Some (Some ga) → io !! b = Some (Some gb) →
                before sto a b → (ga < gb)%nat) ∧
  (∀ g, (g < gNo)%nat → ∃ c, io !! c = Some (Some g)).
Proof.
  cbv zeta. unfold number_groups.
  destruct (groupMap_sorted sto) as [Hsorted Hperm].
  set (gm := groupMap sto) in *.
  assert (Hnd : NoDup gm.*2).
  { rewrite Hperm, <- list_fmap_compose.
    rewrite (list_fmap_ext _ (fun i : nat => i) (seq 0 (length sto))) by done.
    rewrite list_fmap_id. apply NoDup_seq. }
  assert (Hentry : ∀ e, e ∈ gm ↔ (e.2 < length sto)%nat ∧ e.1 = nth e.2 sto 0%nat).
  { intros [k v]. rewrite Hperm, list_elem_of_fmap. simpl. split.
    - intros (i & [= -> ->] & Hi%elem_of_seq). split; [lia|done].
    - intros [Hv ->]. exists v. split; [done|]. apply elem_of_seq. lia. }
  assert (Hcount : ∀ (io : list (option nat)) g, (foldl ng_step (io, g) gm).2
                           = (g + length (filter (fun e => 0 < e.1)%nat gm))%nat).
  { intros io g. rewrite Tail_Facts.number_groups_count. f_equal.
    clear. induction gm as [|[k v] gm IH]; [done|].
    rewrite fmap_cons, !filter_cons. simpl.
    destruct (decide (0 < k)%nat); simpl; by rewrite IH. }
  assert (Hpos : ∀ c, (0 < nth c sto 0)%nat →
            ∃ pre post, gm = pre ++ (nth c sto 0%nat, c) :: post ∧
              (foldl ng_step (replicate (length sto) None, 0%nat) gm).1 !! c
              = Some (Some (length (filter (fun e => 0 < e.1)%nat pre)))).
  { intros c Hc.
    assert (Hlt : (c < length sto)%nat).
    { destruct (decide (c < length sto)%nat); [done|].
      rewrite nth_overflow in Hc by lia. lia. }
    assert (Hin : (nth c sto 0%nat, c) ∈ gm) by (by apply Hentry).
    apply list_elem_of_split in Hin as (pre & post & Hgm).
    exists pre, post. split; [done|]. rewrite Hgm.
    rewrite ng_assigned; [done|done|by rewrite length_replicate|].
    rewrite Hgm, fmap_app, fmap_cons in Hnd.
    apply NoDup_app in Hnd as (_ & _ & Hnd). by apply NoDup_cons in Hnd as [? _]. }
  assert (Hset : ∀ c g,
            (foldl ng_step (replicate (length sto) None, 0%nat) gm).1 !! c = Some (Some g) →
            (0 < nth c sto 0)%nat).
  { intros c g Hc. destruct (decide (0 < nth c sto 0)%nat) as [|Hz]; [done|]. exfalso.
    rewrite ng_untouched in Hc.
    - apply lookup_replicate in Hc as [? _]. done.
    - intros [[k v] [-> [Hk He]%list_elem_of_filter]]%list_elem_of_fmap.
      apply Hentry in He as [_ He]. simpl in *. lia. }
  split; [by rewrite ng_length, length_replicate|].
  split.
  { exact (Tail_Facts.groupNo_nonZero sto (length sto)). }
  split.
  { intros c Hc Hz. rewrite ng_untouched; [by apply lookup_replicate_2|].
    intros [[k v] [-> [Hk He]%list_elem_of_filter]]%list_elem_of_fmap.
    apply Hentry in He as [_ He]. simpl in *. lia. }
  split.
  { intros c Hc. destruct (Hpos c Hc) as (pre & post & Hgm & Hio).
    eexists. split; [exact Hio|]. rewrite Hcount, Hgm, filter_app, length_app.
    rewrite filter_cons, decide_True by done. simpl. lia. }
  split.
  { intros a b ga gb Ha Hb Hab.
    pose proof (Hset a ga Ha) as Hapos.
    destruct (Hpos a Hapos) as (pre & post & Hgm & Hio).
    rewrite Ha in Hio. injection Hio as ->.
    destruct (Hpos b (Hset b gb Hb)) as (pre' & post' & Hgm' & Hio').
    rewrite Hb in Hio'. injection Hio' as ->.
    assert (Hin : (nth b sto 0%nat, b) ∈ gm).
    { rewrite Hgm'. apply elem_of_app. right. apply elem_of_cons. by left. }
    rewrite Hgm in Hin. apply elem_of_app in Hin as [Hin|Hin].
    - exfalso. rewrite Hgm in Hsorted.
      apply StronglySorted_app_before in Hsorted.
      eapply entry_lt_asym; [exact Hab|].
      by apply (proj1 (Forall_forall _ _) Hsorted).
    - apply elem_of_cons in Hin as [Heq|Hin].
      + exfalso. injection Heq as _ ->. unfold before, entry_lt in Hab. simpl in Hab. lia.
      + apply list_elem_of_split in Hin as (mid & post'' & ->).
        assert (pre' = pre ++ (nth a sto 0%nat, a) :: mid) as ->.
        { apply (NoDup_split_unique _ post' _ post'' (nth b sto 0%nat, b)).
          - rewrite <- Hgm'. by eapply NoDup_fmap_1.
          - rewrite <- Hgm', Hgm, <- app_assoc. done. }
        rewrite filter_app, length_app, filter_cons, decide_True by done.
        simpl. lia. }
  intros g Hg. rewrite Hcount in Hg. apply ng_onto; [done| |lia].
  apply Forall_forall. intros e [He _]%Hentry. by rewrite length_replicate.
Qed.

End Labels_Facts.

(** ** The rest of [performFullK_MeansByClusters], for a finished loop *)

Module Finish_Facts.
Import KMeans Tail Labels KMeans_Shape.

Section Finish.
Variable dist : list Q → nat → Q.
Variable log2f_lib : Q → Q.

Lemma read_init_Done (io : list (option nat)) (c g : nat) :
  io !! c = Some (Some g) → read_init io c = Done (label io c).
Proof. intros H. unfold read_init, label. by rewrite H. Qed.

Lemma grp_Done (io : list (option nat)) (rec : list nat) (xs : list nat) : ∀ acc,
  (∀ i, i ∈ xs → ∃ g, io !! nth i rec 0%nat = Some (Some g)) →
  foldM (fun g i => obind (read_init io (nth i rec 0%nat)) (fun x => Done (g ++ [x]))) xs acc
  = Done (acc ++ ((fun i => label io (nth i rec 0%nat)) <$> xs)).
Proof.
  induction xs as [|x xs IH]; intros acc H.
  - simpl. by rewrite app_nil_r.
  - cbn [foldM]. destruct (H x) as [g Hg]; [apply elem_of_cons; by left|].
    rewrite (read_init_Done _ _ _ Hg). cbn [obind]. rewrite IH.
    + by rewrite fmap_cons, <- app_assoc.
    + intros i Hi. apply H, elem_of_cons. by right.
Qed.

Lemma representatives_Done (st : KState) (io : list (option nat)) :
  (∀ i, (0 < nth i (storage (last st)) 0)%nat → ∃ g, io !! i = Some (Some g)) →
  ∃ r, representatives dist st io = Done r.
Proof.
  intros H. unfold representatives.
  generalize (@nil (nat * nat), @nil (nat * nat), 0%nat, 0%nat).
  induction (seq 0 (length (clusterCenter st))) as [|x xs IH]; intros [[[cl fu] si] fi].
  - simpl. eauto.
  - cbn [foldM]. destruct (decide (0 < nth x (storage (last st)) 0)%nat) as [Hx|Hx].
    + destruct (extremes _ _ _ _ _) as [si' fi'].
      destruct (H x Hx) as [g Hg]. rewrite (read_init_Done _ _ _ Hg). cbn [obind].
      apply IH.
    + cbn [obind]. apply IH.
Qed.

Lemma mean_lines_Done (st : KState) (io : list (option nat)) (Column : nat) :
  (∀ i, (0 < nth i (storage (last st)) 0)%nat → ∃ g, io !! i = Some (Some g)) →
  ∃ mc, mean_lines st io Column = Done mc.
Proof.
  intros H. unfold mean_lines.
  assert (∀ xs mc, ∃ mc',
            foldM (fun mc i =>
                     if decide (0 < nth i (storage (last st)) 0)%nat then
                       obind (read_init io i) (fun g =>
                         Done (mc ++ [((fun j => nth j (row (clusterCenter st) i) 0%Q)
                                         <$> seq 0 Column, g)]))
                     else Done mc) xs mc = Done mc') as Hall; [|apply Hall].
  induction xs as [|x xs IH]; intros mc.
  - simpl. eauto.
  - cbn [foldM]. destruct (decide (0 < nth x (storage (last st)) 0)%nat) as [Hx|Hx].
    + destruct (H x Hx) as [g Hg]. rewrite (read_init_Done _ _ _ Hg). cbn [obind].
      apply IH.
    + cbn [obind]. apply IH.
Qed.

Lemma count_positive (sto : list nat) :
  length (filter (fun i => 0 < nth i sto 0)%nat (seq 0 (length sto)))
  = Entropy.nonZero sto.
Proof.
  unfold Entropy.nonZero.
  assert (E : (fun i => nth i sto 0%nat) <$> seq 0 (length sto) = sto).
  { apply list_eq. intros i. rewrite list_lookup_fmap.
    destruct (decide (i < length sto)%nat) as [Hi|Hi].
    - rewrite lookup_seq_lt by done. simpl.
      destruct (lookup_lt_is_Some_2 sto i Hi) as [x Hx].
      by rewrite (nth_lookup_Some _ _ _ _ Hx).
    - rewrite lookup_seq_ge by lia. rewrite lookup_ge_None_2 by lia. done. }
  rewrite <- E at 2. rewrite AHC_Facts.filter_fmap. by rewrite length_fmap.
Qed.

(** For a loop that ended with lists, sizes and [recorder] in
    agreement, the rest of the function ends normally and labels the
    curves by the size of their cluster. *)
Lemma finish_labels isPBF cached normOption Row Column (st : KState) :
  recorder_matches (length (storage (last st))) Row (last st) →
  length (clusterCenter st) = length (storage (last st)) →
  ∃ res evs, finish dist log2f_lib isPBF cached normOption Row Column st = Done (res, evs) ∧
    labels_by_size Row res ∧
    groupNo res = Entropy.nonZero (storage (last st)) ∧
    length (closest res) = groupNo res ∧ length (furthest res) = groupNo res ∧
    length (massCenter res) = groupNo res.
Proof.
  intros [Hrec Hlists] Hcl.
  set (sto := storage (last st)) in *. set (rec := recorder (last st)) in *.
  destruct (Labels_Facts.number_groups_spec sto)
    as (Hlen & HgNo & _ & Hpos & Hmono & _).
  assert (Hcur : ∀ i, (i < Row)%nat →
            ∃ c g, rec !! i = Some c ∧ nth i rec 0%nat = c ∧ (c < length sto)%nat ∧
                   nth c sto 0%nat
                   = length (filter (fun j => rec !! j = Some c) (seq 0 Row)) ∧
                   (0 < nth c sto 0)%nat ∧
                   (number_groups (groupMap sto) (length sto)).1 !! c = Some (Some g) ∧
                   (g < (number_groups (groupMap sto) (length sto)).2)%nat).
  { intros i Hi. destruct (Hrec i Hi) as (c & Hc & Hlt).
    destruct (Hlists c Hlt) as [_ Hsto].
    assert (Hn : nth c sto 0%nat
                 = length (filter (fun j => rec !! j = Some c) (seq 0 Row))).
    { by rewrite nth_lookup, Hsto. }
    assert (Hp : (0 < nth c sto 0)%nat).
    { rewrite Hn. assert (Hin : i ∈ filter (fun j => rec !! j = Some c) (seq 0 Row)).
      { apply list_elem_of_filter. split; [done|]. apply elem_of_seq. lia. }
      destruct (filter _ _); [by apply elem_of_nil in Hin|simpl; lia]. }
    destruct (Hpos c Hp) as (g & Hg & Hglt).
    exists c, g. split; [done|]. split; [by rewrite nth_lookup, Hc|]. done. }
  pose proof (Tail_Facts.finish_Done dist log2f_lib isPBF cached normOption Row Column st) as Hshape.
  pose proof (Tail_Facts.representatives_length dist st) as Hreps.
  unfold finish in *. fold sto in Hshape |- *. fold rec in Hshape |- *. rewrite Hcl in *.
  destruct (number_groups (groupMap sto) (length sto)) as [io gNo] eqn:Eng.
  simpl in Hlen, HgNo, Hpos, Hmono, Hcur.
  rewrite grp_Done in *.
  2,3: intros i Hi%elem_of_seq; destruct (Hcur i) as (c & g & _ & -> & _ & _ & _ & Hg & _);
       [lia|eauto].
  cbn [obind app] in *.
  destruct (representatives_Done st io) as [reps Ereps].
  { intros i Hi. destruct (Hpos i Hi) as (g & Hg & _). eauto. }
  destruct (mean_lines_Done st io Column) as [mc Emc].
  { intros i Hi. destruct (Hpos i Hi) as (g & Hg & _). eauto. }
  rewrite Ereps, Emc in *. cbn [obind] in *.
  set (res := mkResult _ _ _ _ mc gNo) in *.
  assert (Hres : ∃ evs, (if decide (gNo ≤ 1)%nat then Done (res, [])
                         else Done (res, evaluate isPBF cached normOption (group res) gNo
                                           (Entropy.balanced_entropy log2f_lib sto Row)))
                        = Done (res, evs)).
  { destruct (decide (gNo ≤ 1)%nat); eauto. }
  destruct Hres as [evs Hres]. exists res, evs. split; [exact Hres|].
  destruct (Hshape res evs Hres) as (Hg & _ & _ & Hc1 & Hc2 & _).
  assert (Hmc : length (massCenter res) = gNo).
  { unfold res. simpl. apply Tail_Facts.mean_lines_length in Emc. rewrite Emc. simpl.
    rewrite Hcl. fold sto. rewrite HgNo. apply count_positive. }
  split; [|split; [done|split; [congruence|split; [congruence|done]]]].
  intros i Hi. destruct (Hcur i Hi) as (c & g & Hc & Hnth & Hclt & Hn & Hp & Hio & Hglt).
  assert (Hgrp : ∀ j, (j < Row)%nat →
            group res !! j = Some (label io (nth j rec 0%nat))).
  { intros j Hj. unfold res. simpl. by rewrite list_lookup_fmap, lookup_seq_lt. }
  assert (Htot : ∀ j, (j < Row)%nat →
            totalNum res !! j = Some (nth (nth j rec 0%nat) sto 0%nat)).
  { intros j Hj. unfold res. simpl. by rewrite list_lookup_fmap, lookup_seq_lt. }
  assert (Hlab : label io c = g) by (unfold label; by rewrite Hio).
  exists g, (nth c sto 0%nat). rewrite Hgrp, Htot, Hnth, Hlab by done.
  split; [done|]. split; [done|]. split; [done|]. split.
  - rewrite Hn. f_equal. apply KMeans_Round.filter_ext_in. intros j Hj%elem_of_seq.
    destruct (Hcur j) as (c' & g' & Hc' & Hnth' & _ & _ & Hp' & Hio' & _); [lia|].
    rewrite Hgrp, Hnth', Hc' by lia. unfold label. rewrite Hio'. split.
    + intros [= ->]. congruence.
    + intros [= ->]. f_equal. destruct (decide (c' = c)) as [|Hne]; [done|]. exfalso.
      assert (before sto c' c ∨ before sto c c') as [Hb|Hb].
      { unfold before, entry_lt. simpl. lia. }
      * pose proof (Hmono _ _ _ _ Hio' Hio Hb). lia.
      * pose proof (Hmono _ _ _ _ Hio Hio' Hb). lia.
  - intros j g' n' Hgj Htj Hlt.
    assert (Hj : (j < Row)%nat).
    { apply lookup_lt_Some in Hgj. unfold res in Hgj. simpl in Hgj.
      by rewrite length_fmap, length_seq in Hgj. }
    destruct (Hcur j Hj) as (c' & g'' & Hc' & Hnth' & _ & _ & Hp' & Hio' & _).
    rewrite Hgrp, Hnth' in Hgj by done. rewrite Htot, Hnth' in Htj by done.
    injection Hgj as <-. injection Htj as <-.
    unfold label. rewrite Hio'. apply (Hmono c c' g g'' Hio Hio').
    unfold before, entry_lt. simpl. lia.
Qed.

End Finish.
End Finish_Facts.

(** ** The representatives of a cluster *)

Module Extremes_Facts.
Import KMeans Tail KMeans_Shape.

Section Extremes.
Variable dist : list Q → nat → Q.

Local Abbreviation ex_step centre :=
  (fun '(shortest, farDist, si, fi) tempIndex =>
     let toCenter := dist centre tempIndex in
     let '(shortest', si') :=
       if Qltb toCenter shortest then (toCenter, tempIndex) else (shortest, si) in
     let '(farDist', fi') :=
       if Qltb farDist toCenter then (toCenter, tempIndex) else (farDist, fi) in
     (shortest', farDist', si', fi')).

(** The scan of a membership list: each of the two indices is either
    the one carried in, because no member beat the bound carried in, or a
    member of least, respectively greatest, distance. *)
Lemma extremes_fold (centre : list Q) (ms : list nat) : ∀ sh fd (si fi : nat),
  let r := foldl (ex_step centre) (sh, fd, si, fi) ms in
  ((r.1.1.1 = sh ∧ r.1.2 = si ∧ ∀ m, m ∈ ms → (sh <= dist centre m)%Q) ∨
   (r.1.2 ∈ ms ∧ r.1.1.1 = dist centre r.1.2 ∧ (dist centre r.1.2 < sh)%Q ∧
    ∀ m, m ∈ ms → (dist centre r.1.2 <= dist centre m)%Q)) ∧
  ((r.1.1.2 = fd ∧ r.2 = fi ∧ ∀ m, m ∈ ms → (dist centre m <= fd)%Q) ∨
   (r.2 ∈ ms ∧ r.1.1.2 = dist centre r.2 ∧ (fd < dist centre r.2)%Q ∧
    ∀ m, m ∈ ms → (dist centre m <= dist centre r.2)%Q)).
Proof.
  induction ms as [|x ms IH]; intros sh fd si fi.
  - simpl. split; left; (split; [done|]); (split; [done|]); by intros m ?%elem_of_nil.
  - cbn [foldl]. cbv zeta.
    destruct (Qltb (dist centre x) sh) eqn:Hs; destruct (Qltb fd (dist centre x)) eqn:Hf;
      match goal with
      | |- context [foldl _ (?a, ?b, ?c, ?d) ms] =>
          destruct (IH a b c d) as [Hshort Hfar]
      end;
      cbv zeta in Hshort, Hfar;
      match goal with
      | |- context [foldl ?f ?i ms] => set (r := foldl f i ms) in *
      end;
      try apply Qltb_lt in Hs; try apply Qltb_ge in Hs;
      try apply Qltb_lt in Hf; try apply Qltb_ge in Hf;
      (split;
       [ destruct Hshort as [(H1 & H2 & H3)|(H1 & H2 & H3 & H4)]
       | destruct Hfar as [(H1 & H2 & H3)|(H1 & H2 & H3 & H4)] ]).
    all: try (left; split; [done|]; split; [done|];
              intros m [->|Hm]%elem_of_cons; [done|by apply H3]).
    all: try (right; split; [rewrite H2; apply elem_of_cons; by left|];
              rewrite H1, H2; split; [done|]; split; [done|];
              intros m [->|Hm]%elem_of_cons; [apply Qle_refl|by apply H3]).
    all: try (right; split; [apply elem_of_cons; by right|]; split; [done|];
              split; [first [done|by eapply Qlt_trans|by eapply Qlt_le_trans
                             |by eapply Qle_lt_trans]|];
              intros m [->|Hm]%elem_of_cons; [|by apply H4];
              first [by apply Qlt_le_weak
                    |apply Qlt_le_weak; by eapply Qlt_le_trans
                    |apply Qlt_le_weak; by eapply Qle_lt_trans]).
Qed.

(** No member further than [FLT_MIN] from the centre: the index for
    [furthest] is the one carried in. *)
Lemma extremes_furthest_kept (centre : list Q) (ms : list nat) (si fi : nat) :
  (∀ m, m ∈ ms → (dist centre m <= FLT_MIN)%Q) →
  (extremes dist centre ms si fi).2 = fi.
Proof.
  intros H. unfold extremes. cbv zeta.
  destruct (extremes_fold centre ms FLT_MAX FLT_MIN si fi) as [_ Hfar].
  cbv zeta in Hfar. cbn [snd].
  destruct Hfar as [(_ & H2 & _)|(H1 & _ & H3 & _)]; [done|].
  exfalso. apply (Qlt_irrefl FLT_MIN). eapply Qlt_le_trans; [exact H3|]. by apply H.
Qed.

Hypothesis dist_finite : ∀ c i, (dist c i < FLT_MAX)%Q.

Lemma extremes_members (centre : list Q) (ms : list nat) (si fi : nat) :
  ms ≠ [] →
  let r := extremes dist centre ms si fi in
  (r.1 ∈ ms ∧ ∀ m, m ∈ ms → (dist centre r.1 <= dist centre m)%Q) ∧
  ((r.2 ∈ ms ∧ ∀ m, m ∈ ms → (dist centre m <= dist centre r.2)%Q) ∨
   (∀ m, m ∈ ms → (dist centre m <= FLT_MIN)%Q)).
Proof.
  intros Hne. unfold extremes. cbv zeta.
  destruct (extremes_fold centre ms FLT_MAX FLT_MIN si fi) as [Hshort Hfar].
  cbv zeta in Hshort, Hfar. cbn [fst snd]. split.
  - destruct Hshort as [(_ & _ & H3)|(H1 & _ & _ & H4)]; [|done]. exfalso.
    destruct ms as [|m ms]; [done|].
    apply (Qlt_irrefl FLT_MAX). eapply Qle_lt_trans; [|apply (dist_finite centre m)].
    apply H3, elem_of_cons. by left.
  - destruct Hfar as [(_ & _ & H3)|(H1 & _ & _ & H4)]; [by right|by left].
Qed.

Lemma representatives_members (st : KState) (io : list (option nat)) :
  (∀ c, (0 < nth c (storage (last st)) 0)%nat →
        ∃ mem, neighborVec (last st) !! c = Some mem ∧
               nth c (storage (last st)) 0%nat = length mem) →
  ∀ r, representatives dist st io = Done r →
    Forall (Representatives.closest_of dist st io) r.1 ∧
    Forall (Representatives.furthest_of dist st io) r.2.
Proof.
  intros Hsto. unfold representatives.
  assert (∀ xs cl fu si fi r,
            Forall (Representatives.closest_of dist st io) cl →
            Forall (Representatives.furthest_of dist st io) fu →
            foldM (fun '(cl, fu, si, fi) i =>
                     if decide (0 < nth i (storage (last st)) 0)%nat then
                       let members := take (nth i (storage (last st)) 0%nat)
                                           (nth i (neighborVec (last st)) []) in
                       let '(si', fi') :=
                         extremes dist (row (clusterCenter st) i) members si fi in
                       obind (read_init io i) (fun g =>
                         Done (cl ++ [(si', g)], fu ++ [(fi', g)], si', fi'))
                     else Done (cl, fu, si, fi))
                  xs (cl, fu, si, fi) = Done r →
            Forall (Representatives.closest_of dist st io) r.1.1.1 ∧
            Forall (Representatives.furthest_of dist st io) r.1.1.2) as Hall.
  { induction xs as [|x xs IH]; intros cl fu si fi r Hcl Hfu.
    - simpl. by intros [= <-].
    - cbn [foldM]. destruct (decide (0 < nth x (storage (last st)) 0)%nat) as [Hx|Hx].
      + destruct (Hsto x Hx) as (mem & Hmem & Hlen).
        assert (Hne : mem ≠ []) by (intros ->; simpl in Hlen; lia).
        rewrite (nth_lookup_Some _ _ _ _ Hmem), Hlen, firstn_all.
        pose proof (extremes_members (row (clusterCenter st) x) mem si fi Hne) as He.
        cbv zeta in He.
        destruct (extremes dist (row (clusterCenter st) x) mem si fi) as [si' fi'].
        cbn [fst snd] in He. destruct He as [[Hs1 Hs2] Hf].
        unfold read_init. destruct (io !! x) as [[g|]|] eqn:Hio; cbn [obind]; try done.
        apply IH.
        * apply Forall_app. split; [done|]. constructor; [|constructor].
          exists x, mem. simpl. done.
        * apply Forall_app. split; [done|]. constructor; [|constructor].
          exists x, mem. simpl. split; [done|]. split; [done|].
          destruct Hf as [[Hf1 Hf2]|Hf]; [left|right]; done.
      + cbn [obind]. by apply IH. }
  intros r.
  destruct (foldM _ _ _) as [r'| | |] eqn:Hf; cbn [obind]; try done.
  intros [= <-]. simpl. by eapply Hall.
Qed.

End Extremes.
End Extremes_Facts.

(** ** Sorting by a comparison that refines an order on keys *)

Module Sort_Facts.

Section Sort.
Context {A : Type} (R : relation A) `{!∀ x y, Decision (R x y)}.
Variable key : A → nat.
Hypothesis R_key : ∀ x y, R x y → (key x ≤ key y)%nat.
Hypothesis not_R_key : ∀ x y, ¬ R x y → (key y ≤ key x)%nat.

Local Abbreviation by_key := (fun x y => (key x ≤ key y)%nat).

Lemma list_merge_by_key (l1 l2 : list A) :
  StronglySorted by_key l1 → StronglySorted by_key l2 →
  StronglySorted by_key (list_merge R l1 l2).
Proof.
  intros H1. revert l2. induction H1 as [|x1 l1 Hs1 IH1 Hall1]; intros l2 H2.
  { by rewrite list_merge_nil_l. }
  induction H2 as [|x2 l2 Hs2 IH2 Hall2].
  { rewrite list_merge_nil_r. by constructor. }
  rewrite list_merge_cons. destruct (decide (R x1 x2)) as [HR|HR].
  - constructor; [apply IH1; by constructor|].
    rewrite merge_Permutation. apply Forall_app. split; [done|].
    apply R_key in HR. constructor; [done|].
    eapply Forall_impl; [exact Hall2|]. simpl. lia.
  - constructor; [exact IH2|].
    rewrite merge_Permutation. apply Forall_app. split; [|done].
    apply not_R_key in HR. constructor; [done|].
    eapply Forall_impl; [exact Hall1|]. simpl. lia.
Qed.

Local Abbreviation stack_by_key :=
  (Forall (fun o : option (list A) =>
             match o with Some l => StronglySorted by_key l | None => True end)).

Lemma merge_list_to_stack_by_key (st : list (option (list A))) : ∀ l,
  stack_by_key st → StronglySorted by_key l →
  stack_by_key (merge_list_to_stack R st l).
Proof.
  induction st as [|[l'|] st IH]; intros l Hst Hl; simpl.
  - by repeat constructor.
  - apply Forall_cons in Hst as [Hl' Hst]. constructor; [done|].
    apply IH; [done|]. by apply list_merge_by_key.
  - apply Forall_cons in Hst as [_ Hst]. by constructor.
Qed.

Lemma merge_stack_by_key (st : list (option (list A))) :
  stack_by_key st → StronglySorted by_key (merge_stack R st).
Proof.
  induction st as [|[l'|] st IH]; intros Hst; simpl.
  - constructor.
  - apply Forall_cons in Hst as [Hl' Hst]. apply list_merge_by_key; auto.
  - apply Forall_cons in Hst as [_ Hst]. auto.
Qed.

Lemma merge_sort_aux_by_key (l : list A) : ∀ st,
  stack_by_key st → StronglySorted by_key (merge_sort_aux R st l).
Proof.
  induction l as [|x l IH]; intros st Hst; simpl.
  - by apply merge_stack_by_key.
  - apply IH, merge_list_to_stack_by_key; [done|]. by repeat constructor.
Qed.

(** The sorted list has its keys in non-decreasing order. *)
Lemma merge_sort_by_key (l : list A) : StronglySorted by_key (merge_sort R l).
Proof. apply merge_sort_aux_by_key. constructor. Qed.

End Sort.

Lemma StronglySorted_lookup {A} (Rk : relation A) (l : list A) (i j : nat) (a b : A) :
  StronglySorted Rk l → (i < j)%nat → l !! i = Some a → l !! j = Some b → Rk a b.
Proof.
  intros Hs. revert i j. induction Hs as [|x l Hs IH Hall]; intros i j Hij Ha Hb; [done|].
  destruct j as [|j]; [lia|]. simpl in Hb. destruct i as [|i]; simpl in Ha.
  - injection Ha as ->. apply (proj1 (Forall_forall _ _) Hall).
    by eapply list_elem_of_lookup_2.
  - eapply (IH i j); [lia|done|done].
Qed.

End Sort_Facts.

(** ** The pair with the least distance *)

Module Closest_Facts.
Import AHC Merger_Shape.

Lemma put_least s d s' :
  put s d = Done s' → least_so_far s →
  least_so_far s' ∧ length (tempVec s') = length (tempVec s) ∧
  (current s ≤ current s')%nat ∧
  ∀ j, (j < current s)%nat → tempVec s' !! j = tempVec s !! j.
Proof.
  unfold put, vec_write. destruct (decide (current s < length (tempVec s))%nat) as [Hlt|];
    cbn [obind]; [|done].
  intros Hput [Hall Htgt].
  assert (Hkeep : ∀ j, (j < current s)%nat →
            <[current s := d]> (tempVec s) !! j = tempVec s !! j).
  { intros j Hj. apply list_lookup_insert_ne. lia. }
  destruct (Qltb (distance d) (minDist s)) eqn:Hb; injection Hput as <-;
    unfold least_so_far; cbn [tempVec current target minDist].
  - apply Qltb_lt in Hb. split; [|by rewrite length_insert; auto]. split.
    + intros j d' Hj Hd'. destruct (decide (j = current s)) as [->|Hne].
      * rewrite list_lookup_insert_eq in Hd' by done. injection Hd' as <-. apply Qle_refl.
      * rewrite Hkeep in Hd' by lia. apply Qlt_le_weak.
        eapply Qlt_le_trans; [exact Hb|]. eapply (Hall j); [lia|done].
    + right. exists (current s), d. split; [done|]. split; [lia|].
      split; [by apply list_lookup_insert_eq|done].
  - apply Qltb_ge in Hb. split; [|by rewrite length_insert; auto]. split.
    + intros j d' Hj Hd'. destruct (decide (j = current s)) as [->|Hne].
      * rewrite list_lookup_insert_eq in Hd' by done. by injection Hd' as <-.
      * rewrite Hkeep in Hd' by lia. eapply (Hall j); [lia|done].
    + destruct Htgt as [Ht|(k & d' & Ht & Hk & Hd' & Hm)]; [by left|].
      right. exists k, d'. split; [done|]. split; [lia|]. split; [|done].
      by rewrite Hkeep.
Qed.

Lemma copy_least pp ds : ∀ s s',
  foldM (copy_pair pp) ds s = Done s' → least_so_far s →
  least_so_far s' ∧ length (tempVec s') = length (tempVec s).
Proof.
  induction ds as [|d ds IH]; intros s s'; simpl.
  - intros [= <-]. done.
  - unfold copy_pair at 1. destruct (decide (unrelated pp d)).
    + destruct (put s d) as [s1| | |] eqn:Hput; cbn [obind]; try done.
      intros Hf Hs. destruct (put_least _ _ _ Hput Hs) as (Hs1 & Hl & _).
      destruct (IH _ _ Hf Hs1) as [? ?]. split; [done|congruence].
    + cbn [obind]. apply IH.
Qed.

Lemma link_least M (newNode : AHC_node) kvs : ∀ s s',
  foldM (link_pair M newNode) kvs s = Done s' → least_so_far s →
  least_so_far s' ∧ length (tempVec s') = length (tempVec s).
Proof.
  induction kvs as [|kv kvs IH]; intros s s'; simpl.
  - intros [= <-]. done.
  - unfold link_pair at 1. destruct (decide (kv.1 = index newNode)).
    + cbn [obind]. apply IH.
    + destruct (decide (current s < length (tempVec s))%nat); [|done].
      destruct (getDistAtNodes _ _ _) as [x| | |]; cbn [obind]; try done.
      destruct (put s _) as [s1| | |] eqn:Hput; cbn [obind]; try done.
      intros Hf Hs. destruct (put_least _ _ _ Hput Hs) as (Hs1 & Hl & _).
      destruct (IH _ _ Hf Hs1) as [? ?]. split; [done|congruence].
Qed.

(** A pass of the loop body leaves in [poped] a pair of least distance
    among the pairs of the rebuilt vector. *)
Lemma body_picks_closest dflt dflt_index order M st st' :
  merge_body dflt dflt_index order M st = Done st' → picks_closest st'.
Proof.
  unfold merge_body. destruct (merged_map dflt_index st) as [m4 newNode].
  destruct (int_mul _ _) as [p| | |]; cbn [obind]; try done.
  set (s0 := mkScan _ _ _ _).
  assert (Hs0 : least_so_far s0).
  { split; [|by left]. simpl. intros j d Hj. lia. }
  destruct (foldM (copy_pair _) _ s0) as [s1| | |] eqn:H1; cbn [obind]; try done.
  destruct (copy_least _ _ _ _ H1 Hs0) as [Hs1 _].
  destruct (foldM (link_pair _ _) _ s1) as [s2| | |] eqn:H2; cbn [obind]; try done.
  destruct (link_least _ _ _ _ _ H2 Hs1) as [[Hall Htgt] _].
  unfold vec_read. destruct (decide (target s2 < 0)%Z) as [Hneg|Hpos]; [done|].
  destruct (tempVec s2 !! Z.to_nat (target s2)) as [pp|] eqn:Hpp; cbn [obind]; [|done].
  destruct (decide (current s2 = length (tempVec s2))) as [Hcur|]; [|done].
  intros [= <-]. unfold picks_closest. simpl. split.
  - by eapply list_elem_of_lookup_2.
  - intros d [j Hj]%list_elem_of_lookup.
    destruct Htgt as [Ht|(k & d' & Ht & Hk & Hd' & Hm)]; [lia|].
    rewrite Ht, Nat2Z.id, Hd' in Hpp. injection Hpp as <-. rewrite Hm.
    apply (Hall j); [|done]. rewrite Hcur. by eapply lookup_lt_Some.
Qed.

(** The scan before the loop. *)
Lemma scan_from_least (v : list DistNode) : ∀ (pre : list DistNode) t md,
  (∀ d, d ∈ pre → (md <= distance d)%Q) →
  (t = (-1)%Z ∨ ∃ k d, t = Z.of_nat k ∧ pre !! k = Some d ∧ distance d = md) →
  let r := scan_from (length pre) v t md in
  (∀ d, d ∈ pre ++ v → (r.2 <= distance d)%Q) ∧
  (r.1 = (-1)%Z ∨ ∃ k d, r.1 = Z.of_nat k ∧ (pre ++ v) !! k = Some d ∧ distance d = r.2).
Proof.
  induction v as [|x v IH]; intros pre t md Hall Ht; simpl.
  - rewrite app_nil_r. done.
  - replace (S (length pre)) with (length (pre ++ [x])) by (rewrite length_app; simpl; lia).
    replace (pre ++ x :: v) with ((pre ++ [x]) ++ v) by (by rewrite <- app_assoc).
    destruct (Qltb (distance x) md) eqn:Hb.
    + apply Qltb_lt in Hb. apply IH.
      * intros d [Hd| ->%list_elem_of_singleton]%elem_of_app; [|apply Qle_refl].
        apply Qlt_le_weak. eapply Qlt_le_trans; [exact Hb|]. by apply Hall.
      * right. exists (length pre), x. split; [done|]. split; [|done].
        by rewrite lookup_app_r, Nat.sub_diag by lia.
    + apply Qltb_ge in Hb. apply IH.
      * intros d [Hd| ->%list_elem_of_singleton]%elem_of_app; [by apply Hall|done].
      * destruct Ht as [Ht|(k & d & Ht & Hk & Hd)]; [by left|].
        right. exists k, d. split; [done|]. split; [|done].
        apply lookup_app_l_Some. done.
Qed.

Lemma start_picks_closest dflt_index nodeMap dNodeVec cArray st0 :
  merge_start dflt_index nodeMap dNodeVec cArray = Done st0 → picks_closest st0.
Proof.
  unfold merge_start, vec_read.
  destruct (scan_from_least dNodeVec [] (-1) FLT_MAX) as [Hall Ht];
    [by intros d ?%elem_of_nil|by left|].
  cbv zeta in Hall, Ht. simpl in Hall, Ht.
  destruct (decide _) as [|Hpos]; [done|].
  destruct (dNodeVec !! _) as [pp|] eqn:Hpp; cbn [obind]; [|done].
  intros [= <-]. unfold picks_closest. simpl. split.
  - by eapply list_elem_of_lookup_2.
  - destruct Ht as [Ht|(k & d & Ht & Hk & Hd)]; [lia|].
    rewrite Ht, Nat2Z.id, Hk in Hpp. injection Hpp as <-. rewrite Hd. done.
Qed.

Lemma reaches_picks_closest dflt dflt_index order M st0 st :
  reaches dflt dflt_index order M st0 st → picks_closest st0 → picks_closest st.
Proof.
  induction 1 as [|st st' st'' Hb _ IH]; [done|].
  intros _. apply IH. by eapply body_picks_closest.
Qed.

End Closest_Facts.

(** ** The nodes that the merger returns, and their labels *)

Module Merger_Result.
Import AHC.

Lemma node_lt_size (a b : AHC_node) :
  node_lt a b → (length (element a) ≤ length (element b))%nat.
Proof. unfold node_lt. lia. Qed.

Lemma not_node_lt_size (a b : AHC_node) :
  ¬ node_lt a b → (length (element b) ≤ length (element a))%nat.
Proof. unfold node_lt. lia. Qed.

(** [std::sort] with the comparison of [hierarchicalMerging] leaves the
    nodes in order of size. *)
Lemma sorted_by_size (l : list AHC_node) :
  StronglySorted (fun a b => length (element a) ≤ length (element b))%nat
                 (merge_sort node_lt l).
Proof.
  apply (Sort_Facts.merge_sort_by_key node_lt (fun nd => length (element nd))).
  - apply node_lt_size.
  - apply not_node_lt_size.
Qed.

(** *** [setLabel] *)

Local Abbreviation rec_step g :=
  (fun (r : list Z) (e : Z) =>
     if decide (0 ≤ e)%Z then vec_write r (Z.to_nat e) (Z.of_nat g) else UB).

Lemma recorder_fold (g : nat) (es : list Z) : ∀ rec : list Z,
  (∀ e, e ∈ es → (0 ≤ e < Z.of_nat (length rec))%Z) →
  ∃ rec', foldM (rec_step g) es rec = Done rec' ∧
          length rec' = length rec ∧
          (∀ e, e ∈ es → rec' !! Z.to_nat e = Some (Z.of_nat g)) ∧
          (∀ i, (∀ e, e ∈ es → Z.to_nat e ≠ i) → rec' !! i = rec !! i).
Proof.
  induction es as [|e es IH]; intros rec Hin.
  - exists rec. split; [done|]. split; [done|]. split; [by intros e ?%elem_of_nil|done].
  - cbn [foldM]. assert (He : (0 ≤ e < Z.of_nat (length rec))%Z).
    { apply Hin, elem_of_cons. by left. }
    rewrite decide_True by lia. rewrite AHC_Facts.vec_write_Done by lia. cbn [obind].
    destruct (IH (<[Z.to_nat e := Z.of_nat g]> rec)) as (rec' & -> & Hlen & Hset & Hkeep).
    { intros e' He'. rewrite length_insert. apply Hin, elem_of_cons. by right. }
    exists rec'. split; [done|]. split; [by rewrite Hlen, length_insert|]. split.
    + intros e' [->|He']%elem_of_cons; [|by apply Hset].
      destruct (decide (e ∈ es)) as [Hes|Hes]; [by apply Hset|].
      rewrite Hkeep.
      * apply list_lookup_insert_eq. lia.
      * intros e' He' Heq. apply Hes.
        assert (0 ≤ e')%Z by (apply Hin, elem_of_cons; by right).
        replace e with e' by lia. done.
    + intros i Hi. rewrite Hkeep.
      * apply list_lookup_insert_ne. apply Hi, elem_of_cons. by left.
      * intros e' He'. apply Hi, elem_of_cons. by right.
Qed.

(** The loop of [setLabel] over the nodes, from group [g] on: the
    membership lists are the lists of the nodes, [storage] holds their
    sizes, and [recorder] holds for every member the group of its node. *)
Lemma setLabel_fold (nodes : list AHC_node) : ∀ (nv : list (list Z)) (sto rec : list Z) g,
  (g + length nodes ≤ length nv)%nat → length sto = length nv →
  (∀ nd e, nd ∈ nodes → e ∈ element nd → (0 ≤ e < Z.of_nat (length rec))%Z) →
  NoDup (concat (element <$> nodes)) →
  ∃ sto' rec',
    foldM (fun '(nv, sto, rec, groupID) nd =>
             obind (vec_write nv groupID (element nd)) (fun nv' =>
             obind (foldM (rec_step groupID) (element nd) rec) (fun rec' =>
             obind (vec_write sto groupID (Z.of_nat (length (element nd)))) (fun sto' =>
             Done (nv', sto', rec', S groupID)))))
          nodes (nv, sto, rec, g)
    = Done (take g nv ++ (element <$> nodes) ++ drop (g + length nodes) nv,
            sto', rec', (g + length nodes)%nat) ∧
    length sto' = length sto ∧ length rec' = length rec ∧
    (∀ k nd, nodes !! k = Some nd →
       sto' !! (g + k)%nat = Some (Z.of_nat (length (element nd))) ∧
       ∀ e, e ∈ element nd → rec' !! Z.to_nat e = Some (Z.of_nat (g + k))) ∧
    (∀ i, (i < g)%nat → sto' !! i = sto !! i) ∧
    (∀ i, (∀ nd e, nd ∈ nodes → e ∈ element nd → Z.to_nat e ≠ i) → rec' !! i = rec !! i).
Proof.
  induction nodes as [|nd nodes IH]; intros nv sto rec g Hlen Hsto Hin Hnd.
  - exists sto, rec. simpl. rewrite !Nat.add_0_r, take_drop.
    split; [done|]. split; [done|]. split; [done|]. split; [by intros k nd' ?|done].
  - cbn [foldM]. simpl in Hlen.
    rewrite fmap_cons in Hnd. simpl in Hnd. apply NoDup_app in Hnd as (Hnd1 & Hdisj & Hnd2).
    rewrite AHC_Facts.vec_write_Done by lia. cbn [obind].
    destruct (recorder_fold g (element nd) rec) as (rec1 & -> & Hl1 & Hset1 & Hkeep1).
    { intros e He. apply (Hin nd); [apply elem_of_cons; by left|done]. }
    cbn [obind]. rewrite AHC_Facts.vec_write_Done by lia. cbn [obind].
    destruct (IH (<[g := element nd]> nv)
                 (<[g := Z.of_nat (length (element nd))]> sto) rec1 (S g))
      as (sto' & rec' & -> & Hls & Hlr & Hnodes & Hstok & Hreck).
    { rewrite length_insert. lia. }
    { by rewrite !length_insert. }
    { intros nd' e Hnd' He. rewrite Hl1. apply (Hin nd'); [|done].
      apply elem_of_cons. by right. }
    { done. }
    exists sto', rec'. split; [|split; [|split; [|split; [|split]]]].
    + rewrite fmap_cons. cbn [length].
      replace (g + S (length nodes))%nat with (S g + length nodes)%nat by lia.
      do 4 f_equal.
      rewrite (take_S_r _ _ (element nd)) by (apply list_lookup_insert_eq; lia).
      rewrite take_insert_ge by lia. rewrite drop_insert_lt by lia.
      by rewrite <- app_assoc.
    + by rewrite Hls, length_insert.
    + by rewrite Hlr, Hl1.
    + intros [|k] nd' Hk; simpl in Hk.
      * injection Hk as <-. rewrite Nat.add_0_r. split.
        -- rewrite Hstok by lia. apply list_lookup_insert_eq. lia.
        -- intros e He. rewrite Hreck; [by apply Hset1|].
           intros nd' e' Hnd' He' Heq.
           assert (e' = e) as ->.
           { assert (0 ≤ e')%Z by (eapply (Hin nd'); [apply elem_of_cons; by right|done]).
             assert (0 ≤ e)%Z by (eapply (Hin nd); [apply elem_of_cons; by left|done]).
             lia. }
           apply (Hdisj e He). apply KMeans_Facts.elem_of_concat.
           exists (element nd'). split; [by apply list_elem_of_fmap_2|done].
      * destruct (Hnodes k nd' Hk) as [H1 H2].
        replace (g + S k)%nat with (S g + k)%nat by lia. done.
    + intros i Hi. rewrite Hstok by lia. apply list_lookup_insert_ne. lia.
    + intros i Hi. rewrite Hreck.
      * apply Hkeep1. intros e He. apply (Hi nd); [apply elem_of_cons; by left|done].
      * intros nd' e Hnd' He. apply (Hi nd'); [apply elem_of_cons; by right|done].
Qed.

End Merger_Result.

Module Merger_Run.
Import AHC Merger_Shape.

Section Run.
Variable dflt : DistNode.
Variable dflt_index : Z.
Variable order : gmap Z AHC_node → list (Z * AHC_node).
Hypothesis order_perm : ∀ m, order m ≡ₚ map_to_list m.

(** Asked for between 2 and [Row - 1] clusters, [hierarchicalMerging]
    returns that many nodes, in order of size. *)
Lemma merger_returns (M : Matrix) (cArray : Matrix) (numberOfClusters : Z) (fuel : nat) :
  (∀ i j, (coeff M i j < FLT_MAX)%Q) → (rows cArray ≤ 46341)%Z →
  (2 ≤ numberOfClusters < rows cArray)%Z →
  (rows cArray - numberOfClusters ≤ Z.of_nat fuel)%Z →
  ∃ nodeVec,
    hierarchicalMerging dflt dflt_index order fuel ∅ (initial_pairs M (rows cArray)) M
                        cArray numberOfClusters = Done nodeVec ∧
    Z.of_nat (length nodeVec) = numberOfClusters ∧
    nodes_by_size (rows cArray) nodeVec.
Proof.
  intros HM Hrow Hn Hfuel. unfold hierarchicalMerging.
  destruct (AHC_Facts.merge_start_inv dflt_index M HM cArray)
    as (pp & -> & Hinv & Hs); [lia|].
  cbn [obind].
  edestruct (AHC_Facts.loop_reaches_target dflt dflt_index order order_perm M HM
               (rows cArray) Hrow numberOfClusters fuel)
    as (st & -> & Hinv' & Hsz & _); [exact Hinv|simpl; lia|simpl; lia|].
  cbn [obind]. eexists. split; [done|]. split; [|split; [|split]].
  - rewrite merge_sort_Permutation, length_fmap, order_perm, length_map_to_list. done.
  - rewrite merge_sort_Permutation. apply Forall_fmap, Forall_forall.
    intros [k nd] Hin. rewrite order_perm in Hin. apply elem_of_map_to_list in Hin.
    simpl. by eapply (inv_nonempty _ _ Hinv').
  - rewrite <- (inv_part _ _ Hinv'). apply AHC_Facts.concat_Permutation.
    rewrite merge_sort_Permutation, <- list_fmap_compose, order_perm. done.
  - intros i j a b Hij Ha Hb.
    exact (Sort_Facts.StronglySorted_lookup
             (fun a b => length (element a) ≤ length (element b))%nat _ i j a b
             (Merger_Result.sorted_by_size _) Hij Ha Hb).
Qed.

(** [perform_AHC] up to [setLabel], asked for between 2 and [Row - 1]
    clusters. *)
Lemma perform_AHC_labels (norm : list Q → Q) (cArray : Matrix) (Cluster : Z) :
  (∀ v, norm v < FLT_MAX)%Q →
  (2 ≤ Cluster < rows cArray)%Z → (rows cArray ≤ 46341)%Z →
  ∃ neighborVec storage recorder,
    perform_AHC_groups dflt dflt_index order norm (length cArray) cArray Cluster
      = Done (neighborVec, storage, recorder) ∧
    Z.of_nat (length neighborVec) = Cluster ∧
    concat neighborVec ≡ₚ seqZ 0 (rows cArray) ∧
    labels_agree (rows cArray) neighborVec storage recorder.
Proof.
  intros Hnorm Hc Hrow. unfold perform_AHC_groups.
  pose proof (AHC_Facts.reduced_dist_finite norm cArray Hnorm) as HM.
  rewrite AHC_Facts.setValue_Done by lia. cbn [obind].
  destruct (merger_returns (reduced_dist_matrix norm cArray) cArray Cluster (length cArray)
              HM Hrow Hc)
    as (nodeVec & -> & Hlen & Hne & Hp & Hsorted); [unfold rows in *; lia|].
  cbn [obind]. replace (Z.to_nat Cluster) with (length nodeVec) by lia.
  unfold setLabel.
  destruct (Merger_Result.setLabel_fold nodeVec (replicate (length nodeVec) [])
              (replicate (length nodeVec) 0%Z) (replicate (Z.to_nat (rows cArray)) 0%Z) 0)
    as (sto & rec & -> & Hls & Hlr & Hnodes & _ & _).
  { rewrite length_replicate. lia. }
  { by rewrite !length_replicate. }
  { intros nd e Hnd He. rewrite length_replicate.
    assert (e ∈ seqZ 0 (rows cArray)) as Hin; [|apply elem_of_seqZ in Hin; lia].
    rewrite <- Hp. apply KMeans_Facts.elem_of_concat. exists (element nd).
    split; [by apply list_elem_of_fmap_2|done]. }
  { rewrite Hp. apply NoDup_seqZ. }
  cbn [obind fst]. rewrite take_0, drop_ge by (rewrite length_replicate; lia).
  rewrite app_nil_r. cbn [app].
  exists (element <$> nodeVec), sto, rec. split; [done|].
  split; [by rewrite length_fmap|]. split; [done|].
  rewrite length_replicate in Hls, Hlr.
  split; [by rewrite Hls, length_fmap|]. split; [unfold rows in *; lia|].
  split; [|split].
  - intros g mem Hg. rewrite list_lookup_fmap in Hg.
    destruct (nodeVec !! g) as [nd|] eqn:Hnd; [|done]. injection Hg as <-.
    split.
    + eapply (proj1 (Forall_forall _ _) Hne). by eapply list_elem_of_lookup_2.
    + by destruct (Hnodes g nd Hnd) as [? _].
  - intros e He.
    assert (Hin : e ∈ concat (element <$> nodeVec)).
    { rewrite Hp. apply elem_of_seqZ. lia. }
    apply KMeans_Facts.elem_of_concat in Hin as (mem & Hmem & Hemem).
    apply list_elem_of_lookup in Hmem as [g Hg].
    exists g, mem. split; [|done].
    rewrite list_lookup_fmap in Hg.
    destruct (nodeVec !! g) as [nd|] eqn:Hnd; [|done]. injection Hg as <-.
    destruct (Hnodes g nd Hnd) as [_ H]. by apply H.
  - intros g g' mem mem' Hlt Hg Hg'. rewrite list_lookup_fmap in Hg, Hg'.
    destruct (nodeVec !! g) as [nd|] eqn:Hnd; [|done]. injection Hg as <-.
    destruct (nodeVec !! g') as [nd'|] eqn:Hnd'; [|done]. injection Hg' as <-.
    by eapply Hsorted.
Qed.

(** Anything else makes [perform_AHC] read outside a vector: fewer than
    two curves, fewer than two clusters, or as many clusters as curves. *)
Lemma perform_AHC_out_of_range (norm : list Q → Q) (cArray : Matrix) (Cluster : Z) :
  (∀ v, norm v < FLT_MAX)%Q → (rows cArray ≤ 46341)%Z →
  ¬ (2 ≤ Cluster < rows cArray)%Z →
  perform_AHC_groups dflt dflt_index order norm (length cArray) cArray Cluster = UB.
Proof.
  intros Hnorm Hrow Hc. unfold perform_AHC_groups.
  pose proof (AHC_Facts.reduced_dist_finite norm cArray Hnorm) as HM.
  rewrite AHC_Facts.setValue_Done by lia. cbn [obind].
  destruct (decide (2 ≤ rows cArray)%Z) as [H2|H2].
  - rewrite (AHC_Facts.hierarchicalMerging_overruns dflt dflt_index order order_perm
               (reduced_dist_matrix norm cArray) HM cArray ltac:(lia) Cluster
               (length cArray)); [done|lia|unfold rows; lia].
  - unfold hierarchicalMerging, merge_start.
    assert (initial_pairs (reduced_dist_matrix norm cArray) (rows cArray) = []) as ->.
    { unfold initial_pairs, rows in *. destruct cArray as [|r [|r' c]]; [done|done|].
      simpl in H2. lia. }
    done.
Qed.

End Run.
End Merger_Run.

Module Pairs_Facts.
Import AHC.

(** The pairs of [s, s+1, ..., s+n-1]: the smaller number first. *)
Lemma elem_of_pairs_seqZ (n : nat) : ∀ (s a b : Z),
  (a, b) ∈ pairs (seqZ s (Z.of_nat n)) ↔ (s ≤ a < b ∧ b < s + Z.of_nat n)%Z.
Proof.
  induction n as [|n IH]; intros s a b.
  - rewrite seqZ_nil by lia. simpl. split; [by intros ?%elem_of_nil|lia].
  - rewrite seqZ_cons by lia. simpl.
    replace (Z.pred (Z.of_nat (S n))) with (Z.of_nat n) by lia.
    rewrite elem_of_app, list_elem_of_fmap, IH. split.
    + intros [(y & [= -> ->] & Hy%elem_of_seqZ)|H]; lia.
    + intros H. destruct (decide (a = s)) as [->|Hne].
      * left. exists b. split; [done|]. apply elem_of_seqZ. lia.
      * right. lia.
Qed.

Lemma elem_of_initial_pairs (M : Matrix) (Row : Z) (d : DistNode) :
  d ∈ initial_pairs M Row ↔
  ∃ i j, (0 ≤ i < j ∧ j < Row)%Z ∧ d = mkDistNode i j (coeff M i j).
Proof.
  unfold initial_pairs. rewrite list_elem_of_fmap.
  destruct (decide (0 ≤ Row)%Z) as [Hr|Hr].
  - assert (Hn : Row = Z.of_nat (Z.to_nat Row)) by lia.
    revert Hn. generalize (Z.to_nat Row). intros n ->. split.
    + intros ([i j] & -> & Hin%elem_of_pairs_seqZ). exists i, j. simpl. split; [lia|done].
    + intros (i & j & Hij & ->). exists (i, j). split; [done|].
      apply elem_of_pairs_seqZ. lia.
  - rewrite seqZ_nil by lia. simpl. split.
    + by intros (? & _ & ?%elem_of_nil).
    + intros (i & j & Hij & _). lia.
Qed.

End Pairs_Facts.

(** ** Clustering without coordinates, and the labels of [perform_AHC] *)

Module Pipeline_Facts.
Import SVD KMeans Tail AHC Labels Merger_Shape Pipeline.

(** A strictly increasing map of [0 .. K-1] into itself is the identity. *)
Lemma increasing_identity (K : nat) (f : nat → nat) :
  (∀ a b, (a < b < K)%nat → (f a < f b)%nat) → (∀ c, (c < K)%nat → (f c < K)%nat) →
  ∀ c, (c < K)%nat → f c = c.
Proof.
  intros Hinc Hlt.
  assert (Hlow : ∀ c, (c < K)%nat → (c ≤ f c)%nat).
  { induction c as [|c IH]; intros Hc; [lia|].
    specialize (IH ltac:(lia)). specialize (Hinc c (S c) ltac:(lia)). lia. }
  assert (Hhigh : ∀ d, (d < K)%nat → (f (K - 1 - d) ≤ K - 1 - d)%nat).
  { induction d as [|d IH]; intros Hd.
    - specialize (Hlt (K - 1 - 0)%nat ltac:(lia)). lia.
    - specialize (IH ltac:(lia)).
      specialize (Hinc (K - 1 - S d)%nat (K - 1 - d)%nat ltac:(lia)). lia. }
  intros c Hc. specialize (Hlow c Hc). specialize (Hhigh (K - 1 - c)%nat ltac:(lia)).
  replace (K - 1 - (K - 1 - c))%nat with c in Hhigh by lia. lia.
Qed.

(** Sizes that are positive and in non-decreasing order are numbered
    in their order. *)
Lemma number_groups_sorted (sto : list nat) :
  (∀ c, (c < length sto)%nat → (0 < nth c sto 0)%nat) →
  (∀ a b, (a < b < length sto)%nat → (nth a sto 0 ≤ nth b sto 0)%nat) →
  (number_groups (groupMap sto) (length sto)).2 = length sto ∧
  ∀ c, (c < length sto)%nat →
       (number_groups (groupMap sto) (length sto)).1 !! c = Some (Some c).
Proof.
  intros Hpos Hsorted.
  destruct (Labels_Facts.number_groups_spec sto) as (Hlen & HgNo & _ & Hset & Hmono & _).
  set (io := (number_groups (groupMap sto) (length sto)).1) in *.
  set (gNo := (number_groups (groupMap sto) (length sto)).2) in *.
  assert (Hg : gNo = length sto).
  { rewrite HgNo. unfold Entropy.nonZero. rewrite AHC_Facts.filter_all; [done|].
    apply Forall_forall. intros x [c Hc]%list_elem_of_lookup.
    specialize (Hpos c ltac:(by eapply lookup_lt_Some)).
    by rewrite (nth_lookup_Some _ _ _ _ Hc) in Hpos. }
  split; [done|]. intros c Hc.
  destruct (Hset c (Hpos c Hc)) as (g & Hio & Hglt). rewrite Hio. do 2 f_equal.
  assert (Hlab : ∀ c', (c' < length sto)%nat → io !! c' = Some (Some (label io c'))).
  { intros c' Hc'. destruct (Hset c' (Hpos c' Hc')) as (g' & Hio' & _).
    unfold label. by rewrite Hio'. }
  assert (label io c = c) as Hid.
  { apply (increasing_identity (length sto) (label io)); [| |done].
    - intros a b Hab. apply (Hmono a b); [apply Hlab; lia|apply Hlab; lia|].
      unfold before, entry_lt. simpl. specialize (Hsorted a b Hab). lia.
    - intros c' Hc'. destruct (Hset c' (Hpos c' Hc')) as (g' & Hio' & Hlt').
      unfold label. rewrite Hio'. by rewrite <- Hg. }
  unfold label in Hid. by rewrite Hio in Hid.
Qed.

Section Facts.
Variable norm : list Q → Q.

(** Curves without coordinates are all at the same distance from every
    centre: each round puts them in cluster 0. *)
Lemma kmeans_without_coordinates (cArray seeds : Matrix) (D fuel : nat) :
  Forall (fun r => r = []) cArray → seeds ≠ [] → (20 ≤ fuel)%nat →
  (norm [] < FLT_MAX)%Q →
  ∃ st, performPC_KMeans_loop norm fuel cArray D seeds = Done st ∧
        neighborVec (last st) !! 0%nat = Some (seq 0 (length cArray)) ∧
        storage (last st) !! 0%nat = Some (length cArray) ∧
        (∀ i, (i < length cArray)%nat → recorder (last st) !! i = Some 0%nat) ∧
        (∀ c, (0 < c < length seeds)%nat → storage (last st) !! c = Some 0%nat).
Proof.
  intros Hrows Hs Hf Hn. unfold performPC_KMeans_loop.
  assert (Hd : ∀ (c : list Q) (i : nat), norm (vsub (row cArray i) c) = norm []).
  { intros c i. f_equal. unfold row.
    assert (nth i cArray [] = []) as ->; [|done].
    destruct (decide (i < length cArray)%nat) as [Hi|Hi].
    - destruct (lookup_lt_is_Some_2 cArray i Hi) as [r Hr].
      rewrite (nth_lookup_Some _ _ _ _ Hr).
      eapply (proj1 (Forall_forall _ _) Hrows). by eapply list_elem_of_lookup_2.
    - by rewrite nth_overflow by lia. }
  destruct (KMeans_Facts.kmeans_stops norm (fun c i => norm (vsub (row cArray i) c))
              cArray D) with (seeds := seeds) (fuel := fuel) as (st & Hk & _);
    [by intros c i; rewrite Hd|done|done|].
  exists st. split; [done|].
  apply KMeans_Round.loop_last_round in Hk as (st1 & Hr & Hl1 & Hl2).
  simpl in Hl1, Hl2. rewrite length_replicate in Hl1.
  apply KMeans_Round.round_exact in Hr
    as (Hsome & _ & _ & Hsto & Hnv & _ & Hrec & _).
  assert (Hne : (0 < length (clusterCenter st1))%nat).
  { rewrite Hl2. destruct seeds; [done|simpl; lia]. }
  assert (Hnear : ∀ i, (i < length cArray)%nat →
            (nearest_from (fun c i => norm (vsub (row cArray i) c)) 0
                          (clusterCenter st1) i FLT_MAX None).2 = Some 0%nat).
  { intros i Hi. destruct (Hsome i Hi) as [c Hc]. rewrite Hc. f_equal.
    apply KMeans_Round.nearest_Some in Hc as (x & Hx & _ & _ & Hfirst).
    destruct c as [|c]; [done|]. exfalso.
    destruct (lookup_lt_is_Some_2 (clusterCenter st1) 0 Hne) as [y Hy].
    specialize (Hfirst 0%nat y ltac:(lia) Hy). rewrite !Hd in Hfirst.
    by apply Qlt_irrefl in Hfirst. }
  assert (Hall : filter (fun i =>
                   (nearest_from (fun c i => norm (vsub (row cArray i) c)) 0
                                 (clusterCenter st1) i FLT_MAX None).2 = Some 0%nat)
                   (seq 0 (length cArray)) = seq 0 (length cArray)).
  { apply AHC_Facts.filter_all, Forall_forall. intros i Hi%elem_of_seq.
    apply Hnear. lia. }
  split; [by rewrite Hnv, Hall|]. split; [by rewrite Hsto, Hall, length_seq|].
  split; [intros i Hi; rewrite Hrec by lia; by apply Hnear|].
  intros c Hc. rewrite Hsto by lia. do 2 f_equal.
  rewrite AHC_Facts.filter_none; [done|].
  intros i Hi%elem_of_seq. rewrite Hnear by lia. intros [= <-]. lia.
Qed.

End Facts.

(** A loop that appends one computed value per index. *)
Lemma foldM_collect {A B} (F : A → outcome B) (f : A → B) (xs : list A) : ∀ acc,
  (∀ i, i ∈ xs → F i = Done (f i)) →
  foldM (fun g i => obind (F i) (fun x => Done (g ++ [x]))) xs acc
  = Done (acc ++ (f <$> xs)).
Proof.
  induction xs as [|x xs IH]; intros acc H.
  - simpl. by rewrite app_nil_r.
  - cbn [foldM]. rewrite (H x) by (apply elem_of_cons; by left). cbn [obind].
    rewrite IH by (intros i Hi; apply H, elem_of_cons; by right).
    by rewrite fmap_cons, <- app_assoc.
Qed.

Lemma performSVD_Done_or_UB (data : Matrix) (Column : nat) (V : Matrix) (p0 : Z) :
  (∃ k, (k ≤ ncols (matmul (centred data Column) V))%nat ∧
        performSVD data Column V p0
        = Done (mkReduced (take k <$> matmul (centred data Column) V) (Z.of_nat k))) ∨
  performSVD data Column V p0 = UB.
Proof.
  unfold performSVD.
  assert (Hsel : ∀ n i co th ts, (∃ pc, select_from n i co th ts p0 = Done pc) ∨
                                 select_from n i co th ts p0 = UB).
  { induction n as [|n IH]; intros i co th ts; simpl; [eauto|].
    destruct (decide _); [|by right]. destruct (Qltb _ _); [eauto|apply IH]. }
  destruct (Hsel Column 0%nat (matmul (centred data Column) V)
              (TOR_1 * matSquaredNorm (matmul (centred data Column) V))%Q 0%Q)
    as [[pc ->]| ->]; [|by right].
  cbn [obind]. destruct (decide _) as [Hpc|]; [|by right].
  left. exists (Z.to_nat pc). split; [lia|]. by rewrite Z2Nat.id by lia.
Qed.

End Pipeline_Facts.

(** ** The rest of [performPC_KMeans] *)

Module PC_Tail_Facts.
Import KMeans Tail Labels KMeans_Shape PC_Tail.

(** *** The centres keep their number of coordinates *)

Lemma length_vadd_fold (D : nat) (rs : list (list Q)) : ∀ v,
  length v = D → Forall (fun r : list Q => length r = D) rs →
  length (foldl vadd v rs) = D.
Proof.
  induction rs as [|r rs IH]; intros v Hv Hrs; [done|].
  apply Forall_cons in Hrs as [Hr Hrs]. simpl. apply IH; [|done].
  rewrite Rows.length_vadd; congruence.
Qed.

Lemma round_rows norm dist (points : Matrix) (D : nat) (st st' : KState) :
  lloyd_round norm dist points D st = Done st' →
  Forall (fun r => length r = D) points →
  Forall (fun r => length r = D) (clusterCenter st) →
  Forall (fun r => length r = D) (clusterCenter st').
Proof.
  intros Hr Hp Hc.
  apply KMeans_Round.round_exact in Hr as (_ & _ & _ & _ & _ & _ & _ & Hl & Hcc & _).
  apply Forall_lookup. intros c x Hx.
  assert (Hlt : (c < length (clusterCenter st))%nat).
  { rewrite <- Hl. by eapply lookup_lt_Some. }
  rewrite Hcc in Hx by done. destruct (decide _) as [Hne|Hne] in Hx.
  - injection Hx as <-. unfold vdiv. rewrite length_fmap.
    apply length_vadd_fold; [by rewrite length_replicate|].
    apply Forall_fmap, Forall_forall. intros i [_ Hi%elem_of_seq]%list_elem_of_filter.
    simpl. destruct (lookup_lt_is_Some_2 points i) as [r Hr']; [lia|].
    unfold row. rewrite (nth_lookup_Some _ _ _ _ Hr').
    eapply (proj1 (Forall_forall _ _) Hp). by eapply list_elem_of_lookup_2.
  - by eapply (proj1 (Forall_lookup _ _) Hc).
Qed.

Lemma loop_rows norm dist (points : Matrix) (D : nat) (fuel : nat) : ∀ st st',
  kmeans_loop norm dist fuel points D st = Done st' →
  Forall (fun r => length r = D) points →
  Forall (fun r => length r = D) (clusterCenter st) →
  Forall (fun r => length r = D) (clusterCenter st').
Proof.
  induction fuel as [|fuel IH]; intros st st'; simpl; [done|].
  destruct (lloyd_round norm dist points D st) as [st2| | |] eqn:Hr; simpl; try done.
  intros H Hp Hc. pose proof (round_rows _ _ _ _ _ _ Hr Hp Hc) as Hc2.
  destruct (continue _ _ _).
  - by apply (IH st2).
  - by injection H as <-.
Qed.

(** *** The scan for the representatives *)

Lemma foldM_ext {A S} (f g : S → A → outcome S) (xs : list A) : ∀ s,
  (∀ s x, x ∈ xs → f s x = g s x) → foldM f xs s = foldM g xs s.
Proof.
  induction xs as [|x xs IH]; intros s H; [done|].
  cbn [foldM]. rewrite (H s x) by (apply elem_of_cons; by left).
  destruct (g s x) as [s'| | |]; cbn [obind]; try done.
  apply IH. intros s'' y Hy. apply H, elem_of_cons. by right.
Qed.

(** With membership lists as long as [storage] says, the scan is that of
    [performFullK_MeansByClusters], for the distance [toCenter]. *)
Lemma representatives_PC_eq norm (cArray : Matrix) (st : KState) (io : list (option nat)) :
  (∀ i, (i < length (clusterCenter st))%nat →
        nth i (storage (last st)) 0%nat = length (nth i (neighborVec (last st)) [])) →
  representatives_PC norm cArray st io = representatives (toCenter norm cArray) st io.
Proof.
  intros H. unfold representatives_PC, representatives. f_equal.
  apply foldM_ext. intros [[[cl fu] si] fi] i Hi%elem_of_seq.
  specialize (H i ltac:(lia)).
  destruct (decide (0 < nth i (storage (last st)) 0)%nat) as [Hp|Hp].
  - rewrite decide_True.
    + rewrite decide_True by lia. done.
    + split; [done|]. intros E. rewrite E in H. simpl in H. lia.
  - rewrite decide_False; [done|]. by intros [? _].
Qed.

(** *** The rows of [SingVec] and the mass centres *)

Lemma pcSing_Done (SingVec : Matrix) (PC_Number Column : nat) :
  (PC_Number ≤ length SingVec)%nat →
  Forall (fun r => length r = Column) (take PC_Number SingVec) →
  pcSing SingVec PC_Number Column = Done (take PC_Number SingVec).
Proof.
  intros Hle Hrows. unfold pcSing.
  assert (∀ n acc, (n ≤ PC_Number)%nat →
            foldM (fun m i =>
                     match SingVec !! i with
                     | Some r => if decide (length r = Column) then Done (m ++ [r]) else UB
                     | None => UB
                     end) (seq (PC_Number - n) n) acc
            = Done (acc ++ drop (PC_Number - n) (take PC_Number SingVec))) as Hall.
  { induction n as [|n IH]; intros acc Hn.
    - simpl. rewrite Nat.sub_0_r, drop_ge by (rewrite length_take; lia).
      by rewrite app_nil_r.
    - cbn [seq foldM].
      destruct (lookup_lt_is_Some_2 SingVec (PC_Number - S n)) as [r Hr]; [lia|].
      rewrite Hr.
      assert (Ht : take PC_Number SingVec !! (PC_Number - S n)%nat = Some r).
      { rewrite lookup_take_lt by lia. done. }
      rewrite decide_True.
      2:{ eapply (proj1 (Forall_lookup _ _) Hrows). exact Ht. }
      cbn [obind]. replace (S (PC_Number - S n)) with (PC_Number - n)%nat by lia.
      rewrite IH by lia. rewrite <- app_assoc. do 2 f_equal.
      rewrite (drop_S _ r (PC_Number - S n)) by done.
      simpl. do 2 f_equal. lia. }
  specialize (Hall PC_Number [] (le_n _)). rewrite Nat.sub_diag in Hall.
  by rewrite Hall.
Qed.

Lemma mass_lines_spec (st : KState) (mp : Matrix) (mt : list Q)
    (io : list (option nat)) (Column : nat) :
  length mt = Column →
  (∀ i, (0 < nth i (storage (last st)) 0)%nat → ∃ g, io !! i = Some (Some g)) →
  mass_lines st mp mt io Column
  = Done ((fun c => ((fun j => nth j (vadd (row mp c) mt) 0%Q) <$> seq 0 Column,
                     label io c))
            <$> filter (fun c => 0 < nth c (storage (last st)) 0)%nat
                       (seq 0 (length (clusterCenter st)))).
Proof.
  intros Hmt Hio. unfold mass_lines.
  assert (∀ xs acc,
            foldM (fun mc i =>
                     if decide (0 < nth i (storage (last st)) 0)%nat then
                       if decide (length mt = Column) then
                         obind (read_init io i) (fun g =>
                           Done (mc ++ [((fun j => nth j (vadd (row mp i) mt) 0%Q)
                                           <$> seq 0 Column, g)]))
                       else UB
                     else Done mc) xs acc
            = Done (acc ++ ((fun c => ((fun j => nth j (vadd (row mp c) mt) 0%Q)
                                         <$> seq 0 Column, label io c))
                              <$> filter (fun c => 0 < nth c (storage (last st)) 0)%nat xs)))
    as Hall; [|apply (Hall _ [])].
  induction xs as [|x xs IH]; intros acc.
  - simpl. by rewrite app_nil_r.
  - cbn [foldM]. rewrite filter_cons.
    destruct (decide (0 < nth x (storage (last st)) 0)%nat) as [Hx|Hx].
    + rewrite decide_True by done. destruct (Hio x Hx) as [g Hg].
      rewrite (Finish_Facts.read_init_Done _ _ _ Hg). cbn [obind].
      rewrite IH, fmap_cons, <- app_assoc. done.
    + cbn [obind]. apply IH.
Qed.

(** *** Sums of products *)

Lemma Qsum_all_zero {A} (l : list A) : (Qsum ((fun _ => 0) <$> l) == 0)%Q.
Proof.
  induction l as [|x l IH]; [reflexivity|].
  rewrite fmap_cons, SVD_Energy.Qsum_cons, IH. ring.
Qed.

Lemma Qsum_scale {A} (f : A → Q) (c : Q) (l : list A) :
  (Qsum ((fun x => f x * c) <$> l) == Qsum (f <$> l) * c)%Q.
Proof.
  induction l as [|x l IH]; [cbn; ring|].
  rewrite !fmap_cons, !SVD_Energy.Qsum_cons, IH. ring.
Qed.

Lemma Qsum_swap {A B} (f : A → B → Q) (la : list A) (lb : list B) :
  (Qsum ((fun a => Qsum ((fun b => f a b) <$> lb)) <$> la)
   == Qsum ((fun b => Qsum ((fun a => f a b) <$> la)) <$> lb))%Q.
Proof.
  induction la as [|a la IH].
  - cbn [fmap list_fmap]. symmetry. apply Qsum_all_zero.
  - rewrite fmap_cons, SVD_Energy.Qsum_cons, IH.
    rewrite <- SVD_Energy.Qsum_add. apply SVD_Energy.Qsum_ext. intros b _.
    by rewrite fmap_cons, SVD_Energy.Qsum_cons.
Qed.

Lemma dot_cons (x y : Q) (a b : list Q) : dot (x :: a) (y :: b) = (x * y + dot a b)%Q.
Proof. done. Qed.

Lemma dot_by_index (a : list Q) : ∀ b,
  (dot a b == Qsum ((fun k => nth k a 0 * nth k b 0) <$> seq 0 (length a)))%Q.
Proof.
  induction a as [|x a IH]; intros b; [reflexivity|].
  cbn [length]. rewrite <- cons_seq, fmap_cons, SVD_Energy.Qsum_cons.
  rewrite <- fmap_S_seq, <- list_fmap_compose.
  destruct b as [|y b].
  - change (dot (x :: a) []) with 0%Q.
    rewrite (SVD_Energy.Qsum_ext _ (fun _ => 0%Q)).
    + rewrite Qsum_all_zero. cbn [nth]. ring.
    + intros k _. simpl. destruct k; ring.
  - rewrite dot_cons, IH. cbn [nth]. reflexivity.
Qed.

(** The combination of a mean is the mean of the combinations. *)
Lemma dot_mean (D : nat) (centre b : list Q) (rs : list (list Q)) (n : Q) :
  length centre = D → Forall (fun r => length r = D) rs →
  (∀ k, (k < D)%nat → (nth k centre 0 == Qsum ((fun r => nth k r 0) <$> rs) / n)%Q) →
  (dot centre b == Qsum ((fun r => dot r b) <$> rs) / n)%Q.
Proof.
  intros Hc Hrs Hmean.
  rewrite dot_by_index, Hc.
  rewrite (SVD_Energy.Qsum_ext (fun r => dot r b)
             (fun r => Qsum ((fun k => nth k r 0 * nth k b 0) <$> seq 0 D))%Q).
  2:{ intros r Hr. rewrite dot_by_index.
      by rewrite (proj1 (Forall_forall _ _) Hrs r Hr). }
  rewrite (Qsum_swap (fun r k => nth k r 0 * nth k b 0)%Q).
  rewrite (SVD_Energy.Qsum_ext (fun k => nth k centre 0 * nth k b 0)%Q
             (fun k => Qsum ((fun r => nth k r 0 * nth k b 0) <$> rs) * / n)%Q).
  - apply Qsum_scale.
  - intros k Hk%elem_of_seq. rewrite Hmean by lia.
    rewrite (Qsum_scale (fun r : list Q => nth k r 0%Q)). unfold Qdiv. ring.
Qed.

Lemma Qsum_add_const {A} (f : A → Q) (m : Q) (l : list A) :
  (Qsum ((fun x => m + f x) <$> l)
   == inject_Z (Z.of_nat (length l)) * m + Qsum (f <$> l))%Q.
Proof.
  induction l as [|x l IH]; [cbn; ring|].
  rewrite !fmap_cons, !SVD_Energy.Qsum_cons, IH. cbn [length].
  rewrite Nat2Z.inj_succ, <- Z.add_1_r, inject_Z_plus. ring.
Qed.

(** *** The rest of the function *)

(** What [finish] of [performFullK_MeansByClusters] computes on the way. *)
Lemma finish_fields dist log2f_lib isPBF cached normOption Row Column (st : KState) res evs :
  finish dist log2f_lib isPBF cached normOption Row Column st = Done (res, evs) →
  let io := (number_groups (groupMap (storage (last st))) (length (clusterCenter st))).1 in
  foldM (fun g i =>
           obind (read_init io (nth i (recorder (last st)) 0%nat))
                 (fun x => Done (g ++ [x])))
        (seq 0 Row) [] = Done (group res) ∧
  totalNum res
  = (fun i => nth (nth i (recorder (last st)) 0%nat) (storage (last st)) 0%nat)
      <$> seq 0 Row ∧
  groupNo res
  = (number_groups (groupMap (storage (last st))) (length (clusterCenter st))).2 ∧
  representatives dist st io = Done (closest res, furthest res).
Proof.
  unfold finish.
  destruct (number_groups _ _) as [io gNo]. cbn [fst snd].
  destruct (foldM _ (seq 0 Row) []) as [grp| | |]; cbn [obind]; try done.
  destruct (representatives dist st io) as [[cl fu]| | |]; cbn [obind]; try done.
  destruct (mean_lines st io Column) as [mc| | |]; cbn [obind]; try done.
  destruct (decide (gNo ≤ 1)%nat); intros [= <- <-]; done.
Qed.

(** For a loop that ended with lists, sizes and [recorder] in
    agreement and with centres of [PC_Number] coordinates, the rest of
    [performPC_KMeans] ends normally. *)
Lemma finish_PC_spec norm log2f_lib (cArray : Matrix) (Column PC_Number : nat) (SingVec : Matrix)
    (mt : list Q) (st : KState) :
  recorder_matches (length (storage (last st))) (length cArray) (last st) →
  length (clusterCenter st) = length (storage (last st)) →
  Forall (fun r => length r = PC_Number) (clusterCenter st) →
  (PC_Number ≤ length SingVec)%nat →
  Forall (fun r => length r = Column) (take PC_Number SingVec) →
  length mt = Column →
  let sto := storage (last st) in
  let io := (number_groups (groupMap sto) (length (clusterCenter st))).1 in
  ∃ res,
    finish_PC norm log2f_lib cArray Column PC_Number SingVec mt st
    = Done (res, [TrPush "k-means iteration for PC takes: ";
                  ValidityCompute (group res);
                  TrPush "PCA Validity measure is: ";
                  SilhouetteCompute (group res) (groupNo res);
                  TrPush "Clustering evaluation computing takes: ";
                  WriteReadme (Entropy.balanced_entropy log2f_lib sto (length cArray))]) ∧
    labels_by_size (length cArray) res ∧
    groupNo res = Entropy.nonZero sto ∧
    representatives (toCenter norm cArray) st io = Done (closest res, furthest res) ∧
    length (closest res) = groupNo res ∧ length (furthest res) = groupNo res ∧
    length (massCenter res) = groupNo res ∧
    massCenter res
    = (fun c => ((fun j => nth j (vadd ((fun j => dot (row (clusterCenter st) c)
                                                      (col (take PC_Number SingVec) j))
                                          <$> seq 0 Column) mt) 0%Q)
                   <$> seq 0 Column, label io c))
        <$> filter (fun c => 0 < nth c sto 0)%nat (seq 0 (length (clusterCenter st))).
Proof.
  intros Hm Hcl Hrows Hle HSV Hmt. cbv zeta.
  destruct (Finish_Facts.finish_labels (toCenter norm cArray) log2f_lib false false 0
              (length cArray) Column st Hm Hcl)
    as (res' & evs' & Hf & Hlab & Hg & Hc1 & Hc2 & Hc3).
  destruct (finish_fields _ _ _ _ _ _ _ _ _ _ Hf) as (Hgrp & Htot & HgNo & Hreps).
  destruct (Labels_Facts.number_groups_spec (storage (last st)))
    as (_ & _ & _ & Hpos & _).
  rewrite <- Hcl in Hpos.
  unfold finish_PC.
  destruct (number_groups (groupMap (storage (last st))) (length (clusterCenter st)))
    as [io gNo] eqn:Eng.
  cbn [fst snd] in *.
  rewrite Hgrp. cbn [obind].
  rewrite representatives_PC_eq, Hreps.
  2:{ intros i Hi. destruct Hm as [_ Hm]. destruct (Hm i) as [Hnv Hsto]; [lia|].
      by rewrite !nth_lookup, Hnv, Hsto. }
  cbn [obind]. rewrite (pcSing_Done _ _ _ Hle HSV). cbn [obind].
  unfold massPos. rewrite decide_True by done. cbn [obind].
  rewrite mass_lines_spec; [|done|].
  2:{ intros i Hi. destruct (Hpos i Hi) as (g & Hgi & _). eauto. }
  cbn [obind fst snd].
  eexists (mkResult _ _ _ _ _ _). split; [reflexivity|].
  cbn [group totalNum closest furthest massCenter groupNo].
  assert (Hrow : ∀ c, (c < length (clusterCenter st))%nat →
            row ((fun r => (fun j => dot r (col (take PC_Number SingVec) j))
                             <$> seq 0 Column) <$> clusterCenter st) c
            = (fun j => dot (row (clusterCenter st) c) (col (take PC_Number SingVec) j))
                <$> seq 0 Column).
  { intros c Hc. unfold row.
    destruct (lookup_lt_is_Some_2 (clusterCenter st) c Hc) as [r Hr].
    rewrite !nth_lookup, list_lookup_fmap, Hr. done. }
  split; [|split; [|split; [|split; [|split; [|split]]]]].
  - intros i Hi. destruct (Hlab i Hi) as (g & n & H1 & H2 & H3 & H4 & H5).
    rewrite Htot in H2. rewrite HgNo in H3.
    exists g, n. cbn [group totalNum groupNo].
    split; [done|]. split; [done|]. split; [done|]. split; [done|].
    intros j g' n' Hj1 Hj2. apply (H5 j); [done|]. by rewrite Htot.
  - congruence.
  - done.
  - congruence.
  - congruence.
  - rewrite length_fmap, Hcl, Finish_Facts.count_positive. congruence.
  - apply list_fmap_ext. intros k c Hk. f_equal.
    apply list_elem_of_lookup_2, list_elem_of_filter in Hk as [_ Hk%elem_of_seq].
    rewrite Hrow by lia. done.
Qed.

(** The coordinates of a mass centre. *)
Lemma mass_centre_rebuilt (cArray : Matrix) (Column PC_Number : nat) (SingVec : Matrix)
    (mt : list Q) (st : KState) (io : list (option nat)) :
  length mt = Column →
  Forall (fun r => length r = PC_Number) cArray →
  recorder_matches (length (storage (last st))) (length cArray) (last st) →
  length (clusterCenter st) = length (storage (last st)) →
  centres_are_means cArray PC_Number st →
  (∀ c, (0 < nth c (storage (last st)) 0)%nat → ∃ g, io !! c = Some (Some g)) →
  Forall (mass_centre_of cArray Column PC_Number SingVec mt st io)
    ((fun c => ((fun j => nth j (vadd ((fun j => dot (row (clusterCenter st) c)
                                                     (col (take PC_Number SingVec) j))
                                         <$> seq 0 Column) mt) 0%Q)
                  <$> seq 0 Column, label io c))
       <$> filter (fun c => 0 < nth c (storage (last st)) 0)%nat
                  (seq 0 (length (clusterCenter st)))).
Proof.
  intros Hmt HcA [_ Hm] Hcl Hmeans Hio.
  apply Forall_fmap, Forall_forall. intros c [Hp Hc%elem_of_seq]%list_elem_of_filter.
  destruct (Hm c ltac:(lia)) as [Hnv Hsto].
  set (mem := filter (fun i => recorder (last st) !! i = Some c)
                     (seq 0 (length cArray))) in *.
  assert (Hne : mem ≠ []).
  { intros E. rewrite nth_lookup, Hsto, E in Hp. simpl in Hp. lia. }
  destruct (Hio c Hp) as [g Hg].
  destruct (Hmeans c mem Hnv Hne) as (centre & Hcent & Hlen & Hmean).
  exists c, mem. cbn [fst snd].
  split; [done|]. split; [done|]. split; [unfold label; by rewrite Hg|].
  split; [by rewrite length_fmap, length_seq|].
  intros j Hj.
  assert (Hline : (nth j ((fun j => nth j (vadd ((fun j => dot (row (clusterCenter st) c)
                                                     (col (take PC_Number SingVec) j))
                                         <$> seq 0 Column) mt) 0%Q)
                            <$> seq 0 Column) 0
                   == rebuilt SingVec PC_Number mt (row (clusterCenter st) c) j)%Q).
  { rewrite (nth_lookup_Some _ _ _ (nth j (vadd ((fun j => dot (row (clusterCenter st) c)
                                                     (col (take PC_Number SingVec) j))
                                         <$> seq 0 Column) mt) 0%Q)).
    2:{ by rewrite list_lookup_fmap, lookup_seq_lt. }
    rewrite Rows.nth_vadd by (by rewrite length_fmap, length_seq).
    rewrite (nth_lookup_Some _ _ _ (dot (row (clusterCenter st) c)
                                        (col (take PC_Number SingVec) j))).
    2:{ by rewrite list_lookup_fmap, lookup_seq_lt. }
    unfold rebuilt. ring. }
  split; [exact Hline|]. rewrite Hline. unfold rebuilt.
  assert (Hn : ¬ (inject_Z (Z.of_nat (length mem)) == 0)%Q).
  { destruct mem; [done|]. cbn [length]. unfold Qeq. simpl. lia. }
  rewrite (Qsum_add_const
             (fun m => dot (row cArray m) (col (take PC_Number SingVec) j))).
  assert (Hrow : row (clusterCenter st) c = centre).
  { unfold row. by rewrite (nth_lookup_Some _ _ _ _ Hcent). }
  rewrite Hrow.
  rewrite (dot_mean PC_Number centre (col (take PC_Number SingVec) j)
             (row cArray <$> mem) (inject_Z (Z.of_nat (length mem))) Hlen).
  - rewrite <- !list_fmap_compose. unfold compose. field. done.
  - apply Forall_fmap, Forall_forall. intros i [_ Hi%elem_of_seq]%list_elem_of_filter.
    simpl. destruct (lookup_lt_is_Some_2 cArray i) as [r Hr]; [lia|].
    unfold row. rewrite (nth_lookup_Some _ _ _ _ Hr).
    eapply (proj1 (Forall_forall _ _) HcA). by eapply list_elem_of_lookup_2.
  - intros k Hk. rewrite (Hmean k Hk), <- list_fmap_compose. reflexivity.
Qed.

End PC_Tail_Facts.

(* ===================================================================== *)
(** * Part III: main results                                              *)
(* ===================================================================== *)

Import KMeans Tail Inputs.

Lemma norm_sat_finite (v : list Q) : (norm_sat v < FLT_MAX)%Q.
Proof.
  unfold norm_sat. eapply Qle_lt_trans; [apply Q.le_min_r|]. reflexivity.
Qed.

Lemma dissim_sat_finite (c : list Q) (data : Matrix) (i : nat) (o : Z) :
  (dissim_sat c data i o < FLT_MAX)%Q.
Proof. apply norm_sat_finite. Qed.

(** C3.  Each of the two k-means loops ends after at most 20 rounds, at
    the first round in which the relative change of the displacement is
    below 0.01, or the round count has reached 20, or the displacement is
    at most 0.01; in no earlier round does any of the three hold.  The
    relative change is the one that the code computes: the difference and
    the quotient are rounded to single precision, and 0.01 is the
    [double] of that name.  (A loop needs a centre and distances below
    [FLT_MAX], so that every curve finds a nearest centre.) *)
Theorem kmeans_stops_at_first_trigger
    (norm : list Q → Q) (getDisimilarity : list Q → Matrix → nat → Z → Q)
    (cArray data seeds : Matrix) (PC_Number Column : nat) (normOption : Z)
    (fuel : nat) :
  seeds ≠ [] → (20 ≤ fuel)%nat →
  (∀ v, (norm v < FLT_MAX)%Q) →
  (∀ c i, (getDisimilarity c data i normOption < FLT_MAX)%Q) →
  (∃ st, performPC_KMeans_loop norm fuel cArray PC_Number seeds = Done st ∧
         stops_at_first_trigger st) ∧
  (∃ st, performFullK_Means_loop norm getDisimilarity fuel data Column normOption seeds
           = Done st ∧
         stops_at_first_trigger st).
Proof.
  intros Hs Hf Hn Hd. split.
  - destruct (KMeans_Facts.kmeans_stops norm (fun c i => norm (vsub (row cArray i) c))
                cArray PC_Number (fun c i => Hn _) seeds fuel Hs Hf) as (st & H1 & H2 & _ & _).
    eauto.
  - destruct (KMeans_Facts.kmeans_stops norm (fun c i => getDisimilarity c data i normOption)
                data Column Hd seeds fuel Hs Hf) as (st & H1 & H2 & _ & _).
    eauto.
Qed.

Lemma kmeans_stops_at_first_trigger_witness :
  seeds2 ≠ [] ∧ (20 ≤ 20)%nat ∧
  (∀ v, (norm_sat v < FLT_MAX)%Q) ∧
  (∀ c i, (dissim_sat c line6 i 0 < FLT_MAX)%Q) ∧
  ((∃ st, performPC_KMeans_loop norm_sat 20 line6 1 seeds2 = Done st ∧
          stops_at_first_trigger st) ∧
   (∃ st, performFullK_Means_loop norm_sat dissim_sat 20 line6 1 0 seeds2 = Done st ∧
          stops_at_first_trigger st)).
Proof.
  split; [discriminate|]. split; [lia|].
  split; [exact norm_sat_finite|]. split; [intros c i; apply dissim_sat_finite|].
  apply (kmeans_stops_at_first_trigger norm_sat dissim_sat line6 line6 seeds2 1 1 0 20).
  - discriminate.
  - lia.
  - exact norm_sat_finite.
  - intros c i. apply dissim_sat_finite.
Defined.

(** C3, in exact arithmetic.  For the curves 0 and 2020 and the centre 0
    the first round moves the centre to 1010: [moving] is 1010 after
    [before = 1000].  The relative change is exactly 1/100, which is not
    below 0.01, the round count is 1 and the displacement is above 0.01:
    none of the three conditions holds as the specification words them.
    The quotient 10/1000 rounded to single precision is
    0.00999999977648258209228515625, below the [double] 0.01, and both
    loops leave after this round. *)
Theorem kmeans_leaves_at_one_percent :
  ∃ st, performPC_KMeans_loop norm_sat 20 far2 1 seed0 = Done st ∧
        performFullK_Means_loop norm_sat dissim_sat 20 far2 1 0 seed0 = Done st ∧
        tag st = 1%nat ∧ (moving st == 1010)%Q ∧
        before_of (log st) 1 = 1000%Q ∧ moving_of (log st) 1 = moving st ∧
        relative_change 1000 (moving st) = Float32.Fin (5368709 # 536870912) ∧
        (5368709 # 536870912 < double_0_01)%Q ∧
        ¬ trigger_exact (before_of (log st) 1) (moving_of (log st) 1) 1.
Proof.
  eexists. split; [vm_compute; reflexivity|].
  split; [vm_compute; reflexivity|].
  split; [reflexivity|]. split; [reflexivity|]. split; [reflexivity|].
  split; [reflexivity|]. split; [vm_compute; reflexivity|]. split; [reflexivity|].
  intros [H|[H|H]].
  - vm_compute in H. discriminate.
  - lia.
  - vm_compute in H. by apply H.
Qed.

(** C8.  In a round of either k-means loop, a cluster that gets no curve
    in the assignment step keeps its centre row as it was, and the round
    ends normally all the same. *)
Theorem empty_cluster_keeps_centre
    (norm : list Q → Q) (dist : list Q → nat → Q) (points : Matrix) (D : nat)
    (st : KState) :
  clusterCenter st ≠ [] → (∀ c i, (dist c i < FLT_MAX)%Q) →
  ∃ st', lloyd_round norm dist points D st = Done st' ∧
         ∀ i, nth i (neighborVec (last st')) [] = [] →
              clusterCenter st' !! i = clusterCenter st !! i.
Proof.
  intros Hne Hd.
  destruct (KMeans_Facts.round_defined norm dist points D Hd st Hne)
    as (st' & Hr & (_ & _ & Hc) & _ & Hkeep).
  exists st'. split; [done|]. intros i Hi. apply Hkeep. by rewrite Hc, Hi.
Qed.

Lemma empty_cluster_keeps_centre_witness :
  clusterCenter (kmeans_start line3 seeds_far) ≠ [] ∧
  (∀ c i, (norm_sat (vsub (row line3 i) c) < FLT_MAX)%Q) ∧
  ∃ st', lloyd_round norm_sat (fun c i => norm_sat (vsub (row line3 i) c)) line3 1
           (kmeans_start line3 seeds_far) = Done st' ∧
         ∀ i, nth i (neighborVec (last st')) [] = [] →
              clusterCenter st' !! i = clusterCenter (kmeans_start line3 seeds_far) !! i.
Proof.
  split; [discriminate|]. split; [intros c i; apply norm_sat_finite|].
  apply (empty_cluster_keeps_centre norm_sat
           (fun c i => norm_sat (vsub (row line3 i) c)) line3 1
           (kmeans_start line3 seeds_far)).
  - discriminate.
  - intros c i. apply norm_sat_finite.
Defined.

Lemma M3_finite (i j : Z) : (coeff M3 i j < FLT_MAX)%Q.
Proof.
  unfold coeff. destruct (decide _); [|reflexivity].
  destruct (Z.to_nat i) as [|[|[|[|?]]]]; destruct (Z.to_nat j) as [|[|[|[|?]]]];
    reflexivity.
Qed.

(** C4.  After either k-means loop the membership lists are pairwise
    disjoint and hold exactly the curves [0 .. Row-1]; so do the lists that
    [perform_AHC] builds from the result of the merger; and so do the
    lists of the live nodes in every state that the merger passes through.
    (k-means needs a centre; the merger is asked for between 2 and
    [Row - 1] clusters, with [Row * (Row - 1)] inside [int]; distances are
    below [FLT_MAX].) *)
Theorem memberships_partition
    (dflt : DistNode) (dflt_index : Z)
    (order : gmap Z AHC_node → list (Z * AHC_node))
    (norm : list Q → Q) (getDisimilarity : list Q → Matrix → nat → Z → Q)
    (cArray data seeds : Matrix) (PC_Number Column : nat) (normOption Cluster : Z) :
  (∀ m, order m ≡ₚ map_to_list m) →
  (∀ v, (norm v < FLT_MAX)%Q) →
  (∀ c i, (getDisimilarity c data i normOption < FLT_MAX)%Q) →
  seeds ≠ [] →
  (2 ≤ Cluster < rows cArray)%Z → (rows cArray ≤ 46341)%Z →
  (∃ st, performPC_KMeans_loop norm 20 cArray PC_Number seeds = Done st ∧
         partitions (neighborVec (last st)) (seq 0 (length cArray))) ∧
  (∃ st, performFullK_Means_loop norm getDisimilarity 20 data Column normOption seeds
           = Done st ∧
         partitions (neighborVec (last st)) (seq 0 (length data))) ∧
  (∃ neighborVec storage recorder,
     perform_AHC_groups dflt dflt_index order norm (length cArray) cArray Cluster
       = Done (neighborVec, storage, recorder) ∧
     Z.of_nat (length neighborVec) = Cluster ∧
     partitions neighborVec (seqZ 0 (rows cArray))) ∧
  (∃ st0, obind (setValue dflt cArray (reduced_dist_matrix norm cArray))
                (fun dNodeVec => merge_start dflt_index ∅ dNodeVec cArray) = Done st0 ∧
          ∀ st, reaches dflt dflt_index order (reduced_dist_matrix norm cArray) st0 st →
                partitions (members (st_nodeMap st)) (seqZ 0 (rows cArray))).
Proof.
  intros Ho Hn Hd Hs Hc Hrow. split; [|split; [|split]].
  - destruct (KMeans_Facts.kmeans_stops norm (fun c i => norm (vsub (row cArray i) c))
                cArray PC_Number (fun c i => Hn _) seeds 20 Hs (le_n 20)) as (st & H1 & _ & H2 & _).
    exists st. split; [done|].
    apply KMeans_Facts.partitions_of_Permutation; [apply NoDup_seq|done].
  - destruct (KMeans_Facts.kmeans_stops norm (fun c i => getDisimilarity c data i normOption)
                data Column Hd seeds 20 Hs (le_n 20)) as (st & H1 & _ & H2 & _).
    exists st. split; [done|].
    apply KMeans_Facts.partitions_of_Permutation; [apply NoDup_seq|done].
  - destruct (AHC_Facts.perform_AHC_groups_Done dflt dflt_index order Ho norm cArray
                Cluster Hn Hc Hrow) as (nv & sto & rec & H1 & H2 & H3).
    exists nv, sto, rec. split; [done|]. split; [done|].
    apply KMeans_Facts.partitions_of_Permutation; [apply NoDup_seqZ|done].
  - pose proof (AHC_Facts.reduced_dist_finite norm cArray Hn) as HM.
    destruct (AHC_Facts.start_Done dflt dflt_index (reduced_dist_matrix norm cArray) HM
                cArray ltac:(lia)) as (st0 & H0 & _ & Hinv & _).
    exists st0. split; [done|]. intros st Hr.
    apply KMeans_Facts.partitions_of_Permutation; [apply NoDup_seqZ|].
    eapply inv_part, AHC_Facts.reaches_inv; eauto.
Qed.

Lemma memberships_partition_witness :
  (∀ m : gmap Z AHC_node, map_to_list m ≡ₚ map_to_list m) ∧
  (∀ v, (norm_sat v < FLT_MAX)%Q) ∧
  (∀ c i, (dissim_sat c line6 i 0 < FLT_MAX)%Q) ∧
  seeds2 ≠ [] ∧
  (2 ≤ 2 < rows line6)%Z ∧ (rows line6 ≤ 46341)%Z ∧
  ((∃ st, performPC_KMeans_loop norm_sat 20 line6 1 seeds2 = Done st ∧
          partitions (neighborVec (last st)) (seq 0 (length line6))) ∧
   (∃ st, performFullK_Means_loop norm_sat dissim_sat 20 line6 1 0 seeds2 = Done st ∧
          partitions (neighborVec (last st)) (seq 0 (length line6))) ∧
   (∃ neighborVec storage recorder,
      perform_AHC_groups d0 (-1) map_to_list norm_sat (length line6) line6 2
        = Done (neighborVec, storage, recorder) ∧
      Z.of_nat (length neighborVec) = 2%Z ∧
      partitions neighborVec (seqZ 0 (rows line6))) ∧
   (∃ st0, obind (setValue d0 line6 (reduced_dist_matrix norm_sat line6))
                 (fun dNodeVec => merge_start (-1) ∅ dNodeVec line6) = Done st0 ∧
           ∀ st, reaches d0 (-1) map_to_list (reduced_dist_matrix norm_sat line6) st0 st →
                 partitions (members (st_nodeMap st)) (seqZ 0 (rows line6)))).
Proof.
  split; [done|]. split; [exact norm_sat_finite|].
  split; [intros c i; apply dissim_sat_finite|]. split; [discriminate|].
  split; [vm_compute; split; [discriminate|reflexivity]|].
  split; [vm_compute; discriminate|].
  apply (memberships_partition d0 (-1) map_to_list norm_sat dissim_sat line6 line6 seeds2
           1 1 0 2).
  - done.
  - exact norm_sat_finite.
  - intros c i. apply dissim_sat_finite.
  - discriminate.
  - vm_compute. split; [discriminate|reflexivity].
  - vm_compute. discriminate.
Defined.

(** C9.  [setValue] fills the candidate vector with [Row (Row - 1) / 2]
    entries, and in every state that the merger passes through the vector
    holds [n (n - 1) / 2] entries for [n] live nodes, one for every two
    different live nodes.  A pass of the loop body keeps, unchanged and in
    order, the entries that touch neither merged node, and appends one
    entry per remaining live node, each joining that node to the new one;
    the rebuilt vector is filled to its end (the pass ends normally, so its
    [assert] holds).  With three or more live nodes a pass does end
    normally.  ([Row] is at least 2 with [Row * (Row - 1)] inside [int];
    distances are below [FLT_MAX].) *)
Theorem candidate_pairs_one_per_live_pair
    (dflt : DistNode) (dflt_index : Z)
    (order : gmap Z AHC_node → list (Z * AHC_node)) (M cArray : Matrix) :
  (∀ m, order m ≡ₚ map_to_list m) →
  (∀ i j, (coeff M i j < FLT_MAX)%Q) →
  (2 ≤ rows cArray ≤ 46341)%Z →
  ∃ st0,
    obind (setValue dflt cArray M)
          (fun dNodeVec => merge_start dflt_index ∅ dNodeVec cArray) = Done st0 ∧
    (2 * Z.of_nat (length (st_dNodeVec st0)) = rows cArray * (rows cArray - 1))%Z ∧
    ∀ st, reaches dflt dflt_index order M st0 st →
      exact_pairs st ∧
      ((3 ≤ size (st_nodeMap st))%nat →
         ∃ st', merge_body dflt dflt_index order M st = Done st') ∧
      ∀ st', merge_body dflt dflt_index order M st = Done st' →
        ∃ news,
          st_dNodeVec st' = filter (unrelated (st_poped st)) (st_dNodeVec st) ++ news ∧
          first <$> news ≡ₚ filter (fun k => k ≠ st_index st) (keys (st_nodeMap st')) ∧
          Forall (fun d => second d = st_index st) news ∧
          is_Some (st_nodeMap st' !! st_index st) ∧
          S (size (st_nodeMap st')) = size (st_nodeMap st) ∧
          exact_pairs st'.
Proof.
  intros Ho HM Hrow.
  destruct (AHC_Facts.start_Done dflt dflt_index M HM cArray Hrow)
    as (st0 & H0 & Hds & Hinv & Hsz).
  exists st0. split; [done|]. split.
  - destruct (AHC_Facts.inv_exact_pairs _ _ Hinv) as (Hlen & _). nia.
  - intros st Hr.
    pose proof (AHC_Facts.reaches_inv dflt dflt_index order Ho M HM (rows cArray)
                  (proj2 Hrow) st0 st Hinv Hr) as Hinv'.
    split; [by eapply AHC_Facts.inv_exact_pairs|]. split.
    + intros Hge.
      destruct (AHC_Facts.body_step dflt dflt_index order Ho M HM (rows cArray)
                  (proj2 Hrow) st Hinv') as (n1 & n2 & _ & _ & _ & _ & Hok).
      destruct (Hok Hge) as (pp & Hb & _). eauto.
    + intros st' Hb.
      destruct (AHC_Facts.body_Done_shape dflt dflt_index order Ho M HM cArray Hrow
                  st st' Hinv' Hb) as (news & H1 & H2 & H3 & H4 & H5 & H6).
      exists news. repeat (split; [done|]). by eapply AHC_Facts.inv_exact_pairs.
Qed.

Lemma candidate_pairs_one_per_live_pair_witness :
  (∀ m : gmap Z AHC_node, map_to_list m ≡ₚ map_to_list m) ∧
  (∀ i j, (coeff M3 i j < FLT_MAX)%Q) ∧
  (2 ≤ rows M3 ≤ 46341)%Z ∧
  ∃ st0,
    obind (setValue d0 M3 M3)
          (fun dNodeVec => merge_start (-1) ∅ dNodeVec M3) = Done st0 ∧
    (2 * Z.of_nat (length (st_dNodeVec st0)) = rows M3 * (rows M3 - 1))%Z ∧
    ∀ st, reaches d0 (-1) map_to_list M3 st0 st →
      exact_pairs st ∧
      ((3 ≤ size (st_nodeMap st))%nat →
         ∃ st', merge_body d0 (-1) map_to_list M3 st = Done st') ∧
      ∀ st', merge_body d0 (-1) map_to_list M3 st = Done st' →
        ∃ news,
          st_dNodeVec st' = filter (unrelated (st_poped st)) (st_dNodeVec st) ++ news ∧
          first <$> news ≡ₚ filter (fun k => k ≠ st_index st) (keys (st_nodeMap st')) ∧
          Forall (fun d => second d = st_index st) news ∧
          is_Some (st_nodeMap st' !! st_index st) ∧
          S (size (st_nodeMap st')) = size (st_nodeMap st) ∧
          exact_pairs st'.
Proof.
  split; [done|]. split; [exact M3_finite|].
  split; [vm_compute; split; discriminate|].
  apply (candidate_pairs_one_per_live_pair d0 (-1) map_to_list M3 M3).
  - done.
  - exact M3_finite.
  - vm_compute. split; discriminate.
Defined.

(** C10.  When [performFullK_MeansByClusters] ends with at most one group
    ([groupNo <= 1]), it has filled the labels and the sizes of all [Row]
    curves, one pair of representatives per mean line, and made no call at
    all: the distance file is neither opened, read nor written, the
    Silhouette and the validity measure are not computed, and nothing is
    appended to the time record or the readme. *)
Theorem performFullK_single_group_returns_early
    (norm : list Q → Q) (getDisimilarity : list Q → Matrix → nat → Z → Q) (log2f_lib : Q → Q)
    (isPBF cached : bool) (fuel : nat) (data : Matrix) (Column : nat)
    (normOption : Z) (seeds : Matrix) (res : Result) (evs : list event) :
  performFullK_MeansByClusters norm getDisimilarity log2f_lib isPBF cached fuel data Column
                               normOption seeds = Done (res, evs) →
  (groupNo res ≤ 1)%nat →
  evs = [] ∧
  length (group res) = length data ∧ length (totalNum res) = length data ∧
  length (closest res) = length (massCenter res) ∧
  length (furthest res) = length (massCenter res).
Proof.
  unfold performFullK_MeansByClusters. intros Hrun Hg.
  destruct (performFullK_Means_loop _ _ _ _ _ _ _) as [st| | |]; simpl in Hrun; try done.
  apply Tail_Facts.finish_Done in Hrun as (_ & H1 & H2 & H3 & H4 & ->).
  by rewrite decide_True.
Qed.

Lemma performFullK_single_group_returns_early_witness :
  performFullK_MeansByClusters norm_sat dissim_sat log2f_floor false false 20 line3 1 0 seeds1
    = Done (one_group, []) ∧
  (groupNo one_group ≤ 1)%nat ∧
  (@nil event = [] ∧
   length (group one_group) = length line3 ∧
   length (totalNum one_group) = length line3 ∧
   length (closest one_group) = length (massCenter one_group) ∧
   length (furthest one_group) = length (massCenter one_group)).
Proof.
  split; [vm_compute; reflexivity|]. split; [vm_compute; lia|].
  apply (performFullK_single_group_returns_early norm_sat dissim_sat log2f_floor false false 20
           line3 1 0 seeds1 one_group []).
  - vm_compute. reflexivity.
  - vm_compute. lia.
Defined.




(* ===================================================================== *)
(** * Part IV: further properties                                         *)
(* ===================================================================== *)

Import KMeans_Shape.

Lemma recorder_matches_agrees (K Row : nat) (r : Round) :
  recorder_matches K Row r → recorder_agrees K Row r.
Proof.
  intros [H1 H2]. split; [done|]. intros c Hc. destruct (H2 c Hc) as [Hnv Hsto].
  eexists. split; [exact Hnv|]. split; [done|]. exact Hsto.
Qed.

(** The assignment loop over the curves in any order. *)
Lemma assignment_agrees (dist : list Q → nat → Q) (order : list nat)
    (points centres : Matrix) (D : nat) (rec : list nat) :
  (∀ c i, (dist c i < FLT_MAX)%Q) → centres ≠ [] →
  order ≡ₚ seq 0 (length points) → length rec = length points →
  ∃ r, assignment dist order points centres D rec = Done r ∧
       recorder_agrees (length centres) (length points) r.
Proof.
  intros Hd Hne Hperm Hrec. unfold assignment.
  edestruct (KMeans_Facts.assign_loop dist points Hd centres order)
    as (r & Hr & _ & _); [done|apply KMeans_Facts.counted_start|].
  exists r. split; [exact Hr|].
  apply KMeans_Round.assign_fold in Hr as (Hsome & Hsto & Hnv & _ & _ & Hrc).
  cbn [storage neighborVec recorder] in *.
  assert (Hin : ∀ i, (i < length points)%nat → i ∈ order).
  { intros i Hi. rewrite Hperm. apply elem_of_seq. lia. }
  assert (Hrc' : ∀ i, (i < length points)%nat →
            recorder r !! i = (nearest_from dist 0 centres i FLT_MAX None).2).
  { intros i Hi. rewrite Hrc, decide_True; [done|]. split; [by apply Hin|lia]. }
  split.
  - intros i Hi. rewrite Hrc' by done. destruct (Hsome i (Hin i Hi)) as [c Hc].
    exists c. split; [done|].
    apply KMeans_Round.nearest_Some in Hc as (x & Hx & _).
    by apply lookup_lt_Some in Hx.
  - intros c Hc.
    exists (filter (fun i => (nearest_from dist 0 centres i FLT_MAX None).2 = Some c) order).
    split; [by rewrite Hnv, lookup_replicate_2|]. split.
    + rewrite Hperm.
      assert (filter (fun i => (nearest_from dist 0 centres i FLT_MAX None).2 = Some c)
                     (seq 0 (length points))
              = filter (fun i => recorder r !! i = Some c) (seq 0 (length points))) as ->;
        [|done].
      apply KMeans_Round.filter_ext_in.
      intros i Hi%elem_of_seq. rewrite Hrc' by lia. done.
    + by rewrite Hsto, lookup_replicate_2.
Qed.

Lemma loop_recorder_matches norm dist points D seeds fuel :
  seeds ≠ [] → (20 ≤ fuel)%nat → (∀ c i, (dist c i < FLT_MAX)%Q) →
  ∃ st, kmeans norm dist fuel points D seeds = Done st ∧
        recorder_matches (length seeds) (length points) (last st).
Proof.
  intros Hs Hf Hd.
  destruct (KMeans_Facts.kmeans_stops norm dist points D Hd seeds fuel Hs Hf)
    as (st & Hk & _).
  exists st. split; [done|].
  apply KMeans_Round.loop_last_round in Hk as (st1 & Hr & Hl1 & Hl2). simpl in Hl1, Hl2.
  rewrite length_replicate in Hl1. rewrite <- Hl2.
  by apply (KMeans_Round.round_lists_match norm dist points D st1 st).
Qed.

Lemma loop_final_lengths norm dist points D seeds fuel st :
  kmeans norm dist fuel points D seeds = Done st →
  length (storage (last st)) = length seeds ∧ length (clusterCenter st) = length seeds.
Proof.
  intros Hk. apply KMeans_Round.loop_last_round in Hk as (st1 & Hr & _ & Hl2).
  apply KMeans_Round.round_exact in Hr as (_ & Hs & _ & _ & _ & _ & _ & Hc & _).
  simpl in Hl2. split; congruence.
Qed.

Lemma loop_centres_are_means norm dist points D seeds fuel :
  seeds ≠ [] → (20 ≤ fuel)%nat → (∀ c i, (dist c i < FLT_MAX)%Q) →
  Forall (fun r => length r = D) points →
  ∃ st, kmeans norm dist fuel points D seeds = Done st ∧ centres_are_means points D st.
Proof.
  intros Hs Hf Hd Hrows.
  destruct (KMeans_Facts.kmeans_stops norm dist points D Hd seeds fuel Hs Hf)
    as (st & Hk & _).
  exists st. split; [done|].
  apply KMeans_Round.loop_last_round in Hk as (st1 & Hr & _).
  intros c mem Hmem Hne.
  destruct (KMeans_Round.round_centres norm dist points D st1 st Hr c mem Hmem Hne)
    as [Hc Hin].
  eexists. split; [exact Hc|].
  assert (Hrs : Forall (fun r => length r = D) (row points <$> mem)).
  { apply Forall_fmap. eapply Forall_impl; [exact Hin|]. intros i Hi. simpl.
    destruct (lookup_lt_is_Some_2 points i Hi) as [r Hr'].
    unfold row. rewrite nth_lookup, Hr'. simpl.
    eapply (proj1 (Forall_forall _ _) Hrows). by eapply list_elem_of_lookup_2. }
  assert (Hlen : ∀ rs v, length v = D → Forall (fun r : list Q => length r = D) rs →
                         length (foldl vadd v rs) = D).
  { clear. induction rs as [|r rs IH]; intros v Hv Hrs; [done|].
    apply Forall_cons in Hrs as [Hr Hrs]. simpl. apply IH; [|done].
    rewrite Rows.length_vadd; congruence. }
  split.
  - unfold vdiv. rewrite length_fmap. apply Hlen; [by rewrite length_replicate|done].
  - intros j Hj. rewrite Rows.nth_vdiv.
    rewrite (Rows.nth_vadd_fold D) by (by rewrite ?length_replicate).
    rewrite Rows.nth_replicate_zero, <- list_fmap_compose.
    unfold Qdiv. rewrite Qplus_0_l. reflexivity.
Qed.

(** X1.  In a round of either k-means loop every curve is put in the
    cluster of the first centre of least distance, measured to the centres
    as they are when the round begins; the curve is recorded in [recorder]
    and in the membership list of that cluster. *)
Theorem round_assigns_first_nearest_centre
    (norm : list Q → Q) (dist : list Q → nat → Q) (points : Matrix) (D : nat)
    (st : KState) :
  clusterCenter st ≠ [] → (∀ c i, (dist c i < FLT_MAX)%Q) →
  length (recorder (last st)) = length points →
  ∃ st', lloyd_round norm dist points D st = Done st' ∧
    ∀ i, (i < length points)%nat →
      ∃ c x, recorder (last st') !! i = Some c ∧ clusterCenter st !! c = Some x ∧
             i ∈ nth c (neighborVec (last st')) [] ∧
             (∀ k y, clusterCenter st !! k = Some y → (dist x i <= dist y i)%Q) ∧
             (∀ k y, (k < c)%nat → clusterCenter st !! k = Some y →
                     (dist x i < dist y i)%Q).
Proof.
  intros Hne Hd Hlen.
  destruct (KMeans_Facts.round_defined norm dist points D Hd st Hne) as (st' & Hr & _).
  exists st'. split; [done|]. intros i Hi.
  destruct (KMeans_Round.round_exact norm dist points D st st' Hr)
    as (Hsome & _ & _ & _ & Hnv & _ & Hrec & _).
  destruct (Hsome i Hi) as [c Hc].
  destruct (KMeans_Round.nearest_Some dist _ _ _ Hc) as (x & Hx & _ & Hall & Hfirst).
  exists c, x. rewrite Hrec by lia. split; [done|]. split; [done|].
  split; [|by split].
  rewrite nth_lookup, Hnv by (by eapply lookup_lt_Some). simpl.
  apply list_elem_of_filter. split; [done|]. apply elem_of_seq. lia.
Qed.

Lemma round_assigns_first_nearest_centre_witness :
  clusterCenter (kmeans_start line6 seeds2) ≠ [] ∧
  (∀ c i, (norm_sat (vsub (row line6 i) c) < FLT_MAX)%Q) ∧
  length (recorder (last (kmeans_start line6 seeds2))) = length line6 ∧
  ∃ st', lloyd_round norm_sat (fun c i => norm_sat (vsub (row line6 i) c)) line6 1
           (kmeans_start line6 seeds2) = Done st' ∧
    ∀ i, (i < length line6)%nat →
      ∃ c x, recorder (last st') !! i = Some c ∧
             clusterCenter (kmeans_start line6 seeds2) !! c = Some x ∧
             i ∈ nth c (neighborVec (last st')) [] ∧
             (∀ k y, clusterCenter (kmeans_start line6 seeds2) !! k = Some y →
                     (norm_sat (vsub (row line6 i) x) <= norm_sat (vsub (row line6 i) y))%Q) ∧
             (∀ k y, (k < c)%nat → clusterCenter (kmeans_start line6 seeds2) !! k = Some y →
                     (norm_sat (vsub (row line6 i) x) < norm_sat (vsub (row line6 i) y))%Q).
Proof.
  split; [discriminate|]. split; [intros c i; apply norm_sat_finite|].
  split; [reflexivity|].
  apply (round_assigns_first_nearest_centre norm_sat
           (fun c i => norm_sat (vsub (row line6 i) c)) line6 1
           (kmeans_start line6 seeds2)).
  - discriminate.
  - intros c i. apply norm_sat_finite.
  - reflexivity.
Defined.

(** X2.  In a round of either k-means loop, in whatever order the
    threads enter the critical section, the assignment loop ends normally
    with [recorder] naming a cluster for every curve, the membership list
    of each cluster holding exactly the curves that [recorder] puts in it,
    each once, and [storage] holding the length of that list.  The same
    holds when the loop has ended. *)
Theorem kmeans_lists_match_recorder
    (norm : list Q → Q) (getDisimilarity : list Q → Matrix → nat → Z → Q)
    (cArray data seeds : Matrix) (PC_Number Column : nat) (normOption : Z) :
  seeds ≠ [] → (∀ v, (norm v < FLT_MAX)%Q) →
  (∀ c i, (getDisimilarity c data i normOption < FLT_MAX)%Q) →
  (∀ order centres rec,
     centres ≠ [] → order ≡ₚ seq 0 (length cArray) → length rec = length cArray →
     ∃ r, assignment (fun c i => norm (vsub (row cArray i) c)) order cArray centres
                     PC_Number rec = Done r ∧
          recorder_agrees (length centres) (length cArray) r) ∧
  (∀ order centres rec,
     centres ≠ [] → order ≡ₚ seq 0 (length data) → length rec = length data →
     ∃ r, assignment (fun c i => getDisimilarity c data i normOption) order data centres
                     Column rec = Done r ∧
          recorder_agrees (length centres) (length data) r) ∧
  (∃ st, performPC_KMeans_loop norm 20 cArray PC_Number seeds = Done st ∧
         recorder_agrees (length seeds) (length cArray) (last st)) ∧
  (∃ st, performFullK_Means_loop norm getDisimilarity 20 data Column normOption seeds
           = Done st ∧
         recorder_agrees (length seeds) (length data) (last st)).
Proof.
  intros Hs Hn Hd. split; [|split; [|split]].
  - intros order centres rec Hc Ho Hr.
    apply assignment_agrees; [intros c i; apply Hn|done..].
  - intros order centres rec Hc Ho Hr. by apply assignment_agrees.
  - destruct (loop_recorder_matches norm (fun c i => norm (vsub (row cArray i) c))
                cArray PC_Number seeds 20) as (st & Hk & Hm); [done|lia| |].
    { intros c i. apply Hn. }
    exists st. split; [done|]. by apply recorder_matches_agrees.
  - destruct (loop_recorder_matches norm (fun c i => getDisimilarity c data i normOption)
                data Column seeds 20) as (st & Hk & Hm); [done|lia|done|].
    exists st. split; [done|]. by apply recorder_matches_agrees.
Qed.

Lemma kmeans_lists_match_recorder_witness :
  seeds2 ≠ [] ∧ (∀ v, (norm_sat v < FLT_MAX)%Q) ∧
  (∀ c i, (dissim_sat c line6 i 0 < FLT_MAX)%Q) ∧
  ((∀ order centres rec,
      centres ≠ [] → order ≡ₚ seq 0 (length line6) → length rec = length line6 →
      ∃ r, assignment (fun c i => norm_sat (vsub (row line6 i) c)) order line6 centres
                      1 rec = Done r ∧
           recorder_agrees (length centres) (length line6) r) ∧
   (∀ order centres rec,
      centres ≠ [] → order ≡ₚ seq 0 (length line6) → length rec = length line6 →
      ∃ r, assignment (fun c i => dissim_sat c line6 i 0) order line6 centres
                      1 rec = Done r ∧
           recorder_agrees (length centres) (length line6) r) ∧
   (∃ st, performPC_KMeans_loop norm_sat 20 line6 1 seeds2 = Done st ∧
          recorder_agrees (length seeds2) (length line6) (last st)) ∧
   (∃ st, performFullK_Means_loop norm_sat dissim_sat 20 line6 1 0 seeds2 = Done st ∧
          recorder_agrees (length seeds2) (length line6) (last st))).
Proof.
  split; [discriminate|]. split; [exact norm_sat_finite|].
  split; [intros c i; apply dissim_sat_finite|].
  apply (kmeans_lists_match_recorder norm_sat dissim_sat line6 line6 seeds2 1 1 0).
  - discriminate.
  - exact norm_sat_finite.
  - intros c i. apply dissim_sat_finite.
Defined.

(** X3.  When either k-means loop has ended, the centre of every cluster
    with members is the mean of its members: coordinate by coordinate the
    sum over the members divided by their number.  (All curves have as
    many coordinates as the centres.) *)
Theorem kmeans_centre_is_mean_of_members
    (norm : list Q → Q) (getDisimilarity : list Q → Matrix → nat → Z → Q)
    (cArray data seeds : Matrix) (PC_Number Column : nat) (normOption : Z) :
  seeds ≠ [] → (∀ v, (norm v < FLT_MAX)%Q) →
  (∀ c i, (getDisimilarity c data i normOption < FLT_MAX)%Q) →
  Forall (fun r => length r = PC_Number) cArray →
  Forall (fun r => length r = Column) data →
  (∃ st, performPC_KMeans_loop norm 20 cArray PC_Number seeds = Done st ∧
         centres_are_means cArray PC_Number st) ∧
  (∃ st, performFullK_Means_loop norm getDisimilarity 20 data Column normOption seeds
           = Done st ∧
         centres_are_means data Column st).
Proof.
  intros Hs Hn Hd Hc Hdata. split.
  - apply loop_centres_are_means; [done|lia| |done]. intros c i. apply Hn.
  - apply loop_centres_are_means; [done|lia|done|done].
Qed.

Lemma kmeans_centre_is_mean_of_members_witness :
  seeds2 ≠ [] ∧ (∀ v, (norm_sat v < FLT_MAX)%Q) ∧
  (∀ c i, (dissim_sat c line6 i 0 < FLT_MAX)%Q) ∧
  Forall (fun r => length r = 1%nat) line6 ∧
  Forall (fun r => length r = 1%nat) line6 ∧
  ((∃ st, performPC_KMeans_loop norm_sat 20 line6 1 seeds2 = Done st ∧
          centres_are_means line6 1 st) ∧
   (∃ st, performFullK_Means_loop norm_sat dissim_sat 20 line6 1 0 seeds2 = Done st ∧
          centres_are_means line6 1 st)).
Proof.
  split; [discriminate|]. split; [exact norm_sat_finite|].
  split; [intros c i; apply dissim_sat_finite|].
  split; [repeat constructor|]. split; [repeat constructor|].
  apply (kmeans_centre_is_mean_of_members norm_sat dissim_sat line6 line6 seeds2 1 1 0).
  - discriminate.
  - exact norm_sat_finite.
  - intros c i. apply dissim_sat_finite.
  - repeat constructor.
  - repeat constructor.
Defined.

(** X5.  A round of either k-means loop in which some curve has no centre
    closer than [FLT_MAX] (in particular a round without centres) reads
    [clusTemp] before it was given a value: the behaviour is undefined. *)
Theorem round_curve_out_of_reach_is_undefined
    (norm : list Q → Q) (dist : list Q → nat → Q) (points : Matrix) (D : nat)
    (st : KState) (i : nat) :
  (i < length points)%nat →
  (∀ x, x ∈ clusterCenter st → (FLT_MAX <= dist x i)%Q) →
  lloyd_round norm dist points D st = UB.
Proof.
  intros Hi Hfar.
  destruct (KMeans_Facts.round_Done_or_UB norm dist points D st) as [[st' Hr]|Hr]; [|done].
  exfalso.
  destruct (KMeans_Round.round_exact norm dist points D st st' Hr) as (Hsome & _).
  destruct (Hsome i Hi) as [c Hc].
  apply (KMeans_Round.nearest_None dist) in Hfar. congruence.
Qed.

Lemma round_curve_out_of_reach_is_undefined_witness :
  (1 < length line3)%nat ∧
  (∀ x, x ∈ clusterCenter (kmeans_start line3 seeds1) → (FLT_MAX <= FLT_MAX)%Q) ∧
  lloyd_round norm_sat (fun _ _ => FLT_MAX) line3 1 (kmeans_start line3 seeds1) = UB.
Proof.
  split; [simpl; lia|]. split; [intros x _; apply Qle_refl|].
  apply (round_curve_out_of_reach_is_undefined norm_sat (fun _ _ => FLT_MAX) line3 1
           (kmeans_start line3 seeds1) 1).
  - simpl. lia.
  - intros x _. apply Qle_refl.
Defined.

Import SVD.

(** X6.  [performSVD] subtracts the mean trajectory from every row: after
    that each of the [Column] columns of [temp] adds up to zero, so its
    mean is zero.  (There is at least one row, and the rows have [Column]
    entries.) *)
Theorem centred_columns_have_mean_zero (data : Matrix) (Column : nat) :
  data ≠ [] → Forall (fun r => length r = Column) data →
  length (centred data Column) = length data ∧
  ∀ i, (i < Column)%nat →
    (Qsum (col (centred data Column) i) == 0)%Q ∧
    (mean (col (centred data Column) i) == 0)%Q.
Proof.
  intros Hne Hd. split; [unfold centred; by rewrite length_fmap|].
  intros i Hi.
  pose proof (SVD_Energy.centred_col_sum data Column i Hne Hd Hi) as H.
  split; [done|]. unfold mean. rewrite H. unfold Qdiv. ring.
Qed.

Lemma centred_columns_have_mean_zero_witness :
  line6 ≠ [] ∧ Forall (fun r => length r = 1%nat) line6 ∧
  length (centred line6 1) = length line6 ∧
  ∀ i, (i < 1)%nat →
    (Qsum (col (centred line6 1) i) == 0)%Q ∧
    (mean (col (centred line6 1) i) == 0)%Q.
Proof.
  split; [discriminate|]. split; [repeat constructor|].
  apply (centred_columns_have_mean_zero line6 1).
  - discriminate.
  - repeat constructor.
Defined.

Import Labels.

(** X8.  The groups are numbered by size.  For [Cluster] clusters of the
    sizes [storage], [groupNo] is the number of clusters with members; a
    cluster without members gets no entry in [increasingOrder]; the
    clusters with members get the numbers [0 .. groupNo - 1], each number
    once, a smaller cluster before a larger one and, of two clusters of
    equal size, the one with the smaller index first. *)
Theorem groups_numbered_by_size (storage : list nat) :
  let io := (number_groups (groupMap storage) (length storage)).1 in
  let gNo := (number_groups (groupMap storage) (length storage)).2 in
  length io = length storage ∧ gNo = Entropy.nonZero storage ∧
  (∀ c, (c < length storage)%nat → nth c storage 0%nat = 0%nat → io !! c = Some None) ∧
  (∀ c, (0 < nth c storage 0)%nat → ∃ g, io !! c = Some (Some g) ∧ (g < gNo)%nat) ∧
  (∀ a b ga gb, io !! a = Some (Some ga) → io !! b = Some (Some gb) →
                before storage a b → (ga < gb)%nat) ∧
  (∀ g, (g < gNo)%nat → ∃ c, io !! c = Some (Some g)).
Proof. apply Labels_Facts.number_groups_spec. Qed.

(** [performFullK_MeansByClusters] with a centre and finite distances:
    the loop ends, and so does the rest of the function. *)
Lemma performFullK_runs
    (norm : list Q → Q) (getDisimilarity : list Q → Matrix → nat → Z → Q)
    (log2f_lib : Q → Q)
    (isPBF cached : bool) (data : Matrix) (Column : nat) (normOption : Z)
    (seeds : Matrix) :
  seeds ≠ [] → (∀ c i, (getDisimilarity c data i normOption < FLT_MAX)%Q) →
  ∃ st res evs,
    performFullK_Means_loop norm getDisimilarity 20 data Column normOption seeds
      = Done st ∧
    finish (fun c i => getDisimilarity c data i normOption) log2f_lib isPBF cached normOption
           (length data) Column st = Done (res, evs) ∧
    performFullK_MeansByClusters norm getDisimilarity log2f_lib isPBF cached 20 data Column
                                 normOption seeds = Done (res, evs) ∧
    KMeans_Shape.recorder_matches (length seeds) (length data) (last st) ∧
    length (storage (last st)) = length seeds ∧
    length (clusterCenter st) = length seeds ∧
    labels_by_size (length data) res ∧
    groupNo res = Entropy.nonZero (storage (last st)) ∧
    length (closest res) = groupNo res ∧ length (furthest res) = groupNo res ∧
    length (massCenter res) = groupNo res.
Proof.
  intros Hs Hd. unfold performFullK_MeansByClusters, performFullK_Means_loop.
  destruct (loop_recorder_matches norm (fun c i => getDisimilarity c data i normOption)
              data Column seeds 20 Hs (le_n 20) Hd) as (st & Hk & Hm).
  destruct (loop_final_lengths _ _ _ _ _ _ _ Hk) as [Hl1 Hl2].
  rewrite Hk. cbn [obind].
  destruct (Finish_Facts.finish_labels (fun c i => getDisimilarity c data i normOption)
              log2f_lib isPBF cached normOption (length data) Column st)
    as (res & evs & Hf & Hlab & Hg & H1 & H2 & H3); [by rewrite Hl1|congruence|].
  exists st, res, evs. done.
Qed.

(** X9.  [performFullK_MeansByClusters] ends normally once it has a
    centre and finite distances, and it labels the curves by the size of
    their cluster: the group of every curve is below [groupNo], [totalNum]
    of a curve is the number of curves of its group, a curve in a smaller
    group has a smaller label, and [closest], [furthest] and [massCenter]
    get one entry per group. *)
Theorem performFullK_labels_by_cluster_size
    (norm : list Q → Q) (getDisimilarity : list Q → Matrix → nat → Z → Q)
    (log2f_lib : Q → Q)
    (isPBF cached : bool) (data : Matrix) (Column : nat) (normOption : Z)
    (seeds : Matrix) :
  seeds ≠ [] → (∀ c i, (getDisimilarity c data i normOption < FLT_MAX)%Q) →
  ∃ res evs,
    performFullK_MeansByClusters norm getDisimilarity log2f_lib isPBF cached 20 data Column
                                 normOption seeds = Done (res, evs) ∧
    labels_by_size (length data) res ∧
    (groupNo res ≤ length seeds)%nat ∧
    length (closest res) = groupNo res ∧ length (furthest res) = groupNo res ∧
    length (massCenter res) = groupNo res.
Proof.
  intros Hs Hd.
  destruct (performFullK_runs norm getDisimilarity log2f_lib isPBF cached data Column normOption
              seeds Hs Hd)
    as (st & res & evs & _ & _ & Hrun & _ & Hl1 & _ & Hlab & Hg & H1 & H2 & H3).
  exists res, evs. split; [done|]. split; [done|]. split; [|done].
  rewrite Hg, <- Hl1. unfold Entropy.nonZero. apply length_filter.
Qed.

Lemma performFullK_labels_by_cluster_size_witness :
  seeds2 ≠ [] ∧ (∀ c i, (dissim_sat c line6 i 0 < FLT_MAX)%Q) ∧
  ∃ res evs,
    performFullK_MeansByClusters norm_sat dissim_sat log2f_floor false false 20 line6 1 0 seeds2
      = Done (res, evs) ∧
    labels_by_size (length line6) res ∧
    (groupNo res ≤ length seeds2)%nat ∧
    length (closest res) = groupNo res ∧ length (furthest res) = groupNo res ∧
    length (massCenter res) = groupNo res.
Proof.
  split; [discriminate|]. split; [intros c i; apply dissim_sat_finite|].
  apply (performFullK_labels_by_cluster_size norm_sat dissim_sat log2f_floor false false line6 1 0 seeds2).
  - discriminate.
  - intros c i. apply dissim_sat_finite.
Defined.

Import Representatives.

Lemma finish_representatives dist log2f_lib isPBF cached normOption Row Column st res evs :
  finish dist log2f_lib isPBF cached normOption Row Column st = Done (res, evs) →
  ∃ reps,
    representatives dist st
      (number_groups (groupMap (storage (last st))) (length (clusterCenter st))).1
      = Done reps ∧
    closest res = reps.1 ∧ furthest res = reps.2.
Proof.
  unfold finish.
  destruct (number_groups _ _) as [io gNo]. cbn [fst].
  destruct (foldM _ (seq 0 Row) []) as [grp| | |]; cbn [obind]; try done.
  destruct (representatives dist st io) as [reps| | |]; cbn [obind]; try done.
  destruct (mean_lines st io Column) as [mc| | |]; cbn [obind]; try done.
  destruct (decide (gNo ≤ 1)%nat); intros [= <- <-]; eauto.
Qed.

(** X10.  [performFullK_MeansByClusters] names for each group a member
    closest to the centre of its cluster, and a member furthest from it:
    every entry of [closest] is a member of its cluster that no member is
    closer to the centre than, and every entry of [furthest] is a member
    that no member is further from the centre than, unless all members of
    the cluster are within [FLT_MIN] of the centre. *)
Theorem performFullK_representatives_are_extreme_members
    (norm : list Q → Q) (getDisimilarity : list Q → Matrix → nat → Z → Q)
    (log2f_lib : Q → Q)
    (isPBF cached : bool) (data : Matrix) (Column : nat) (normOption : Z)
    (seeds : Matrix) :
  seeds ≠ [] → (∀ c i, (getDisimilarity c data i normOption < FLT_MAX)%Q) →
  ∃ st res evs,
    performFullK_Means_loop norm getDisimilarity 20 data Column normOption seeds
      = Done st ∧
    performFullK_MeansByClusters norm getDisimilarity log2f_lib isPBF cached 20 data Column
                                 normOption seeds = Done (res, evs) ∧
    let io := (number_groups (groupMap (storage (last st)))
                             (length (clusterCenter st))).1 in
    Forall (closest_of (fun c i => getDisimilarity c data i normOption) st io)
           (closest res) ∧
    Forall (furthest_of (fun c i => getDisimilarity c data i normOption) st io)
           (furthest res).
Proof.
  intros Hs Hd.
  destruct (performFullK_runs norm getDisimilarity log2f_lib isPBF cached data Column normOption
              seeds Hs Hd)
    as (st & res & evs & Hk & Hfin & Hrun & [_ Hm] & Hl1 & Hl2 & _).
  exists st, res, evs. split; [done|]. split; [done|]. cbv zeta.
  apply finish_representatives in Hfin as (reps & Hreps & -> & ->).
  eapply Extremes_Facts.representatives_members; [done| |exact Hreps].
  intros c Hc.
  assert (Hlt : (c < length seeds)%nat).
  { destruct (decide (c < length seeds)%nat); [done|].
    rewrite nth_overflow in Hc by lia. lia. }
  destruct (Hm c Hlt) as [Hnv Hsto]. eexists. split; [exact Hnv|].
  by rewrite nth_lookup, Hsto.
Qed.

Lemma performFullK_representatives_are_extreme_members_witness :
  seeds2 ≠ [] ∧ (∀ c i, (dissim_sat c line6 i 0 < FLT_MAX)%Q) ∧
  ∃ st res evs,
    performFullK_Means_loop norm_sat dissim_sat 20 line6 1 0 seeds2 = Done st ∧
    performFullK_MeansByClusters norm_sat dissim_sat log2f_floor false false 20 line6 1 0 seeds2
      = Done (res, evs) ∧
    let io := (number_groups (groupMap (storage (last st)))
                             (length (clusterCenter st))).1 in
    Forall (closest_of (fun c i => dissim_sat c line6 i 0) st io) (closest res) ∧
    Forall (furthest_of (fun c i => dissim_sat c line6 i 0) st io) (furthest res).
Proof.
  split; [discriminate|]. split; [intros c i; apply dissim_sat_finite|].
  apply (performFullK_representatives_are_extreme_members norm_sat dissim_sat log2f_floor false false
           line6 1 0 seeds2).
  - discriminate.
  - intros c i. apply dissim_sat_finite.
Defined.

(** X11.  The scan for the member furthest from the centre starts from
    [farDist = FLT_MIN], the smallest positive [float]: when no member of
    the cluster is further from the centre than that (a cluster of one
    curve, which is its own mean, is the common case), [furthestIndex]
    keeps the value left by the cluster before, or its initial 0, and that
    value is what is stored in [furthest]. *)
Theorem furthest_keeps_index_of_previous_cluster
    (dist : list Q → nat → Q) (centre : list Q) (members : list nat)
    (shortestIndex furthestIndex : nat) :
  (∀ m, m ∈ members → (dist centre m <= FLT_MIN)%Q) →
  (extremes dist centre members shortestIndex furthestIndex).2 = furthestIndex.
Proof. apply Extremes_Facts.extremes_furthest_kept. Qed.

Lemma furthest_keeps_index_of_previous_cluster_witness :
  (∀ m, m ∈ [2%nat] → (norm_sat (vsub (row line3 m) [2%Q]) <= FLT_MIN)%Q) ∧
  (extremes (fun c i => norm_sat (vsub (row line3 i) c)) [2%Q] [2%nat] 0 0).2 = 0%nat.
Proof.
  assert (H : ∀ m, m ∈ [2%nat] → (norm_sat (vsub (row line3 m) [2%Q]) <= FLT_MIN)%Q).
  { intros m ->%list_elem_of_singleton. vm_compute. discriminate. }
  split; [exact H|].
  exact (furthest_keeps_index_of_previous_cluster
           (fun c i => norm_sat (vsub (row line3 i) c)) [2%Q] [2%nat] 0 0 H).
Defined.

Import Merger_Shape.

(** X12.  [setValue] fills the candidate vector with the pairs [(i, j)],
    [i < j], of the curves, each once and with the distance
    [reduced_dist_matrix(i, j)], row by row.  ([Row * (Row - 1)] is inside
    [int].) *)
Theorem setValue_lists_every_pair_once
    (dflt : DistNode) (reduced_data reduced_dist_matrix : Matrix) :
  (rows reduced_data ≤ 46341)%Z →
  ∃ dNodeVec,
    setValue dflt reduced_data reduced_dist_matrix = Done dNodeVec ∧
    ids <$> dNodeVec = pairs (seqZ 0 (rows reduced_data)) ∧ NoDup (ids <$> dNodeVec) ∧
    ∀ d, d ∈ dNodeVec ↔
         ∃ i j, (0 ≤ i < j ∧ j < rows reduced_data)%Z ∧
                d = mkDistNode i j (coeff reduced_dist_matrix i j).
Proof.
  intros Hrow. exists (initial_pairs reduced_dist_matrix (rows reduced_data)).
  split; [by apply AHC_Facts.setValue_Done|].
  assert (E : ids <$> initial_pairs reduced_dist_matrix (rows reduced_data)
              = pairs (seqZ 0 (rows reduced_data))).
  { unfold initial_pairs. rewrite <- list_fmap_compose.
    rewrite <- (list_fmap_id (pairs (seqZ 0 (rows reduced_data)))) at 2.
    apply list_fmap_ext. by intros i [a b] _. }
  split; [done|]. split.
  - rewrite E. apply AHC_Facts.NoDup_pairs, NoDup_seqZ.
  - apply Pairs_Facts.elem_of_initial_pairs.
Qed.

Lemma setValue_lists_every_pair_once_witness :
  (rows M3 ≤ 46341)%Z ∧
  ∃ dNodeVec,
    setValue d0 M3 M3 = Done dNodeVec ∧
    ids <$> dNodeVec = pairs (seqZ 0 (rows M3)) ∧ NoDup (ids <$> dNodeVec) ∧
    ∀ d, d ∈ dNodeVec ↔
         ∃ i j, (0 ≤ i < j ∧ j < rows M3)%Z ∧ d = mkDistNode i j (coeff M3 i j).
Proof.
  split; [vm_compute; discriminate|].
  apply (setValue_lists_every_pair_once d0 M3 M3). vm_compute. discriminate.
Defined.

(** X13.  With more than 46341 curves the size [Row * (Row - 1) / 2] of
    the candidate vector does not fit in an [int]: [setValue] overflows,
    which is undefined behaviour. *)
Theorem setValue_overflows_beyond_46341_curves
    (dflt : DistNode) (reduced_data reduced_dist_matrix : Matrix) :
  (46341 < rows reduced_data)%Z →
  setValue dflt reduced_data reduced_dist_matrix = UB.
Proof.
  intros Hrow. unfold setValue, int_mul, INT_MAX.
  rewrite decide_False; [done|]. nia.
Qed.

Lemma setValue_overflows_beyond_46341_curves_witness :
  (46341 < rows many_curves)%Z ∧ setValue d0 many_curves M3 = UB.
Proof.
  split; [vm_compute; reflexivity|].
  apply (setValue_overflows_beyond_46341_curves d0 many_curves M3).
  vm_compute. reflexivity.
Defined.

(** X14.  Every merge joins a closest pair: before the loop and after
    every pass of its body, [poped] is one of the candidate pairs and no
    candidate pair has a smaller distance. *)
Theorem merger_merges_a_closest_pair
    (dflt : DistNode) (dflt_index : Z)
    (order : gmap Z AHC_node → list (Z * AHC_node))
    (nodeMap : gmap Z AHC_node) (dNodeVec : list DistNode)
    (reduced_dist_matrix cArray : Matrix) (st0 : MergeState) :
  merge_start dflt_index nodeMap dNodeVec cArray = Done st0 →
  ∀ st, reaches dflt dflt_index order reduced_dist_matrix st0 st → picks_closest st.
Proof.
  intros H0 st Hr. eapply Closest_Facts.reaches_picks_closest; [exact Hr|].
  by eapply Closest_Facts.start_picks_closest.
Qed.

Lemma merger_merges_a_closest_pair_witness :
  merge_start (-1) ∅ pairs3 M3 = Done start3 ∧
  ∀ st, reaches d0 (-1) map_to_list M3 start3 st → picks_closest st.
Proof.
  split; [vm_compute; reflexivity|].
  apply (merger_merges_a_closest_pair d0 (-1) map_to_list ∅ pairs3 M3 M3 start3).
  vm_compute. reflexivity.
Defined.

(** X15.  Asked for [numberOfClusters] between 2 and [Row - 1],
    [hierarchicalMerging] (on the candidate vector of [setValue]) ends
    after [Row - numberOfClusters] merges and returns exactly
    [numberOfClusters] nodes: none is empty, together they hold every
    curve once, and they are sorted by size, smallest first. *)
Theorem hierarchicalMerging_returns_nodes_by_size
    (dflt : DistNode) (dflt_index : Z)
    (order : gmap Z AHC_node → list (Z * AHC_node))
    (reduced_dist_matrix cArray : Matrix) (numberOfClusters : Z) (fuel : nat) :
  (∀ m, order m ≡ₚ map_to_list m) →
  (∀ i j, (coeff reduced_dist_matrix i j < FLT_MAX)%Q) →
  (2 ≤ numberOfClusters < rows cArray)%Z → (rows cArray ≤ 46341)%Z →
  (rows cArray - numberOfClusters ≤ Z.of_nat fuel)%Z →
  ∃ nodeVec,
    obind (setValue dflt cArray reduced_dist_matrix)
          (fun dNodeVec =>
             hierarchicalMerging dflt dflt_index order fuel ∅ dNodeVec
                                 reduced_dist_matrix cArray numberOfClusters)
      = Done nodeVec ∧
    Z.of_nat (length nodeVec) = numberOfClusters ∧
    nodes_by_size (rows cArray) nodeVec.
Proof.
  intros Ho HM Hn Hrow Hfuel.
  rewrite AHC_Facts.setValue_Done by lia. cbn [obind].
  by apply Merger_Run.merger_returns.
Qed.

Lemma hierarchicalMerging_returns_nodes_by_size_witness :
  (∀ m : gmap Z AHC_node, map_to_list m ≡ₚ map_to_list m) ∧
  (∀ i j, (coeff M3 i j < FLT_MAX)%Q) ∧
  (2 ≤ 2 < rows M3)%Z ∧ (rows M3 ≤ 46341)%Z ∧ (rows M3 - 2 ≤ Z.of_nat 1)%Z ∧
  ∃ nodeVec,
    obind (setValue d0 M3 M3)
          (fun dNodeVec =>
             hierarchicalMerging d0 (-1) map_to_list 1 ∅ dNodeVec M3 M3 2)
      = Done nodeVec ∧
    Z.of_nat (length nodeVec) = 2%Z ∧
    nodes_by_size (rows M3) nodeVec.
Proof.
  split; [done|]. split; [exact M3_finite|].
  split; [vm_compute; split; [discriminate|reflexivity]|].
  split; [vm_compute; discriminate|]. split; [vm_compute; discriminate|].
  apply (hierarchicalMerging_returns_nodes_by_size d0 (-1) map_to_list M3 M3 2 1).
  - done.
  - exact M3_finite.
  - vm_compute. split; [discriminate|reflexivity].
  - vm_compute. discriminate.
  - vm_compute. discriminate.
Defined.

(** X16.  A pass of the loop body replaces the two nodes of [poped],
    which are two different live nodes, by one new node: its id is the
    next unused one (the ids start at [Row]), and its members are those of
    the first node followed by those of the second. *)
Theorem merge_replaces_two_nodes_by_their_union
    (dflt : DistNode) (dflt_index : Z)
    (order : gmap Z AHC_node → list (Z * AHC_node)) (M cArray : Matrix) :
  (∀ m, order m ≡ₚ map_to_list m) →
  (∀ i j, (coeff M i j < FLT_MAX)%Q) →
  (2 ≤ rows cArray ≤ 46341)%Z →
  ∃ st0,
    obind (setValue dflt cArray M)
          (fun dNodeVec => merge_start dflt_index ∅ dNodeVec cArray) = Done st0 ∧
    st_index st0 = rows cArray ∧
    ∀ st st', reaches dflt dflt_index order M st0 st →
      merge_body dflt dflt_index order M st = Done st' →
      ∃ n1 n2,
        st_nodeMap st !! first (st_poped st) = Some n1 ∧
        st_nodeMap st !! second (st_poped st) = Some n2 ∧
        first (st_poped st) ≠ second (st_poped st) ∧
        st_nodeMap st !! st_index st = None ∧
        st_nodeMap st'
        = <[st_index st := mkNode (st_index st) (element n1 ++ element n2)]>
            (delete (second (st_poped st))
                    (delete (first (st_poped st)) (st_nodeMap st))) ∧
        st_index st' = (st_index st + 1)%Z.
Proof.
  intros Ho HM Hrow.
  destruct (AHC_Facts.start_Done dflt dflt_index M HM cArray Hrow)
    as (st0 & H0 & Hds & Hinv & Hsz).
  exists st0. split; [done|]. split.
  { revert H0. rewrite AHC_Facts.setValue_Done by lia. cbn [obind].
    unfold merge_start. destruct (vec_read _ _); cbn [obind]; try done.
    by intros [= <-]. }
  intros st st' Hr Hb.
  pose proof (AHC_Facts.reaches_inv dflt dflt_index order Ho M HM (rows cArray)
                (proj2 Hrow) st0 st Hinv Hr) as Hinv'.
  destruct (AHC_Facts.poped_live _ _ Hinv') as (m1 & m2 & Hm1 & Hm2 & Hne).
  destruct (AHC_Facts.body_step dflt dflt_index order Ho M HM (rows cArray)
              (proj2 Hrow) st Hinv') as (n1 & n2 & H1 & H2 & _ & Hub & Hok).
  exists n1, n2. split; [done|]. split; [done|]. split; [done|].
  destruct (decide (size (st_nodeMap st) ≤ 2)%nat) as [Hle|Hgt].
  { rewrite Hub in Hb by done. done. }
  destruct Hok as (pp & Hb' & _); [lia|].
  rewrite Hb' in Hb. injection Hb as <-. simpl. split; [|done].
  destruct (st_nodeMap st !! st_index st) as [nd|] eqn:E; [|done].
  pose proof (inv_keys _ _ Hinv' (st_index st) (mk_is_Some _ _ E)). lia.
Qed.

Lemma merge_replaces_two_nodes_by_their_union_witness :
  (∀ m : gmap Z AHC_node, map_to_list m ≡ₚ map_to_list m) ∧
  (∀ i j, (coeff M3 i j < FLT_MAX)%Q) ∧
  (2 ≤ rows M3 ≤ 46341)%Z ∧
  ∃ st0,
    obind (setValue d0 M3 M3)
          (fun dNodeVec => merge_start (-1) ∅ dNodeVec M3) = Done st0 ∧
    st_index st0 = rows M3 ∧
    ∀ st st', reaches d0 (-1) map_to_list M3 st0 st →
      merge_body d0 (-1) map_to_list M3 st = Done st' →
      ∃ n1 n2,
        st_nodeMap st !! first (st_poped st) = Some n1 ∧
        st_nodeMap st !! second (st_poped st) = Some n2 ∧
        first (st_poped st) ≠ second (st_poped st) ∧
        st_nodeMap st !! st_index st = None ∧
        st_nodeMap st'
        = <[st_index st := mkNode (st_index st) (element n1 ++ element n2)]>
            (delete (second (st_poped st))
                    (delete (first (st_poped st)) (st_nodeMap st))) ∧
        st_index st' = (st_index st + 1)%Z.
Proof.
  split; [done|]. split; [exact M3_finite|].
  split; [vm_compute; split; discriminate|].
  apply (merge_replaces_two_nodes_by_their_union d0 (-1) map_to_list M3 M3).
  - done.
  - exact M3_finite.
  - vm_compute. split; discriminate.
Defined.

(** X17.  [perform_AHC], asked for between 2 and [Row - 1] clusters, has
    after [setLabel] exactly [Cluster] membership lists that hold every
    curve once; no list is empty, [storage] holds the size of each list,
    [recorder] names for every curve the list that holds it, and the lists
    come in order of size, smallest first. *)
Theorem perform_AHC_labels_agree
    (dflt : DistNode) (dflt_index : Z)
    (order : gmap Z AHC_node → list (Z * AHC_node))
    (norm : list Q → Q) (cArray : Matrix) (Cluster : Z) :
  (∀ m, order m ≡ₚ map_to_list m) → (∀ v, (norm v < FLT_MAX)%Q) →
  (2 ≤ Cluster < rows cArray)%Z → (rows cArray ≤ 46341)%Z →
  ∃ neighborVec storage recorder,
    perform_AHC_groups dflt dflt_index order norm (length cArray) cArray Cluster
      = Done (neighborVec, storage, recorder) ∧
    Z.of_nat (length neighborVec) = Cluster ∧
    concat neighborVec ≡ₚ seqZ 0 (rows cArray) ∧
    labels_agree (rows cArray) neighborVec storage recorder.
Proof. intros Ho Hn Hc Hrow. by apply Merger_Run.perform_AHC_labels. Qed.

Lemma perform_AHC_labels_agree_witness :
  (∀ m : gmap Z AHC_node, map_to_list m ≡ₚ map_to_list m) ∧
  (∀ v, (norm_sat v < FLT_MAX)%Q) ∧
  (2 ≤ 2 < rows line6)%Z ∧ (rows line6 ≤ 46341)%Z ∧
  ∃ neighborVec storage recorder,
    perform_AHC_groups d0 (-1) map_to_list norm_sat (length line6) line6 2
      = Done (neighborVec, storage, recorder) ∧
    Z.of_nat (length neighborVec) = 2%Z ∧
    concat neighborVec ≡ₚ seqZ 0 (rows line6) ∧
    labels_agree (rows line6) neighborVec storage recorder.
Proof.
  split; [done|]. split; [exact norm_sat_finite|].
  split; [vm_compute; split; [discriminate|reflexivity]|].
  split; [vm_compute; discriminate|].
  apply (perform_AHC_labels_agree d0 (-1) map_to_list norm_sat line6 2).
  - done.
  - exact norm_sat_finite.
  - vm_compute. split; [discriminate|reflexivity].
  - vm_compute. discriminate.
Defined.

(** X18.  [perform_AHC] is defined only for a cluster count between 2
    and [Row - 1]: with fewer than two curves, with a count below 2 (one
    cluster), or with a count of [Row] or more, the merger reads outside a
    vector ([dNodeVec[-1]] or [tempVec[-1]]), which is undefined
    behaviour. *)
Theorem perform_AHC_cluster_count_out_of_range_is_undefined
    (dflt : DistNode) (dflt_index : Z)
    (order : gmap Z AHC_node → list (Z * AHC_node))
    (norm : list Q → Q) (cArray : Matrix) (Cluster : Z) :
  (∀ m, order m ≡ₚ map_to_list m) → (∀ v, (norm v < FLT_MAX)%Q) →
  (rows cArray ≤ 46341)%Z → ¬ (2 ≤ Cluster < rows cArray)%Z →
  perform_AHC_groups dflt dflt_index order norm (length cArray) cArray Cluster = UB.
Proof. intros Ho Hn Hrow Hc. by apply Merger_Run.perform_AHC_out_of_range. Qed.

Lemma perform_AHC_cluster_count_out_of_range_is_undefined_witness :
  (∀ m : gmap Z AHC_node, map_to_list m ≡ₚ map_to_list m) ∧
  (∀ v, (norm_sat v < FLT_MAX)%Q) ∧
  (rows line6 ≤ 46341)%Z ∧ ¬ (2 ≤ 1 < rows line6)%Z ∧
  perform_AHC_groups d0 (-1) map_to_list norm_sat (length line6) line6 1 = UB.
Proof.
  split; [done|]. split; [exact norm_sat_finite|].
  split; [vm_compute; discriminate|]. split; [lia|].
  apply (perform_AHC_cluster_count_out_of_range_is_undefined d0 (-1) map_to_list
           norm_sat line6 1).
  - done.
  - exact norm_sat_finite.
  - vm_compute. discriminate.
  - lia.
Defined.

Import SVD Pipeline.

(** X19.  When [performSVD] has stored [PC_Number = 0] the reduced
    coordinates have no column: every curve is at the same distance from
    every centre, and the k-means loop of [performPC_KMeans] ends with all
    curves in cluster 0, each once, and no curve in any other cluster. *)
Theorem kmeans_without_columns_leaves_one_cluster
    (norm : list Q → Q) (cArray seeds : Matrix) :
  Forall (fun r => r = []) cArray → seeds ≠ [] → (norm [] < FLT_MAX)%Q →
  ∃ st, performPC_KMeans_loop norm 20 cArray 0 seeds = Done st ∧
        (∃ mem, neighborVec (last st) !! 0%nat = Some mem ∧
                mem ≡ₚ seq 0 (length cArray)) ∧
        storage (last st) !! 0%nat = Some (length cArray) ∧
        (∀ i, (i < length cArray)%nat → recorder (last st) !! i = Some 0%nat) ∧
        (∀ c, (0 < c < length seeds)%nat → storage (last st) !! c = Some 0%nat).
Proof.
  intros Hrows Hs Hn.
  destruct (Pipeline_Facts.kmeans_without_coordinates norm cArray seeds 0 20)
    as (st & Hk & Hnv & Hsto & Hrec & Hrest); [done|done|lia|done|].
  exists st. split; [done|]. split; [by exists (seq 0 (length cArray))|]. done.
Qed.

Lemma kmeans_without_columns_leaves_one_cluster_witness :
  Forall (fun r : list Q => r = []) no_columns ∧ seeds_no_columns ≠ [] ∧
  (norm_sat [] < FLT_MAX)%Q ∧
  ∃ st, performPC_KMeans_loop norm_sat 20 no_columns 0 seeds_no_columns = Done st ∧
        (∃ mem, neighborVec (last st) !! 0%nat = Some mem ∧
                mem ≡ₚ seq 0 (length no_columns)) ∧
        storage (last st) !! 0%nat = Some (length no_columns) ∧
        (∀ i, (i < length no_columns)%nat → recorder (last st) !! i = Some 0%nat) ∧
        (∀ c, (0 < c < length seeds_no_columns)%nat →
              storage (last st) !! c = Some 0%nat).
Proof.
  split; [repeat constructor|]. split; [discriminate|]. split; [reflexivity|].
  apply (kmeans_without_columns_leaves_one_cluster norm_sat no_columns seeds_no_columns).
  - repeat constructor.
  - discriminate.
  - reflexivity.
Defined.

(** X20.  The overload of [performPCA_Clustering] that takes no cluster
    count asks for [CLUSTER = 8] clusters.  With [post_processing == 2]
    and at most 8 curves, [perform_AHC] is asked for as many clusters as
    there are curves, or more: the merger reads outside a vector, which is
    undefined behaviour. *)
Theorem performPCA_Clustering_default_AHC_needs_nine_curves
    (dflt : DistNode) (dflt_index : Z)
    (order : gmap Z AHC_node → list (Z * AHC_node)) (norm : list Q → Q)
    (data : Matrix) (Column : nat) (SingVec : Matrix) (PC_Number0 : Z) :
  (∀ m, order m ≡ₚ map_to_list m) → (∀ v, (norm v < FLT_MAX)%Q) →
  (length data ≤ 8)%nat →
  performPCA_Clustering_AHC dflt dflt_index order norm data Column SingVec PC_Number0
                            CLUSTER = UB.
Proof.
  intros Ho Hn Hrow. unfold performPCA_Clustering_AHC.
  destruct (Pipeline_Facts.performSVD_Done_or_UB data Column SingVec PC_Number0)
    as [(k & _ & ->)| ->]; [|done].
  cbn [obind cArray].
  assert (Hlen : length (take k <$> matmul (centred data Column) SingVec) = length data).
  { unfold matmul, centred. by rewrite !length_fmap. }
  apply Merger_Run.perform_AHC_out_of_range; [done|done| |];
    unfold rows, CLUSTER; rewrite Hlen; lia.
Qed.

Lemma performPCA_Clustering_default_AHC_needs_nine_curves_witness :
  (∀ m : gmap Z AHC_node, map_to_list m ≡ₚ map_to_list m) ∧
  (∀ v, (norm_sat v < FLT_MAX)%Q) ∧ (length line6 ≤ 8)%nat ∧
  performPCA_Clustering_AHC d0 (-1) map_to_list norm_sat line6 1 [[1%Q]] 0 CLUSTER = UB.
Proof.
  split; [done|]. split; [exact norm_sat_finite|]. split; [simpl; lia|].
  apply (performPCA_Clustering_default_AHC_needs_nine_curves d0 (-1) map_to_list norm_sat
           line6 1 [[1%Q]] 0).
  - done.
  - exact norm_sat_finite.
  - simpl. lia.
Defined.

(** X21.  [perform_AHC] numbers its groups in the order of the sorted
    nodes: since the nodes come sorted by size and none is empty,
    [increasingOrder] is the identity, [groupNo] is [Cluster], the group
    of a curve is the position that [recorder] holds for it, and
    [totalNum] is the size of the membership list at that position, which
    holds the curve. *)
Theorem perform_AHC_numbers_groups_in_node_order
    (dflt : DistNode) (dflt_index : Z)
    (order : gmap Z AHC_node → list (Z * AHC_node))
    (norm : list Q → Q) (cArray : Matrix) (Cluster : Z) :
  (∀ m, order m ≡ₚ map_to_list m) → (∀ v, (norm v < FLT_MAX)%Q) →
  (2 ≤ Cluster < rows cArray)%Z → (rows cArray ≤ 46341)%Z →
  ∃ neighborVec storage recorder group totalNum,
    perform_AHC_groups dflt dflt_index order norm (length cArray) cArray Cluster
      = Done (neighborVec, storage, recorder) ∧
    perform_AHC_group_ids dflt dflt_index order norm (length cArray) cArray Cluster
      = Done (group, totalNum, Z.to_nat Cluster) ∧
    Z.of_nat <$> group = recorder ∧
    ∀ i g, group !! i = Some g →
      ∃ mem, neighborVec !! g = Some mem ∧ Z.of_nat i ∈ mem ∧
             totalNum !! i = Some (Z.of_nat (length mem)).
Proof.
  intros Ho Hn Hc Hrow.
  destruct (Merger_Run.perform_AHC_labels dflt dflt_index order Ho norm cArray Cluster
              Hn Hc Hrow)
    as (nv & sto & rec & Hrun & Hlen & Hp & Hls & Hlr & Hsize & Hrec & Hsorted).
  unfold perform_AHC_group_ids. rewrite Hrun. cbn [obind].
  assert (HK : length (Z.to_nat <$> sto) = Z.to_nat Cluster).
  { rewrite length_fmap, Hls. lia. }
  assert (Hnth : ∀ c mem, nv !! c = Some mem →
            nth c (Z.to_nat <$> sto) 0%nat = length mem ∧ mem ≠ []).
  { intros c mem Hmem. destruct (Hsize c mem Hmem) as [Hne Hsto]. split; [|done].
    rewrite nth_lookup, list_lookup_fmap, Hsto. simpl. lia. }
  destruct (Pipeline_Facts.number_groups_sorted (Z.to_nat <$> sto)) as [HgNo Hio].
  { intros c Hc'. rewrite HK in Hc'.
    destruct (lookup_lt_is_Some_2 nv c) as [mem Hmem]; [lia|].
    destruct (Hnth c mem Hmem) as [-> Hne]. destruct mem; [done|simpl; lia]. }
  { intros a b Hab. rewrite HK in Hab.
    destruct (lookup_lt_is_Some_2 nv a) as [ma Hma]; [lia|].
    destruct (lookup_lt_is_Some_2 nv b) as [mb Hmb]; [lia|].
    destruct (Hnth a ma Hma) as [-> _]. destruct (Hnth b mb Hmb) as [-> _].
    eapply (Hsorted a b); [lia|done|done]. }
  rewrite HK in HgNo, Hio.
  destruct (number_groups _ _) as [io gNo]. simpl in HgNo, Hio. subst gNo.
  assert (Hcur : ∀ i, (i < length cArray)%nat →
            ∃ g mem, rec !! i = Some (Z.of_nat g) ∧ nv !! g = Some mem ∧
                     Z.of_nat i ∈ mem ∧ (g < Z.to_nat Cluster)%nat).
  { intros i Hi. destruct (Hrec (Z.of_nat i)) as (g & mem & Hg & Hmem & Hin);
      [unfold rows; lia|].
    rewrite Nat2Z.id in Hg. exists g, mem. split; [done|]. split; [done|].
    split; [done|]. apply lookup_lt_Some in Hmem. lia. }
  set (gid := fun i : nat => Z.to_nat (nth i rec 0%Z)).
  rewrite (Pipeline_Facts.foldM_collect _ gid).
  2:{ intros i Hi%elem_of_seq. destruct (Hcur i) as (g & mem & Hg & Hmem & _ & Hlt); [lia|].
      unfold vec_read. rewrite decide_False by lia. rewrite Nat2Z.id, Hg. cbn [obind].
      unfold read_label. rewrite decide_False by lia. rewrite Nat2Z.id.
      unfold read_init. rewrite Hio by done. unfold gid.
      rewrite (nth_lookup_Some _ _ _ _ Hg). by rewrite Nat2Z.id. }
  cbn [obind app].
  set (tot := fun i : nat => nth (gid i) sto 0%Z).
  rewrite (Pipeline_Facts.foldM_collect _ tot).
  2:{ intros i Hi%elem_of_seq. destruct (Hcur i) as (g & mem & Hg & Hmem & _ & Hlt); [lia|].
      unfold vec_read. rewrite (decide_False (P := (Z.of_nat i < 0)%Z)) by lia.
      rewrite Nat2Z.id, Hg. cbn [obind]. rewrite decide_False by lia.
      rewrite Nat2Z.id. destruct (Hsize g mem Hmem) as [_ Hsto]. rewrite Hsto.
      unfold tot, gid. rewrite (nth_lookup_Some _ _ _ _ Hg), Nat2Z.id.
      by rewrite (nth_lookup_Some _ _ _ _ Hsto). }
  cbn [obind app].
  exists nv, sto, rec, (gid <$> seq 0 (length cArray)), (tot <$> seq 0 (length cArray)).
  split; [done|]. split; [done|]. split.
  - apply list_eq. intros i. rewrite !list_lookup_fmap.
    destruct (decide (i < length cArray)%nat) as [Hi|Hi].
    + rewrite lookup_seq_lt by done. simpl.
      destruct (Hcur i Hi) as (g & mem & Hg & _). unfold gid.
      rewrite (nth_lookup_Some _ _ _ _ Hg), Hg. f_equal. lia.
    + rewrite lookup_seq_ge by lia. simpl. symmetry. apply lookup_ge_None_2.
      unfold rows in Hlr. lia.
  - intros i g Hg. rewrite list_lookup_fmap in Hg.
    destruct (decide (i < length cArray)%nat) as [Hi|Hi].
    + rewrite lookup_seq_lt in Hg by done. simpl in Hg. injection Hg as <-.
      destruct (Hcur i Hi) as (g & mem & Hg & Hmem & Hin & _).
      unfold gid. rewrite (nth_lookup_Some _ _ _ _ Hg), Nat2Z.id.
      exists mem. split; [done|]. split; [done|].
      rewrite list_lookup_fmap, lookup_seq_lt by done. simpl. f_equal.
      unfold tot, gid. rewrite (nth_lookup_Some _ _ _ _ Hg), Nat2Z.id.
      destruct (Hsize g mem Hmem) as [_ Hsto]. by rewrite (nth_lookup_Some _ _ _ _ Hsto).
    + rewrite lookup_seq_ge in Hg by lia. done.
Qed.

Lemma perform_AHC_numbers_groups_in_node_order_witness :
  (∀ m : gmap Z AHC_node, map_to_list m ≡ₚ map_to_list m) ∧
  (∀ v, (norm_sat v < FLT_MAX)%Q) ∧
  (2 ≤ 2 < rows line6)%Z ∧ (rows line6 ≤ 46341)%Z ∧
  ∃ neighborVec storage recorder group totalNum,
    perform_AHC_groups d0 (-1) map_to_list norm_sat (length line6) line6 2
      = Done (neighborVec, storage, recorder) ∧
    perform_AHC_group_ids d0 (-1) map_to_list norm_sat (length line6) line6 2
      = Done (group, totalNum, Z.to_nat 2) ∧
    Z.of_nat <$> group = recorder ∧
    ∀ i g, group !! i = Some g →
      ∃ mem, neighborVec !! g = Some mem ∧ Z.of_nat i ∈ mem ∧
             totalNum !! i = Some (Z.of_nat (length mem)).
Proof.
  split; [done|]. split; [exact norm_sat_finite|].
  split; [vm_compute; split; [discriminate|reflexivity]|].
  split; [vm_compute; discriminate|].
  apply (perform_AHC_numbers_groups_in_node_order d0 (-1) map_to_list norm_sat line6 2).
  - done.
  - exact norm_sat_finite.
  - vm_compute. split; [discriminate|reflexivity].
  - vm_compute. discriminate.
Defined.

Import PC_Tail.

(** [performPC_KMeans] with a centre, finite norms, curves and centres of
    [PC_Number] coordinates, [PC_Number] rows of [Column] entries in
    [SingVec] and a mean trajectory of [Column] entries: the loop ends,
    and so does the rest of the function. *)
Lemma performPC_runs
    (norm : list Q → Q) (log2f_lib : Q → Q) (cArray seeds : Matrix) (Column PC_Number : nat)
    (SingVec : Matrix) (meanTrajectory : list Q) :
  seeds ≠ [] → (∀ v, (norm v < FLT_MAX)%Q) →
  Forall (fun r => length r = PC_Number) cArray →
  Forall (fun r => length r = PC_Number) seeds →
  (PC_Number ≤ length SingVec)%nat →
  Forall (fun r => length r = Column) (take PC_Number SingVec) →
  length meanTrajectory = Column →
  ∃ st res,
    performPC_KMeans_loop norm 20 cArray PC_Number seeds = Done st ∧
    performPC_KMeans norm log2f_lib 20 cArray Column PC_Number SingVec meanTrajectory seeds
    = Done (res, [TrPush "k-means iteration for PC takes: ";
                  ValidityCompute (group res);
                  TrPush "PCA Validity measure is: ";
                  SilhouetteCompute (group res) (groupNo res);
                  TrPush "Clustering evaluation computing takes: ";
                  WriteReadme (Entropy.balanced_entropy log2f_lib (storage (last st))
                                                        (length cArray))]) ∧
    recorder_matches (length seeds) (length cArray) (last st) ∧
    centres_are_means cArray PC_Number st ∧
    sum_list (storage (last st)) = length cArray ∧
    length (storage (last st)) = length seeds ∧
    length (clusterCenter st) = length seeds ∧
    labels_by_size (length cArray) res ∧
    groupNo res = Entropy.nonZero (storage (last st)) ∧
    (let io := (number_groups (groupMap (storage (last st)))
                              (length (clusterCenter st))).1 in
     representatives (toCenter norm cArray) st io = Done (closest res, furthest res) ∧
     Forall (mass_centre_of cArray Column PC_Number SingVec meanTrajectory st io)
            (massCenter res)) ∧
    length (closest res) = groupNo res ∧ length (furthest res) = groupNo res ∧
    length (massCenter res) = groupNo res.
Proof.
  intros Hs Hn HcA Hseeds Hle HSV Hmt.
  assert (Hd : ∀ (c : list Q) (i : nat), (norm (vsub (row cArray i) c) < FLT_MAX)%Q).
  { intros c i. apply Hn. }
  destruct (loop_centres_are_means norm (fun c i => norm (vsub (row cArray i) c))
              cArray PC_Number seeds 20 Hs (le_n 20) Hd HcA) as (st & Hk & Hmeans).
  destruct (loop_recorder_matches norm (fun c i => norm (vsub (row cArray i) c))
              cArray PC_Number seeds 20 Hs (le_n 20) Hd) as (st2 & Hk2 & Hm).
  rewrite Hk in Hk2. injection Hk2 as <-.
  destruct (KMeans_Facts.kmeans_stops norm (fun c i => norm (vsub (row cArray i) c))
              cArray PC_Number Hd seeds 20 Hs (le_n 20)) as (st3 & Hk3 & _ & _ & Hsum).
  rewrite Hk in Hk3. injection Hk3 as <-.
  destruct (loop_final_lengths _ _ _ _ _ _ _ Hk) as [Hl1 Hl2].
  pose proof (PC_Tail_Facts.loop_rows _ _ _ _ _ _ _ Hk HcA Hseeds) as Hrows.
  destruct (PC_Tail_Facts.finish_PC_spec norm log2f_lib cArray Column PC_Number SingVec
              meanTrajectory st)
    as (res & Hf & Hlab & Hg & Hreps & H1 & H2 & H3 & Hmc);
    [by rewrite Hl1|congruence|done|done|done|done|].
  exists st, res. unfold performPC_KMeans. unfold performPC_KMeans_loop in *.
  rewrite Hk. cbn [obind].
  split; [done|]. split; [exact Hf|]. split; [done|]. split; [done|]. split; [done|].
  split; [done|]. split; [done|]. split; [done|]. split; [done|].
  split; [|done]. cbv zeta. split; [done|]. rewrite Hmc.
  apply PC_Tail_Facts.mass_centre_rebuilt; try done.
  - by rewrite Hl1.
  - congruence.
  - intros c Hc.
    destruct (Labels_Facts.number_groups_spec (storage (last st)))
      as (_ & _ & _ & Hpos & _).
    destruct (Hpos c Hc) as (g & Hgc & _). rewrite Hl2, <- Hl1. eauto.
Qed.

(** X22.  [performPC_KMeans] ends normally once it has a centre, finite
    norms and matrices of matching sizes, and it labels the curves by the
    size of their cluster: the group of every curve is below [groupNo],
    [totalNum] of a curve is the number of curves of its group, a curve in
    a smaller group has a smaller label, and [closest], [furthest] and
    [massCenter] get one entry per group. *)
Theorem performPC_KMeans_labels_by_cluster_size
    (norm : list Q → Q) (log2f_lib : Q → Q) (cArray seeds : Matrix) (Column PC_Number : nat)
    (SingVec : Matrix) (meanTrajectory : list Q) :
  seeds ≠ [] → (∀ v, (norm v < FLT_MAX)%Q) →
  Forall (fun r => length r = PC_Number) cArray →
  Forall (fun r => length r = PC_Number) seeds →
  (PC_Number ≤ length SingVec)%nat →
  Forall (fun r => length r = Column) (take PC_Number SingVec) →
  length meanTrajectory = Column →
  ∃ res evs,
    performPC_KMeans norm log2f_lib 20 cArray Column PC_Number SingVec meanTrajectory seeds
    = Done (res, evs) ∧
    labels_by_size (length cArray) res ∧
    (groupNo res ≤ length seeds)%nat ∧
    length (closest res) = groupNo res ∧ length (furthest res) = groupNo res ∧
    length (massCenter res) = groupNo res.
Proof.
  intros Hs Hn HcA Hseeds Hle HSV Hmt.
  destruct (performPC_runs norm log2f_lib cArray seeds Column PC_Number SingVec meanTrajectory
              Hs Hn HcA Hseeds Hle HSV Hmt)
    as (st & res & _ & Hrun & _ & _ & _ & Hl1 & _ & Hlab & Hg & _ & H1 & H2 & H3).
  exists res. eexists. split; [exact Hrun|]. split; [done|]. split; [|done].
  rewrite Hg, <- Hl1. unfold Entropy.nonZero. apply length_filter.
Qed.

Lemma performPC_KMeans_labels_by_cluster_size_witness :
  seeds2 ≠ [] ∧ (∀ v, (norm_sat v < FLT_MAX)%Q) ∧
  Forall (fun r => length r = 1%nat) line6 ∧
  Forall (fun r => length r = 1%nat) seeds2 ∧
  (1 ≤ length [[1%Q]])%nat ∧
  Forall (fun r => length r = 1%nat) (take 1 [[1%Q]]) ∧
  length [0%Q] = 1%nat ∧
  ∃ res evs,
    performPC_KMeans norm_sat log2f_floor 20 line6 1 1 [[1%Q]] [0%Q] seeds2 = Done (res, evs) ∧
    labels_by_size (length line6) res ∧
    (groupNo res ≤ length seeds2)%nat ∧
    length (closest res) = groupNo res ∧ length (furthest res) = groupNo res ∧
    length (massCenter res) = groupNo res.
Proof.
  split; [discriminate|]. split; [exact norm_sat_finite|].
  split; [repeat constructor|]. split; [repeat constructor|].
  split; [simpl; lia|]. split; [repeat constructor|]. split; [reflexivity|].
  apply (performPC_KMeans_labels_by_cluster_size norm_sat log2f_floor line6 seeds2 1 1 [[1%Q]] [0%Q]).
  - discriminate.
  - exact norm_sat_finite.
  - repeat constructor.
  - repeat constructor.
  - simpl. lia.
  - repeat constructor.
  - reflexivity.
Defined.

(** X23.  [performPC_KMeans] names for each group a member closest to
    the centre of its cluster, and a member furthest from it, in the
    reduced coordinates: every entry of [closest] is a member of its
    cluster that no member is closer to the centre than, and every entry
    of [furthest] is a member that no member is further from the centre
    than, unless all members of the cluster are within [FLT_MIN] of the
    centre. *)
Theorem performPC_KMeans_representatives_are_extreme_members
    (norm : list Q → Q) (log2f_lib : Q → Q) (cArray seeds : Matrix) (Column PC_Number : nat)
    (SingVec : Matrix) (meanTrajectory : list Q) :
  seeds ≠ [] → (∀ v, (norm v < FLT_MAX)%Q) →
  Forall (fun r => length r = PC_Number) cArray →
  Forall (fun r => length r = PC_Number) seeds →
  (PC_Number ≤ length SingVec)%nat →
  Forall (fun r => length r = Column) (take PC_Number SingVec) →
  length meanTrajectory = Column →
  ∃ st res evs,
    performPC_KMeans_loop norm 20 cArray PC_Number seeds = Done st ∧
    performPC_KMeans norm log2f_lib 20 cArray Column PC_Number SingVec meanTrajectory seeds
    = Done (res, evs) ∧
    let io := (number_groups (groupMap (storage (last st)))
                             (length (clusterCenter st))).1 in
    Forall (closest_of (toCenter norm cArray) st io) (closest res) ∧
    Forall (furthest_of (toCenter norm cArray) st io) (furthest res).
Proof.
  intros Hs Hn HcA Hseeds Hle HSV Hmt.
  destruct (performPC_runs norm log2f_lib cArray seeds Column PC_Number SingVec meanTrajectory
              Hs Hn HcA Hseeds Hle HSV Hmt)
    as (st & res & Hk & Hrun & [_ Hm] & _ & _ & Hl1 & Hl2 & _ & _ & [Hreps _] & _).
  exists st, res. eexists. split; [done|]. split; [exact Hrun|]. cbv zeta.
  assert (Hfin : ∀ c i, (toCenter norm cArray c i < FLT_MAX)%Q).
  { intros c i. apply Hn. }
  refine (Extremes_Facts.representatives_members (toCenter norm cArray) Hfin st _ _
            (closest res, furthest res) Hreps).
  intros c Hc.
  assert (Hlt : (c < length seeds)%nat).
  { destruct (decide (c < length seeds)%nat); [done|].
    rewrite nth_overflow in Hc by lia. lia. }
  destruct (Hm c Hlt) as [Hnv Hsto]. eexists. split; [exact Hnv|].
  by rewrite nth_lookup, Hsto.
Qed.

Lemma performPC_KMeans_representatives_are_extreme_members_witness :
  seeds2 ≠ [] ∧ (∀ v, (norm_sat v < FLT_MAX)%Q) ∧
  Forall (fun r => length r = 1%nat) line6 ∧
  Forall (fun r => length r = 1%nat) seeds2 ∧
  (1 ≤ length [[1%Q]])%nat ∧
  Forall (fun r => length r = 1%nat) (take 1 [[1%Q]]) ∧
  length [0%Q] = 1%nat ∧
  ∃ st res evs,
    performPC_KMeans_loop norm_sat 20 line6 1 seeds2 = Done st ∧
    performPC_KMeans norm_sat log2f_floor 20 line6 1 1 [[1%Q]] [0%Q] seeds2 = Done (res, evs) ∧
    let io := (number_groups (groupMap (storage (last st)))
                             (length (clusterCenter st))).1 in
    Forall (closest_of (toCenter norm_sat line6) st io) (closest res) ∧
    Forall (furthest_of (toCenter norm_sat line6) st io) (furthest res).
Proof.
  split; [discriminate|]. split; [exact norm_sat_finite|].
  split; [repeat constructor|]. split; [repeat constructor|].
  split; [simpl; lia|]. split; [repeat constructor|]. split; [reflexivity|].
  apply (performPC_KMeans_representatives_are_extreme_members norm_sat log2f_floor line6 seeds2 1 1
           [[1%Q]] [0%Q]).
  - discriminate.
  - exact norm_sat_finite.
  - repeat constructor.
  - repeat constructor.
  - simpl. lia.
  - repeat constructor.
  - reflexivity.
Defined.

(** X24.  The mass centres of [performPC_KMeans] are the cluster means
    taken back to the space of the curves: every entry of [massCenter]
    belongs to a cluster with members and carries its group number, it has
    [Column] coordinates, and coordinate [j] is the mean trajectory at [j]
    plus the combination of the centre with column [j] of the first
    [PC_Number] rows of [SingVec], which is the mean, over the members of
    the cluster, of the coordinate rebuilt in the same way from the reduced
    coordinates of the member. *)
Theorem performPC_KMeans_mass_centres_are_rebuilt_means
    (norm : list Q → Q) (log2f_lib : Q → Q) (cArray seeds : Matrix) (Column PC_Number : nat)
    (SingVec : Matrix) (meanTrajectory : list Q) :
  seeds ≠ [] → (∀ v, (norm v < FLT_MAX)%Q) →
  Forall (fun r => length r = PC_Number) cArray →
  Forall (fun r => length r = PC_Number) seeds →
  (PC_Number ≤ length SingVec)%nat →
  Forall (fun r => length r = Column) (take PC_Number SingVec) →
  length meanTrajectory = Column →
  ∃ st res evs,
    performPC_KMeans_loop norm 20 cArray PC_Number seeds = Done st ∧
    performPC_KMeans norm log2f_lib 20 cArray Column PC_Number SingVec meanTrajectory seeds
    = Done (res, evs) ∧
    let io := (number_groups (groupMap (storage (last st)))
                             (length (clusterCenter st))).1 in
    length (massCenter res) = groupNo res ∧
    Forall (mass_centre_of cArray Column PC_Number SingVec meanTrajectory st io)
           (massCenter res).
Proof.
  intros Hs Hn HcA Hseeds Hle HSV Hmt.
  destruct (performPC_runs norm log2f_lib cArray seeds Column PC_Number SingVec meanTrajectory
              Hs Hn HcA Hseeds Hle HSV Hmt)
    as (st & res & Hk & Hrun & _ & _ & _ & _ & _ & _ & _ & [_ Hmc] & _ & _ & H3).
  exists st, res. eexists. split; [done|]. split; [exact Hrun|]. cbv zeta. done.
Qed.

Lemma performPC_KMeans_mass_centres_are_rebuilt_means_witness :
  seeds2 ≠ [] ∧ (∀ v, (norm_sat v < FLT_MAX)%Q) ∧
  Forall (fun r => length r = 1%nat) line6 ∧
  Forall (fun r => length r = 1%nat) seeds2 ∧
  (1 ≤ length [[1%Q]])%nat ∧
  Forall (fun r => length r = 1%nat) (take 1 [[1%Q]]) ∧
  length [0%Q] = 1%nat ∧
  ∃ st res evs,
    performPC_KMeans_loop norm_sat 20 line6 1 seeds2 = Done st ∧
    performPC_KMeans norm_sat log2f_floor 20 line6 1 1 [[1%Q]] [0%Q] seeds2 = Done (res, evs) ∧
    let io := (number_groups (groupMap (storage (last st)))
                             (length (clusterCenter st))).1 in
    length (massCenter res) = groupNo res ∧
    Forall (mass_centre_of line6 1 1 [[1%Q]] [0%Q] st io) (massCenter res).
Proof.
  split; [discriminate|]. split; [exact norm_sat_finite|].
  split; [repeat constructor|]. split; [repeat constructor|].
  split; [simpl; lia|]. split; [repeat constructor|]. split; [reflexivity|].
  apply (performPC_KMeans_mass_centres_are_rebuilt_means norm_sat log2f_floor line6 seeds2 1 1
           [[1%Q]] [0%Q]).
  - discriminate.
  - exact norm_sat_finite.
  - repeat constructor.
  - repeat constructor.
  - simpl. lia.
  - repeat constructor.
  - reflexivity.
Defined.

(** X25.  [performPC_KMeans] has no early [return]: whatever the number
    of groups, it computes the validity measure and the silhouette and
    writes the README, in this order.  With curves at hand there is at
    least one group; when all curves end in one group (as they do with a
    single centre), the silhouette is asked for [groupNo = 1] and the
    entropy written is [-0/log2f(1)], which is not a number. *)
Theorem performPC_KMeans_evaluates_a_single_group
    (norm : list Q → Q) (log2f_lib : Q → Q) (cArray seeds : Matrix) (Column PC_Number : nat)
    (SingVec : Matrix) (meanTrajectory : list Q) :
  seeds ≠ [] → (∀ v, (norm v < FLT_MAX)%Q) →
  Forall (fun r => length r = PC_Number) cArray →
  Forall (fun r => length r = PC_Number) seeds →
  (PC_Number ≤ length SingVec)%nat →
  Forall (fun r => length r = Column) (take PC_Number SingVec) →
  length meanTrajectory = Column →
  ∃ res entropy,
    performPC_KMeans norm log2f_lib 20 cArray Column PC_Number SingVec meanTrajectory seeds
    = Done (res, [TrPush "k-means iteration for PC takes: ";
                  ValidityCompute (group res);
                  TrPush "PCA Validity measure is: ";
                  SilhouetteCompute (group res) (groupNo res);
                  TrPush "Clustering evaluation computing takes: ";
                  WriteReadme entropy]) ∧
    (cArray ≠ [] → (1 ≤ groupNo res)%nat) ∧
    (cArray ≠ [] → length seeds = 1%nat → groupNo res = 1%nat) ∧
    (groupNo res = 1%nat → entropy = Float32.NaN).
Proof.
  intros Hs Hn HcA Hseeds Hle HSV Hmt.
  destruct (performPC_runs norm log2f_lib cArray seeds Column PC_Number SingVec meanTrajectory
              Hs Hn HcA Hseeds Hle HSV Hmt)
    as (st & res & _ & Hrun & _ & _ & Hsum & Hl1 & _ & _ & Hg & _).
  exists res. eexists. split; [exact Hrun|].
  assert (H1 : cArray ≠ [] → (1 ≤ groupNo res)%nat).
  { intros Hne. rewrite Hg. unfold Entropy.nonZero.
    pose proof (Entropy_Facts.sum_list_positive (storage (last st))) as Hp.
    destruct (filter (fun s => 0 < s)%nat (storage (last st))); [|simpl; lia].
    simpl in Hp. rewrite Hsum in Hp. destruct cArray; [done|]. simpl in Hp. lia. }
  split; [done|]. split.
  - intros Hne H1s. specialize (H1 Hne).
    assert ((groupNo res ≤ 1)%nat); [|lia].
    rewrite Hg, <- H1s, <- Hl1. unfold Entropy.nonZero. apply length_filter.
  - intros H. apply Entropy_Facts.balanced_entropy_one_group; [congruence|done].
Qed.

Lemma performPC_KMeans_evaluates_a_single_group_witness :
  seeds1 ≠ [] ∧ (∀ v, (norm_sat v < FLT_MAX)%Q) ∧
  Forall (fun r => length r = 1%nat) line3 ∧
  Forall (fun r => length r = 1%nat) seeds1 ∧
  (1 ≤ length [[1%Q]])%nat ∧
  Forall (fun r => length r = 1%nat) (take 1 [[1%Q]]) ∧
  length [0%Q] = 1%nat ∧
  ∃ res entropy,
    performPC_KMeans norm_sat log2f_floor 20 line3 1 1 [[1%Q]] [0%Q] seeds1
    = Done (res, [TrPush "k-means iteration for PC takes: ";
                  ValidityCompute (group res);
                  TrPush "PCA Validity measure is: ";
                  SilhouetteCompute (group res) (groupNo res);
                  TrPush "Clustering evaluation computing takes: ";
                  WriteReadme entropy]) ∧
    (line3 ≠ [] → (1 ≤ groupNo res)%nat) ∧
    (line3 ≠ [] → length seeds1 = 1%nat → groupNo res = 1%nat) ∧
    (groupNo res = 1%nat → entropy = Float32.NaN).
Proof.
  split; [discriminate|]. split; [exact norm_sat_finite|].
  split; [repeat constructor|]. split; [repeat constructor|].
  split; [simpl; lia|]. split; [repeat constructor|]. split; [reflexivity|].
  apply (performPC_KMeans_evaluates_a_single_group norm_sat log2f_floor line3 seeds1 1 1
           [[1%Q]] [0%Q]).
  - discriminate.
  - exact norm_sat_finite.
  - repeat constructor.
  - repeat constructor.
  - simpl. lia.
  - repeat constructor.
  - reflexivity.
Defined.

Import PC_Pipeline.


